(** * AILinks: URL normalisation, record store and ingestion pipeline

    A shallow embedding of the parts of the repository that decide how
    links are normalised ([services/dbService.ts]), how analysed records
    are stored and read back ([saveToDb], [getAllEmails]), how the Gemini
    client retries ([services/geminiService.ts]) and how a batch of files
    is processed ([processFiles] in [App.tsx]).

    JavaScript strings are modelled as [string] (byte strings, UTF-8 for
    non-ASCII text); numbers that the code only counts with are [nat],
    the back-off delay is a rational (milliseconds). *)

From Stdlib Require Import List Bool Arith Lia ZArith QArith.
From Stdlib Require Import Ascii String.
From Stdlib Require Import DecimalString DecimalN.
Import ListNotations.

Close Scope Q_scope.
Local Open Scope nat_scope.
Local Open Scope list_scope.
Local Open Scope string_scope.

Set Implicit Arguments.

(* ================================================================== *)
(** ** Strings *)
(* ================================================================== *)

Module Str.

(** [s.length === 0] *)
Definition is_empty (s : string) : bool :=
  match s with EmptyString => true | String _ _ => false end.

Definition is_upper (c : ascii) : bool :=
  (65 <=? nat_of_ascii c)%nat && (nat_of_ascii c <=? 90)%nat.

Definition is_lower (c : ascii) : bool :=
  (97 <=? nat_of_ascii c)%nat && (nat_of_ascii c <=? 122)%nat.

Definition is_digit (c : ascii) : bool :=
  (48 <=? nat_of_ascii c)%nat && (nat_of_ascii c <=? 57)%nat.

Definition is_alpha (c : ascii) : bool := is_upper c || is_lower c.

(** ASCII lower-casing; for a RegExp with the [i] flag and without the
    [u] flag only the ASCII letters of a pattern match in both cases. *)
Definition to_lower (c : ascii) : ascii :=
  if is_upper c then ascii_of_nat (nat_of_ascii c + 32) else c.

Fixpoint lower (s : string) : string :=
  match s with
  | EmptyString => EmptyString
  | String c s' => String (to_lower c) (lower s')
  end.

(** The longest prefix of [s] whose characters satisfy [p], and the rest. *)
Fixpoint span (p : ascii -> bool) (s : string) : string * string :=
  match s with
  | EmptyString => (EmptyString, EmptyString)
  | String c s' =>
      if p c then let (a, b) := span p s' in (String c a, b)
      else (EmptyString, s)
  end.

Fixpoint forallb (p : ascii -> bool) (s : string) : bool :=
  match s with
  | EmptyString => true
  | String c s' => p c && forallb p s'
  end.

(** Strip the literal [lit] (given in lower case) from the head of [s],
    comparing case-insensitively. *)
Fixpoint eat_ci (lit s : string) : option string :=
  match lit with
  | EmptyString => Some s
  | String a lit' =>
      match s with
      | String c s' => if Ascii.eqb (to_lower c) a then eat_ci lit' s' else None
      | EmptyString => None
      end
  end.

(** [s.startsWith(p)], returning the rest. *)
Fixpoint strip_prefix (p s : string) : option string :=
  match p with
  | EmptyString => Some s
  | String a p' =>
      match s with
      | String c s' => if Ascii.eqb c a then strip_prefix p' s' else None
      | EmptyString => None
      end
  end.

(** [s.includes(p)] *)
Fixpoint includes (s p : string) : bool :=
  match strip_prefix p s with
  | Some _ => true
  | None =>
      match s with
      | EmptyString => false
      | String _ s' => includes s' p
      end
  end.

(** [parts.join(sep)] *)
Fixpoint join (sep : string) (parts : list string) : string :=
  match parts with
  | [] => EmptyString
  | [p] => p
  | p :: rest => p ++ sep ++ join sep rest
  end.

(** Decimal rendering of a number, as template literals do. *)
Definition of_nat (n : nat) : string :=
  NilZero.string_of_uint (Nat.to_uint n).

Definition of_N (n : N) : string :=
  NilZero.string_of_uint (N.to_uint n).

Definition of_Z (z : Z) : string :=
  NilZero.string_of_int (Z.to_int z).

End Str.

(* ================================================================== *)
(** ** The platform's URL class, as an interface *)
(* ================================================================== *)

(** [normalizeUrl] hands every string that is not a social-post link to
    the platform's [URL] class.  The class is not code of this
    repository; it is taken as an interface with the members the code
    uses.  [URL_new] is [new URL(s)]: [None] stands for the [TypeError]
    the constructor throws on a string it cannot parse. *)
Class URLApi := {
  URLobj : Type;
  URL_new : string -> option URLobj;
  searchParams_delete : string -> URLobj -> URLobj;
  searchParams_toString : URLobj -> string;
  URL_origin : URLobj -> string;
  URL_pathname : URLobj -> string;
  URL_toString : URLobj -> string
}.

(* ================================================================== *)
(** ** services/dbService.ts: normalizeUrl, normalizeUrls *)
(* ================================================================== *)

Module Normalizer.

Import Str.

(** [/^https?:\/\/(x\.com|twitter\.com)\/([^\/]+)\/status\/(\d+)/i]
    applied with [url.match]; the result is the pair of capture groups
    2 and 3.  Every choice point of the pattern is decided by the next
    character ([s?] before [:], the two hosts start with different
    letters, [[^\/]+] ends at the first [/], [\d+] is the last item), so
    matching never has to backtrack. *)
Definition twitterMatch (url : string) : option (string * string) :=
  match eat_ci "http" url with
  | None => None
  | Some r =>
      let r := match eat_ci "s" r with Some r' => r' | None => r end in
      match eat_ci "://" r with
      | None => None
      | Some r =>
          let host := match eat_ci "x.com" r with
                      | Some r' => Some r'
                      | None => eat_ci "twitter.com" r
                      end in
          match host with
          | None => None
          | Some r =>
              match eat_ci "/" r with
              | None => None
              | Some r =>
                  let (username, r) := span (fun c => negb (Ascii.eqb c "/")) r in
                  if is_empty username then None
                  else
                    match eat_ci "/status/" r with
                    | None => None
                    | Some r =>
                        let (statusId, _) := span is_digit r in
                        if is_empty statusId then None
                        else Some (username, statusId)
                    end
              end
          end
      end
  end.

Definition trackingParams : list string :=
  ["t"; "s"; "utm_source"; "utm_medium"; "utm_campaign"; "ref"].

Section WithURL.

Context {api : URLApi}.

Definition normalizeUrl (url : string) : string :=
  if is_empty url then url
  else
    match twitterMatch url with
    | Some (username, statusId) =>
        "https://x.com/" ++ username ++ "/status/" ++ statusId
    | None =>
        match URL_new url with
        | Some urlObj =>
            let urlObj :=
              fold_left (fun o param => searchParams_delete param o)
                        trackingParams urlObj in
            if is_empty (searchParams_toString urlObj)
            then URL_origin urlObj ++ URL_pathname urlObj
            else URL_toString urlObj
        | None => url
        end
    end.

(** [urls.map(normalizeUrl).filter(url => url && url.length > 0)] *)
Definition normalizeUrls (urls : list string) : list string :=
  filter (fun url => negb (is_empty url)) (map normalizeUrl urls).

End WithURL.

End Normalizer.

(* ================================================================== *)
(** ** A concrete URL class for running the code on examples *)
(* ================================================================== *)

(** An implementation of [URLApi] that follows the WHATWG URL Standard
    on a fragment of its input language, and rejects every string
    outside that fragment.  It is used to run [normalizeUrl] on concrete
    links and to say what [normalizeUrl] does on plain [http(s)] links;
    the other theorems hold for every [URLApi].

    The fragment: printable ASCII input without characters that the
    standard would percent-encode, strip or treat specially
    ([url_char]); either
    - [http:] or [https:] followed by [//host], an optional [:port],
      an optional path without dot segments, an optional query made of
      [name=value] pieces over the form-urlencoded safe characters (no
      [=] inside a value), and an optional fragment; the host is made of letters, digits, [-]
      and [.], its last label starts with a letter (so that it is not
      read as an IPv4 number) and no label is Punycode; or
    - another scheme that is neither special nor [blob], followed by an
      opaque path that does not start with [/].  *)
Module WhatwgFragment.

Import Str.

Record url := {
  scheme : string;            (* lower case, without the colon *)
  host : option string;       (* [None] for an opaque path *)
  port : option N;            (* [None]: absent or the scheme's default *)
  path : string;
  query : option string;
  fragment : option string
}.

Definition is_alnum (c : ascii) : bool := is_alpha c || is_digit c.

Definition mem_char (c : ascii) (s : string) : bool :=
  includes s (String c EmptyString).

Definition url_char (c : ascii) : bool :=
  is_alnum c || mem_char c "-._~/:?#=&+*,;!$()".

Definition scheme_char (c : ascii) : bool :=
  is_alnum c || mem_char c "+-.".

Definition host_char (c : ascii) : bool :=
  is_alnum c || mem_char c "-.".

(** The characters the [application/x-www-form-urlencoded] serializer
    leaves unchanged. *)
Definition form_char (c : ascii) : bool :=
  is_alnum c || mem_char c "*-._".

Fixpoint split_on (sep : ascii) (s : string) : list string :=
  match s with
  | EmptyString => [EmptyString]
  | String a s' =>
      if Ascii.eqb a sep then EmptyString :: split_on sep s'
      else
        match split_on sep s' with
        | h :: t => String a h :: t
        | [] => [String a EmptyString]
        end
  end.

Definition starts_with (p s : string) : bool :=
  match strip_prefix p s with Some _ => true | None => false end.

Definition label_ok (l : string) : bool :=
  negb (starts_with "xn--" l).

Definition last_label_ok (l : string) : bool :=
  match l with
  | EmptyString => false
  | String c _ => is_alpha c
  end.

Definition host_ok (h : string) : bool :=
  let labels := split_on "." h in
  negb (is_empty h) && Str.forallb host_char h
  && List.forallb label_ok labels
  && last_label_ok (last labels EmptyString).

(** The number written by a non-empty string of decimal digits. *)
Definition number_of (ds : string) : option N :=
  option_map N.of_uint (NilZero.uint_of_string ds).

Definition default_port (sch : string) : option N :=
  if String.eqb sch "http" then Some 80%N
  else if String.eqb sch "https" then Some 443%N
  else None.

Definition special_schemes : list string :=
  ["http"; "https"; "ftp"; "ws"; "wss"; "file"].

Definition in_list (s : string) (l : list string) : bool :=
  existsb (String.eqb s) l.

(** Split [s] at the first [c]: the part before, and the part after
    when [c] occurs. *)
Definition cut (c : ascii) (s : string) : string * option string :=
  let (a, b) := span (fun x => negb (Ascii.eqb x c)) s in
  match b with
  | EmptyString => (a, None)
  | String _ b' => (a, Some b')
  end.

(** One [name=value] piece of a query string. *)
Definition parse_pair (piece : string) : string * string :=
  match cut "=" piece with
  | (n, Some v) => (n, v)
  | (n, None) => (n, EmptyString)
  end.

(** The form-urlencoded parser on strings over [form_char], [=], [&]. *)
Definition parse_query (q : string) : list (string * string) :=
  map parse_pair (filter (fun p => negb (is_empty p)) (split_on "&" q)).

Definition serialize_query (l : list (string * string)) : string :=
  join "&" (map (fun nv => fst nv ++ "=" ++ snd nv) l).

(** A piece of a query that is written back as it is: safe characters
    and at most one [=] (an [=] inside a value would be written back
    percent-encoded). *)
Definition piece_ok (piece : string) : bool :=
  match cut "=" piece with
  | (n, Some v) => Str.forallb form_char n && Str.forallb form_char v
  | (n, None) => Str.forallb form_char n
  end.

Definition query_ok (q : string) : bool :=
  List.forallb piece_ok (split_on "&" q).

Definition segment_ok (seg : string) : bool :=
  negb (String.eqb seg "." || String.eqb seg "..").

Definition parse_tail (sch : string) (h : option string) (p : option N)
    (rest : string) (path_ok : string -> bool) (fix_path : string -> string)
    : option url :=
  let (before_frag, frag) := cut "#" rest in
  let (pth, qry) := cut "?" before_frag in
  if path_ok pth
     && match qry with Some q => query_ok q | None => true end
  then Some {| scheme := sch; host := h; port := p; path := fix_path pth;
               query := qry; fragment := frag |}
  else None.

Definition parse_special (sch rest : string) : option url :=
  match strip_prefix "//" rest with
  | None => None
  | Some r =>
      let (authority, tail) := span (fun c => negb (mem_char c "/?#")) r in
      let (h, prt) := cut ":" authority in
      let h := lower h in
      if host_ok h then
        let path_ok p := List.forallb segment_ok (split_on "/" p) in
        let fix_path p := if is_empty p then "/" else p in
        match prt with
        | None => parse_tail sch (Some h) None tail path_ok fix_path
        | Some ds =>
            match number_of ds with
            | Some n =>
                if (n <=? 65535)%N then
                  let p := if match default_port sch with
                              | Some d => N.eqb d n | None => false end
                           then None else Some n in
                  parse_tail sch (Some h) p tail path_ok fix_path
                else None
            | None => None
            end
        end
      else None
  end.

Definition parse (input : string) : option url :=
  if negb (Str.forallb url_char input) then None
  else
    match cut ":" input with
    | (_, None) => None
    | (sch, Some rest) =>
        match sch with
        | EmptyString => None
        | String c _ =>
            if is_alpha c && Str.forallb scheme_char sch then
              let sch := lower sch in
              if String.eqb sch "http" || String.eqb sch "https"
              then parse_special sch rest
              else if in_list sch special_schemes || String.eqb sch "blob"
              then None
              else if starts_with "/" rest then None
              else parse_tail sch None None rest (fun _ => true) (fun p => p)
            else None
        end
    end.

Definition searchParams (u : url) : list (string * string) :=
  match query u with Some q => parse_query q | None => [] end.

(** [searchParams.delete(name)]: drop the pairs called [name], then
    write the list back into the URL's query. *)
Definition delete (name : string) (u : url) : url :=
  let l := filter (fun nv => negb (String.eqb (fst nv) name)) (searchParams u) in
  let q := serialize_query l in
  {| scheme := scheme u; host := host u; port := port u; path := path u;
     query := if is_empty q then None else Some q;
     fragment := fragment u |}.

Definition toString_params (u : url) : string :=
  serialize_query (searchParams u).

Definition authority (u : url) : string :=
  match host u with
  | Some h =>
      "//" ++ h ++ match port u with
                   | Some p => ":" ++ of_N p
                   | None => EmptyString
                   end
  | None => EmptyString
  end.

Definition origin (u : url) : string :=
  match host u with
  | Some _ => scheme u ++ ":" ++ authority u
  | None => "null"
  end.

Definition href (u : url) : string :=
  scheme u ++ ":" ++ authority u ++ path u
  ++ match query u with Some q => "?" ++ q | None => EmptyString end
  ++ match fragment u with Some f => "#" ++ f | None => EmptyString end.

#[export] Instance api : URLApi := {|
  URLobj := url;
  URL_new := parse;
  searchParams_delete := delete;
  searchParams_toString := toString_params;
  URL_origin := origin;
  URL_pathname := path;
  URL_toString := href
|}.

End WhatwgFragment.


(* ================================================================== *)
(** ** JSON.stringify and JSON.parse *)
(* ================================================================== *)

(** The store keeps tags and links as JSON text.  [JSON.parse] follows
    the JSON grammar (ECMA-404); [None] stands for the [SyntaxError] it
    throws.  A number keeps its lexeme.  An escape [\uXXXX] is decoded
    to the UTF-8 bytes of the code point (a surrogate pair to one
    four-byte sequence, a lone surrogate to three bytes). *)
Module Json.

Import Str.

#[warnings="-register-all"]
Inductive value :=
| Null
| Bool (b : bool)
| Num (lexeme : string)
| Text (s : string)
| Arr (items : list value)
| Obj (members : list (string * value)).

Definition dquote : ascii := ascii_of_nat 34.
Definition backslash : ascii := ascii_of_nat 92.

Definition hex_digit (n : nat) : ascii :=
  if (n <? 10)%nat then ascii_of_nat (48 + n) else ascii_of_nat (87 + n).

(** One character of [QuoteJSONString]. *)
Definition quote_char (c : ascii) : string :=
  let n := nat_of_ascii c in
  if (n =? 8)%nat then String backslash "b"
  else if (n =? 9)%nat then String backslash "t"
  else if (n =? 10)%nat then String backslash "n"
  else if (n =? 12)%nat then String backslash "f"
  else if (n =? 13)%nat then String backslash "r"
  else if (n =? 34)%nat then String backslash (String dquote EmptyString)
  else if (n =? 92)%nat then String backslash (String backslash EmptyString)
  else if (n <? 32)%nat then
    String backslash
      (String "u" (String "0" (String "0"
         (String (hex_digit (n / 16)) (String (hex_digit (n mod 16)) EmptyString)))))
  else String c EmptyString.

Fixpoint quote_body (s : string) : string :=
  match s with
  | EmptyString => EmptyString
  | String c s' => quote_char c ++ quote_body s'
  end.

Definition quote (s : string) : string :=
  String dquote (quote_body s ++ String dquote EmptyString).

(** [JSON.stringify(a)] for an array of strings [a]. *)
Definition stringify_strings (a : list string) : string :=
  "[" ++ join "," (map quote a) ++ "]".

Definition hexval (c : ascii) : option N :=
  let n := N_of_ascii c in
  if is_digit c then Some (n - 48)%N
  else if ((97 <=? n) && (n <=? 102))%N then Some (n - 87)%N
  else if ((65 <=? n) && (n <=? 70))%N then Some (n - 55)%N
  else None.

Definition hex4 (a b c d : ascii) : option N :=
  match hexval a, hexval b, hexval c, hexval d with
  | Some x, Some y, Some z, Some w => Some (((x * 16 + y) * 16 + z) * 16 + w)%N
  | _, _, _, _ => None
  end.

Definition byte (n : N) : ascii := ascii_of_N n.

Definition utf8 (cp : N) : string :=
  if (cp <? 128)%N then String (byte cp) EmptyString
  else if (cp <? 2048)%N then
    String (byte (192 + cp / 64)) (String (byte (128 + cp mod 64)) EmptyString)
  else if (cp <? 65536)%N then
    String (byte (224 + cp / 4096))
      (String (byte (128 + (cp / 64) mod 64))
         (String (byte (128 + cp mod 64)) EmptyString))
  else
    String (byte (240 + cp / 262144))
      (String (byte (128 + (cp / 4096) mod 64))
         (String (byte (128 + (cp / 64) mod 64))
            (String (byte (128 + cp mod 64)) EmptyString))).

Definition is_high (n : N) : bool := ((55296 <=? n) && (n <=? 56319))%N.
Definition is_low (n : N) : bool := ((56320 <=? n) && (n <=? 57343))%N.

Definition simple_escape (e : ascii) : option ascii :=
  let n := nat_of_ascii e in
  if (n =? 34)%nat then Some dquote
  else if (n =? 92)%nat then Some backslash
  else if (n =? 47)%nat then Some "/"%char
  else if (n =? 98)%nat then Some (ascii_of_nat 8)
  else if (n =? 102)%nat then Some (ascii_of_nat 12)
  else if (n =? 110)%nat then Some (ascii_of_nat 10)
  else if (n =? 114)%nat then Some (ascii_of_nat 13)
  else if (n =? 116)%nat then Some (ascii_of_nat 9)
  else None.

Definition cons_text (p : string) (r : option (string * string))
    : option (string * string) :=
  match r with
  | Some (s, rest) => Some (p ++ s, rest)
  | None => None
  end.

(** The characters of a string literal after its opening quote, up to
    and including the closing quote. *)
Fixpoint parse_chars (s : string) : option (string * string) :=
  match s with
  | EmptyString => None
  | String c r =>
      if Ascii.eqb c dquote then Some (EmptyString, r)
      else if Ascii.eqb c backslash then
        match r with
        | EmptyString => None
        | String e r1 =>
            if Ascii.eqb e "u" then
              match r1 with
              | String h1 (String h2 (String h3 (String h4 r2))) =>
                  match hex4 h1 h2 h3 h4 with
                  | None => None
                  | Some hi =>
                      let single := cons_text (utf8 hi) (parse_chars r2) in
                      if is_high hi then
                        match r2 with
                        | String b (String u (String l1 (String l2
                            (String l3 (String l4 r3))))) =>
                            if Ascii.eqb b backslash && Ascii.eqb u "u" then
                              match hex4 l1 l2 l3 l4 with
                              | Some lo =>
                                  if is_low lo then
                                    cons_text
                                      (utf8 (65536 + (hi - 55296) * 1024
                                             + (lo - 56320))%N)
                                      (parse_chars r3)
                                  else single
                              | None => single
                              end
                            else single
                        | _ => single
                        end
                      else single
                  end
              | _ => None
              end
            else
              match simple_escape e with
              | Some x => cons_text (String x EmptyString) (parse_chars r1)
              | None => None
              end
        end
      else if (nat_of_ascii c <? 32)%nat then None
      else cons_text (String c EmptyString) (parse_chars r)
  end.

Definition is_ws (c : ascii) : bool :=
  let n := nat_of_ascii c in
  ((n =? 32) || (n =? 9) || (n =? 10) || (n =? 13))%nat.

Fixpoint skip_ws (s : string) : string :=
  match s with
  | String c r => if is_ws c then skip_ws r else s
  | EmptyString => s
  end.

(** A number: an optional minus sign, an integer part without leading
    zero, an optional fraction and an optional exponent. *)
Definition parse_number (s : string) : option (string * string) :=
  let (sign, r) := match s with
                   | String "-" r => ("-", r)
                   | _ => (EmptyString, s)
                   end in
  let (int, r) := span is_digit r in
  let int_ok := match int with
                | EmptyString => false
                | String "0" (String _ _) => false
                | _ => true
                end in
  if negb int_ok then None
  else
    let frac :=
      match r with
      | String "." r1 =>
          let (ds, r2) := span is_digit r1 in
          if is_empty ds then None else Some ("." ++ ds, r2)
      | _ => Some (EmptyString, r)
      end in
    match frac with
    | None => None
    | Some (fr, r) =>
        let exp :=
          match r with
          | String e r1 =>
              if Ascii.eqb e "e" || Ascii.eqb e "E" then
                let (sg, r2) :=
                  match r1 with
                  | String "+" r2 => ("+", r2)
                  | String "-" r2 => ("-", r2)
                  | _ => (EmptyString, r1)
                  end in
                let (ds, r3) := span is_digit r2 in
                if is_empty ds then None
                else Some (String e sg ++ ds, r3)
              else Some (EmptyString, r)
          | EmptyString => Some (EmptyString, r)
          end in
        match exp with
        | None => None
        | Some (ex, r) => Some (sign ++ int ++ fr ++ ex, r)
        end
    end.

Section Items.

(** The rest of an array after [[] and of an object after [{], given
    the parser [pv] of one value. *)
Variable pv : string -> option (value * string).

Fixpoint parse_elems (n : nat) (s : string) : option (list value * string) :=
  match n with
  | O => None
  | S n =>
      match pv s with
      | None => None
      | Some (v, r) =>
          match skip_ws r with
          | String "," r1 =>
              match parse_elems n r1 with
              | Some (vs, r2) => Some (v :: vs, r2)
              | None => None
              end
          | String "]" r1 => Some ([v], r1)
          | _ => None
          end
      end
  end.

Fixpoint parse_members (n : nat) (s : string)
    : option (list (string * value) * string) :=
  match n with
  | O => None
  | S n =>
      match skip_ws s with
      | String q r =>
          if Ascii.eqb q dquote then
            match parse_chars r with
            | None => None
            | Some (k, r1) =>
                match skip_ws r1 with
                | String ":" r2 =>
                    match pv r2 with
                    | None => None
                    | Some (v, r3) =>
                        match skip_ws r3 with
                        | String "," r4 =>
                            match parse_members n r4 with
                            | Some (ms, r5) => Some ((k, v) :: ms, r5)
                            | None => None
                            end
                        | String "}" r4 => Some ([(k, v)], r4)
                        | _ => None
                        end
                    end
                | _ => None
                end
            end
          else None
      | EmptyString => None
      end
  end.

End Items.

(** One value, with the white space before it; [fuel] bounds the
    nesting depth. *)
Fixpoint parse_value (fuel : nat) (s : string) : option (value * string) :=
  match fuel with
  | O => None
  | S fuel =>
      match skip_ws s with
      | EmptyString => None
      | String c r as s1 =>
          if Ascii.eqb c dquote then
            match parse_chars r with
            | Some (t, r1) => Some (Text t, r1)
            | None => None
            end
          else if Ascii.eqb c "[" then
            match skip_ws r with
            | String "]" r1 => Some (Arr [], r1)
            | _ =>
                match parse_elems (parse_value fuel) (String.length r) r with
                | Some (vs, r1) => Some (Arr vs, r1)
                | None => None
                end
            end
          else if Ascii.eqb c "{" then
            match skip_ws r with
            | String "}" r1 => Some (Obj [], r1)
            | _ =>
                match parse_members (parse_value fuel) (String.length r) r with
                | Some (ms, r1) => Some (Obj ms, r1)
                | None => None
                end
            end
          else
            match strip_prefix "null" s1, strip_prefix "true" s1,
                  strip_prefix "false" s1 with
            | Some r1, _, _ => Some (Null, r1)
            | _, Some r1, _ => Some (Bool true, r1)
            | _, _, Some r1 => Some (Bool false, r1)
            | None, None, None =>
                match parse_number s1 with
                | Some (lx, r1) => Some (Num lx, r1)
                | None => None
                end
            end
      end
  end.

(** [JSON.parse(text)]: one value, then only white space.  Every level
    of nesting consumes a character, so the length of the text bounds
    the depth. *)
Definition parse (text : string) : option value :=
  match parse_value (S (String.length text)) text with
  | Some (v, r) => if is_empty (skip_ws r) then Some v else None
  | None => None
  end.

(** [Array.isArray(v)] together with the items. *)
Definition as_array (v : value) : option (list value) :=
  match v with Arr items => Some items | _ => None end.

(** The strings among the items of an array. *)
Fixpoint texts (items : list value) : list string :=
  match items with
  | [] => []
  | Text s :: rest => s :: texts rest
  | _ :: rest => texts rest
  end.

End Json.

(* ================================================================== *)
(** ** Strings as JavaScript counts them *)
(* ================================================================== *)

(** A string is a string of bytes, UTF-8; what [length] and
    [substring] of JavaScript count are UTF-16 code units, of which a
    character written in one to three bytes has one and a character
    written in four bytes has two. *)
Module Utf16.

Definition code (c : ascii) : nat := nat_of_ascii c.

Definition is_continuation (c : ascii) : bool :=
  ((128 <=? code c) && (code c <? 192))%nat.

Definition units_of (c : ascii) : N :=
  if is_continuation c then 0%N else if (240 <=? code c)%nat then 2%N else 1%N.

(** [s.length] *)
Fixpoint length16 (s : string) : N :=
  match s with
  | EmptyString => 0%N
  | String c s' => (units_of c + length16 s')%N
  end.

(** The first code unit of the character written in the four bytes
    [a b c d]: its high surrogate, written in three bytes. *)
Definition high_surrogate (a b c d : ascii) : string :=
  let cp := ((((N_of_ascii a mod 8) * 64 + N_of_ascii b mod 64) * 64
              + N_of_ascii c mod 64) * 64 + N_of_ascii d mod 64)%N in
  Json.utf8 (55296 + (cp - 65536) / 1024)%N.

(** [s.substring(0, n)]: the first [n] code units, each character with
    the bytes that continue it; when the cut falls inside a character
    of two code units, its first code unit is kept. *)
Fixpoint substring16 (n : N) (s : string) : string :=
  match s with
  | EmptyString => EmptyString
  | String c s' =>
      if is_continuation c then String c (substring16 n s')
      else if (n =? 0)%N then EmptyString
      else if (240 <=? code c)%nat then
        if (n =? 1)%N then
          match s' with
          | String b1 (String b2 (String b3 _)) => high_surrogate c b1 b2 b3
          | _ => EmptyString
          end
        else String c (substring16 (n - 2) s')
      else String c (substring16 (n - 1) s')
  end.

End Utf16.

(* ================================================================== *)
(** ** JavaScript results *)
(* ================================================================== *)

(** What a call does: it returns a value or throws an [Error] with a
    message. *)
Inductive Result (A : Type) :=
| Ok (a : A)
| Throw (message : string).

Arguments Ok {A} a.
Arguments Throw {A} message.

Definition bind {A B} (r : Result A) (k : A -> Result B) : Result B :=
  match r with
  | Ok a => k a
  | Throw m => Throw m
  end.

Fixpoint mapM {A B} (f : A -> Result B) (l : list A) : Result (list B) :=
  match l with
  | [] => Ok []
  | a :: l' =>
      bind (f a) (fun b => bind (mapM f l') (fun bs => Ok (b :: bs)))
  end.

(** [x || d] on strings. *)
Definition or_default (x d : string) : string :=
  if Str.is_empty x then d else x.

(* ================================================================== *)
(** ** types.ts *)
(* ================================================================== *)

Inductive Status := pending | processing | completed | error.

Record AnalyzedEmail := {
  id : string;
  fileName : string;
  fechaEnvio : string;
  tematica : string;
  etiquetas : list string;
  contenido : string;
  urls : list string;
  status : Status;
  errorMessage : option string
}.

Inductive ProcessingStatus :=
| IDLE | PARSING | ANALYZING | GENERATING_DB | COMPLETED | ERROR.

Record ParsedEmailRaw := {
  raw_fileName : string;
  rawDate : string;
  rawSubject : string;
  bodyText : string
}.

(* ================================================================== *)
(** ** services/dbService.ts: the SQLite table and its operations *)
(* ================================================================== *)

Module Db.

Import Str.

(** A cell of a [TEXT] column: [NULL] or text. *)
Definition cell := option string.

(** [emails (id INTEGER PRIMARY KEY AUTOINCREMENT, fileName TEXT, ...)] *)
Record Row := {
  row_id : Z;
  row_fileName : cell;
  row_fechaEnvio : cell;
  row_tematica : cell;
  row_etiquetas : cell;
  row_contenido : cell;
  row_urls : cell
}.

(** The in-memory database: the rows of [emails] in table order and the
    counter that [AUTOINCREMENT] keeps in [sqlite_sequence]. *)
Record Database := {
  emails : list Row;
  sqlite_sequence : Z
}.

(** [new SQL.Database()] followed by [initTable]. *)
Definition empty : Database := {| emails := []; sqlite_sequence := 0 |}.

Definition max_id (rows : list Row) : Z :=
  fold_right (fun r m => Z.max (row_id r) m) 0%Z rows.

(** [INSERT INTO emails (fileName, ...) VALUES (?, ?, ?, ?, ?, ?)]: the
    new id is one more than the largest id the table has ever had. *)
Definition insert (f d t e c u : cell) (db : Database) : Database :=
  let i := (Z.max (sqlite_sequence db) (max_id (emails db)) + 1)%Z in
  {| emails := (emails db ++ [ {| row_id := i; row_fileName := f;
                                  row_fechaEnvio := d; row_tematica := t;
                                  row_etiquetas := e; row_contenido := c;
                                  row_urls := u |} ])%list;
     sqlite_sequence := i |}.

(** [ORDER BY id DESC] *)
Fixpoint insert_desc (r : Row) (sorted : list Row) : list Row :=
  match sorted with
  | [] => [r]
  | x :: rest =>
      if (row_id x <=? row_id r)%Z then r :: sorted
      else x :: insert_desc r rest
  end.

Definition order_by_id_desc (rows : list Row) : list Row :=
  fold_right insert_desc [] rows.

(** The objects [getAllEmails] builds: the two JSON columns hold
    whatever [JSON.parse] returned. *)
Record StoredEmail := {
  se_id : string;
  se_fileName : cell;
  se_fechaEnvio : cell;
  se_tematica : cell;
  se_etiquetas : Json.value;
  se_contenido : cell;
  se_urls : Json.value;
  se_status : Status
}.

(** [c || "[]"] on a cell. *)
Definition cell_or (c : cell) (d : string) : string :=
  match c with
  | Some s => or_default s d
  | None => d
  end.

(** [JSON.parse(text)], which throws a [SyntaxError] on malformed text. *)
Definition JSON_parse (text : string) : Result Json.value :=
  match Json.parse text with
  | Some v => Ok v
  | None => Throw "SyntaxError"
  end.

(** The object made of one row.  [entry.id.toString()] is written for
    ids that a number holds exactly (integers of at most 2^53 in
    absolute value): sql.js hands the id over as a number, and for
    such an id its [toString] is the decimal numeral of the id. *)
Definition row_to_email (r : Row) : Result StoredEmail :=
  bind (JSON_parse (cell_or (row_etiquetas r) "[]")) (fun tags =>
  bind (JSON_parse (cell_or (row_urls r) "[]")) (fun links =>
  Ok {| se_id := of_Z (row_id r);
        se_fileName := row_fileName r;
        se_fechaEnvio := row_fechaEnvio r;
        se_tematica := row_tematica r;
        se_etiquetas := tags;
        se_contenido := row_contenido r;
        se_urls := links;
        se_status := completed |})).

(** [getAllEmails]: [SELECT * FROM emails ORDER BY id DESC], then one
    object per row. *)
Definition getAllEmails (db : Database) : Result (list StoredEmail) :=
  mapM row_to_email (order_by_id_desc (emails db)).

(** [set.has(x)] on a set of strings. *)
Definition has (set : list string) (x : string) : bool :=
  existsb (String.eqb x) set.

(** [getExistingFileNames]: the non-empty file names of the table. *)
Definition getExistingFileNames (db : Database) : list string :=
  flat_map (fun r => match row_fileName r with
                     | Some f => if is_empty f then [] else [f]
                     | None => []
                     end) (emails db).

(** The strings of a stored [urls] cell; a cell that does not parse, or
    does not hold an array, contributes nothing.  Items that are not
    strings can be left out: the sets are only asked for strings. *)
Definition stored_urls (r : Row) : list string :=
  match Json.parse (cell_or (row_urls r) "[]") with
  | Some (Json.Arr items) => Json.texts items
  | _ => []
  end.

(** The in-memory index [saveToDb] checks records against. *)
Record Index := {
  existingFileNames : list string;
  existingUrlSets : list string;
  existingNormalizedUrlSets : list string
}.

Inductive DuplicateReason :=
| UrlExists (normalizedUrl : option string)
| FileNameExists (name : string).

(** What [saveToDb] did with one record of the call. *)
Inductive Decision :=
| Inserted
| Skipped (why : DuplicateReason)
| Rejected (message : string).

Section WithURL.

Context {api : URLApi}.

Import Normalizer.

Definition build_index (db : Database) : Index :=
  let us := flat_map stored_urls (emails db) in
  {| existingFileNames := getExistingFileNames db;
     existingUrlSets := us;
     existingNormalizedUrlSets := map normalizeUrl us |}.

(** The loop over [email.urls]: position [i] of the links is compared
    with position [i] of [normalizeUrls(email.urls)], which is
    [undefined] past the end of that list. *)
Fixpoint url_duplicate (ix : Index) (links normalized : list string)
    : option (option string) :=
  match links with
  | [] => None
  | u :: rest =>
      let n := hd_error normalized in
      if has (existingUrlSets ix) u
         || match n with
            | Some x => has (existingNormalizedUrlSets ix) x
            | None => false
            end
      then Some n
      else url_duplicate ix rest (tl normalized)
  end.

(** Step 1 looks at the links, step 2 at the file name. *)
Definition duplicate_of (ix : Index) (email : AnalyzedEmail)
    : option DuplicateReason :=
  match url_duplicate ix (urls email) (normalizeUrls (urls email)) with
  | Some n => Some (UrlExists n)
  | None =>
      if negb (is_empty (fileName email))
         && has (existingFileNames ix) (fileName email)
      then Some (FileNameExists (fileName email))
      else None
  end.

(** The additions to the sets for a record that is inserted. *)
Definition add_to_index (ix : Index) (email : AnalyzedEmail) : Index :=
  {| existingFileNames :=
       if is_empty (fileName email) then existingFileNames ix
       else (existingFileNames ix ++ [fileName email])%list;
     existingUrlSets := (existingUrlSets ix ++ urls email)%list;
     existingNormalizedUrlSets :=
       (existingNormalizedUrlSets ix ++ map normalizeUrl (urls email))%list |}.

Definition insert_email (email : AnalyzedEmail) (db : Database) : Database :=
  insert (Some (fileName email))
         (Some (fechaEnvio email))
         (Some (or_default (tematica email) "Sin clasificar"))
         (Some (Json.stringify_strings (etiquetas email)))
         (Some (contenido email))
         (Some (Json.stringify_strings (urls email)))
         db.

(** The state the [forEach] of [saveToDb] carries. *)
Record Saving := {
  sv_db : Database;
  sv_index : Index;
  addedCount : nat;
  errors : list string;
  decisions : list Decision
}.

(** One callback of [emails.forEach((email, index) => ...)].  The
    prepared [INSERT] is taken to succeed, so that the only error of a
    record is the missing file name. *)
Definition save_one (index : nat) (email : AnalyzedEmail) (s : Saving) : Saving :=
  if is_empty (fileName email) then
    let msg := "Email " ++ of_nat (index + 1) ++ ": fileName faltante" in
    {| sv_db := sv_db s; sv_index := sv_index s; addedCount := addedCount s;
       errors := (errors s ++ [msg])%list;
       decisions := (decisions s ++ [Rejected msg])%list |}
  else
    match duplicate_of (sv_index s) email with
    | Some why =>
        {| sv_db := sv_db s; sv_index := sv_index s;
           addedCount := addedCount s; errors := errors s;
           decisions := (decisions s ++ [Skipped why])%list |}
    | None =>
        {| sv_db := insert_email email (sv_db s);
           sv_index := add_to_index (sv_index s) email;
           addedCount := S (addedCount s);
           errors := errors s;
           decisions := (decisions s ++ [Inserted])%list |}
    end.

Fixpoint save_each (index : nat) (batch : list AnalyzedEmail) (s : Saving) : Saving :=
  match batch with
  | [] => s
  | email :: rest => save_each (S index) rest (save_one index email s)
  end.

(** The database in memory and the copy of it kept in IndexedDB under
    [main_db] ([None] before the first write). *)
Record Store := {
  db : Database;
  idb : option Database
}.

(** The state in which the [forEach] starts. *)
Definition start_saving (d : Database) : Saving :=
  {| sv_db := d; sv_index := build_index d; addedCount := 0;
     errors := []; decisions := [] |}.

(** The store of a fresh installation. *)
Definition empty_store : Store := {| db := empty; idb := None |}.

(** [saveToDb(emails)].  [storage] is the behaviour of
    [saveDBToStorage] during this call: [None] when the write succeeds,
    the message of the error otherwise. *)
Definition saveToDb (storage : option string) (batch : list AnalyzedEmail)
    (st : Store) : Store * Result unit :=
  match batch with
  | [] => (st, Ok tt)
  | _ :: _ =>
      let s := save_each 0 batch (start_saving (db st)) in
      let failed :=
        match errors s with
        | [] => Ok tt
        | _ :: _ =>
            Throw ("Errores guardando algunos emails: " ++ join "; " (errors s))
        end in
      if Nat.ltb 0 (addedCount s) then
        match storage with
        | None => ({| db := sv_db s; idb := Some (sv_db s) |}, failed)
        | Some m =>
            ({| db := sv_db s; idb := idb st |},
             Throw ("Error guardando en almacenamiento: " ++ m))
        end
      else ({| db := sv_db s; idb := idb st |}, failed)
  end.

(** The decisions taken for the records of a call, for reasoning. *)
Definition save_decisions (batch : list AnalyzedEmail) (st : Store) : list Decision :=
  decisions (save_each 0 batch (start_saving (db st))).

End WithURL.

End Db.

(* ================================================================== *)
(** ** services/geminiService.ts: the retry loop of the two analyses *)
(* ================================================================== *)

Module Gemini.

Import Str.

(** What the loop reads of a caught error. *)
Record ApiError := {
  err_status : option Z;
  err_code : option Z;
  err_message : option string
}.

(** The object both analyses resolve to. *)
Record Analysis := {
  a_tematica : string;
  a_etiquetas : list string;
  a_contenido_resumido : string;
  a_urls : list string;
  a_fecha_normalizada : string
}.

(** One pass through the [try] block of the loop: the request and the
    decoding of the answer either produce the object that is returned,
    or throw the error the [catch] block receives. *)
Inductive Attempt :=
| Responded (answer : Analysis)
| Failed (e : ApiError).

(** The service as the loop sees it: the outcome of attempt 1, 2, ... *)
Definition Service := nat -> Attempt.

Definition is_429 (x : option Z) : bool :=
  match x with Some n => (n =? 429)%Z | None => false end.

(** [error.message || d] *)
Definition message_or (e : ApiError) (d : string) : string :=
  match err_message e with
  | Some m => or_default m d
  | None => d
  end.

Definition isTransient (e : ApiError) : bool :=
  is_429 (err_status e) || is_429 (err_code e)
  || match err_message e with
     | Some m =>
         negb (is_empty m)
         && (includes m "429" || includes m "quota"
             || includes m "RESOURCE_EXHAUSTED")
     | None => false
     end.

Definition maxAttempts : nat := 5.

(** [delay *= 1.5], in milliseconds. *)
Definition next_delay (delay : Q) : Q := Qred (delay * (3 # 2)).

Definition initial_delay : Q := 10000 # 1.

(** What a run of the loop leaves behind: the object returned, the
    number of requests made and the pauses taken between them. *)
Record Run := {
  run_result : Analysis;
  run_attempts : nat;
  run_waits : list Q
}.

Section Loop.

(** The three objects the loop builds itself; they differ between the
    two analyses. *)
Variable quota : Analysis.
Variable generic : ApiError -> Analysis.
Variable unknown : Analysis.
Variable service : Service.

(** [while (attempt <= maxAttempts) { try {...} catch (error) {...} }]
    followed by the [return] after the loop; [fuel] bounds the number of
    iterations and [None] means it ran out. *)
Fixpoint retry (fuel attempt : nat) (delay : Q) (waits : list Q) : option Run :=
  match fuel with
  | O => None
  | S fuel =>
      if (attempt <=? maxAttempts)%nat then
        match service attempt with
        | Responded answer =>
            Some {| run_result := answer; run_attempts := attempt;
                    run_waits := waits |}
        | Failed e =>
            if isTransient e then
              if (attempt <? maxAttempts)%nat then
                retry fuel (S attempt) (next_delay delay) (waits ++ [delay])%list
              else
                Some {| run_result := quota; run_attempts := attempt;
                        run_waits := waits |}
            else
              if (attempt =? maxAttempts)%nat then
                Some {| run_result := generic e; run_attempts := attempt;
                        run_waits := waits |}
              else
                retry fuel (S attempt) (next_delay delay) (waits ++ [delay])%list
        end
      else
        Some {| run_result := unknown; run_attempts := attempt - 1;
                run_waits := waits |}
  end.

(** The loop started as the code starts it.  Five iterations are always
    enough ([retry_total] below), so the default is never used. *)
Definition run_loop : Run :=
  match retry (S maxAttempts) 1 initial_delay [] with
  | Some r => r
  | None => {| run_result := unknown; run_attempts := 0; run_waits := [] |}
  end.

End Loop.

Definition quota_text : string :=
  "Error: Se ha excedido la cuota de la API Key definida en tu fichero .env (429 Resource Exhausted). Espera unos minutos o revisa tu plan de facturación en Google AI Studio.".

(** [initGemini]: throws when [process.env.API_KEY] is missing or empty. *)
Definition initGemini (apiKey : option string) : Result unit :=
  match apiKey with
  | Some k =>
      if is_empty k
      then Throw "API Key is missing. Ensure process.env.API_KEY is defined in your environment."
      else Ok tt
  | None => Throw "API Key is missing. Ensure process.env.API_KEY is defined in your environment."
  end.

Definition email_quota (emailData : ParsedEmailRaw) : Analysis :=
  {| a_tematica := "Error Cuota API";
     a_etiquetas := ["Error"; "Quota"];
     a_contenido_resumido := quota_text;
     a_urls := [];
     a_fecha_normalizada := rawDate emailData |}.

Definition email_generic (emailData : ParsedEmailRaw) (e : ApiError) : Analysis :=
  let errorMessage :=
    "Error analizando contenido después de " ++ of_nat maxAttempts
    ++ " intentos: " ++ message_or e "Error desconocido" in
  {| a_tematica := "Error en Análisis";
     a_etiquetas := ["Error"];
     a_contenido_resumido :=
       errorMessage ++ ". Contenido parcial: "
       ++ Utf16.substring16 200 (bodyText emailData);
     a_urls := [];
     a_fecha_normalizada := rawDate emailData |}.

Definition email_unknown (emailData : ParsedEmailRaw) : Analysis :=
  {| a_tematica := "Error";
     a_etiquetas := ["Error"];
     a_contenido_resumido := "Error desconocido tras reintentos.";
     a_urls := [];
     a_fecha_normalizada := rawDate emailData |}.

(** [analyzeEmailContent(emailData)] *)
Definition analyzeEmailContent (apiKey : option string) (service : Service)
    (emailData : ParsedEmailRaw) : Result Run :=
  bind (initGemini apiKey) (fun _ =>
  Ok (run_loop (email_quota emailData) (email_generic emailData)
               (email_unknown emailData) service)).

Definition link (url : string) : string :=
  "<a href=" ++ String Json.dquote url ++ String Json.dquote ">" ++ url ++ "</a>".

Definition url_quota (url now : string) : Analysis :=
  {| a_tematica := "Error Cuota API";
     a_etiquetas := ["Error"; "Quota"];
     a_contenido_resumido := quota_text;
     a_urls := [url];
     a_fecha_normalizada := now |}.

Definition url_generic (url now : string) (e : ApiError) : Analysis :=
  let errorMessage :=
    "Error analizando URL después de " ++ of_nat maxAttempts
    ++ " intentos: " ++ message_or e "Error desconocido" in
  {| a_tematica := "Error en Análisis";
     a_etiquetas := ["Error"];
     a_contenido_resumido :=
       "<p>Error: " ++ errorMessage ++ "</p><p>URL: " ++ link url ++ "</p>";
     a_urls := [url];
     a_fecha_normalizada := now |}.

Definition url_unknown (url now : string) : Analysis :=
  {| a_tematica := "Error";
     a_etiquetas := ["Error"];
     a_contenido_resumido :=
       "<p>Error desconocido tras reintentos.</p><p>URL: " ++ link url ++ "</p>";
     a_urls := [url];
     a_fecha_normalizada := now |}.

(** [analyzeUrlContent(url, useTranscript)].  The scraping before the
    loop cannot fail the call (its errors are caught) and only changes
    the prompt; [now] is the clock reading the sentinels carry. *)
Definition analyzeUrlContent (apiKey : option string) (service : Service)
    (now : string) (url : string) : Result Run :=
  bind (initGemini apiKey) (fun _ =>
  Ok (run_loop (url_quota url now) (url_generic url now)
               (url_unknown url now) service)).

End Gemini.

(* ================================================================== *)
(** ** App.tsx: processFiles *)
(* ================================================================== *)

Module App.

Import Str.

Record File := { name : string }.

Record Progress := {
  current : nat;
  total : nat;
  currentFile : option string
}.

(** The React state of the component that [processFiles] reads or
    writes, the [isProcessingCancelled] ref and the record store. *)
Record AppState := {
  files : list File;
  processedEmails : list Db.StoredEmail;
  app_status : ProcessingStatus;
  progress : Progress;
  errorMsg : option string;
  isApiKeyValid : bool;
  isProcessingCancelled : bool;
  store : Db.Store
}.

Definition setStatus (s : ProcessingStatus) (a : AppState) : AppState :=
  {| files := files a; processedEmails := processedEmails a; app_status := s;
     progress := progress a; errorMsg := errorMsg a;
     isApiKeyValid := isApiKeyValid a;
     isProcessingCancelled := isProcessingCancelled a; store := store a |}.

Definition setProgress (p : Progress) (a : AppState) : AppState :=
  {| files := files a; processedEmails := processedEmails a;
     app_status := app_status a; progress := p; errorMsg := errorMsg a;
     isApiKeyValid := isApiKeyValid a;
     isProcessingCancelled := isProcessingCancelled a; store := store a |}.

Definition setErrorMsg (m : option string) (a : AppState) : AppState :=
  {| files := files a; processedEmails := processedEmails a;
     app_status := app_status a; progress := progress a; errorMsg := m;
     isApiKeyValid := isApiKeyValid a;
     isProcessingCancelled := isProcessingCancelled a; store := store a |}.

Definition setFiles (fs : list File) (a : AppState) : AppState :=
  {| files := fs; processedEmails := processedEmails a;
     app_status := app_status a; progress := progress a;
     errorMsg := errorMsg a; isApiKeyValid := isApiKeyValid a;
     isProcessingCancelled := isProcessingCancelled a; store := store a |}.

Definition setProcessedEmails (l : list Db.StoredEmail) (a : AppState) : AppState :=
  {| files := files a; processedEmails := l; app_status := app_status a;
     progress := progress a; errorMsg := errorMsg a;
     isApiKeyValid := isApiKeyValid a;
     isProcessingCancelled := isProcessingCancelled a; store := store a |}.

(** [isProcessingCancelled.current = b] *)
Definition setCancelled (b : bool) (a : AppState) : AppState :=
  {| files := files a; processedEmails := processedEmails a;
     app_status := app_status a; progress := progress a;
     errorMsg := errorMsg a; isApiKeyValid := isApiKeyValid a;
     isProcessingCancelled := b; store := store a |}.

Definition setStore (s : Db.Store) (a : AppState) : AppState :=
  {| files := files a; processedEmails := processedEmails a;
     app_status := app_status a; progress := progress a;
     errorMsg := errorMsg a; isApiKeyValid := isApiKeyValid a;
     isProcessingCancelled := isProcessingCancelled a; store := s |}.

(** [stopProcessing], the handler of the stop button. *)
Definition stopProcessing (a : AppState) : AppState :=
  setErrorMsg (Some "Procesamiento cancelado por el usuario")
    (setCancelled true a).

(** What happens around the item at one position of the queue while the
    batch runs: whether the stop button is pressed during the pause
    before the item (and in which of its fifteen seconds) or while the
    item is read, analysed and saved, what [parseEmlFile] and the
    service do, the values of [uuidv4()] and of the clock, and whether
    the write to IndexedDB succeeds. *)
Record ItemEnv := {
  stop_during_pause : option nat;
  parsed : Result ParsedEmailRaw;
  service : Gemini.Service;
  stop_during_work : bool;
  uuid : string;
  now : string;
  storage : option string
}.

(** Instrumentation: the steps taken on the items, by position. *)
Inductive Event :=
| Paused (i seconds : nat)
| Extracted (i : nat)
| Enriched (i : nat)
| Appended (i : nat) (email : AnalyzedEmail)
| StatusSet (s : ProcessingStatus).

(** The locals of one call: [results], [processingErrors], and the
    instrumentation. *)
Record Batch := {
  app : AppState;
  results : list AnalyzedEmail;
  processingErrors : list string;
  trace : list Event
}.

Definition on_app (f : AppState -> AppState) (b : Batch) : Batch :=
  {| app := f (app b); results := results b;
     processingErrors := processingErrors b; trace := trace b |}.

Definition log (e : Event) (b : Batch) : Batch :=
  {| app := app b; results := results b;
     processingErrors := processingErrors b; trace := (trace b ++ [e])%list |}.

Definition status_to (s : ProcessingStatus) (b : Batch) : Batch :=
  log (StatusSet s) (on_app (setStatus s) b).

Definition push_result (e : AnalyzedEmail) (b : Batch) : Batch :=
  {| app := app b; results := (results b ++ [e])%list;
     processingErrors := processingErrors b; trace := trace b |}.

Definition push_error (m : string) (b : Batch) : Batch :=
  {| app := app b; results := results b;
     processingErrors := (processingErrors b ++ [m])%list; trace := trace b |}.

(** How the [for] loop was left. *)
Inductive LoopExit :=
| RanOut                      (* the condition [i < files.length] failed *)
| Broke                       (* [break] *)
| Returned                    (* [return] on the cancellation path *)
| Thrown (message : string).  (* an exception reached the outer [catch] *)

Section WithPlatform.

Context {api : URLApi}.

(** [String.prototype.trim] *)
Variable trim : string -> string.

(** [process.env.API_KEY] as [initGemini] reads it. *)
Variable apiKey : option string.

(** The environment of the item at each position. *)
Variable env : nat -> ItemEnv.

(** The [status] and [files] the closure of this call captured. *)
Variable status0 : ProcessingStatus.
Variable files0 : list File.

Definition nonblank (s : string) : bool := negb (is_empty (trim s)).

(** Step 3 of the loop body: the record made of a successful analysis. *)
Definition analyzed_email (i : nat) (file : File) (parsedRaw : ParsedEmailRaw)
    (analysis : Gemini.Analysis) : AnalyzedEmail :=
  {| id := uuid (env i);
     fileName := name file;
     fechaEnvio :=
       if is_empty (Gemini.a_fecha_normalizada analysis)
       then or_default (rawDate parsedRaw) (now (env i))
       else trim (Gemini.a_fecha_normalizada analysis);
     tematica :=
       if is_empty (Gemini.a_tematica analysis) then "Sin clasificar"
       else trim (Gemini.a_tematica analysis);
     etiquetas := filter nonblank (Gemini.a_etiquetas analysis);
     contenido :=
       if is_empty (Gemini.a_contenido_resumido analysis) then
         if negb (is_empty (bodyText parsedRaw)) && nonblank (bodyText parsedRaw)
         then "<p>" ++ trim (Utf16.substring16 500 (bodyText parsedRaw)) ++ "...</p>"
         else "<p>No se pudo obtener el contenido del correo.</p>"
       else trim (Gemini.a_contenido_resumido analysis);
     urls := filter nonblank (Gemini.a_urls analysis);
     status := completed;
     errorMessage := None |}.

(** The record made in the [catch] of the loop body. *)
Definition error_email (i : nat) (file : File) (message : string) : AnalyzedEmail :=
  {| id := uuid (env i);
     fileName := name file;
     fechaEnvio := now (env i);
     tematica := "Error en Análisis";
     etiquetas := ["Error"];
     contenido :=
       "Error procesando archivo: "
       ++ or_default message "No se pudo analizar el contenido"
       ++ ". Revisa la consola (F12) para más detalles.";
     urls := [];
     status := error;
     errorMessage := Some (or_default message "Error desconocido") |}.

(** [try { await saveToDb([email]); setProcessedEmails(await
    getAllEmails()) } catch { }] *)
Definition save_now (i : nat) (email : AnalyzedEmail) (b : Batch) : Batch :=
  let (st, r) := Db.saveToDb (storage (env i)) [email] (store (app b)) in
  let b := log (Appended i email) (on_app (setStore st) b) in
  match r with
  | Throw _ => b
  | Ok _ =>
      match Db.getAllEmails (Db.db st) with
      | Ok all => on_app (setProcessedEmails all) b
      | Throw _ => b
      end
  end.

(** The pause before every item but the first: up to fifteen waits of a
    second, left early when the flag is seen set. *)
Definition pause (i : nat) (b : Batch) : Batch :=
  match i with
  | O => b
  | S _ =>
      match stop_during_pause (env i) with
      | Some k =>
          if (k <? 15)%nat then log (Paused i (S k)) (on_app stopProcessing b)
          else log (Paused i 15) b
      | None => log (Paused i 15) b
      end
  end.

Definition press_stop (pressed : bool) (b : Batch) : Batch :=
  if pressed then on_app stopProcessing b else b.

(** The [catch (fileError)] of the loop body. *)
Definition item_failed (i : nat) (file : File) (message : string) (b : Batch) : Batch :=
  let errorMsg := "Error procesando " ++ name file ++ ": "
                  ++ or_default message "Error desconocido" in
  let b := push_error errorMsg b in
  let b := save_now i (error_email i file message)
             (push_result (error_email i file message) b) in
  on_app (setErrorMsg
    (Some ("Error en " ++ name file ++ ". "
           ++ of_nat (List.length (processingErrors b))
           ++ " error(es) hasta ahora. Revisa la consola (F12) para detalles.")))
    b.

(** How one pass through the loop body ends. *)
Inductive Step :=
| Next (b : Batch)       (* fell through to the increment, or [continue] *)
| Stop (b : Batch).      (* [break] *)

Definition end_of_body (i : nat) (b : Batch) : Batch :=
  let total := List.length files0 in
  on_app (setProgress
    {| current := i + 1; total := total;
       currentFile := if (i + 1 <? total)%nat
                      then option_map name (nth_error files0 (i + 1))
                      else None |}) b.

(** The progress message shown while the batch runs. *)
Definition announce (i : nat) (file : File) (b : Batch) : Batch :=
  match status0 with
  | COMPLETED | ERROR => b
  | _ =>
      on_app (setErrorMsg
        (Some ("Procesando " ++ of_nat (i + 1) ++ "/"
               ++ of_nat (List.length files0) ++ ": " ++ name file))) b
  end.

(** The [try] block of the loop body with its [catch]: extraction,
    enrichment, the two sentinel checks and the immediate save. *)
Definition work (i : nat) (file : File) (b : Batch) : Step :=
  let total := List.length files0 in
  let here := {| current := i; total := total; currentFile := Some (name file) |} in
  let b := on_app (setProgress here) (status_to PARSING b) in
  let b := log (Extracted i) b in
  let b := press_stop (stop_during_work (env i)) b in
  match parsed (env i) with
  | Throw m =>
      Next (end_of_body i
        (item_failed i file
           ("Error parseando archivo: " ++ or_default m "Error desconocido en parseo") b))
  | Ok parsedRaw =>
      let b := on_app (setProgress here) (status_to ANALYZING b) in
      let b := log (Enriched i) b in
      let r := Gemini.analyzeEmailContent apiKey (service (env i)) parsedRaw in
      match r with
      | Throw m =>
          Next (end_of_body i
            (item_failed i file
               ("Error en análisis de Gemini: "
                ++ or_default m "Error desconocido en análisis") b))
      | Ok run =>
          let analysis := Gemini.run_result run in
          if String.eqb (Gemini.a_tematica analysis) "Error Cuota API" then
            Stop (status_to ERROR
              (on_app (setErrorMsg
                (Some "Tu API Key ha excedido la cuota gratuita (429). Espera un minuto o revisa tu plan.")) b))
          else if String.eqb (Gemini.a_tematica analysis) "Error en Análisis" then
            Next (on_app (setProgress
                    {| current := i + 1; total := total; currentFile := None |})
                  (push_error ("Error analizando " ++ name file ++ ": "
                               ++ Gemini.a_contenido_resumido analysis) b))
          else
            let email := analyzed_email i file parsedRaw analysis in
            Next (end_of_body i (save_now i email (push_result email b)))
      end
  end.

(** The body of the loop after the check of the flag, for the item
    [file] at position [i]: the message, the pause, and the work unless
    the flag was set during the pause ([continue]). *)
Definition body (i : nat) (file : File) (b : Batch) : Step :=
  let b := pause i (announce i file b) in
  if (0 <? i)%nat && isProcessingCancelled (app b) then Next b
  else work i file b.

(** The first statement of the loop body: the check of the flag, which
    saves [results] once more and returns. *)
Definition cancelled_exit (i : nat) (b : Batch) : Batch * LoopExit :=
  let b := on_app (setErrorMsg
             (Some ("Procesamiento cancelado. "
                    ++ of_nat (List.length (results b))
                    ++ " archivo(s) procesado(s) antes de la cancelación."))) b in
  let b := status_to IDLE b in
  match results b with
  | [] => (status_to IDLE b, Returned)
  | _ :: _ =>
      let b := status_to GENERATING_DB b in
      let (st, r) := Db.saveToDb (storage (env i)) (results b) (store (app b)) in
      let b := on_app (setStore st) b in
      match r with
      | Throw m => (b, Thrown m)
      | Ok _ =>
          match Db.getAllEmails (Db.db st) with
          | Throw m => (b, Thrown m)
          | Ok all => (status_to IDLE (on_app (setProcessedEmails all) b), Returned)
          end
      end
  end.

(** [for (let i = ...; i < files.length; i++) { ... }] over the files
    from position [i] on. *)
Fixpoint loop (i : nat) (rest : list File) (b : Batch) : Batch * LoopExit :=
  match rest with
  | [] => (b, RanOut)
  | file :: rest' =>
      if isProcessingCancelled (app b) then cancelled_exit i b
      else
        match body i file b with
        | Next b' => loop (S i) rest' b'
        | Stop b' => (b', Broke)
        end
  end.

(** The statements after the loop. *)
Definition after_loop (b : Batch) : Batch :=
  let b := match processingErrors b with
           | [] => on_app (setErrorMsg None) b
           | _ :: _ => b
           end in
  let b :=
    match status0 with
    | ERROR => b
    | _ =>
        if isProcessingCancelled (app b) then b
        else
          let b := status_to COMPLETED b in
          let b := on_app (setFiles []) b in
          let b := on_app (setProgress {| current := 0; total := 0;
                                          currentFile := None |}) b in
          match processingErrors b with
          | [] => on_app (setErrorMsg None) b
          | _ :: _ =>
              on_app (setErrorMsg
                (Some (of_nat (List.length (results b)) ++ " archivo(s) procesado(s). "
                       ++ of_nat (List.length (processingErrors b))
                       ++ " error(es) - descarga los logs para detalles."))) b
          end
    end in
  on_app (setCancelled false) b.

(** The outer [catch (err)]. *)
Definition critical (message : string) (b : Batch) : Batch :=
  let msg := or_default message "Ocurrió un error crítico." in
  on_app (setErrorMsg
    (Some (if includes msg "API Key" then msg
           else "Error procesando ficheros. "
                ++ of_nat (List.length (results b))
                ++ " procesado(s). Descarga los logs para detalles.")))
    (status_to ERROR b).

Definition start (a : AppState) : Batch :=
  let b := {| app := setCancelled false a; results := [];
              processingErrors := []; trace := [] |} in
  let b := status_to PARSING b in
  let b := on_app (setProgress
             {| current := 0; total := List.length files0;
                currentFile := option_map name (nth_error files0 0) |}) b in
  on_app (setErrorMsg None) b.

(** [processFiles], called in state [a]; [files0] and [status0] are
    [files a] and [app_status a] (see [processFiles] below). *)
Definition run (a : AppState) : Batch :=
  match files0 with
  | [] => {| app := a; results := []; processingErrors := []; trace := [] |}
  | _ :: _ =>
      if negb (isApiKeyValid a) then
        {| app := setErrorMsg (Some "API Key no configurada.") a;
           results := []; processingErrors := []; trace := [] |}
      else
        match loop 0 files0 (start a) with
        | (b, RanOut) | (b, Broke) => after_loop b
        | (b, Returned) => b
        | (b, Thrown m) => critical m b
        end
  end.

End WithPlatform.

(** [processFiles()] as the button calls it: the closure reads [files]
    and [status] of the render in which the button was pressed. *)
Definition processFiles {api : URLApi} (trim : string -> string)
    (apiKey : option string) (env : nat -> ItemEnv) (a : AppState) : Batch :=
  run trim apiKey env (app_status a) (files a) a.

End App.

(* ================================================================== *)
(** ** Words of the specification *)
(* ================================================================== *)

Module Spec.

Import Str.

(** [url] is a social-post link of user [user] with status id [id]: it
    reads [http(s)://(x.com|twitter.com)/user/status/id] followed by
    anything that does not continue the digits, letters in either
    case. *)
Definition social_post (url user id : string) : Prop :=
  exists sch host st rest,
    url = sch ++ "://" ++ host ++ "/" ++ user ++ "/" ++ st ++ "/" ++ id ++ rest
    /\ (lower sch = "http" \/ lower sch = "https")
    /\ (lower host = "x.com" \/ lower host = "twitter.com")
    /\ lower st = "status"
    /\ user <> EmptyString
    /\ Str.forallb (fun c => negb (Ascii.eqb c "/")) user = true
    /\ id <> EmptyString
    /\ Str.forallb is_digit id = true
    /\ match rest with
       | EmptyString => True
       | String c _ => is_digit c = false
       end.

(** The canonical form of a social-post link. *)
Definition canonical (user id : string) : string :=
  "https://x.com/" ++ user ++ "/status/" ++ id.

(** A link of the record is in the store as it is, or one of the
    record's normalised links is among the normalised links of the
    store. *)
Definition url_known {api : URLApi} (ix : Db.Index) (email : AnalyzedEmail) : Prop :=
  (exists u, In u (urls email) /\ In u (Db.existingUrlSets ix))
  \/ (exists n, In n (Normalizer.normalizeUrls (urls email))
                /\ In n (Db.existingNormalizedUrlSets ix)).

(** The record's file name is in the store. *)
Definition name_known (ix : Db.Index) (email : AnalyzedEmail) : Prop :=
  fileName email <> EmptyString
  /\ In (fileName email) (Db.existingFileNames ix).

(** Two records share a normalised link. *)
Definition overlapping {api : URLApi} (e1 e2 : AnalyzedEmail) : Prop :=
  exists n, In n (Normalizer.normalizeUrls (urls e1))
            /\ In n (Normalizer.normalizeUrls (urls e2)).

(** The messages [saveToDb] collects for the records without file
    name, by position in the call. *)
Fixpoint missing_names (index : nat) (batch : list AnalyzedEmail) : list string :=
  match batch with
  | [] => []
  | e :: rest =>
      if is_empty (fileName e)
      then ("Email " ++ of_nat (index + 1) ++ ": fileName faltante")
           :: missing_names (S index) rest
      else missing_names (S index) rest
  end.

Definition has_name (e : AnalyzedEmail) : bool := negb (is_empty (fileName e)).

(** The pauses of the retry policy, in milliseconds: ten seconds, then
    one and a half times the pause before. *)
Definition backoff_schedule : list Q :=
  [10000 # 1; 15000 # 1; 22500 # 1; 33750 # 1]%Q.

(** [n] pauses starting with [delay]. *)
Fixpoint delays (delay : Q) (n : nat) : list Q :=
  match n with
  | O => []
  | S n => delay :: delays (Gemini.next_delay delay) n
  end.

(** The error carries one of the indicators of an exhausted quota: the
    status or the code 429, or a message that mentions '429', 'quota'
    or 'RESOURCE_EXHAUSTED'. *)
Definition quota_signal (e : Gemini.ApiError) : Prop :=
  Gemini.err_status e = Some 429%Z
  \/ Gemini.err_code e = Some 429%Z
  \/ exists m, Gemini.err_message e = Some m
       /\ (includes m "429" = true \/ includes m "quota" = true
           \/ includes m "RESOURCE_EXHAUSTED" = true).

(** Every one of the five attempts throws an error with such an
    indicator. *)
Definition quota_persists (service : Gemini.Service) : Prop :=
  forall k, 1 <= k <= 5 ->
    exists e, service k = Gemini.Failed e /\ quota_signal e.

(** Every one of the five attempts throws an error without any. *)
Definition other_error_persists (service : Gemini.Service) : Prop :=
  forall k, 1 <= k <= 5 ->
    exists e, service k = Gemini.Failed e /\ ~ quota_signal e.

(** What the specification requires of a run of either analysis. *)
Definition follows_retry_policy (service : Gemini.Service) (run : Gemini.Run) : Prop :=
  1 <= Gemini.run_attempts run <= 5
  /\ Gemini.run_waits run
     = firstn (Gemini.run_attempts run - 1) backoff_schedule
  /\ (quota_persists service ->
      Gemini.run_attempts run = 5
      /\ Gemini.a_tematica (Gemini.run_result run) = "Error Cuota API")
  /\ (other_error_persists service ->
      Gemini.run_attempts run = 5
      /\ Gemini.a_tematica (Gemini.run_result run) = "Error en Análisis").

(** The ids of the table grow in table order, as they do when every
    row was added by [INSERT] under [AUTOINCREMENT]. *)
Fixpoint ascending (rows : list Db.Row) : Prop :=
  match rows with
  | [] => True
  | r :: rest =>
      (forall x, In x rest -> (Db.row_id r < Db.row_id x)%Z) /\ ascending rest
  end.

(** A cell of a JSON column holds the text of an array. *)
Definition holds_array (c : Db.cell) : Prop :=
  exists items, Json.parse (Db.cell_or c "[]") = Some (Json.Arr items).

(** A cell of a JSON column holds text that [JSON.parse] rejects. *)
Definition malformed (c : Db.cell) : Prop :=
  Json.parse (Db.cell_or c "[]") = None.

(** The number of rows of the table. *)
Definition row_count (st : Db.Store) : nat :=
  List.length (Db.emails (Db.db st)).

End Spec.

(* ================================================================== *)
(** ** Notions about the records of the concrete URL class *)
(* ================================================================== *)

(** What the parser of [WhatwgFragment] returns for an [http(s)] link,
    and the pieces its serialization is made of.  These definitions
    state properties of the URL class; none of them is part of the
    program. *)
Module FragmentSpec.

Import Str WhatwgFragment.

Definition no_char (c : ascii) (s : string) : bool :=
  Str.forallb (fun x => negb (Ascii.eqb x c)) s.

Definition well_formed (o : url) : bool :=
  (String.eqb (scheme o) "http" || String.eqb (scheme o) "https")
  && match host o with
     | Some h => host_ok h && String.eqb (lower h) h
     | None => false
     end
  && match port o with
     | Some n =>
         (n <=? 65535)%N
         && negb match default_port (scheme o) with
                 | Some d => N.eqb d n
                 | None => false
                 end
     | None => true
     end
  && (starts_with "/" (path o) && Str.forallb url_char (path o)
      && no_char "?" (path o) && no_char "#" (path o)
      && List.forallb segment_ok (split_on "/" (path o)))
  && match query o with
     | Some q => query_ok q
     | None => true
     end
  && match fragment o with
     | Some f => Str.forallb url_char f
     | None => true
     end.

Definition query_char (c : ascii) : bool := form_char c || mem_char c "=&".

Definition good_pair (nv : string * string) : bool :=
  Str.forallb form_char (fst nv) && Str.forallb form_char (snd nv).

Definition piece_of (nv : string * string) : string := fst nv ++ "=" ++ snd nv.

Definition path_ok (p : string) : bool := List.forallb segment_ok (split_on "/" p).

Definition fix_path (p : string) : string := if is_empty p then "/" else p.

Definition query_text (q : option string) : string :=
  match q with Some q => "?" ++ q | None => EmptyString end.

Definition fragment_text (f : option string) : string :=
  match f with Some f => "#" ++ f | None => EmptyString end.

Definition port_text (p : option N) : string :=
  match p with Some n => ":" ++ of_N n | None => EmptyString end.

(** The record [o] with its query replaced by the serialization of [l]. *)
Definition with_params (o : url) (l : list (string * string)) : url :=
  let q := serialize_query l in
  {| scheme := scheme o; host := host o; port := port o; path := path o;
     query := if is_empty q then None else Some q;
     fragment := fragment o |}.

Definition keep (name : string) (nv : string * string) : bool :=
  negb (String.eqb (fst nv) name).

Definition untracked (nv : string * string) : bool :=
  List.forallb (fun name => keep name nv) Normalizer.trackingParams.

(** The record without query and fragment, of which [origin + pathname]
    is the serialization. *)
Definition bare (o : url) : url :=
  {| scheme := scheme o; host := host o; port := port o; path := path o;
     query := None; fragment := None |}.

End FragmentSpec.

(* ================================================================== *)
(** ** Words of the specification about a batch *)
(* ================================================================== *)

Module PipelineSpec.

Import Str App.

(** The position an event belongs to. *)
Definition event_index (e : Event) : option nat :=
  match e with
  | Paused i _ | Extracted i | Enriched i | Appended i _ => Some i
  | StatusSet _ => None
  end.

(** The records handed to the store, with the position of their item. *)
Fixpoint appended (t : list Event) : list (nat * AnalyzedEmail) :=
  match t with
  | [] => []
  | Appended i email :: rest => (i, email) :: appended rest
  | _ :: rest => appended rest
  end.

(** How an item ends: with an analysis, with an error thrown by the
    extraction or the enrichment, with the generic-failure sentinel, or
    with the quota sentinel. *)
Inductive Outcome :=
| Succeeded (email : AnalyzedEmail)
| ItemError (email : AnalyzedEmail)
| SentinelFailure (message : string)
| QuotaStop.

Section WithPlatform.

Context {api : URLApi}.
Variable trim : string -> string.
Variable apiKey : option string.
Variable env : nat -> ItemEnv.

(** The result of the enrichment of the item at position [i], when its
    extraction and its enrichment return. *)
Definition enrichment (i : nat) : option Gemini.Analysis :=
  match parsed (env i) with
  | Ok parsedRaw =>
      match Gemini.analyzeEmailContent apiKey (service (env i)) parsedRaw with
      | Ok run => Some (Gemini.run_result run)
      | Throw _ => None
      end
  | Throw _ => None
  end.

Definition quota_at (i : nat) : Prop :=
  exists a, enrichment i = Some a /\ Gemini.a_tematica a = "Error Cuota API".

Definition generic_failure_at (i : nat) : Prop :=
  exists a, enrichment i = Some a /\ Gemini.a_tematica a = "Error en Análisis".

(** Nobody presses the stop button around the item at position [i]. *)
Definition undisturbed (i : nat) : Prop :=
  stop_during_pause (env i) = None /\ stop_during_work (env i) = false.

Definition outcome (i : nat) (file : File) : Outcome :=
  match parsed (env i) with
  | Throw m =>
      ItemError (error_email env i file
        ("Error parseando archivo: " ++ or_default m "Error desconocido en parseo"))
  | Ok parsedRaw =>
      match Gemini.analyzeEmailContent apiKey (service (env i)) parsedRaw with
      | Throw m =>
          ItemError (error_email env i file
            ("Error en análisis de Gemini: "
             ++ or_default m "Error desconocido en análisis"))
      | Ok run =>
          let a := Gemini.run_result run in
          if String.eqb (Gemini.a_tematica a) "Error Cuota API" then QuotaStop
          else if String.eqb (Gemini.a_tematica a) "Error en Análisis" then
            SentinelFailure ("Error analizando " ++ name file ++ ": "
                             ++ Gemini.a_contenido_resumido a)
          else Succeeded (analyzed_email trim env i file parsedRaw a)
      end
  end.

(** The record the specification expects in the store for an item. *)
Definition record_of (i : nat) (file : File) : option AnalyzedEmail :=
  match outcome i file with
  | Succeeded email | ItemError email => Some email
  | SentinelFailure _ | QuotaStop => None
  end.

(** The records of the items from position [i] on. *)
Fixpoint expected (i : nat) (queue : list File) : list (nat * AnalyzedEmail) :=
  match queue with
  | [] => []
  | file :: rest =>
      match record_of i file with
      | Some email => (i, email) :: expected (S i) rest
      | None => expected (S i) rest
      end
  end.

(** One single-record call of [saveToDb] for each record, in order. *)
Definition append_all (l : list (nat * AnalyzedEmail)) (st : Db.Store) : Db.Store :=
  fold_left (fun st ie => fst (Db.saveToDb (storage (env (fst ie))) [snd ie] st))
            l st.

(** What the specification expects of the pass over the item at
    position [i], from the batch [b] to the batch [b']: the events of
    the pass belong to the item and include its extraction, its record
    (if any) is handed to the store in one call, the flag is untouched,
    and a failure is added to the list of errors. *)
Definition item_effect (i : nat) (file : File) (b b' : Batch) : Prop :=
  (exists evs,
      trace b' = (trace b ++ evs)%list
      /\ In (Extracted i) evs
      /\ (forall ev j, In ev evs -> event_index ev = Some j -> j = i)
      /\ appended evs = match record_of i file with
                        | Some email => [(i, email)]
                        | None => []
                        end)
  /\ store (app b')
     = append_all match record_of i file with
                  | Some email => [(i, email)]
                  | None => []
                  end (store (app b))
  /\ isProcessingCancelled (app b') = isProcessingCancelled (app b)
  /\ match outcome i file with
     | Succeeded _ => processingErrors b' = processingErrors b
     | ItemError _ =>
         exists m, processingErrors b' = (processingErrors b ++ [m])%list
     | SentinelFailure m =>
         processingErrors b' = (processingErrors b ++ [m])%list
     | QuotaStop =>
         processingErrors b' = processingErrors b
         /\ app_status (app b') = ERROR
     end.

End WithPlatform.

(** The batch a pass ends with. *)
Definition batch_of (s : Step) : Batch :=
  match s with Next b | Stop b => b end.

End PipelineSpec.

(* ================================================================== *)
(** ** Concrete data for running the code *)
(* ================================================================== *)

Module Examples.

(** An HTTP 429 answer and a server error. *)
Definition rate_limited : Gemini.ApiError :=
  {| Gemini.err_status := Some 429%Z; Gemini.err_code := None;
     Gemini.err_message := Some "Too Many Requests" |}.

Definition server_error : Gemini.ApiError :=
  {| Gemini.err_status := Some 500%Z; Gemini.err_code := None;
     Gemini.err_message := Some "Internal error" |}.

(** An error that tells of the quota in its message only. *)
Definition quota_message : Gemini.ApiError :=
  {| Gemini.err_status := None; Gemini.err_code := None;
     Gemini.err_message := Some "You exceeded your current quota" |}.

Definition mail : ParsedEmailRaw :=
  {| raw_fileName := "a.eml"; rawDate := "Sat, 29 Nov 2025 07:50:00 +0000";
     rawSubject := "Cython"; bodyText := "Cython makes Python fast." |}.

Definition record (file : string) (links : list string) : AnalyzedEmail :=
  {| id := "00000000-0000-4000-8000-000000000000";
     fileName := file;
     fechaEnvio := "2025-11-29 07:50:00";
     tematica := "Tutorial Cython";
     etiquetas := ["Python"; "Cython"];
     contenido := "<p>Resumen</p>";
     urls := links;
     status := completed;
     errorMessage := None |}.

(** The same post, delivered under two file names and two hosts. *)
Definition post_a : AnalyzedEmail :=
  record "a.eml" ["https://twitter.com/u/status/1?s=20"].

Definition post_b : AnalyzedEmail :=
  record "b.eml" ["https://x.com/u/status/1"].

(** A record without file name, and an unrelated one. *)
Definition nameless : AnalyzedEmail :=
  record EmptyString ["https://example.com/x"].

Definition other : AnalyzedEmail :=
  record "c.eml" ["https://github.com/a/b"].

(** A queue of two files in a freshly opened application. *)
Definition fresh (queue : list App.File) (st : ProcessingStatus) : App.AppState :=
  {| App.files := queue; App.processedEmails := []; App.app_status := st;
     App.progress := {| App.current := 0; App.total := 0;
                        App.currentFile := None |};
     App.errorMsg := None; App.isApiKeyValid := true;
     App.isProcessingCancelled := false; App.store := Db.empty_store |}.

Definition two_files : list App.File :=
  [ {| App.name := "a.eml" |}; {| App.name := "b.eml" |} ].

Definition answer : Gemini.Analysis :=
  {| Gemini.a_tematica := "Tutorial Cython";
     Gemini.a_etiquetas := ["Python"; "Cython"];
     Gemini.a_contenido_resumido := "<p>Resumen</p>";
     Gemini.a_urls := ["https://example.com/cython"];
     Gemini.a_fecha_normalizada := "2025-11-29 07:50:00" |}.

(** An item around which nothing special happens, analysed by
    [service]. *)
Definition calm (service : Gemini.Service) : App.ItemEnv :=
  {| App.stop_during_pause := None; App.parsed := Ok mail;
     App.service := service; App.stop_during_work := false;
     App.uuid := "00000000-0000-4000-8000-000000000000";
     App.now := "2025-11-29T07:50:00.000Z"; App.storage := None |}.

(** Every request is answered with HTTP 429. *)
Definition exhausted (i : nat) : App.ItemEnv :=
  calm (fun _ => Gemini.Failed rate_limited).

(** The first item fails five times with a server error, the others
    are analysed. *)
Definition first_fails (i : nat) : App.ItemEnv :=
  match i with
  | O => calm (fun _ => Gemini.Failed server_error)
  | S _ => calm (fun _ => Gemini.Responded answer)
  end.

(** The stop button is pressed while the first item is worked on. *)
Definition stopped (i : nat) : App.ItemEnv :=
  {| App.stop_during_pause := None; App.parsed := Ok mail;
     App.service := fun _ => Gemini.Responded answer;
     App.stop_during_work := Nat.eqb i 0;
     App.uuid := "00000000-0000-4000-8000-000000000000";
     App.now := "2025-11-29T07:50:00.000Z"; App.storage := None |}.

(** [trim] on text without surrounding white space. *)
Definition no_trim (s : string) : string := s.

(** A table with a row whose tags are not JSON. *)
Definition damaged : Db.Database :=
  {| Db.emails :=
       [ {| Db.row_id := 1; Db.row_fileName := Some "a.eml";
            Db.row_fechaEnvio := Some "2025-11-29 07:50:00";
            Db.row_tematica := Some "Tutorial";
            Db.row_etiquetas := Some "Python, Cython";
            Db.row_contenido := Some "<p>Resumen</p>";
            Db.row_urls := Some "[]" |} ];
     Db.sqlite_sequence := 1 |}.

End Examples.

(* ================================================================== *)
(** ** JavaScript string functions used by the other operations *)
(* ================================================================== *)

Module Js.

Import Str.

Definition code (c : ascii) : nat := nat_of_ascii c.

(** The white space and line terminators of ECMAScript that are one
    UTF-16 code unit below 128: TAB, LF, VT, FF, CR and SPACE. *)
Definition is_space1 (a : ascii) : bool :=
  ((9 <=? code a) && (code a <=? 13) || (code a =? 32))%nat.

(** U+00A0, written in UTF-8. *)
Definition is_space2 (a b : ascii) : bool :=
  ((code a =? 194) && (code b =? 160))%nat.

(** U+1680, U+2000 to U+200A, U+2028, U+2029, U+202F, U+205F, U+3000
    and U+FEFF, written in UTF-8. *)
Definition is_space3 (a b c : ascii) : bool :=
  ((code a =? 225) && (code b =? 154) && (code c =? 128)
   || (code a =? 226) && (code b =? 128)
      && ((128 <=? code c) && (code c <=? 138)
          || (code c =? 168) || (code c =? 169) || (code c =? 175))
   || (code a =? 226) && (code b =? 129) && (code c =? 159)
   || (code a =? 227) && (code b =? 128) && (code c =? 128)
   || (code a =? 239) && (code b =? 187) && (code c =? 191))%nat.

(** [s.trimStart()] *)
Fixpoint trimStart (s : string) : string :=
  match s with
  | EmptyString => EmptyString
  | String a s1 =>
      if is_space1 a then trimStart s1
      else
        match s1 with
        | EmptyString => s
        | String b s2 =>
            if is_space2 a b then trimStart s2
            else
              match s2 with
              | EmptyString => s
              | String c s3 => if is_space3 a b c then trimStart s3 else s
              end
        end
  end.

(** [s.trimEnd()]: the characters are kept up to the last one that is
    followed by something else than white space. *)
Fixpoint trimEnd (s : string) : string :=
  match s with
  | EmptyString => EmptyString
  | String a s' =>
      if is_empty (trimStart s) then EmptyString else String a (trimEnd s')
  end.

(** [s.trim()] *)
Definition trim (s : string) : string := trimEnd (trimStart s).

(** [parseInt(s, 10)]: white space, an optional sign and the longest
    run of decimal digits; [None] is [NaN].  The number is given
    exactly; JavaScript rounds it to a double, which changes nothing
    below 2^53. *)
Definition parseInt (s : string) : option Z :=
  let s := trimStart s in
  let (negative, s) :=
    match s with
    | String "-" r => (true, r)
    | String "+" r => (false, r)
    | _ => (false, s)
    end in
  let (digits, _) := span is_digit s in
  match NilZero.uint_of_string digits with
  | Some u =>
      let n := Z.of_N (N.of_uint u) in
      Some (if negative then (- n)%Z else n)
  | None => None
  end.

End Js.

(* ================================================================== *)
(** ** services/dbService.ts: looking up and deleting records *)
(* ================================================================== *)

Module DbOps.

Import Str Db.

(** [checkEmailExists(fileName)] *)
Definition checkEmailExists (fileName : string) (d : Database) : bool :=
  has (getExistingFileNames d) fileName.

(** The connection to the in-memory database: the table, and inside a
    transaction the table to go back to on [ROLLBACK]. *)
Record Connection := {
  table : Database;
  savepoint : option Database
}.

(** A statement run on the connection returns or throws, and leaves a
    connection behind in either case. *)
Definition Tx (A : Type) : Type := Connection -> Connection * Result A.

Definition ret {A} (a : A) : Tx A := fun c => (c, Ok a).

Definition raise {A} (message : string) : Tx A := fun c => (c, Throw message).

Definition seq {A B} (m : Tx A) (k : A -> Tx B) : Tx B :=
  fun c =>
    match m c with
    | (c', Ok a) => k a c'
    | (c', Throw e) => (c', Throw e)
    end.

(** [try { body } catch (error) { handler(error.message) }] *)
Definition try_catch {A} (body : Tx A) (handler : string -> Tx A) : Tx A :=
  fun c =>
    match body c with
    | (c', Ok a) => (c', Ok a)
    | (c', Throw e) => handler e c'
    end.

(** [db.run("BEGIN;")], [db.run("COMMIT;")] and [db.run("ROLLBACK;")],
    with the errors SQLite reports when the statement does not fit the
    state of the connection. *)
Definition run_BEGIN : Tx unit :=
  fun c =>
    match savepoint c with
    | Some _ => (c, Throw "cannot start a transaction within a transaction")
    | None => ({| table := table c; savepoint := Some (table c) |}, Ok tt)
    end.

Definition run_COMMIT : Tx unit :=
  fun c =>
    match savepoint c with
    | Some _ => ({| table := table c; savepoint := None |}, Ok tt)
    | None => (c, Throw "cannot commit - no transaction is active")
    end.

Definition run_ROLLBACK : Tx unit :=
  fun c =>
    match savepoint c with
    | Some d => ({| table := d; savepoint := None |}, Ok tt)
    | None => (c, Throw "cannot rollback - no transaction is active")
    end.

Definition is_bound (numbers : list (option Z)) (i : Z) : bool :=
  existsb (fun n => match n with
                    | Some k => Z.eqb k i
                    | None => false
                    end) numbers.

(** [DELETE FROM emails WHERE id IN (?, ..., ?)] with the numbers
    bound to the placeholders; [NaN] is bound as [NULL], which no id
    equals.  The statement is taken to be prepared and run without
    error. *)
Definition run_DELETE (numbers : list (option Z)) : Tx unit :=
  fun c =>
    ({| table := {| emails := filter (fun r => negb (is_bound numbers (row_id r)))
                                     (emails (table c));
                    sqlite_sequence := sqlite_sequence (table c) |};
        savepoint := savepoint c |}, Ok tt).

(** [db.export()] followed by [saveDBToStorage]: [storage] is [None]
    when the write succeeds and the message of the error otherwise.
    The copy written is returned. *)
Definition persist (storage : option string) : Tx Database :=
  fun c =>
    match storage with
    | None => (c, Ok (table c))
    | Some m => (c, Throw m)
    end.

(** The body of [deleteRecords] for a list of ids that is not empty. *)
Definition delete_transaction (storage : option string) (ids : list string)
    : Tx Database :=
  seq run_BEGIN (fun _ =>
  try_catch
    (seq (run_DELETE (map Js.parseInt ids)) (fun _ =>
     seq run_COMMIT (fun _ =>
     persist storage)))
    (fun message =>
       seq run_ROLLBACK (fun _ =>
       raise ("Error eliminando registros: " ++ message)))).

(** [deleteRecords(ids)].  Between two calls no transaction is open:
    every operation of the service commits before it returns. *)
Definition deleteRecords (storage : option string) (ids : list string)
    (st : Store) : Store * Result unit :=
  match ids with
  | [] => (st, Ok tt)
  | _ :: _ =>
      match delete_transaction storage ids
              {| table := db st; savepoint := None |} with
      | (c, Ok written) => ({| db := table c; idb := Some written |}, Ok tt)
      | (c, Throw m) => ({| db := table c; idb := idb st |}, Throw m)
      end
  end.

End DbOps.

(* ================================================================== *)
(** ** services/dbService.ts: merging an uploaded database *)
(* ================================================================== *)

(** [importDb] is modelled for uploaded files that hold a table
    [emails] with the columns of [initTable] and [TEXT] or [NULL]
    cells, as the files written by [exportDb] do; such a file is given
    as a [Database].  Where a JSON cell holds an array, its items have
    to be strings: for other items the result is [None], which stands
    for a file outside of what is modelled. *)
Module DbImport.

Import Str Db.

(** What [JSON.parse] and [Array.isArray] make of the text of a JSON
    cell. *)
Inductive Decoded :=
| NotJson
| NotArray
| Strings (items : list string)
| Mixed.

Definition all_text (items : list Json.value) : bool :=
  List.forallb (fun v => match v with Json.Text _ => true | _ => false end) items.

Definition decode (text : string) : Decoded :=
  match Json.parse text with
  | None => NotJson
  | Some (Json.Arr items) =>
      if all_text items then Strings (Json.texts items) else Mixed
  | Some _ => NotArray
  end.

(** [c || null] on a cell. *)
Definition or_null (c : cell) : cell :=
  match c with
  | Some s => if is_empty s then None else Some s
  | None => None
  end.

(** The object [importDb] returns. *)
Record Report := {
  imported : nat;
  skipped : nat;
  report_errors : option (list string)
}.

(** The state the [forEach] over the rows of the file carries. *)
Record Importing := {
  im_db : Database;
  im_index : Index;
  importedCount : nat;
  skippedCount : nat;
  im_errors : list string
}.

Section WithURL.

Context {api : URLApi}.

Import Normalizer.

(** Step 1 of the duplicate check: a [urls] cell that is empty, is no
    JSON or holds no array says nothing; the links of an array are
    looked up as in [saveToDb]. *)
Definition url_duplicate_of_cell (ix : Index) (c : cell)
    : option (option (option string)) :=
  match or_null c with
  | None => Some None
  | Some text =>
      match decode text with
      | NotJson | NotArray => Some None
      | Strings links => Some (url_duplicate ix links (normalizeUrls links))
      | Mixed => None
      end
  end.

(** The text written into a JSON column: the array of the cell written
    anew, or [[]] when the cell is empty, is no JSON or holds no
    array. *)
Definition sanitized (c : cell) : option (list string) :=
  match or_null c with
  | None => Some []
  | Some text =>
      match decode text with
      | NotJson | NotArray => Some []
      | Strings items => Some items
      | Mixed => None
      end
  end.

(** One callback of [values.forEach((row, index) => ...)].  The
    prepared [INSERT] is taken to succeed. *)
Definition import_row (index : nat) (r : Row) (s : Importing) : option Importing :=
  match or_null (row_fileName r) with
  | None =>
      Some {| im_db := im_db s; im_index := im_index s;
              importedCount := importedCount s;
              skippedCount := S (skippedCount s);
              im_errors := (im_errors s
                            ++ [("Fila " ++ of_nat (index + 1)
                                 ++ ": fileName faltante, omitida")%string])%list |}
  | Some fileName =>
      match url_duplicate_of_cell (im_index s) (row_urls r) with
      | None => None
      | Some (Some _) =>
          Some {| im_db := im_db s; im_index := im_index s;
                  importedCount := importedCount s;
                  skippedCount := S (skippedCount s);
                  im_errors := im_errors s |}
      | Some None =>
          if has (existingFileNames (im_index s)) fileName then
            Some {| im_db := im_db s; im_index := im_index s;
                    importedCount := importedCount s;
                    skippedCount := S (skippedCount s);
                    im_errors := im_errors s |}
          else
            match sanitized (row_etiquetas r), sanitized (row_urls r) with
            | Some tags, Some links =>
                Some {| im_db :=
                          insert (Some fileName)
                                 (or_null (row_fechaEnvio r))
                                 (or_null (row_tematica r))
                                 (Some (Json.stringify_strings tags))
                                 (or_null (row_contenido r))
                                 (Some (Json.stringify_strings links))
                                 (im_db s);
                        im_index :=
                          {| existingFileNames :=
                               (existingFileNames (im_index s) ++ [fileName])%list;
                             existingUrlSets :=
                               (existingUrlSets (im_index s) ++ links)%list;
                             existingNormalizedUrlSets :=
                               (existingNormalizedUrlSets (im_index s)
                                ++ map normalizeUrl links)%list |};
                        importedCount := S (importedCount s);
                        skippedCount := skippedCount s;
                        im_errors := im_errors s |}
            | _, _ => None
            end
      end
  end.

Fixpoint import_each (index : nat) (rows : list Row) (s : Importing)
    : option Importing :=
  match rows with
  | [] => Some s
  | r :: rest =>
      match import_row index r s with
      | Some s' => import_each (S index) rest s'
      | None => None
      end
  end.

Definition start_importing (d : Database) : Importing :=
  {| im_db := d; im_index := build_index d; importedCount := 0;
     skippedCount := 0; im_errors := [] |}.

(** [importDb(file)] with [SQL.js] loaded.  [storage] is the behaviour
    of [saveDBToStorage] during this call, as for [saveToDb]; its error
    is not caught. *)
Definition importDb (storage : option string) (file : Database) (st : Store)
    : option (Store * Result Report) :=
  match emails file with
  | [] => Some (st, Ok {| imported := 0; skipped := 0; report_errors := None |})
  | _ :: _ =>
      match import_each 0 (emails file) (start_importing (db st)) with
      | None => None
      | Some s =>
          let report :=
            {| imported := importedCount s; skipped := skippedCount s;
               report_errors := match im_errors s with
                                | [] => None
                                | _ :: _ => Some (im_errors s)
                                end |} in
          if Nat.ltb 0 (importedCount s) then
            match storage with
            | None => Some ({| db := im_db s; idb := Some (im_db s) |}, Ok report)
            | Some m => Some ({| db := im_db s; idb := idb st |}, Throw m)
            end
          else Some ({| db := im_db s; idb := idb st |}, Ok report)
      end
  end.

End WithURL.

End DbImport.

(* ================================================================== *)
(** ** services/dbService.ts: opening and resetting the database *)
(* ================================================================== *)

(** A database file is given as the [Database] it holds: [db.export()]
    and [new SQL.Database(data)] are taken to be inverse to each
    other. *)
Module DbSession.

Import Str Db.

(** How [window.initSqlJs] behaves: it is not defined, its promise is
    rejected, or it gives the library. *)
Inductive SqlJs :=
| Missing
| Rejects (message : string)
| Ready.

(** What the page is served with: the library, the thirty dates
    [toISOString().slice(0, 10)] gives for today and the days before,
    and for a path the database in the file [fetch] answers with ([None]
    when the request fails, is not answered with [ok], or the file does
    not start with the SQLite header). *)
Record Site := {
  sqljs : SqlJs;
  dates : list string;
  served : string -> option Database
}.

(** The module variable [dbInstance] and the value IndexedDB keeps
    under [main_db]. *)
Record Browser := {
  dbInstance : option Database;
  main_db : option Database
}.

(** The errors of IndexedDB during a call: of [indexedDB.open] and of
    the [get] in [loadDBFromStorage], and of the [put] in
    [saveDBToStorage]; [None] when they succeed. *)
Record Idb := {
  read_error : option string;
  write_error : option string
}.

Definition possibleFiles (site : Site) : list string :=
  (flat_map (fun dateStr =>
               [("bd/email_intelligence_" ++ dateStr ++ ".sqlite")%string;
                ("/bd/email_intelligence_" ++ dateStr ++ ".sqlite")%string])
            (dates site)
   ++ ["bd/email_intelligence_2025-11-30.sqlite";
       "/bd/email_intelligence_2025-11-30.sqlite"])%list.

(** [loadDBFromBdFolder()]: the first of the files that is served. *)
Fixpoint first_served (served : string -> option Database) (paths : list string)
    : option Database :=
  match paths with
  | [] => None
  | p :: rest =>
      match served p with
      | Some d => Some d
      | None => first_served served rest
      end
  end.

Definition loadDBFromBdFolder (site : Site) : option Database :=
  first_served (served site) (possibleFiles site).

(** The copy written back to IndexedDB after loading; an error of the
    write is caught. *)
Definition synchronized (idb : Idb) (d : Database) (b : Browser) : Browser :=
  {| dbInstance := Some d;
     main_db := match write_error idb with
                | None => Some d
                | Some _ => main_db b
                end |}.

(** [loadSqlJs()] *)
Definition loadSqlJs (site : Site) (idb : Idb) (b : Browser)
    : Browser * Result Database :=
  match dbInstance b with
  | Some d => (b, Ok d)
  | None =>
      match sqljs site with
      | Missing => (b, Throw "SQL.js not loaded properly in index.html")
      | Rejects m => (b, Throw m)
      | Ready =>
          match loadDBFromBdFolder site with
          | Some d => (synchronized idb d b, Ok d)
          | None =>
              match read_error idb with
              | Some m => (b, Throw m)
              | None =>
                  match main_db b with
                  | Some d => (synchronized idb d b, Ok d)
                  | None => ({| dbInstance := Some empty; main_db := None |},
                             Ok empty)
                  end
              end
          end
      end
  end.

(** [resetDb()].  The request that deletes [main_db] is not awaited and
    its outcome is not looked at; it is taken to succeed. *)
Definition resetDb (site : Site) (open_error : option string) (idb : Idb)
    (b : Browser) : Browser * Result unit :=
  let closed := {| dbInstance := None; main_db := main_db b |} in
  match open_error with
  | Some m => (closed, Throw m)
  | None =>
      let (b', r) := loadSqlJs site idb {| dbInstance := None; main_db := None |} in
      (b', bind r (fun _ => Ok tt))
  end.

(** The browser in which a store is open, and the one found when the
    page is loaded again. *)
Definition browser_of (st : Store) : Browser :=
  {| dbInstance := Some (db st); main_db := idb st |}.

Definition reloaded (st : Store) : Browser :=
  {| dbInstance := None; main_db := idb st |}.

End DbSession.

(* ================================================================== *)
(** ** Notions about the stores the operations reach *)
(* ================================================================== *)

Module OpsSpec.

Import Str Db DbOps DbImport.

(** Every id of the table is at most the counter of [AUTOINCREMENT]. *)
Definition counted (d : Database) : Prop :=
  forall r, In r (emails d) -> (row_id r <= sqlite_sequence d)%Z.

(** The JSON cells of every row hold arrays. *)
Definition decodable (d : Database) : Prop :=
  forall r, In r (emails d) ->
    Spec.holds_array (row_etiquetas r) /\ Spec.holds_array (row_urls r).

(** The table of a store as the operations of the service leave it. *)
Definition sound (d : Database) : Prop :=
  Spec.ascending (emails d) /\ counted d /\ decodable d.

(** The ids of the table are integers that a number of JavaScript holds
    exactly, so that [entry.id.toString()] and [parseInt(id, 10)] are
    the decimal numeral of the id and the id of the numeral. *)
Definition safe_ids (d : Database) : Prop :=
  forall r, In r (emails d) -> (- 2 ^ 53 <= row_id r <= 2 ^ 53)%Z.

(** The JSON cells for which [importDb] is modelled: a cell that holds
    an array holds strings only. *)
Definition strings_only (c : cell) : bool :=
  match or_null c with
  | None => true
  | Some text =>
      match decode text with
      | Mixed => false
      | _ => true
      end
  end.

(** The uploaded files for which [importDb] is modelled. *)
Definition modelled (file : Database) : bool :=
  List.forallb (fun r => strings_only (row_etiquetas r) && strings_only (row_urls r))
               (emails file).

(** The sets of one index are among those of the other. *)
Definition index_le (ix ix' : Index) : Prop :=
  incl (existingFileNames ix) (existingFileNames ix')
  /\ incl (existingUrlSets ix) (existingUrlSets ix')
  /\ incl (existingNormalizedUrlSets ix) (existingNormalizedUrlSets ix').

Section WithURL.

Context {api : URLApi}.

(** The stores reached from the empty store by calls of [saveToDb],
    [deleteRecords] and [importDb], whatever the calls return. *)
Inductive reachable : Store -> Prop :=
| reach_empty : reachable empty_store
| reach_save (storage : option string) (batch : list AnalyzedEmail) (st : Store) :
    reachable st -> reachable (fst (saveToDb storage batch st))
| reach_delete (storage : option string) (ids : list string) (st : Store) :
    reachable st -> reachable (fst (deleteRecords storage ids st))
| reach_import (storage : option string) (file : Database) (st st' : Store)
    (r : Result Report) :
    reachable st -> importDb storage file st = Some (st', r) -> reachable st'.

(** The index in the loop of [saveToDb] is the index of the table at
    that moment. *)
Definition coherent (s : Saving) : Prop := sv_index s = build_index (sv_db s).

(** The same for the loop of [importDb]. *)
Definition im_coherent (s : Importing) : Prop :=
  im_index s = build_index (im_db s).

(** A record is known to an index by a link or by its file name. *)
Definition known (ix : Index) (e : AnalyzedEmail) : Prop :=
  Spec.url_known ix e \/ Spec.name_known ix e.

(** [importDb] leaves out a row for an index: the row has no file
    name, one of its links is known, or its file name is. *)
Definition left_out (ix : Index) (r : Row) : bool :=
  match or_null (row_fileName r) with
  | None => true
  | Some fileName =>
      match url_duplicate_of_cell ix (row_urls r) with
      | Some (Some _) => true
      | Some None => has (existingFileNames ix) fileName
      | None => false
      end
  end.

(** A record of a call is found again in the table: by one of its
    links, or by its file name. *)
Definition found_again (e : AnalyzedEmail) (d : Database) : Prop :=
  Spec.url_known (build_index d) e \/ checkEmailExists (fileName e) d = true.

End WithURL.

(** The ids of the records [getAllEmails] returned. *)
Definition ids_of (l : list StoredEmail) : list string := map se_id l.

(** The records that are not among [ids]. *)
Definition without (ids : list string) (l : list StoredEmail) : list StoredEmail :=
  filter (fun e => negb (has ids (se_id e))) l.

End OpsSpec.

(* ================================================================== *)
(** ** Stores and files for running the operations *)
(* ================================================================== *)

Module OpsExamples.

Import Db DbOps DbImport DbSession Examples.

Local Abbreviation api := WhatwgFragment.api.

(** A store with two records, and the records [getAllEmails] returns
    for it. *)
Definition two_saved : Store :=
  fst (@saveToDb api None [post_a; other] empty_store).

Definition listed : list StoredEmail :=
  match getAllEmails (db two_saved) with
  | Ok l => l
  | Throw _ => []
  end.

(** An uploaded file with four rows: one with a file name the store
    has, one that is new and whose tags are no JSON, one without file
    name, and one with a link of a post the store has under the other
    host. *)
Definition incoming : Database :=
  {| emails :=
       [ {| row_id := 7; row_fileName := Some "a.eml";
            row_fechaEnvio := Some "2025-11-29 07:50:00";
            row_tematica := Some "Tutorial";
            row_etiquetas := Some "[]";
            row_contenido := Some "<p>Resumen</p>";
            row_urls := Some "[]" |};
         {| row_id := 8; row_fileName := Some "n.eml";
            row_fechaEnvio := Some "2025-12-01 09:00:00";
            row_tematica := Some "Novedades";
            row_etiquetas := Some "Python, Cython";
            row_contenido := None;
            row_urls := Some (Json.stringify_strings ["https://example.com/n"]) |};
         {| row_id := 9; row_fileName := None;
            row_fechaEnvio := None; row_tematica := None;
            row_etiquetas := None; row_contenido := None;
            row_urls := None |};
         {| row_id := 10; row_fileName := Some "m.eml";
            row_fechaEnvio := None; row_tematica := None;
            row_etiquetas := Some "[]"; row_contenido := None;
            row_urls := Some (Json.stringify_strings ["https://x.com/u/status/1"]) |} ];
     sqlite_sequence := 10 |}.

(** What [importDb] makes of this file in the store with two records. *)
Definition merged : Store :=
  match @importDb api None incoming two_saved with
  | Some (st, _) => st
  | None => two_saved
  end.

Definition merge_report : Report :=
  {| imported := 1; skipped := 3;
     report_errors := Some ["Fila 3: fileName faltante, omitida"] |}.

(** The row [importDb] writes for the new row of the file. *)
Definition arrived : Row :=
  {| row_id := 3; row_fileName := Some "n.eml";
     row_fechaEnvio := Some "2025-12-01 09:00:00";
     row_tematica := Some "Novedades";
     row_etiquetas := Some "[]";
     row_contenido := None;
     row_urls := Some (Json.stringify_strings ["https://example.com/n"]) |}.

(** The row of a record saved after both rows were deleted. *)
Definition saved_anew : Row :=
  last (emails (db (fst (@saveToDb api None [post_a]
                           (fst (deleteRecords None ["2"; "1"] two_saved))))))
       (Build_Row 0 None None None None None None).

(** A site that serves the file written the day before. *)
Definition yesterday : Site :=
  {| sqljs := Ready;
     dates := ["2025-12-02"; "2025-12-01"];
     served := fun path =>
       if String.eqb path "/bd/email_intelligence_2025-12-01.sqlite"
       then Some damaged else None |}.

(** A site that serves nothing but the library. *)
Definition bare_site : Site :=
  {| sqljs := Ready; dates := ["2025-12-02"]; served := fun _ => None |}.

Definition works : Idb := {| read_error := None; write_error := None |}.

End OpsExamples.

(* ================================================================== *)
(** ** services/loggerService.ts *)
(* ================================================================== *)

Module Logger.

Inductive Level := info | warn | error | debug.

(** [array.slice(start)] for an integer [start]: a negative [start]
    counts from the end. *)
Definition slice_from {A} (start : Z) (l : list A) : list A :=
  let len := Z.of_nat (List.length l) in
  let k := if (start <? 0)%Z then Z.max (len + start) 0 else Z.min start len in
  skipn (Z.to_nat k) l.

Section WithData.

(** The values logged with a message, as [JSON.parse(JSON.stringify(data))]
    returns them; [clone] is that composition, which can throw. *)
Variable Data : Type.
Variable clone : Data -> Result Data.

Record LogEntry := {
  timestamp : string;
  level : Level;
  category : string;
  message : string;
  data : option Data
}.

Definition maxLogs : Z := 10000.

(** [log(level, category, message, data)] at the time [now]; [data] is
    [None] for a value that is not truthy.  The lines written to the
    console are left out. *)
Definition log (now : string) (lv : Level) (cat msg : string) (d : option Data)
    (logs : list LogEntry) : Result (list LogEntry) :=
  bind (match d with
        | Some x => bind (clone x) (fun c => Ok (Some c))
        | None => Ok None
        end)
       (fun payload =>
          let entry := {| timestamp := now; level := lv; category := cat;
                          message := msg; data := payload |} in
          let logs := (logs ++ [entry])%list in
          Ok (if (Z.of_nat (List.length logs) >? maxLogs)%Z
              then slice_from (- maxLogs) logs
              else logs)).

Definition is_error (e : LogEntry) : bool :=
  match level e with error => true | _ => false end.

(** [getErrorCount()] *)
Definition getErrorCount (logs : list LogEntry) : nat :=
  List.length (filter is_error logs).

(** [getRecentErrors(count)] for an integer [count] *)
Definition getRecentErrors (count : Z) (logs : list LogEntry) : list LogEntry :=
  slice_from (- count) (filter is_error logs).

End WithData.

End Logger.

(* ================================================================== *)
(** ** services/geminiService.ts: the check of the API key *)
(* ================================================================== *)

Module GeminiKey.

Import Str.

(** [validateApiKeyConfiguration()] for the value of
    [process.env.API_KEY] *)
Definition validateApiKeyConfiguration (apiKey : option string) : bool :=
  match apiKey with
  | Some k => negb (is_empty k) && negb (is_empty (Js.trim k))
  | None => false
  end.

End GeminiKey.

(* ================================================================== *)
(** ** App.tsx: the handlers of the queue, the filters and the selection *)
(* ================================================================== *)

Module Handlers.

Import Str App.

(** [handleFilesDropped(newFiles)].  [setActiveTab] is left out: the
    tab is not part of [AppState]. *)
Definition handleFilesDropped (newFiles : list File) (a : AppState) : AppState :=
  let existingFileNames := Db.getExistingFileNames (Db.db (store a)) in
  let newFilesToProcess :=
    filter (fun file => negb (Db.has existingFileNames (name file))) newFiles in
  if (List.length newFilesToProcess =? 0)%nat then
    setFiles []
      (setErrorMsg
         (Some ("Todos los archivos seleccionados ya han sido procesados. Se omitieron "
                ++ of_nat (List.length newFiles) ++ " archivo(s).")) a)
  else
    let a :=
      if (List.length newFilesToProcess <? List.length newFiles)%nat then
        let skippedCount := List.length newFiles - List.length newFilesToProcess in
        setErrorMsg
          (Some (of_nat skippedCount
                 ++ " archivo(s) ya procesado(s) fueron omitidos. "
                 ++ of_nat (List.length newFilesToProcess)
                 ++ " archivo(s) nuevo(s) listo(s) para procesar.")) a
      else setErrorMsg None a in
    setStatus IDLE (setFiles newFilesToProcess a).

(** The filters and the selection of the table of results.  A
    [Set<string>] is the list of its members in the order in which they
    were added. *)
Record View := {
  filterTopics : list string;
  filterTags : list string;
  selectedIds : list string
}.

(** [prev.includes(x) ? prev.filter(t => t !== x) : [...prev, x]] *)
Definition toggle (x : string) (prev : list string) : list string :=
  if Db.has prev x then filter (fun t => negb (String.eqb t x)) prev
  else (prev ++ [x])%list.

Definition toggleTopic (topic : string) (v : View) : View :=
  {| filterTopics := toggle topic (filterTopics v);
     filterTags := filterTags v; selectedIds := selectedIds v |}.

Definition toggleTag (tag : string) (v : View) : View :=
  {| filterTopics := filterTopics v;
     filterTags := toggle tag (filterTags v); selectedIds := selectedIds v |}.

(** [new Set(values)] *)
Fixpoint set_of (values : list string) : list string :=
  match values with
  | [] => []
  | x :: rest => x :: filter (fun y => negb (String.eqb y x)) (set_of rest)
  end.

(** The effect that runs when [filteredEmails] has changed: the ids
    that are no longer shown leave the selection. *)
Definition keep_visible (filteredEmails : list AnalyzedEmail) (v : View) : View :=
  let visibleIds := set_of (map id filteredEmails) in
  {| filterTopics := filterTopics v; filterTags := filterTags v;
     selectedIds := filter (fun i => Db.has visibleIds i) (selectedIds v) |}.

(** [toggleSelectAll()] *)
Definition toggleSelectAll (filteredEmails : list AnalyzedEmail) (v : View) : View :=
  {| filterTopics := filterTopics v; filterTags := filterTags v;
     selectedIds :=
       if (List.length (selectedIds v) =? List.length filteredEmails)%nat
       then []
       else set_of (map id filteredEmails) |}.

(** [toggleSelectId(id)] *)
Definition toggleSelectId (i : string) (v : View) : View :=
  {| filterTopics := filterTopics v; filterTags := filterTags v;
     selectedIds :=
       if Db.has (selectedIds v) i
       then filter (fun y => negb (String.eqb y i)) (selectedIds v)
       else (selectedIds v ++ [i])%list |}.

End Handlers.

(* ================================================================== *)
(** ** Notions about the view *)
(* ================================================================== *)

Module ViewSpec.

Import Handlers.

(** The selection holds no id twice and only ids of records shown. *)
Definition selection_ok (filteredEmails : list AnalyzedEmail) (v : View) : Prop :=
  NoDup (selectedIds v) /\ incl (selectedIds v) (map id filteredEmails).

(** Every record shown is selected. *)
Definition all_selected (filteredEmails : list AnalyzedEmail) (v : View) : Prop :=
  incl (map id filteredEmails) (selectedIds v).

End ViewSpec.

(* ================================================================== *)
(** ** Data for running the handlers *)
(* ================================================================== *)

Module UiExamples.

Import App Examples Handlers.

(** Every file of the queue is unreadable. *)
Definition unreadable (i : nat) : ItemEnv :=
  {| stop_during_pause := None; parsed := Throw "file.text is not a function";
     service := fun _ => Gemini.Responded answer; stop_during_work := false;
     uuid := "00000000-0000-4000-8000-000000000000";
     now := "2025-11-29T07:50:00.000Z"; storage := None |}.

Definition shown : list AnalyzedEmail :=
  [ {| id := "2"; fileName := "b.eml"; fechaEnvio := "2025-11-29 07:50:00";
       tematica := "Tutorial"; etiquetas := ["Python"]; contenido := "<p>b</p>";
       urls := []; status := completed; errorMessage := None |};
    {| id := "1"; fileName := "a.eml"; fechaEnvio := "2025-11-28 07:50:00";
       tematica := "Tutorial"; etiquetas := ["Cython"]; contenido := "<p>a</p>";
       urls := []; status := completed; errorMessage := None |} ].

Definition one_selected : View :=
  {| filterTopics := ["Tutorial"]; filterTags := []; selectedIds := ["1"] |}.

End UiExamples.

(* ================================================================== *)
(** ** Notions about the saves of a batch *)
(* ================================================================== *)

Module BatchSpec.

Import Str App PipelineSpec Db OpsSpec.

Section WithPlatform.

Context {api : URLApi}.
Variable env : nat -> ItemEnv.

(** The table of the batch is the one the one-record calls logged in
    the trace leave, started from the store [st0], and every record in
    [results] without an empty file name is known to it. *)
Definition saved_by_items (st0 : Store) (b : Batch) : Prop :=
  db (store (app b)) = db (append_all env (appended (trace b)) st0)
  /\ forall e, In e (results b) ->
       fileName e = EmptyString \/ known (build_index (db (store (app b)))) e.

End WithPlatform.

(** A step that saves nothing and adds no record to [results]. *)
Definition same_saves (b b' : Batch) : Prop :=
  store (app b') = store (app b)
  /\ results b' = results b
  /\ appended (trace b') = appended (trace b).

End BatchSpec.

(* ================================================================== *)
(** ** services/parserService.ts *)
(* ================================================================== *)

(** The text of a file is a string of bytes, UTF-8 as everywhere; what
    JavaScript counts are UTF-16 code units, of which a character
    written in one to three bytes has one and a character written in
    four bytes has two.  The regular expressions of [parseEmlFile] are
    written out as the scans they perform; all their literals are
    ASCII. *)
Module Parser.

Import Str.

Export Utf16.

Definition CR : ascii := ascii_of_nat 13.
Definition LF : ascii := ascii_of_nat 10.

(** **** Lines *)

(** A line terminator at the head of [s] ([\n], [\r], U+2028 or
    U+2029), and what follows it. *)
Definition terminator (s : string) : option string :=
  match s with
  | String a r =>
      if ((code a =? 10) || (code a =? 13))%nat then Some r
      else
        match r with
        | String b (String c r') =>
            if ((code a =? 226) && (code b =? 128)
                && ((code c =? 168) || (code c =? 169)))%nat
            then Some r' else None
        | _ => None
        end
  | EmptyString => None
  end.

(** [(.+)]: the characters up to the next line terminator. *)
Fixpoint line (s : string) : string :=
  match terminator s with
  | Some _ => EmptyString
  | None =>
      match s with
      | EmptyString => EmptyString
      | String c s' => String c (line s')
      end
  end.

(** [/^NAME(.+)$/m] at the start of a line [s]: the rest of the line,
    when the line starts with [name] and goes on with at least one
    character. *)
Definition header_here (name s : string) : option string :=
  match strip_prefix name s with
  | Some r => if is_empty (line r) then None else Some (line r)
  | None => None
  end.

(** The first of the lines that start after a line terminator of [s]
    to match. *)
Fixpoint header_below (name s : string) : option string :=
  match s with
  | EmptyString => None
  | String _ s' =>
      let here :=
        match terminator s with
        | Some r => header_here name r
        | None => None
        end in
      match here with
      | Some value => Some value
      | None => header_below name s'
      end
  end.

(** The capture group of [text.match(/^NAME(.+)$/m)] *)
Definition header (name text : string) : option string :=
  match header_here name text with
  | Some value => Some value
  | None => header_below name text
  end.

(** **** The body *)

(** The first occurrence of [p] in [s]: what is after it. *)
Fixpoint after_first (p s : string) : option string :=
  match strip_prefix p s with
  | Some r => Some r
  | None =>
      match s with
      | EmptyString => None
      | String _ s' => after_first p s'
      end
  end.

(** The same for a literal in lower case, compared without regard to
    the case of ASCII letters. *)
Fixpoint after_first_ci (lit s : string) : option string :=
  match eat_ci lit s with
  | Some r => Some r
  | None =>
      match s with
      | EmptyString => None
      | String _ s' => after_first_ci lit s'
      end
  end.

Definition eat_CR (s : string) : string :=
  match s with
  | String c r => if (code c =? 13)%nat then r else s
  | EmptyString => s
  end.

Definition eat_LF (s : string) : option string :=
  match s with
  | String c r => if (code c =? 10)%nat then Some r else None
  | EmptyString => None
  end.

(** [\r?\n\r?\n] at the head of [s]. *)
Definition blank_line (s : string) : option string :=
  match eat_LF (eat_CR s) with
  | Some r => eat_LF (eat_CR r)
  | None => None
  end.

(** [[\s\S]*?\r?\n\r?\n]: what is after the first blank line. *)
Fixpoint after_blank_line (s : string) : option string :=
  match blank_line s with
  | Some r => Some r
  | None =>
      match s with
      | EmptyString => None
      | String _ s' => after_blank_line s'
      end
  end.

(** [\r?\n--] at the head of [s]. *)
Definition boundary (s : string) : bool :=
  match eat_LF (eat_CR s) with
  | Some (String "-" (String "-" _)) => true
  | _ => false
  end.

(** [([\s\S]*?)(?=\r?\n--|$)]: the characters up to the next boundary
    or the end. *)
Fixpoint until_boundary (s : string) : string :=
  if boundary s then EmptyString
  else
    match s with
    | EmptyString => EmptyString
    | String c s' => String c (until_boundary s')
    end.

(** The capture group of
    [/Content-Type: text\/plain[\s\S]*?\r?\n\r?\n([\s\S]*?)(?=\r?\n--|$)/i] *)
Definition textPart (bodyText : string) : option string :=
  match after_first_ci "content-type: text/plain" bodyText with
  | Some r =>
      match after_blank_line r with
      | Some part => Some (until_boundary part)
      | None => None
      end
  | None => None
  end.

Definition is_hex (c : ascii) : bool :=
  match Json.hexval c with Some _ => true | None => false end.

Definition hex_value (c : ascii) : N :=
  match Json.hexval c with Some n => n | None => 0%N end.

(** [.replace(/=([0-9A-F]{2})/gi, (match, hex) =>
    String.fromCharCode(parseInt(hex, 16)))] *)
Fixpoint quoted_printable (s : string) : string :=
  match s with
  | EmptyString => EmptyString
  | String c s' =>
      if (code c =? 61)%nat then
        match s' with
        | String h1 (String h2 r) =>
            if is_hex h1 && is_hex h2
            then Json.utf8 (hex_value h1 * 16 + hex_value h2)%N
                 ++ quoted_printable r
            else String c (quoted_printable s')
        | _ => String c (quoted_printable s')
        end
      else String c (quoted_printable s')
  end.

(** [.replace(/pat/g, rep)] for a literal [pat] that is not empty;
    [skip] counts the characters of a match still to be passed. *)
Fixpoint replace_from (pat rep : string) (skip : nat) (s : string) : string :=
  match s with
  | EmptyString => EmptyString
  | String c s' =>
      match skip with
      | S k => replace_from pat rep k s'
      | O =>
          match strip_prefix pat s with
          | Some _ => rep ++ replace_from pat rep (String.length pat - 1) s'
          | None => String c (replace_from pat rep 0 s')
          end
      end
  end.

Definition replace_all (pat rep s : string) : string := replace_from pat rep 0 s.

Definition decode_entities (s : string) : string :=
  replace_all "&#39;" "'"
    (replace_all "&quot;" (String Json.dquote EmptyString)
       (replace_all "&gt;" ">"
          (replace_all "&lt;" "<"
             (replace_all "&amp;" "&"
                (replace_all "&nbsp;" " " s))))).

(** [[a-zA-Z0-9+/=]] *)
Definition is_base64 (c : ascii) : bool :=
  is_alpha c || is_digit c
  || ((code c =? 43) || (code c =? 47) || (code c =? 61))%nat.

(** The length of the run of such characters at the head of [s]. *)
Definition run (s : string) : nat := String.length (fst (span is_base64 s)).

Definition removed : string := "[...Attachment data removed...]".

(** [.replace(/[a-zA-Z0-9+/=]{100,}/g, '[...Attachment data removed...]')] *)
Fixpoint remove_from (skip : nat) (s : string) : string :=
  match s with
  | EmptyString => EmptyString
  | String c s' =>
      match skip with
      | S k => remove_from k s'
      | O =>
          if (100 <=? run s)%nat then removed ++ remove_from (run s - 1) s'
          else String c (remove_from 0 s')
      end
  end.

Definition remove_attachments (s : string) : string := remove_from 0 s.

(** The body after the headers. *)
Definition body_of (text : string) : string :=
  match after_first (String CR (String LF (String CR (String LF EmptyString)))) text with
  | Some b => b
  | None =>
      match after_first (String LF (String LF EmptyString)) text with
      | Some b => b
      | None => text
      end
  end.

Definition text_part_of (bodyText : string) : string :=
  if includes bodyText "Content-Type: text/plain" then
    match textPart bodyText with
    | Some part => if is_empty part then bodyText else Js.trim part
    | None => bodyText
    end
  else bodyText.

Definition truncated (bodyText : string) : string :=
  if (60000 <? length16 bodyText)%N
  then substring16 60000 bodyText ++ "... [Truncated]"
  else bodyText.

(** [parseEmlFile(file)] for a file called [name] of which [file.text()]
    gives [text] or is rejected.  The entries written to the log are
    left out. *)
Definition parseEmlFile (name : string) (text : Result string)
    : Result ParsedEmailRaw :=
  match text with
  | Throw m =>
      Throw ("Error parseando archivo " ++ name ++ ": "
             ++ or_default m "Error desconocido")
  | Ok text =>
      Ok {| raw_fileName := name;
            rawDate := match header "Date: " text with
                       | Some value => Js.trim value
                       | None => "Unknown Date"
                       end;
            rawSubject := match header "Subject: " text with
                          | Some value => Js.trim value
                          | None => "No Subject"
                          end;
            bodyText :=
              truncated
                (remove_attachments
                   (decode_entities
                      (quoted_printable (text_part_of (body_of text))))) |}
  end.

End Parser.

(** What the properties of the parser are stated with. *)
Module ParserSpec.

Import Str Parser.

(** Somewhere in [s] a run of a hundred or more characters of
    [[a-zA-Z0-9+/=]] starts. *)
Fixpoint long_run (s : string) : bool :=
  match s with
  | EmptyString => false
  | String _ s' => (100 <=? run s)%nat || long_run s'
  end.

(** The character [c] does not occur in [s]. *)
Definition free_of (c : ascii) (s : string) : bool :=
  Str.forallb (fun x => negb (Ascii.eqb x c)) s.

(** [before] is empty or ends with a line terminator. *)
Definition line_start (before : string) : Prop :=
  before = EmptyString
  \/ exists p t, before = p ++ t /\ terminator t = Some EmptyString.

(** [after] is empty or starts with a line terminator. *)
Definition line_end (after : string) : Prop :=
  after = EmptyString \/ terminator after <> None.

(** No line terminator starts anywhere in [value]. *)
Definition one_line (value : string) : Prop :=
  forall p q, value = p ++ q -> terminator q = None.

(** [value] is what follows [name] on a line of [text] that starts
    with [name]; it is not empty and goes to the end of the line. *)
Definition header_line (name text value : string) : Prop :=
  exists before after,
    text = before ++ name ++ value ++ after
    /\ line_start before /\ value <> EmptyString
    /\ one_line value /\ line_end after.

End ParserSpec.

Module ParserExamples.

Import Parser.

Definition CRLF : string := String CR (String LF EmptyString).

(** A short message in plain text. *)
Definition note : string :=
  "From: a@example.com" ++ CRLF
  ++ "Date: Sat, 29 Nov 2025 07:50:00 +0000" ++ CRLF
  ++ "Subject: Cython" ++ CRLF
  ++ CRLF
  ++ "Cython makes Python fast." ++ CRLF
  ++ "See https://example.com/cython" ++ CRLF.

End ParserExamples.

(** What it means for the rows of the table to be kept apart. *)
Module TableSpec.

Import Str Db.

(** Every row has a file name, and no two rows have the same. *)
Definition names_apart (rows : list Row) : Prop :=
  (forall r, In r rows ->
     exists f, row_fileName r = Some f /\ f <> EmptyString)
  /\ NoDup (map row_fileName rows).

(** No link is stored in two rows. *)
Fixpoint links_apart (rows : list Row) : Prop :=
  match rows with
  | [] => True
  | r :: rest =>
      (forall x u, In x rest -> In u (stored_urls r) -> ~ In u (stored_urls x))
      /\ links_apart rest
  end.

Definition rows_apart (d : Database) : Prop :=
  names_apart (emails d) /\ links_apart (emails d).

End TableSpec.

(* ================================================================== *)
(** ** App.tsx: processUrls *)
(* ================================================================== *)

(** The batch over the queue of links.  It is written like the batch
    over the files, and what the two have in common is taken from there:
    the state of the component, the locals [results] and
    [processingErrors], the pause, the stop button and the immediate
    save.  The environment of the link at a position is that of a file,
    of which [parsed] is not read. *)
Module Links.

Import Str App.

(** The state [processUrls] reads or writes besides that of
    [processFiles]: the queue [urls] and [progress.currentUrl]; with the
    locals of one call. *)
Record Call := {
  batch : Batch;
  urlQueue : list string;
  currentUrl : option string
}.

Definition on_batch (f : Batch -> Batch) (c : Call) : Call :=
  {| batch := f (batch c); urlQueue := urlQueue c; currentUrl := currentUrl c |}.

(** [setUrls(queue)] *)
Definition setUrls (queue : list string) (c : Call) : Call :=
  {| batch := batch c; urlQueue := queue; currentUrl := currentUrl c |}.

(** [setProgress({ current, total, currentUrl })]: the object has no
    [currentFile]. *)
Definition setLinkProgress (current total : nat) (url : option string)
    (c : Call) : Call :=
  {| batch := on_app (setProgress {| current := current; total := total;
                                     currentFile := None |}) (batch c);
     urlQueue := urlQueue c;
     currentUrl := url |}.

(** [s.replace(a, b)] for two characters: the first [a] becomes [b]. *)
Fixpoint replace_char (a b : ascii) (s : string) : string :=
  match s with
  | EmptyString => EmptyString
  | String c s' => if Ascii.eqb c a then String b s' else String c (replace_char a b s')
  end.

(** [iso.slice(0, 19).replace('T', ' ')] of the text [iso] that
    [toISOString] gives. *)
Definition date_time (iso : string) : string :=
  replace_char "T" " " (substring 0 19 iso).

(** How one pass through the loop body ends. *)
Inductive LinkStep :=
| Go (c : Call)          (* fell through to the increment, or [continue] *)
| Halt (c : Call).       (* [break] *)

Section WithPlatform.

Context {api : URLApi}.

(** [process.env.API_KEY] as [initGemini] reads it. *)
Variable apiKey : option string.

(** The environment of the link at each position, and the clock as
    [analyzeUrlContent] reads it there. *)
Variable env : nat -> ItemEnv.
Variable service_clock : nat -> string.

(** The [status] and [urls] the closure of this call captured. *)
Variable status0 : ProcessingStatus.
Variable urls0 : list string.

Definition nonblank (s : string) : bool := negb (is_empty (Js.trim s)).

(** The record made of a successful analysis. *)
Definition analyzed_link (i : nat) (url : string) (analysis : Gemini.Analysis)
    : AnalyzedEmail :=
  {| id := uuid (env i);
     fileName := url;
     fechaEnvio := date_time (now (env i));
     tematica :=
       if is_empty (Gemini.a_tematica analysis) then "Sin clasificar"
       else Js.trim (Gemini.a_tematica analysis);
     etiquetas := filter nonblank (Gemini.a_etiquetas analysis);
     contenido :=
       if is_empty (Gemini.a_contenido_resumido analysis)
       then "<p>Enlace: " ++ Gemini.link url ++ "</p>"
       else Js.trim (Gemini.a_contenido_resumido analysis);
     urls := filter nonblank (Gemini.a_urls analysis);
     status := completed;
     errorMessage := None |}.

(** The record made in the [catch] of the loop body. *)
Definition error_link (i : nat) (url message : string) : AnalyzedEmail :=
  {| id := uuid (env i);
     fileName := url;
     fechaEnvio := now (env i);
     tematica := "Error en Análisis";
     etiquetas := ["Error"];
     contenido :=
       "Error procesando URL: "
       ++ or_default message "No se pudo analizar el contenido"
       ++ ". Revisa la consola (F12) para más detalles.";
     urls := [url];
     status := error;
     errorMessage := Some (or_default message "Error desconocido") |}.

(** The [catch (urlError)] of the loop body. *)
Definition link_failed (i : nat) (url message : string) (b : Batch) : Batch :=
  let errorMsg := "Error procesando " ++ url ++ ": "
                  ++ or_default message "Error desconocido" in
  let b := push_error errorMsg b in
  let b := save_now env i (error_link i url message)
             (push_result (error_link i url message) b) in
  on_app (setErrorMsg
    (Some ("Error en " ++ url ++ ". "
           ++ of_nat (List.length (processingErrors b))
           ++ " error(es) hasta ahora. Revisa la consola (F12) para detalles.")))
    b.

Definition end_of_link (i : nat) (c : Call) : Call :=
  let total := List.length urls0 in
  setLinkProgress (i + 1) total
    (if (i + 1 <? total)%nat then nth_error urls0 (i + 1) else None) c.

(** The progress message shown while the batch runs. *)
Definition announce_link (i : nat) (url : string) (b : Batch) : Batch :=
  match status0 with
  | COMPLETED | ERROR => b
  | _ =>
      on_app (setErrorMsg
        (Some ("Procesando " ++ of_nat (i + 1) ++ "/"
               ++ of_nat (List.length urls0) ++ ": " ++ url))) b
  end.

(** The [try] block of the loop body with its [catch]: the analysis,
    the two sentinel checks and the immediate save. *)
Definition link_work (i : nat) (url : string) (c : Call) : LinkStep :=
  let total := List.length urls0 in
  let c := setLinkProgress i total (Some url) (on_batch (status_to ANALYZING) c) in
  let c := on_batch (log (Enriched i)) c in
  let c := on_batch (press_stop (stop_during_work (env i))) c in
  match Gemini.analyzeUrlContent apiKey (service (env i)) (service_clock i) url with
  | Throw m =>
      Go (end_of_link i
        (on_batch (link_failed i url
           ("Error en análisis de Gemini: "
            ++ or_default m "Error desconocido en análisis")) c))
  | Ok run =>
      let analysis := Gemini.run_result run in
      if String.eqb (Gemini.a_tematica analysis) "Error Cuota API" then
        Halt (on_batch (fun b => status_to ERROR
          (on_app (setErrorMsg
            (Some "Tu API Key ha excedido la cuota gratuita (429). Espera un minuto o revisa tu plan.")) b)) c)
      else if String.eqb (Gemini.a_tematica analysis) "Error en Análisis" then
        Go (setLinkProgress (i + 1) total None
              (on_batch (push_error ("Error analizando " ++ url ++ ": "
                                     ++ Gemini.a_contenido_resumido analysis)) c))
      else
        let email := analyzed_link i url analysis in
        Go (end_of_link i
              (on_batch (fun b => save_now env i email (push_result email b)) c))
  end.

(** The body of the loop after the check of the flag, for the link
    [url] at position [i]: the message, the pause, and the work unless
    the flag was set during the pause ([continue]). *)
Definition link_body (i : nat) (url : string) (c : Call) : LinkStep :=
  let c := on_batch (fun b => pause env i (announce_link i url b)) c in
  if (0 <? i)%nat && isProcessingCancelled (app (batch c)) then Go c
  else link_work i url c.

(** The first statement of the loop body: the check of the flag, which
    saves [results] once more and returns. *)
Definition link_cancelled_exit (i : nat) (b : Batch) : Batch * LoopExit :=
  let b := on_app (setErrorMsg
             (Some ("Procesamiento cancelado. "
                    ++ of_nat (List.length (results b))
                    ++ " URL(s) procesada(s) antes de la cancelación."))) b in
  let b := status_to IDLE b in
  match results b with
  | [] => (status_to IDLE b, Returned)
  | _ :: _ =>
      let b := status_to GENERATING_DB b in
      let (st, r) := Db.saveToDb (storage (env i)) (results b) (store (app b)) in
      let b := on_app (setStore st) b in
      match r with
      | Throw m => (b, Thrown m)
      | Ok _ =>
          match Db.getAllEmails (Db.db st) with
          | Throw m => (b, Thrown m)
          | Ok all => (status_to IDLE (on_app (setProcessedEmails all) b), Returned)
          end
      end
  end.

(** [for (let i = ...; i < urls.length; i++) { ... }] over the links
    from position [i] on. *)
Fixpoint link_loop (i : nat) (rest : list string) (c : Call) : Call * LoopExit :=
  match rest with
  | [] => (c, RanOut)
  | url :: rest' =>
      if isProcessingCancelled (app (batch c)) then
        let (b, exit) := link_cancelled_exit i (batch c) in
        ({| batch := b; urlQueue := urlQueue c; currentUrl := currentUrl c |}, exit)
      else
        match link_body i url c with
        | Go c' => link_loop (S i) rest' c'
        | Halt c' => (c', Broke)
        end
  end.

(** The statements after the loop. *)
Definition after_links (c : Call) : Call :=
  let c := match processingErrors (batch c) with
           | [] => on_batch (on_app (setErrorMsg None)) c
           | _ :: _ => c
           end in
  let c :=
    match status0 with
    | ERROR => c
    | _ =>
        if isProcessingCancelled (app (batch c)) then c
        else
          let c := on_batch (status_to COMPLETED) c in
          let c := setUrls [] c in
          let c := setLinkProgress 0 0 None c in
          match processingErrors (batch c) with
          | [] => on_batch (on_app (setErrorMsg None)) c
          | _ :: _ =>
              on_batch (on_app (setErrorMsg
                (Some (of_nat (List.length (results (batch c)))
                       ++ " URL(s) procesada(s). "
                       ++ of_nat (List.length (processingErrors (batch c)))
                       ++ " error(es) - descarga los logs para detalles.")))) c
          end
    end in
  on_batch (on_app (setCancelled false)) c.

(** The outer [catch (err)]. *)
Definition links_critical (message : string) (b : Batch) : Batch :=
  let msg := or_default message "Ocurrió un error crítico." in
  on_app (setErrorMsg
    (Some (if includes msg "API Key" then msg
           else "Error procesando URLs. "
                ++ of_nat (List.length (results b))
                ++ " procesada(s). Descarga los logs para detalles.")))
    (status_to ERROR b).

Definition start_links (a : AppState) (shown : option string) : Call :=
  let b := {| app := setCancelled false a; results := [];
              processingErrors := []; trace := [] |} in
  let c := {| batch := status_to ANALYZING b; urlQueue := urls0;
              currentUrl := shown |} in
  let c := setLinkProgress 0 (List.length urls0) (nth_error urls0 0) c in
  on_batch (on_app (setErrorMsg None)) c.

(** The call in the state [a] of the component, with [shown] in
    [progress.currentUrl]; [urls0] and [status0] are the queue and the
    status of that state (see [processUrls] below). *)
Definition run_links (a : AppState) (shown : option string) : Call :=
  let idle (a : AppState) :=
    {| batch := {| app := a; results := []; processingErrors := []; trace := [] |};
       urlQueue := urls0; currentUrl := shown |} in
  match urls0 with
  | [] => idle a
  | _ :: _ =>
      if negb (isApiKeyValid a) then
        idle (setErrorMsg (Some "API Key no configurada.") a)
      else
        match link_loop 0 urls0 (start_links a shown) with
        | (c, RanOut) | (c, Broke) => after_links c
        | (c, Returned) => c
        | (c, Thrown m) => on_batch (links_critical m) c
        end
  end.

End WithPlatform.

(** [processUrls()] as the button calls it, in the state [a] of the
    component with the queue [urls] and [shown] in
    [progress.currentUrl]: the closure reads [urls] and [status] of the
    render in which the button was pressed. *)
Definition processUrls {api : URLApi} (apiKey : option string)
    (env : nat -> ItemEnv) (service_clock : nat -> string)
    (a : AppState) (urls : list string) (shown : option string) : Call :=
  run_links apiKey env service_clock (app_status a) urls a shown.

End Links.

(** Words for the properties of the batch over the links. *)
Module LinksSpec.

Import Str App Links.

(** The call a pass ends with. *)
Definition call_of (s : LinkStep) : Call :=
  match s with Go c | Halt c => c end.

Section WithPlatform.

Context {api : URLApi}.
Variable apiKey : option string.
Variable env : nat -> ItemEnv.
Variable service_clock : nat -> string.

(** The analysis of the link at position [i] ends with the quota
    sentinel. *)
Definition quota_for (i : nat) (url : string) : Prop :=
  exists run,
    Gemini.analyzeUrlContent apiKey (service (env i)) (service_clock i) url = Ok run
    /\ Gemini.a_tematica (Gemini.run_result run) = "Error Cuota API".

End WithPlatform.

End LinksSpec.

Module LinksExamples.

Import App Links Examples.

Definition two_links : list string :=
  ["https://example.com/a"; "https://example.com/b"].

Definition noon (i : nat) : string := "2025-11-29T12:00:00.000Z".

End LinksExamples.

(* ================================================================== *)
(** ** components/UrlDropzone.tsx: extractUrls *)
(* ================================================================== *)

(** The text is a string of bytes, UTF-8 as everywhere.  The pattern
    of [extractUrls], with the flags [g] and [i], reads [https?:\/\/]
    followed by one or more characters that are neither white space nor
    one of the delimiters below.  It is written out as the scan it
    performs; every choice point of it is decided by the next
    character, so matching never has to backtrack. *)
Module UrlDropzone.

Import Str.

(** The delimiters the pattern excludes: the angle brackets, the
    double quote, the braces, the bar, the backslash, the caret, the
    backquote and the square brackets. *)
Definition is_delimiter (c : ascii) : bool :=
  let n := nat_of_ascii c in
  ((n =? 60) || (n =? 62) || (n =? 34) || (n =? 123) || (n =? 125)
   || (n =? 124) || (n =? 92) || (n =? 94) || (n =? 96) || (n =? 91)
   || (n =? 93))%nat.

(** A character of [\s] starts [s]: the white space and the line
    terminators of ECMAScript, in one, two or three bytes. *)
Definition space_at (s : string) : bool :=
  match s with
  | String a r =>
      Js.is_space1 a
      || match r with
         | String b r' =>
             Js.is_space2 a b
             || match r' with
                | String c _ => Js.is_space3 a b c
                | EmptyString => false
                end
         | EmptyString => false
         end
  | EmptyString => false
  end.

(** A character that the class of the pattern excludes starts [s]. *)
Definition excluded (s : string) : bool :=
  space_at s
  || match s with
     | String a _ => is_delimiter a
     | EmptyString => false
     end.

(** The class of the pattern, once or more, greedy: the characters up
    to the next excluded one. *)
Fixpoint link_chars (s : string) : string :=
  if excluded s then EmptyString
  else
    match s with
    | EmptyString => EmptyString
    | String c s' => String c (link_chars s')
    end.

(** The literal [lit] (given in lower case) at the head of [s],
    compared without regard to the case of ASCII letters: what was
    matched and what follows. *)
Fixpoint take_ci (lit s : string) : option (string * string) :=
  match lit with
  | EmptyString => Some (EmptyString, s)
  | String a lit' =>
      match s with
      | String c s' =>
          if Ascii.eqb (to_lower c) a then
            match take_ci lit' s' with
            | Some (m, r) => Some (String c m, r)
            | None => None
            end
          else None
      | EmptyString => None
      end
  end.

(** The match of the pattern that starts at the head of [s]. *)
Definition url_at (s : string) : option string :=
  match take_ci "http" s with
  | None => None
  | Some (h, r) =>
      let (s_, r) := match take_ci "s" r with
                     | Some (x, r') => (x, r')
                     | None => (EmptyString, r)
                     end in
      match take_ci "://" r with
      | None => None
      | Some (sep, r) =>
          if is_empty (link_chars r) then None
          else Some (h ++ s_ ++ sep ++ link_chars r)
      end
  end.

(** [text.match(pattern)] with the [g] flag: the matches from left to
    right, each search starting where the match before ended; [skip]
    counts the characters of a match still to be passed. *)
Fixpoint matches_from (skip : nat) (s : string) : list string :=
  match s with
  | EmptyString => []
  | String _ s' =>
      match skip with
      | S k => matches_from k s'
      | O =>
          match url_at s with
          | Some m => m :: matches_from (String.length m - 1) s'
          | None => matches_from 0 s'
          end
      end
  end.

Section WithURL.

Context {api : URLApi}.

(** [urlObj.protocol] *)
Variable protocol : URLobj -> string.

(** The callback of the [filter]. *)
Definition accepted (url : string) : bool :=
  match URL_new url with
  | Some urlObj =>
      String.eqb (protocol urlObj) "http:" || String.eqb (protocol urlObj) "https:"
  | None => false
  end.

(** [extractUrls(text)] *)
Definition extractUrls (text : string) : list string :=
  if is_empty text then []
  else
    match matches_from 0 text with
    | [] => []
    | matches =>
        let uniqueUrls := Handlers.set_of (map Js.trim matches) in
        filter accepted uniqueUrls
    end.

End WithURL.

End UrlDropzone.

Module DropzoneSpec.

Import Str UrlDropzone.

(** The characters of [http], [https] and [://] in either case. *)
Definition scheme_char (c : ascii) : bool :=
  is_alpha c || Ascii.eqb c ":" || Ascii.eqb c "/".

(** No excluded character starts anywhere in [u]. *)
Definition clean (u : string) : Prop :=
  forall p q, u = p ++ q -> excluded q = false.

(** [u] reads [http://] or [https://], in any case, and goes on with
    at least one character. *)
Definition http_link (u : string) : Prop :=
  exists sch rest,
    u = sch ++ "://" ++ rest
    /\ (lower sch = "http" \/ lower sch = "https")
    /\ rest <> EmptyString.

Definition occurs_in (text u : string) : Prop :=
  exists before after, text = before ++ u ++ after.

End DropzoneSpec.

Module DropzoneExamples.

Import UrlDropzone.

(** [urlObj.protocol] of the records of the concrete URL class. *)
Definition protocol_of (o : WhatwgFragment.url) : string :=
  WhatwgFragment.scheme o ++ ":".

Definition pasted : string :=
  "Mira HTTPS://github.com/a/b, y <http://example.com/x> otra vez https://github.com/a/b.".

End DropzoneExamples.

(* ================================================================== *)
(** ** services/dbService.ts: saveToDb with a statement that may fail *)
(* ================================================================== *)

(** [Db.saveToDb] takes [stmt.run] to succeed.  Here the statement may
    throw: [faults i] is the message of the error it throws for the
    record at position [i] of the call, if it is run for that record.
    The [catch] of the callback then notes the error and the loop goes
    on; the sets were extended before the statement was run and stay
    extended. *)
Module DbFaults.

Import Str Db.

Section WithURL.

Context {api : URLApi}.

(** One callback of [emails.forEach((email, index) => ...)]. *)
Definition save_one_or_fail (fault : option string) (index : nat)
    (email : AnalyzedEmail) (s : Saving) : Saving :=
  match fault with
  | None => save_one index email s
  | Some m =>
      if is_empty (fileName email) then save_one index email s
      else
        match duplicate_of (sv_index s) email with
        | Some _ => save_one index email s
        | None =>
            let msg := "Error procesando email " ++ of_nat (index + 1)
                       ++ " (" ++ or_default (fileName email) "sin nombre"
                       ++ "): " ++ m in
            {| sv_db := sv_db s;
               sv_index := add_to_index (sv_index s) email;
               addedCount := addedCount s;
               errors := (errors s ++ [msg])%list;
               decisions := (decisions s ++ [Rejected msg])%list |}
        end
  end.

Fixpoint save_each_or_fail (faults : nat -> option string) (index : nat)
    (batch : list AnalyzedEmail) (s : Saving) : Saving :=
  match batch with
  | [] => s
  | email :: rest =>
      save_each_or_fail faults (S index) rest
        (save_one_or_fail (faults index) index email s)
  end.

(** [saveToDb(emails)]; [storage] is the behaviour of [saveDBToStorage]
    as for [Db.saveToDb]. *)
Definition saveToDb_or_fail (faults : nat -> option string)
    (storage : option string) (batch : list AnalyzedEmail) (st : Store)
    : Store * Result unit :=
  match batch with
  | [] => (st, Ok tt)
  | _ :: _ =>
      let s := save_each_or_fail faults 0 batch (start_saving (db st)) in
      let failed :=
        match errors s with
        | [] => Ok tt
        | _ :: _ =>
            Throw ("Errores guardando algunos emails: " ++ join "; " (errors s))
        end in
      if Nat.ltb 0 (addedCount s) then
        match storage with
        | None => ({| db := sv_db s; idb := Some (sv_db s) |}, failed)
        | Some m =>
            ({| db := sv_db s; idb := idb st |},
             Throw ("Error guardando en almacenamiento: " ++ m))
        end
      else ({| db := sv_db s; idb := idb st |}, failed)
  end.

End WithURL.

End DbFaults.

(** Words about the records of a call and the rows of the table. *)
Module SaveSpec.

Import Str Db Normalizer.

(** The row that [INSERT] writes for a record, with the id [k]. *)
Definition row_of (k : Z) (e : AnalyzedEmail) : Row :=
  {| row_id := k;
     row_fileName := Some (fileName e);
     row_fechaEnvio := Some (fechaEnvio e);
     row_tematica := Some (or_default (tematica e) "Sin clasificar");
     row_etiquetas := Some (Json.stringify_strings (etiquetas e));
     row_contenido := Some (contenido e);
     row_urls := Some (Json.stringify_strings (urls e)) |}.

(** The record's file name is the file name of a row. *)
Definition name_stored (d : Database) (e : AnalyzedEmail) : Prop :=
  exists r, In r (emails d) /\ row_fileName r = Some (fileName e).

Section WithURL.

Context {api : URLApi}.

(** A link stored in a row is a link of the record as it stands, or its
    normalised form is one of the record's normalised links. *)
Definition link_stored (d : Database) (e : AnalyzedEmail) : Prop :=
  exists r v,
    In r (emails d) /\ In v (stored_urls r)
    /\ (In v (urls e) \/ In (normalizeUrl v) (normalizeUrls (urls e))).

(** Two records have neither the file name nor a link in common, as it
    stands or normalised. *)
Definition strangers (e x : AnalyzedEmail) : Prop :=
  fileName e <> fileName x
  /\ forall u v, In u (urls e) -> In v (urls x) ->
       u <> v /\ normalizeUrl u <> normalizeUrl v.

(** The record is new to the table and to the records before it in the
    call. *)
Definition unseen (d : Database) (earlier : list AnalyzedEmail)
    (e : AnalyzedEmail) : Prop :=
  ~ link_stored d e /\ ~ name_stored d e
  /\ forall x, In x earlier -> strangers e x.

(** The sets of the index hold nothing but what the table [d] and the
    records [earlier] give. *)
Definition bounded (d : Database) (earlier : list AnalyzedEmail)
    (ix : Index) : Prop :=
  (forall f, In f (existingFileNames ix) ->
     f <> EmptyString
     /\ ((exists r, In r (emails d) /\ row_fileName r = Some f)
         \/ exists x, In x earlier /\ fileName x = f))
  /\ (forall u, In u (existingUrlSets ix) ->
       (exists r, In r (emails d) /\ In u (stored_urls r))
       \/ exists x, In x earlier /\ In u (urls x))
  /\ (forall n, In n (existingNormalizedUrlSets ix) ->
       (exists r v, In r (emails d) /\ In v (stored_urls r) /\ n = normalizeUrl v)
       \/ exists x v, In x earlier /\ In v (urls x) /\ n = normalizeUrl v).

End WithURL.

(** The message noted for the record at position [i] when it has no
    file name, and when the statement throws [m] for it. *)
Definition nameless_message (i : nat) : string :=
  "Email " ++ of_nat (i + 1) ++ ": fileName faltante".

Definition fault_message (i : nat) (e : AnalyzedEmail) (m : string) : string :=
  "Error procesando email " ++ of_nat (i + 1) ++ " (" ++ fileName e ++ "): " ++ m.

End SaveSpec.

Module SaveExamples.

Import Db Examples.

Local Abbreviation api := WhatwgFragment.api.

(** A store that holds the post delivered as [a.eml]. *)
Definition one_saved : Store := fst (@saveToDb api None [post_a] empty_store).

(** A record under the stored file name with a link of its own, and a
    record under that name with the link of the stored post. *)
Definition renamed : AnalyzedEmail := record "a.eml" ["https://example.com/y"].

Definition resent : AnalyzedEmail := record "a.eml" ["https://x.com/u/status/1"].

Definition fourth : AnalyzedEmail := record "d.eml" ["https://example.com/d"].

(** The copy of [other] delivered under another name. *)
Definition other_again : AnalyzedEmail := record "e.eml" ["https://github.com/a/b"].

(** The statement fails for the third record of the call. *)
Definition third_fails (i : nat) : option string :=
  if Nat.eqb i 2 then Some "disk I/O error" else None.

Definition mixed_call : list AnalyzedEmail := [other; nameless; fourth; post_b].

End SaveExamples.

(* ================================================================== *)
(** * Properties *)
(* ================================================================== *)

Unset Implicit Arguments.

(** ** Strings *)

Module StrFacts.

Import Str.

Lemma app_assoc (a b c : string) : (a ++ b) ++ c = a ++ (b ++ c).
Proof. induction a; simpl; congruence. Qed.

Lemma app_empty_r (a : string) : a ++ EmptyString = a.
Proof. induction a; simpl; congruence. Qed.

Lemma is_empty_true (s : string) : is_empty s = true <-> s = EmptyString.
Proof. destruct s; simpl; split; congruence. Qed.

Lemma is_empty_false (s : string) : is_empty s = false <-> s <> EmptyString.
Proof. destruct s; simpl; split; congruence. Qed.

(** Lower-casing only produces lower-case letters out of other
    characters. *)
Lemma to_lower_other (c d : ascii) :
  to_lower c = d -> is_lower d = false -> c = d.
Proof.
  intros <-.
  destruct c as [[] [] [] [] [] [] [] []]; cbv; intros H;
    first [reflexivity | discriminate H].
Qed.

Lemma lower_app (a b : string) : lower (a ++ b) = lower a ++ lower b.
Proof. induction a; simpl; congruence. Qed.

Lemma eat_ci_lower (x r : string) : eat_ci (lower x) (x ++ r) = Some r.
Proof.
  induction x as [|c x IH]; simpl; [reflexivity|].
  now rewrite Ascii.eqb_refl.
Qed.

Lemma eat_ci_app (lit x r : string) :
  lower x = lit -> eat_ci lit (x ++ r) = Some r.
Proof. intros <-. apply eat_ci_lower. Qed.

Lemma span_app (p : ascii -> bool) (a b : string) :
  forallb p a = true ->
  match b with EmptyString => True | String c _ => p c = false end ->
  span p (a ++ b) = (a, b).
Proof.
  intros Ha Hb. induction a as [|c a IH]; simpl in *.
  - destruct b as [|c b]; [reflexivity|]. simpl. now rewrite Hb.
  - apply andb_prop in Ha as [Hc Ha]. rewrite Hc, (IH Ha). reflexivity.
Qed.

Lemma span_spec (p : ascii -> bool) (s a b : string) :
  span p s = (a, b) ->
  s = a ++ b /\ forallb p a = true
  /\ match b with EmptyString => True | String c _ => p c = false end.
Proof.
  revert a b. induction s as [|c s IH]; simpl; intros a b H.
  - injection H as <- <-. auto.
  - destruct (p c) eqn:Hc.
    + destruct (span p s) as [a' b'] eqn:Hs. injection H as <- <-.
      destruct (IH _ _ eq_refl) as (-> & Hf & Hb).
      simpl. rewrite Hc. auto.
    + injection H as <- <-. simpl. auto.
Qed.

Lemma eat_ci_spec (lit s r : string) :
  eat_ci lit s = Some r -> exists x, s = x ++ r /\ lower x = lit.
Proof.
  revert s. induction lit as [|a lit IH]; simpl; intros s H.
  - injection H as <-. now exists EmptyString.
  - destruct s as [|c s]; [discriminate|].
    destruct (Ascii.eqb (to_lower c) a) eqn:E; [|discriminate].
    apply Ascii.eqb_eq in E. destruct (IH _ H) as (x & -> & Hx).
    exists (String c x). simpl. now rewrite E, Hx.
Qed.

End StrFacts.

(** ** normalizeUrl *)

Module NormalizerFacts.

Import Str StrFacts Normalizer Spec.

(** The matcher finds exactly the social-post links. *)
Lemma twitterMatch_complete (url user id : string) :
  social_post url user id -> twitterMatch url = Some (user, id).
Proof.
  intros (sch & host & st & rest & -> & Hsch & Hhost & Hst & Hu & Hus & Hi & His & Hr).
  unfold twitterMatch.
  assert (Hhead : forall tail,
             match eat_ci "http" (sch ++ "://" ++ tail) with
             | Some r =>
                 eat_ci "://" (match eat_ci "s" r with Some r' => r' | None => r end)
             | None => None
             end = Some tail).
  { intros tail. destruct Hsch as [H | H].
    - rewrite (eat_ci_app _ _ _ H). reflexivity.
    - do 5 (destruct sch as [|? sch]; [discriminate H|]).
      destruct sch; [|discriminate H].
      simpl in H. injection H as H1 H2 H3 H4 H5.
      simpl. rewrite H1, H2, H3, H4. simpl. now rewrite H5. }
  specialize (Hhead (host ++ "/" ++ user ++ "/" ++ st ++ "/" ++ id ++ rest)).
  destruct (eat_ci "http" _) as [r0|]; [|discriminate].
  rewrite Hhead. clear Hhead r0.
  assert (Hh : match eat_ci "x.com" (host ++ "/" ++ user ++ "/" ++ st ++ "/" ++ id ++ rest) with
               | Some r' => Some r'
               | None => eat_ci "twitter.com" (host ++ "/" ++ user ++ "/" ++ st ++ "/" ++ id ++ rest)
               end = Some ("/" ++ user ++ "/" ++ st ++ "/" ++ id ++ rest)).
  { destruct Hhost as [H | H].
    - now rewrite (eat_ci_app _ _ _ H).
    - rewrite (eat_ci_app _ _ _ H).
      destruct host as [|c host]; [discriminate H|].
      simpl in H. injection H as H1 _. simpl. now rewrite H1. }
  rewrite Hh. clear Hh.
  change (eat_ci "/" ("/" ++ user ++ "/" ++ st ++ "/" ++ id ++ rest))
    with (Some (user ++ "/" ++ st ++ "/" ++ id ++ rest)).
  cbv beta iota.
  rewrite (span_app _ user ("/" ++ st ++ "/" ++ id ++ rest) Hus) by reflexivity.
  apply is_empty_false in Hu. rewrite Hu.
  replace ("/" ++ st ++ "/" ++ id ++ rest)
    with (("/" ++ st ++ "/") ++ id ++ rest)
    by (simpl; now rewrite app_assoc).
  rewrite (eat_ci_app "/status/" ("/" ++ st ++ "/") (id ++ rest)).
  2:{ simpl. now rewrite lower_app, Hst. }
  cbv beta iota. rewrite (span_app _ id rest His Hr).
  apply is_empty_false in Hi. now rewrite Hi.
Qed.

(** Conversely, whatever the matcher captures comes from a social-post
    link. *)
Lemma twitterMatch_sound (url user id : string) :
  twitterMatch url = Some (user, id) -> social_post url user id.
Proof.
  unfold twitterMatch. intros H.
  destruct (eat_ci "http" url) as [r0|] eqn:E0; [|discriminate].
  apply eat_ci_spec in E0 as (x0 & -> & Hx0).
  assert (Hs : exists sch r1,
             x0 ++ r0 = sch ++ r1
             /\ (lower sch = "http" \/ lower sch = "https")
             /\ match eat_ci "s" r0 with Some r' => r' | None => r0 end = r1).
  { destruct (eat_ci "s" r0) as [r'|] eqn:E1.
    - apply eat_ci_spec in E1 as (x1 & -> & Hx1).
      exists (x0 ++ x1), r'. rewrite app_assoc, lower_app, Hx0, Hx1. auto.
    - exists x0, r0. auto. }
  destruct Hs as (sch & r1 & Hurl & Hsch & Hr1).
  rewrite Hurl. clear Hurl. cbv zeta in H. rewrite Hr1 in H. clear Hr1 x0 Hx0 r0.
  destruct (eat_ci "://" r1) as [r2|] eqn:E2; [|discriminate].
  apply eat_ci_spec in E2 as (x2 & -> & Hx2).
  assert (x2 = "://") as ->.
  { do 3 (destruct x2 as [|? x2]; [discriminate Hx2|]).
    destruct x2; [|discriminate Hx2].
    simpl in Hx2. injection Hx2 as H1 H2 H3.
    apply to_lower_other in H1, H2, H3; try reflexivity. now subst. }
  destruct (match eat_ci "x.com" r2 with
            | Some r' => Some r'
            | None => eat_ci "twitter.com" r2
            end) as [r3|] eqn:E3; [|discriminate].
  assert (Hh : exists host, r2 = host ++ r3
                 /\ (lower host = "x.com" \/ lower host = "twitter.com")).
  { destruct (eat_ci "x.com" r2) as [r'|] eqn:E.
    - injection E3 as <-. apply eat_ci_spec in E as (h & -> & Hh). eauto.
    - apply eat_ci_spec in E3 as (h & -> & Hh). eauto. }
  destruct Hh as (host & -> & Hhost).
  destruct (eat_ci "/" r3) as [r4|] eqn:E4; [|discriminate].
  destruct r3 as [|c3 r3]; [discriminate|]. simpl in E4.
  destruct (Ascii.eqb (to_lower c3) "/") eqn:Ec3; [|discriminate].
  injection E4 as <-.
  assert (c3 = "/"%char) as ->.
  { apply Ascii.eqb_eq in Ec3. now apply to_lower_other in Ec3. }
  destruct (span (fun c => negb (Ascii.eqb c "/")) r3) as [u r5] eqn:E5.
  apply span_spec in E5 as (-> & Hus & Hr5).
  destruct (is_empty u) eqn:Eu; [discriminate|].
  destruct (eat_ci "/status/" r5) as [r6|] eqn:E6; [|discriminate].
  destruct (span is_digit r6) as [d r7] eqn:E7.
  apply span_spec in E7 as (-> & Hds & Hr7).
  destruct (is_empty d) eqn:Ed; [discriminate|].
  injection H as <- <-.
  apply eat_ci_spec in E6 as (x6 & -> & Hx6).
  do 8 (destruct x6 as [|? x6]; [discriminate Hx6|]).
  destruct x6; [|discriminate Hx6].
  simpl in Hx6. injection Hx6 as H1 H2 H3 H4 H5 H6 H7 H8.
  assert (Hslash : forall c, to_lower c = "/"%char -> c = "/"%char).
  { intros c Hc. now apply to_lower_other in Hc. }
  apply Hslash in H1. apply Hslash in H8. subst.
  exists sch, host, (String a0 (String a1 (String a2 (String a3 (String a4 (String a5 EmptyString)))))), r7.
  repeat split; try assumption.
  - simpl. now rewrite H2, H3, H4, H5, H6, H7.
  - now apply is_empty_false.
  - now apply is_empty_false.
Qed.

End NormalizerFacts.

(** ** The concrete URL class: parsing a serialization *)

Module FragmentFacts.

Import Str StrFacts WhatwgFragment FragmentSpec.

Lemma forallb_app (p : ascii -> bool) (a b : string) :
  Str.forallb p (a ++ b) = Str.forallb p a && Str.forallb p b.
Proof. induction a as [|c a IH]; simpl; [reflexivity|]. now rewrite IH, andb_assoc. Qed.

Lemma cut_spec (c : ascii) (s a : string) (b : option string) :
  cut c s = (a, b) ->
  no_char c a = true
  /\ match b with
     | Some b' => s = a ++ String c b'
     | None => s = a
     end.
Proof.
  unfold cut. destruct (span _ s) as [x y] eqn:E.
  apply span_spec in E as (-> & Hx & Hy).
  destruct y as [|d y]; intros H; injection H as <- <-.
  - split; [exact Hx | now rewrite app_empty_r].
  - split; [exact Hx|]. apply negb_false_iff, Ascii.eqb_eq in Hy. now subst d.
Qed.

Lemma cut_app (c : ascii) (a b : string) :
  no_char c a = true -> cut c (a ++ String c b) = (a, Some b).
Proof.
  intros H. unfold cut. rewrite (span_app _ a (String c b) H).
  - reflexivity.
  - now rewrite Ascii.eqb_refl.
Qed.

Lemma cut_none (c : ascii) (a : string) :
  no_char c a = true -> cut c a = (a, None).
Proof.
  intros H. unfold cut.
  pose proof (span_app _ a EmptyString H I) as E. rewrite app_empty_r in E.
  now rewrite E.
Qed.

Lemma to_lower_idem (c : ascii) : to_lower (to_lower c) = to_lower c.
Proof. destruct c as [[] [] [] [] [] [] [] []]; reflexivity. Qed.

Lemma lower_idem (s : string) : lower (lower s) = lower s.
Proof. induction s as [|c s IH]; simpl; [reflexivity|]. now rewrite to_lower_idem, IH. Qed.

Lemma strip_prefix_app (p r : string) : strip_prefix p (p ++ r) = Some r.
Proof. induction p as [|c p IH]; simpl; [reflexivity|]. now rewrite Ascii.eqb_refl. Qed.

Lemma strip_prefix_spec (p s r : string) : strip_prefix p s = Some r -> s = p ++ r.
Proof.
  revert s. induction p as [|c p IH]; simpl; intros s H.
  - now injection H as <-.
  - destruct s as [|d s]; [discriminate|].
    destruct (Ascii.eqb d c) eqn:E; [|discriminate].
    apply Ascii.eqb_eq in E. subst d. now rewrite (IH _ H).
Qed.

Lemma forallb_impl (p q : ascii -> bool) (s : string) :
  (forall c, p c = true -> q c = true) ->
  Str.forallb p s = true -> Str.forallb q s = true.
Proof.
  intros Hpq. induction s as [|c s IH]; simpl; [reflexivity|].
  intros H. apply andb_prop in H as [H1 H2]. now rewrite (Hpq _ H1), IH.
Qed.

(** *** Characters *)

Ltac by_cases c := destruct c as [[] [] [] [] [] [] [] []]; cbv; intros; congruence.

Lemma host_char_url (c : ascii) : host_char c = true -> url_char c = true.
Proof. by_cases c. Qed.

Lemma host_char_authority (c : ascii) :
  host_char c = true -> negb (mem_char c "/?#") = true.
Proof. by_cases c. Qed.

Lemma host_char_no_colon (c : ascii) :
  host_char c = true -> negb (Ascii.eqb c ":") = true.
Proof. by_cases c. Qed.

Lemma digit_url (c : ascii) : is_digit c = true -> url_char c = true.
Proof. by_cases c. Qed.

Lemma digit_authority (c : ascii) :
  is_digit c = true -> negb (mem_char c "/?#") = true.
Proof. by_cases c. Qed.

Lemma query_char_url (c : ascii) : query_char c = true -> url_char c = true.
Proof. by_cases c. Qed.

Lemma query_char_no_hash (c : ascii) :
  query_char c = true -> negb (Ascii.eqb c "#") = true.
Proof. by_cases c. Qed.

Lemma form_char_query (c : ascii) : form_char c = true -> query_char c = true.
Proof. by_cases c. Qed.

Lemma form_char_no_eq (c : ascii) :
  form_char c = true -> negb (Ascii.eqb c "=") = true.
Proof. by_cases c. Qed.

Lemma form_char_no_amp (c : ascii) :
  form_char c = true -> negb (Ascii.eqb c "&") = true.
Proof. by_cases c. Qed.

(** *** Port numbers *)

Lemma digits_of_uint (d : Decimal.uint) :
  Str.forallb is_digit (NilEmpty.string_of_uint d) = true.
Proof. induction d; simpl; auto. Qed.

Lemma of_N_digits (n : N) : Str.forallb is_digit (of_N n) = true.
Proof.
  unfold of_N, NilZero.string_of_uint.
  destruct (N.to_uint n); try reflexivity; apply digits_of_uint.
Qed.

Lemma number_of_of_N (n : N) : number_of (of_N n) = Some n.
Proof.
  unfold number_of, of_N. rewrite NilZero.usu.
  - cbn [option_map]. now rewrite DecimalN.Unsigned.of_to.
  - destruct n as [|p]; [discriminate|]. apply DecimalPos.Unsigned.to_uint_nonnil.
Qed.

(** *** Query strings *)

Lemma split_on_cons (sep a : ascii) (s : string) :
  split_on sep (String a s)
  = if Ascii.eqb a sep then EmptyString :: split_on sep s
    else match split_on sep s with
         | h :: t => String a h :: t
         | [] => [String a EmptyString]
         end.
Proof. reflexivity. Qed.

Lemma split_on_nonempty (sep : ascii) (s : string) : split_on sep s <> [].
Proof.
  induction s as [|a s IH]; [discriminate|]. rewrite split_on_cons.
  destruct (Ascii.eqb a sep); [discriminate|].
  destruct (split_on sep s); discriminate.
Qed.

Lemma split_on_no_sep (sep : ascii) (s : string) :
  no_char sep s = true -> split_on sep s = [s].
Proof.
  induction s as [|a s IH]; [reflexivity|]. simpl no_char. intros H.
  apply andb_prop in H as [H1 H2]. rewrite split_on_cons.
  apply negb_true_iff in H1. rewrite H1, (IH H2). reflexivity.
Qed.

Lemma split_on_app (sep : ascii) (a b : string) :
  no_char sep a = true ->
  split_on sep (a ++ String sep b) = a :: split_on sep b.
Proof.
  induction a as [|c a IH]; intros H.
  - simpl. now rewrite Ascii.eqb_refl.
  - simpl no_char in H. apply andb_prop in H as [H1 H2].
    change (String c a ++ String sep b) with (String c (a ++ String sep b)).
    rewrite split_on_cons. apply negb_true_iff in H1. rewrite H1, (IH H2).
    reflexivity.
Qed.

(** All characters of the pieces are characters of the whole. *)
Lemma split_on_chars (p : ascii -> bool) (sep : ascii) (s : string) :
  p sep = true ->
  List.forallb (Str.forallb p) (split_on sep s) = true ->
  Str.forallb p s = true.
Proof.
  intros Hsep. induction s as [|a s IH]; [reflexivity|].
  rewrite split_on_cons. destruct (Ascii.eqb a sep) eqn:E.
  - apply Ascii.eqb_eq in E. subst a. simpl. rewrite Hsep. exact IH.
  - destruct (split_on sep s) as [|h t] eqn:Es.
    + now destruct (split_on_nonempty sep s).
    + simpl. intros H. apply andb_prop in H as [H1 H2].
      apply andb_prop in H1 as [Ha Hh]. rewrite Ha. apply IH.
      simpl. now rewrite Hh, H2.
Qed.

Lemma piece_ok_chars (piece : string) :
  piece_ok piece = true -> Str.forallb query_char piece = true.
Proof.
  unfold piece_ok. destruct (cut "=" piece) as [n [v|]] eqn:E;
    apply cut_spec in E as [_ ->]; intros H.
  - apply andb_prop in H as [Hn Hv].
    rewrite forallb_app. simpl.
    now rewrite (forallb_impl _ _ n form_char_query Hn),
                (forallb_impl _ _ v form_char_query Hv).
  - exact (forallb_impl _ _ n form_char_query H).
Qed.

Lemma forallb_list_impl {A} (p q : A -> bool) (l : list A) :
  (forall a, p a = true -> q a = true) ->
  List.forallb p l = true -> List.forallb q l = true.
Proof.
  intros Hpq. induction l as [|a l IH]; simpl; [reflexivity|].
  intros H. apply andb_prop in H as [H1 H2]. now rewrite (Hpq _ H1), IH.
Qed.

Lemma query_ok_chars (q : string) :
  query_ok q = true -> Str.forallb query_char q = true.
Proof.
  intros H. apply (split_on_chars query_char "&"); [reflexivity|].
  exact (forallb_list_impl _ _ _ piece_ok_chars H).
Qed.

Lemma parse_pair_good (piece : string) :
  piece_ok piece = true -> good_pair (parse_pair piece) = true.
Proof.
  unfold piece_ok, parse_pair, good_pair.
  destruct (cut "=" piece) as [n [v|]]; simpl; [auto|].
  intros ->. reflexivity.
Qed.

Lemma parse_query_good (q : string) :
  query_ok q = true -> List.forallb good_pair (parse_query q) = true.
Proof.
  unfold query_ok, parse_query. generalize (split_on "&" q). intros l.
  induction l as [|p l IH]; simpl; [reflexivity|].
  intros H. apply andb_prop in H as [Hp Hl].
  destruct (negb (is_empty p)); simpl; [|auto].
  now rewrite (parse_pair_good _ Hp), IH.
Qed.

Lemma good_pair_no_amp (nv : string * string) :
  good_pair nv = true -> no_char "&" (piece_of nv) = true.
Proof.
  unfold good_pair, piece_of, no_char. intros H.
  apply andb_prop in H as [Hn Hv]. rewrite forallb_app. simpl.
  now rewrite (forallb_impl _ _ _ form_char_no_amp Hn),
              (forallb_impl _ _ _ form_char_no_amp Hv).
Qed.

Lemma split_join (ps : list string) :
  ps <> [] -> List.forallb (no_char "&") ps = true ->
  split_on "&" (join "&" ps) = ps.
Proof.
  induction ps as [|p ps IH]; [congruence|]. intros _ H.
  simpl in H. apply andb_prop in H as [Hp Hps].
  destruct ps as [|p' ps].
  - simpl. now apply split_on_no_sep.
  - change (join "&" (p :: p' :: ps)) with (p ++ "&" ++ join "&" (p' :: ps)).
    change (p ++ "&" ++ join "&" (p' :: ps))
      with (p ++ String "&" (join "&" (p' :: ps))).
    rewrite (split_on_app _ _ _ Hp), IH; [reflexivity | discriminate | exact Hps].
Qed.

Lemma parse_pair_piece (nv : string * string) :
  good_pair nv = true -> parse_pair (piece_of nv) = nv.
Proof.
  unfold good_pair, parse_pair, piece_of. intros H.
  apply andb_prop in H as [Hn _]. destruct nv as [n v]. cbn [fst snd] in *.
  change (n ++ "=" ++ v) with (n ++ String "=" v).
  now rewrite (cut_app _ _ _ (forallb_impl _ _ _ form_char_no_eq Hn)).
Qed.

Lemma piece_nonempty (nv : string * string) : is_empty (piece_of nv) = false.
Proof. unfold piece_of. destruct (fst nv); reflexivity. Qed.

Lemma serialize_eq (l : list (string * string)) :
  serialize_query l = join "&" (map piece_of l).
Proof. reflexivity. Qed.

Lemma pieces_no_amp (l : list (string * string)) :
  List.forallb good_pair l = true ->
  List.forallb (no_char "&") (map piece_of l) = true.
Proof.
  induction l as [|nv l IH]; simpl; [reflexivity|]. intros H.
  apply andb_prop in H as [H1 H2]. now rewrite (good_pair_no_amp _ H1), IH.
Qed.

Lemma parse_pieces (l : list (string * string)) :
  List.forallb good_pair l = true ->
  map parse_pair (filter (fun p => negb (is_empty p)) (map piece_of l)) = l.
Proof.
  induction l as [|nv l IH]; simpl; [reflexivity|]. intros H.
  apply andb_prop in H as [H1 H2].
  rewrite piece_nonempty. simpl. now rewrite (parse_pair_piece _ H1), IH.
Qed.

(** Reading back what the serializer wrote. *)
Lemma parse_serialize (l : list (string * string)) :
  List.forallb good_pair l = true -> parse_query (serialize_query l) = l.
Proof.
  intros H. destruct l as [|nv l]; [reflexivity|].
  unfold parse_query. rewrite serialize_eq, split_join.
  - now apply parse_pieces.
  - discriminate.
  - now apply pieces_no_amp.
Qed.

Lemma piece_of_ok (nv : string * string) :
  good_pair nv = true -> piece_ok (piece_of nv) = true.
Proof.
  intros H. unfold piece_ok.
  pose proof (parse_pair_piece nv H) as E. unfold parse_pair in E.
  unfold good_pair in H. destruct nv as [n v]. cbn [fst snd] in *.
  apply andb_prop in H as [Hn Hv].
  unfold piece_of. cbn [fst snd].
  change (n ++ "=" ++ v) with (n ++ String "=" v).
  rewrite (cut_app _ _ _ (forallb_impl _ _ _ form_char_no_eq Hn)).
  now rewrite Hn, Hv.
Qed.

Lemma serialize_ok (l : list (string * string)) :
  List.forallb good_pair l = true -> l <> [] ->
  query_ok (serialize_query l) = true.
Proof.
  intros H Hne. unfold query_ok. rewrite serialize_eq, split_join.
  - clear Hne. induction l as [|nv l IH]; simpl; [reflexivity|].
    simpl in H. apply andb_prop in H as [H1 H2].
    now rewrite (piece_of_ok _ H1), IH.
  - destruct l; [congruence | discriminate].
  - now apply pieces_no_amp.
Qed.

Lemma serialize_nonempty (l : list (string * string)) :
  l <> [] -> is_empty (serialize_query l) = false.
Proof.
  destruct l as [|nv l]; [congruence|]. intros _. rewrite serialize_eq.
  cbn [map]. destruct l as [|nv' l].
  - simpl. apply piece_nonempty.
  - change (join "&" (piece_of nv :: map piece_of (nv' :: l)))
      with (piece_of nv ++ "&" ++ join "&" (map piece_of (nv' :: l))).
    unfold piece_of. destruct (fst nv); reflexivity.
Qed.

Lemma href_eq (o : url) :
  href o = scheme o ++ ":" ++ authority o ++ path o
           ++ query_text (query o) ++ fragment_text (fragment o).
Proof. reflexivity. Qed.

Lemma starts_with_slash (p : string) :
  starts_with "/" p = true -> exists p', p = String "/" p'.
Proof.
  unfold starts_with. destruct (strip_prefix "/" p) as [r|] eqn:E; [|discriminate].
  intros _. apply strip_prefix_spec in E. now exists r.
Qed.

Lemma parse_tail_text (sch : string) (h : option string) (p : option N)
    (pa : string) (q f : option string) :
  starts_with "/" pa = true ->
  no_char "?" pa = true -> no_char "#" pa = true ->
  path_ok pa = true ->
  match q with Some q => query_ok q = true | None => True end ->
  parse_tail sch h p (pa ++ query_text q ++ fragment_text f) path_ok fix_path
  = Some {| scheme := sch; host := h; port := p; path := pa;
            query := q; fragment := f |}.
Proof.
  intros Hs Hq Hh Hp Hqok.
  assert (Hne : fix_path pa = pa).
  { destruct (starts_with_slash _ Hs) as (p' & ->). reflexivity. }
  assert (Hbf : no_char "#" (pa ++ query_text q) = true).
  { unfold no_char. rewrite forallb_app. fold (no_char "#" pa). rewrite Hh.
    destruct q as [q|]; [|reflexivity]. simpl.
    exact (forallb_impl _ _ _ query_char_no_hash (query_ok_chars _ Hqok)). }
  assert (Hcut1 : cut "#" (pa ++ query_text q ++ fragment_text f)
                  = (pa ++ query_text q, f)).
  { destruct f as [f|]; simpl fragment_text.
    - rewrite <- app_assoc. change ("#" ++ f) with (String "#" f).
      now apply cut_app.
    - rewrite app_empty_r. now apply cut_none. }
  assert (Hcut2 : cut "?" (pa ++ query_text q) = (pa, q)).
  { destruct q as [q|]; simpl query_text.
    - change ("?" ++ q) with (String "?" q). now apply cut_app.
    - rewrite app_empty_r. now apply cut_none. }
  unfold parse_tail. rewrite Hcut1, Hcut2, Hp, Hne.
  destruct q as [q|]; [rewrite Hqok|]; reflexivity.
Qed.

Lemma parse_special_text (sch h : string) (p : option N)
    (pa : string) (q f : option string) :
  host_ok h = true -> lower h = h ->
  match p with
  | Some n => (n <=? 65535)%N = true
              /\ match default_port sch with
                 | Some d => N.eqb d n
                 | None => false
                 end = false
  | None => True
  end ->
  starts_with "/" pa = true ->
  no_char "?" pa = true -> no_char "#" pa = true ->
  path_ok pa = true ->
  match q with Some q => query_ok q = true | None => True end ->
  parse_special sch ("//" ++ h ++ port_text p ++ pa ++ query_text q
                     ++ fragment_text f)
  = Some {| scheme := sch; host := Some h; port := p; path := pa;
            query := q; fragment := f |}.
Proof.
  intros Hh Hl Hp Hs Hq Hf Hpa Hqok.
  unfold parse_special.
  change (strip_prefix "//" ("//" ++ ?x)) with (Some x).
  cbv beta iota.
  assert (Hhc : Str.forallb host_char h = true).
  { unfold host_ok in Hh. apply andb_prop in Hh as [Hh _].
    apply andb_prop in Hh as [Hh _]. now apply andb_prop in Hh as [_ Hh]. }
  assert (Hauth : Str.forallb (fun c => negb (mem_char c "/?#"))
                              (h ++ port_text p) = true).
  { rewrite forallb_app, (forallb_impl _ _ _ host_char_authority Hhc).
    destruct p as [n|]; [|reflexivity]. simpl.
    exact (forallb_impl _ _ _ digit_authority (of_N_digits n)). }
  destruct (starts_with_slash _ Hs) as (pa' & Epa).
  assert (Hspan : span (fun c => negb (mem_char c "/?#"))
                       (h ++ port_text p ++ pa ++ query_text q ++ fragment_text f)
                  = (h ++ port_text p,
                     pa ++ query_text q ++ fragment_text f)).
  { rewrite <- app_assoc. apply span_app; [exact Hauth|].
    rewrite Epa. reflexivity. }
  rewrite Hspan.
  assert (Hcut : cut ":" (h ++ port_text p)
                 = (h, match p with Some n => Some (of_N n) | None => None end)).
  { pose proof (forallb_impl _ _ _ host_char_no_colon Hhc) as Hnc.
    destruct p as [n|]; simpl port_text.
    - change (":" ++ of_N n) with (String ":" (of_N n)). now apply cut_app.
    - rewrite app_empty_r. now apply cut_none. }
  rewrite Hcut, Hl, Hh.
  destruct p as [n|].
  - destruct Hp as [Hle Hdef].
    rewrite number_of_of_N, Hle, Hdef.
    now apply parse_tail_text.
  - now apply parse_tail_text.
Qed.

Lemma parse_scheme (sch rest : string) :
  sch = "http" \/ sch = "https" ->
  Str.forallb url_char rest = true ->
  parse (sch ++ ":" ++ rest) = parse_special sch rest.
Proof.
  intros Hs Hr. unfold parse.
  assert (Hall : Str.forallb url_char (sch ++ ":" ++ rest) = true).
  { rewrite forallb_app. destruct Hs as [-> | ->]; simpl; exact Hr. }
  rewrite Hall. cbn [negb].
  assert (Hcut : cut ":" (sch ++ ":" ++ rest) = (sch, Some rest)).
  { change (":" ++ rest) with (String ":" rest). apply cut_app.
    destruct Hs as [-> | ->]; reflexivity. }
  rewrite Hcut.
  destruct Hs as [-> | ->]; reflexivity.
Qed.

Lemma well_formed_parts (o : url) :
  well_formed o = true ->
  (scheme o = "http" \/ scheme o = "https")
  /\ (exists h, host o = Some h /\ host_ok h = true /\ lower h = h)
  /\ match port o with
     | Some n => (n <=? 65535)%N = true
                 /\ match default_port (scheme o) with
                    | Some d => N.eqb d n
                    | None => false
                    end = false
     | None => True
     end
  /\ starts_with "/" (path o) = true
  /\ Str.forallb url_char (path o) = true
  /\ no_char "?" (path o) = true /\ no_char "#" (path o) = true
  /\ path_ok (path o) = true
  /\ match query o with Some q => query_ok q = true | None => True end
  /\ match fragment o with
     | Some f => Str.forallb url_char f = true
     | None => True
     end.
Proof.
  unfold well_formed. intros H.
  repeat match type of H with
         | _ && _ = true => apply andb_prop in H as [H ?]
         end.
  repeat match goal with
         | X : _ && _ = true |- _ => apply andb_prop in X as [? ?]
         end.
  split.
  { apply orb_prop in H as [H | H]; apply String.eqb_eq in H; auto. }
  split.
  { destruct (host o) as [h|]; [|discriminate]. exists h.
    match goal with X : host_ok h && _ = true |- _ =>
      apply andb_prop in X as [X1 X2]; apply String.eqb_eq in X2 end.
    auto. }
  split.
  { destruct (port o) as [n|]; [|exact I].
    match goal with X : (n <=? 65535)%N && _ = true |- _ =>
      apply andb_prop in X as [X1 X2]; apply negb_true_iff in X2 end.
    auto. }
  repeat split; try assumption.
  - destruct (query o); [assumption | exact I].
  - destruct (fragment o); [assumption | exact I].
Qed.

(** The parser reads a well-formed record back from its serialization. *)
Lemma parse_href (o : url) : well_formed o = true -> parse (href o) = Some o.
Proof.
  intros H.
  destruct (well_formed_parts o H)
    as (Hs & (h & Hh & Hok & Hl) & Hp & Hst & Hpc & Hq & Hf & Hpa & Hqok & Hfc).
  destruct o as [sch ho p pa q f]. cbn [scheme host port path query fragment] in *.
  subst ho. rewrite href_eq. unfold authority.
  cbn [scheme host port path query fragment].
  fold (port_text p).
  replace (("//" ++ h ++ port_text p) ++ pa ++ query_text q ++ fragment_text f)
    with ("//" ++ h ++ port_text p ++ pa ++ query_text q ++ fragment_text f)
    by (simpl; now rewrite !app_assoc).
  rewrite parse_scheme; [now apply parse_special_text | exact Hs |].
  (* every character is allowed *)
  assert (Hhc : Str.forallb host_char h = true).
  { unfold host_ok in Hok. apply andb_prop in Hok as [Hok _].
    apply andb_prop in Hok as [Hok _]. now apply andb_prop in Hok as [_ Hok]. }
  change ("//" ++ ?x) with (String "/" (String "/" x)).
  cbn [Str.forallb]. change (url_char "/") with true. cbn [andb].
  rewrite !forallb_app, (forallb_impl _ _ _ host_char_url Hhc), Hpc.
  cbn [andb].
  assert (Hport : Str.forallb url_char (port_text p) = true).
  { destruct p as [n|]; [|reflexivity]. simpl.
    exact (forallb_impl _ _ _ digit_url (of_N_digits n)). }
  assert (Hquery : Str.forallb url_char (query_text q) = true).
  { destruct q as [q|]; [|reflexivity]. simpl.
    exact (forallb_impl _ _ _ query_char_url (query_ok_chars _ Hqok)). }
  assert (Hfrag : Str.forallb url_char (fragment_text f) = true).
  { destruct f as [f|]; [|reflexivity]. simpl. exact Hfc. }
  now rewrite Hport, Hquery, Hfrag.
Qed.

Lemma stop_char_slash (c : ascii) :
  negb (mem_char c "/?#") = false ->
  negb (Ascii.eqb c "?") = true -> negb (Ascii.eqb c "#") = true ->
  c = "/"%char.
Proof. by_cases c. Qed.

Lemma well_formed_intro (sch h : string) (p : option N) (pa : string)
    (q f : option string) :
  String.eqb sch "http" || String.eqb sch "https" = true ->
  host_ok h = true -> lower h = h ->
  match p with
  | Some n => (n <=? 65535)%N = true
              /\ match default_port sch with
                 | Some d => N.eqb d n
                 | None => false
                 end = false
  | None => True
  end ->
  starts_with "/" pa = true -> Str.forallb url_char pa = true ->
  no_char "?" pa = true -> no_char "#" pa = true -> path_ok pa = true ->
  match q with Some q => query_ok q = true | None => True end ->
  match f with Some f => Str.forallb url_char f = true | None => True end ->
  well_formed {| scheme := sch; host := Some h; port := p; path := pa;
                 query := q; fragment := f |} = true.
Proof.
  intros Hs Hh Hl Hp H1 H2 H3 H4 H5 Hq Hf. unfold well_formed.
  cbn [scheme host port path query fragment].
  rewrite Hs, Hh, Hl, String.eqb_refl, H1, H2, H3, H4.
  fold (path_ok pa). rewrite H5. cbn [andb].
  assert (Hp' : match p with
                | Some n => (n <=? 65535)%N
                            && negb match default_port sch with
                                    | Some d => N.eqb d n
                                    | None => false
                                    end
                | None => true
                end = true).
  { destruct p as [n|]; [|reflexivity]. destruct Hp as [-> ->]. reflexivity. }
  rewrite Hp'. cbn [andb].
  assert (Hq' : match q with Some q => query_ok q | None => true end = true)
    by (destruct q; auto).
  assert (Hf' : match f with Some f => Str.forallb url_char f | None => true end
                = true) by (destruct f; auto).
  now rewrite Hq', Hf'.
Qed.

Lemma parse_tail_well_formed (sch h : string) (p : option N) (tail : string)
    (o : url) :
  String.eqb sch "http" || String.eqb sch "https" = true ->
  host_ok h = true -> lower h = h ->
  match p with
  | Some n => (n <=? 65535)%N = true
              /\ match default_port sch with
                 | Some d => N.eqb d n
                 | None => false
                 end = false
  | None => True
  end ->
  Str.forallb url_char tail = true ->
  match tail with
  | EmptyString => True
  | String c _ => negb (mem_char c "/?#") = false
  end ->
  parse_tail sch (Some h) p tail path_ok fix_path = Some o ->
  well_formed o = true.
Proof.
  intros Hs Hh Hl Hp Hc Hfirst. unfold parse_tail.
  destruct (cut "#" tail) as [bf frag] eqn:E1.
  destruct (cut "?" bf) as [pth qry] eqn:E2.
  apply cut_spec in E1 as [Hnh E1], E2 as [Hnq E2].
  destruct (path_ok pth) eqn:Hpo; [|discriminate].
  destruct (match qry with Some q => query_ok q | None => true end) eqn:Hqo;
    [|discriminate].
  cbn [andb]. intros H. injection H as <-.
  assert (Hbf : Str.forallb url_char bf = true
                /\ match frag with
                   | Some f => Str.forallb url_char f = true
                   | None => True
                   end).
  { destruct frag as [f|]; subst tail.
    - rewrite forallb_app in Hc. apply andb_prop in Hc as [H1 H2].
      simpl in H2. now split.
    - now split. }
  destruct Hbf as [Hbf Hfr].
  assert (Hpth : Str.forallb url_char pth = true /\ no_char "#" pth = true).
  { destruct qry as [q|]; subst bf.
    - rewrite forallb_app in Hbf. apply andb_prop in Hbf as [H1 _].
      unfold no_char in Hnh. rewrite forallb_app in Hnh.
      apply andb_prop in Hnh as [H2 _]. now split.
    - now split. }
  destruct Hpth as [Hpc Hph].
  assert (Hstart : starts_with "/" (fix_path pth) = true).
  { destruct pth as [|c pth]; [reflexivity|].
    assert (Ht : exists t, tail = String c t).
    { destruct qry, frag; subst; simpl; eauto. }
    destruct Ht as [t ->]. simpl in Hnq, Hph.
    apply andb_prop in Hnq as [Hnq _]. apply andb_prop in Hph as [Hph _].
    rewrite (stop_char_slash c Hfirst Hnq Hph). reflexivity. }
  apply well_formed_intro; try assumption.
  - destruct pth; [reflexivity | exact Hpc].
  - destruct pth; [reflexivity | exact Hnq].
  - destruct pth; [reflexivity | exact Hph].
  - destruct pth; [reflexivity | exact Hpo].
  - destruct qry; [exact Hqo | exact I].
Qed.

Lemma parse_special_well_formed (sch rest : string) (o : url) :
  String.eqb sch "http" || String.eqb sch "https" = true ->
  Str.forallb url_char rest = true ->
  parse_special sch rest = Some o -> well_formed o = true.
Proof.
  intros Hs Hc. unfold parse_special.
  destruct (strip_prefix "//" rest) as [r|] eqn:Er; [|discriminate].
  apply strip_prefix_spec in Er. subst rest.
  destruct (span _ r) as [auth tail] eqn:Ea.
  apply span_spec in Ea as (-> & _ & Hfirst).
  destruct (cut ":" auth) as [h prt].
  destruct (host_ok (lower h)) eqn:Hh; [|discriminate].
  assert (Ht : Str.forallb url_char tail = true).
  { rewrite !forallb_app in Hc. apply andb_prop in Hc as [_ Hc].
    now apply andb_prop in Hc as [_ Hc]. }
  fold path_ok. fold fix_path.
  destruct prt as [ds|].
  - destruct (number_of ds) as [n|]; [|discriminate].
    destruct (n <=? 65535)%N eqn:Hn; [|discriminate].
    destruct (match default_port sch with
              | Some d => N.eqb d n
              | None => false
              end) eqn:Hd.
    + apply parse_tail_well_formed; auto using lower_idem.
    + apply parse_tail_well_formed; auto using lower_idem.
  - apply parse_tail_well_formed; auto using lower_idem.
Qed.

Lemma lower_http (s : string) :
  String.eqb (lower s) "http" || String.eqb (lower s) "https" = true ->
  lower s = "http" \/ lower s = "https".
Proof.
  intros H. apply orb_prop in H as [H | H]; apply String.eqb_eq in H; auto.
Qed.

(** What the parser accepts with a host is well formed. *)
Lemma parse_well_formed (u : string) (o : url) :
  parse u = Some o -> host o <> None -> well_formed o = true.
Proof.
  unfold parse. destruct (Str.forallb url_char u) eqn:Hc; [|discriminate].
  cbn [negb]. destruct (cut ":" u) as [sch [rest|]] eqn:E; [|discriminate].
  apply cut_spec in E as [_ ->].
  destruct sch as [|c sch]; [discriminate|].
  destruct (is_alpha c && Str.forallb scheme_char (String c sch));
    [|discriminate].
  rewrite forallb_app in Hc. apply andb_prop in Hc as [_ Hc].
  simpl in Hc.
  destruct (String.eqb (lower (String c sch)) "http"
            || String.eqb (lower (String c sch)) "https") eqn:Hs.
  - intros H _. now apply (parse_special_well_formed (lower (String c sch)) rest).
  - destruct (in_list _ _ || _); [discriminate|].
    destruct (starts_with "/" rest); [discriminate|].
    unfold parse_tail. destruct (cut "#" rest) as [bf frag].
    destruct (cut "?" bf) as [pth qry].
    destruct (true && _); [|discriminate].
    intros H. injection H as <-. simpl. congruence.
Qed.

Lemma delete_eq (name : string) (o : url) :
  delete name o = with_params o (filter (keep name) (searchParams o)).
Proof. reflexivity. Qed.

Lemma with_params_twice (o : url) (l l' : list (string * string)) :
  with_params (with_params o l) l' = with_params o l'.
Proof. reflexivity. Qed.

Lemma searchParams_with_params (o : url) (l : list (string * string)) :
  List.forallb good_pair l = true -> searchParams (with_params o l) = l.
Proof.
  intros H. unfold searchParams, with_params. cbn [query].
  destruct l as [|nv l]; [reflexivity|].
  rewrite serialize_nonempty by discriminate. now apply parse_serialize.
Qed.

Lemma forallb_filter {A} (p f : A -> bool) (l : list A) :
  List.forallb p l = true -> List.forallb p (filter f l) = true.
Proof.
  induction l as [|x l IH]; simpl; [reflexivity|]. intros H.
  apply andb_prop in H as [H1 H2]. destruct (f x); simpl; [|auto].
  now rewrite H1, IH.
Qed.

Lemma filter_filter {A} (f g : A -> bool) (l : list A) :
  filter f (filter g l) = filter (fun x => g x && f x) l.
Proof.
  induction l as [|x l IH]; simpl; [reflexivity|].
  destruct (g x); simpl; [|exact IH]. destruct (f x); now rewrite IH.
Qed.

Lemma filter_idem {A} (f : A -> bool) (l : list A) :
  filter f (filter f l) = filter f l.
Proof.
  rewrite filter_filter. apply filter_ext. intros x. now destruct (f x).
Qed.

Lemma fold_delete (names : list string) (o : url) (l : list (string * string)) :
  List.forallb good_pair l = true ->
  fold_left (fun o param => delete param o) names (with_params o l)
  = with_params o (filter (fun nv => List.forallb (fun name => keep name nv) names) l).
Proof.
  revert l. induction names as [|name names IH]; intros l H; cbn [fold_left].
  - f_equal. cbn [List.forallb]. clear H.
    induction l as [|x l IHl]; simpl; congruence.
  - rewrite delete_eq, with_params_twice, (searchParams_with_params _ _ H).
    rewrite IH by now apply forallb_filter.
    rewrite filter_filter. reflexivity.
Qed.

(** Deleting the tracking parameters of a well-formed record. *)
Lemma clean_eq (o : url) :
  match query o with Some q => query_ok q = true | None => True end ->
  fold_left (fun o param => delete param o) Normalizer.trackingParams o
  = with_params o (filter untracked (searchParams o)).
Proof.
  intros Hq.
  assert (Hg : List.forallb good_pair (searchParams o) = true).
  { unfold searchParams. destruct (query o) as [q|]; [|reflexivity].
    now apply parse_query_good. }
  unfold Normalizer.trackingParams at 1.
  match goal with
  | |- fold_left ?f (?a :: ?r) o = _ =>
      change (fold_left f (a :: r) o) with (fold_left f r (delete a o))
  end.
  rewrite delete_eq, fold_delete by now apply forallb_filter.
  rewrite filter_filter. reflexivity.
Qed.

Lemma well_formed_with_params (o : url) (l : list (string * string)) :
  well_formed o = true -> List.forallb good_pair l = true ->
  well_formed (with_params o l) = true.
Proof.
  intros H Hl.
  destruct (well_formed_parts o H)
    as (Hs & (h & Hh & Hok & Hlow) & Hp & Hst & Hpc & Hq & Hf & Hpa & _ & Hfc).
  destruct o as [sch ho p pa q f]. cbn [scheme host port path query fragment] in *.
  subst ho. unfold with_params. cbn [scheme host port path query fragment].
  apply well_formed_intro; try assumption.
  - destruct Hs as [-> | ->]; reflexivity.
  - destruct l as [|nv l]; [exact I|].
    rewrite serialize_nonempty by discriminate.
    apply serialize_ok; [assumption | discriminate].
Qed.

Lemma well_formed_bare (o : url) :
  well_formed o = true -> well_formed (bare o) = true.
Proof.
  intros H.
  destruct (well_formed_parts o H)
    as (Hs & (h & Hh & Hok & Hlow) & Hp & Hst & Hpc & Hq & Hf & Hpa & _ & _).
  destruct o as [sch ho p pa q f]. cbn [scheme host port path query fragment] in *.
  subst ho. unfold bare. cbn [scheme host port path query fragment].
  apply well_formed_intro; try assumption; try exact I.
  destruct Hs as [-> | ->]; reflexivity.
Qed.

Lemma origin_path (o : url) :
  host o <> None -> origin o ++ path o = href (bare o).
Proof.
  intros H. unfold origin, href, bare, authority.
  cbn [scheme host port path query fragment].
  destruct (host o) as [h|]; [|congruence].
  now rewrite !app_empty_r, !app_assoc.
Qed.

Lemma href_nonempty (o : url) :
  well_formed o = true -> is_empty (href o) = false.
Proof.
  intros H. destruct (well_formed_parts o H) as (Hs & _).
  unfold href. destruct Hs as [-> | ->]; reflexivity.
Qed.

Lemma searchParams_good (o : url) :
  well_formed o = true -> List.forallb good_pair (searchParams o) = true.
Proof.
  intros H. destruct (well_formed_parts o H) as (_ & _ & _ & _ & _ & _ & _ & _ & Hq & _).
  unfold searchParams. destruct (query o) as [q|]; [|reflexivity].
  now apply parse_query_good.
Qed.

End FragmentFacts.

Module NormalizerTheorems.

Import Str StrFacts Normalizer Spec NormalizerFacts.

Lemma canonical_is_social_post (user id : string) :
  user <> EmptyString ->
  Str.forallb (fun c => negb (Ascii.eqb c "/")) user = true ->
  id <> EmptyString ->
  Str.forallb is_digit id = true ->
  social_post (canonical user id) user id.
Proof.
  intros Hu Hus Hi His.
  exists "https", "x.com", "status", EmptyString.
  repeat split; auto.
  unfold canonical. simpl. now rewrite app_empty_r.
Qed.

Lemma social_post_parts (url user id : string) :
  social_post url user id ->
  user <> EmptyString
  /\ Str.forallb (fun c => negb (Ascii.eqb c "/")) user = true
  /\ id <> EmptyString /\ Str.forallb is_digit id = true
  /\ url <> EmptyString.
Proof.
  intros (sch & host & st & rest & -> & Hsch & _ & _ & Hu & Hus & Hi & His & _).
  repeat split; auto.
  destruct sch; [destruct Hsch; discriminate | discriminate].
Qed.

Section WithURL.

Context {api : URLApi}.

Lemma normalizeUrl_of_social_post (url user id : string) :
  social_post url user id -> normalizeUrl url = canonical user id.
Proof.
  intros H. unfold normalizeUrl.
  destruct (social_post_parts _ _ _ H) as (_ & _ & _ & _ & Hne).
  apply is_empty_false in Hne. rewrite Hne.
  now rewrite (twitterMatch_complete _ _ _ H).
Qed.

(** C7: a link that matches the social-post pattern, in any letter
    case, on either host and whatever follows the status id, is
    normalised to [https://x.com/{user}/status/{id}]; hence all the
    variants of one post are normalised to one and the same string. *)
Theorem normalizeUrl_social_post (url user id : string) :
  social_post url user id ->
  normalizeUrl url = "https://x.com/" ++ user ++ "/status/" ++ id
  /\ forall variant, social_post variant user id ->
       normalizeUrl variant = normalizeUrl url.
Proof.
  intros H. split.
  - apply (normalizeUrl_of_social_post _ _ _ H).
  - intros v Hv.
    now rewrite (normalizeUrl_of_social_post _ _ _ H),
                (normalizeUrl_of_social_post _ _ _ Hv).
Qed.

(** With every [URL] class, normalising twice gives the same as
    normalising once for the empty string, for every social-post link
    and for every string the [URL] constructor rejects. *)
Lemma normalizeUrl_twice_any_class (u : string) :
  u = EmptyString
  \/ (exists user id, social_post u user id)
  \/ URL_new u = None ->
  normalizeUrl (normalizeUrl u) = normalizeUrl u.
Proof.
  intros [-> | [(user & id & H) | H]].
  - reflexivity.
  - rewrite (normalizeUrl_of_social_post _ _ _ H).
    destruct (social_post_parts _ _ _ H) as (Hu & Hus & Hi & His & _).
    apply normalizeUrl_of_social_post.
    now apply canonical_is_social_post.
  - destruct (twitterMatch u) as [[user id]|] eqn:E.
    + apply twitterMatch_sound in E.
      rewrite (normalizeUrl_of_social_post _ _ _ E).
      destruct (social_post_parts _ _ _ E) as (Hu & Hus & Hi & His & _).
      apply normalizeUrl_of_social_post.
      now apply canonical_is_social_post.
    + assert (Hn : normalizeUrl u = u).
      { unfold normalizeUrl. rewrite E, H. now destruct (is_empty u). }
      now rewrite Hn.
Qed.

End WithURL.

(** C7 at a link of the alias host with a query string. *)
Lemma normalizeUrl_social_post_witness :
  social_post "https://twitter.com/user/status/123?x=1" "user" "123"
  /\ @normalizeUrl WhatwgFragment.api "https://twitter.com/user/status/123?x=1"
     = "https://x.com/user/status/123".
Proof.
  assert (H : social_post "https://twitter.com/user/status/123?x=1" "user" "123").
  { exists "https", "twitter.com", "status", "?x=1".
    repeat split; try discriminate; auto. }
  split; [exact H|].
  exact (proj1 (@normalizeUrl_social_post WhatwgFragment.api _ _ _ H)).
Defined.

(** *** Links the concrete URL class accepts *)

Import WhatwgFragment FragmentSpec FragmentFacts.

(** [normalizeUrl] on a link that is no social-post link and that the
    parser accepts with a host. *)
Lemma normalizeUrl_parsed (u : string) (o : url) :
  is_empty u = false -> twitterMatch u = None ->
  parse u = Some o -> well_formed o = true ->
  normalizeUrl u
  = if is_empty (serialize_query (filter untracked (searchParams o)))
    then href (bare o)
    else href (with_params o (filter untracked (searchParams o))).
Proof.
  intros Hne Ht Hp Hw. unfold normalizeUrl.
  cbn [URLobj URL_new searchParams_delete searchParams_toString URL_origin
       URL_pathname URL_toString api].
  rewrite Hne, Ht, Hp.
  assert (Hg := searchParams_good o Hw).
  destruct (well_formed_parts o Hw)
    as (_ & (h & Hh & _) & _ & _ & _ & _ & _ & _ & Hq & _).
  rewrite (clean_eq o Hq). unfold toString_params.
  rewrite searchParams_with_params by now apply forallb_filter.
  destruct (is_empty (serialize_query _)); [|reflexivity].
  rewrite origin_path; [reflexivity|].
  cbn [with_params host]. congruence.
Qed.

Lemma normalizeUrl_twice_http (u : string) (o : url) :
  parse u = Some o -> host o <> None ->
  twitterMatch (normalizeUrl u) = None ->
  normalizeUrl (normalizeUrl u) = normalizeUrl u.
Proof.
  intros Hp Hh Hr.
  destruct (is_empty u) eqn:Hne.
  { apply is_empty_true in Hne. now subst u. }
  destruct (twitterMatch u) as [[user id]|] eqn:Ht.
  { apply twitterMatch_sound in Ht.
    rewrite (normalizeUrl_of_social_post _ _ _ Ht).
    destruct (social_post_parts _ _ _ Ht) as (Hu & Hus & Hi & His & _).
    apply normalizeUrl_of_social_post.
    now apply canonical_is_social_post. }
  assert (Hw := parse_well_formed u o Hp Hh).
  assert (Hg := searchParams_good o Hw).
  rewrite (normalizeUrl_parsed u o Hne Ht Hp Hw) in *.
  set (l := filter untracked (searchParams o)) in *.
  assert (Hl : List.forallb good_pair l = true) by now apply forallb_filter.
  destruct (is_empty (serialize_query l)) eqn:Es.
  - assert (Hb := well_formed_bare o Hw).
    rewrite (normalizeUrl_parsed (href (bare o)) (bare o)
               (href_nonempty _ Hb) Hr (parse_href _ Hb) Hb).
    reflexivity.
  - assert (Hw' := well_formed_with_params o l Hw Hl).
    rewrite (normalizeUrl_parsed (href (with_params o l)) (with_params o l)
               (href_nonempty _ Hw') Hr (parse_href _ Hw') Hw').
    rewrite (searchParams_with_params o l Hl).
    assert (Hll : filter untracked l = l) by apply filter_idem.
    now rewrite Hll, Es.
Qed.

(** C6, as amended: normalising twice gives the same as normalising
    once
    - with every [URL] class, for the empty string, for every
      social-post link and for every string the [URL] constructor
      rejects;
    - with the URL class of [WhatwgFragment], for every [http(s)] link
      it accepts of which the normal form is no social-post link. *)
Theorem normalizeUrl_idempotent_on (u : string) :
  (forall api : URLApi,
     u = EmptyString
     \/ (exists user id, social_post u user id)
     \/ @URL_new api u = None ->
     @normalizeUrl api (@normalizeUrl api u) = @normalizeUrl api u)
  /\ (forall o : url,
        parse u = Some o -> host o <> None ->
        twitterMatch (@normalizeUrl WhatwgFragment.api u) = None ->
        @normalizeUrl WhatwgFragment.api (@normalizeUrl WhatwgFragment.api u)
        = @normalizeUrl WhatwgFragment.api u).
Proof.
  split.
  - intros api. apply normalizeUrl_twice_any_class.
  - apply normalizeUrl_twice_http.
Qed.

(** C6 as stated fails: with the default port written out the link is
    no social-post link for the pattern, the [URL] class drops the port,
    and the result is a social-post link that a second pass rewrites to
    the primary host. *)
Lemma normalizeUrl_not_idempotent :
  @normalizeUrl WhatwgFragment.api
     (@normalizeUrl WhatwgFragment.api "https://twitter.com:443/u/status/1")
  <> @normalizeUrl WhatwgFragment.api "https://twitter.com:443/u/status/1".
Proof. vm_compute. discriminate. Qed.

(** The same failure on a link without authority: the origin of a
    [urn:] link is the string [null]. *)
Lemma urn_link_changes_twice :
  @normalizeUrl WhatwgFragment.api "urn:isbn:0451450523" = "nullisbn:0451450523"
  /\ @normalizeUrl WhatwgFragment.api "nullisbn:0451450523" = "null0451450523".
Proof. split; vm_compute; reflexivity. Qed.

(** The tracking parameters are removed from other links. *)
Lemma tracking_parameters_removed :
  @normalizeUrl WhatwgFragment.api "https://github.com/a/b?utm_source=x&ref=y"
  = "https://github.com/a/b"
  /\ @normalizeUrl WhatwgFragment.api "https://github.com/a/b?utm_source=x&q=1#top"
     = "https://github.com/a/b?q=1#top".
Proof. split; vm_compute; reflexivity. Qed.

(** The amended C6 at a social-post link with tracking parameters, and
    at a link with a default port, an upper-case host, tracking
    parameters, an empty piece and a name without value in its query. *)
Lemma normalizeUrl_idempotent_on_witness :
  @normalizeUrl WhatwgFragment.api
     (@normalizeUrl WhatwgFragment.api "http://Twitter.com/u/status/1?s=20&t=abc")
  = @normalizeUrl WhatwgFragment.api "http://Twitter.com/u/status/1?s=20&t=abc"
  /\ @normalizeUrl WhatwgFragment.api
       (@normalizeUrl WhatwgFragment.api
          "https://Example.com:443/a/b?utm_source=x&q=1&&r#top")
     = @normalizeUrl WhatwgFragment.api
         "https://Example.com:443/a/b?utm_source=x&q=1&&r#top".
Proof.
  split.
  - assert (H : social_post "http://Twitter.com/u/status/1?s=20&t=abc" "u" "1").
    { exists "http", "Twitter.com", "status", "?s=20&t=abc".
      repeat split; try discriminate; auto. }
    exact (proj1 (normalizeUrl_idempotent_on _) WhatwgFragment.api
             (or_intror (or_introl (ex_intro _ "u" (ex_intro _ "1" H))))).
  - pose (o := {| scheme := "https"; host := Some "example.com"; port := None;
                  path := "/a/b"; query := Some "utm_source=x&q=1&&r";
                  fragment := Some "top" |}).
    assert (H1 : parse "https://Example.com:443/a/b?utm_source=x&q=1&&r#top"
                 = Some o) by (vm_compute; reflexivity).
    assert (H2 : host o <> None) by discriminate.
    assert (H3 : twitterMatch
                   (@normalizeUrl WhatwgFragment.api
                      "https://Example.com:443/a/b?utm_source=x&q=1&&r#top")
                 = None) by (vm_compute; reflexivity).
    exact (proj2 (normalizeUrl_idempotent_on _) o H1 H2 H3).
Defined.

(** The normal form of that link. *)
Lemma plain_link_normal_form :
  @normalizeUrl WhatwgFragment.api
     "https://Example.com:443/a/b?utm_source=x&q=1&&r#top"
  = "https://example.com/a/b?q=1&r=#top".
Proof. vm_compute. reflexivity. Qed.

End NormalizerTheorems.

(** ** JSON: what is written is read back *)

Module JsonFacts.

Import Str StrFacts Json.

Lemma parse_chars_quote_char (c : ascii) (tail : string) :
  parse_chars (quote_char c ++ tail)
  = cons_text (String c EmptyString) (parse_chars tail).
Proof.
  destruct c as [[] [] [] [] [] [] [] []]; reflexivity.
Qed.

Lemma parse_chars_quote_body (s rest : string) :
  parse_chars (quote_body s ++ String dquote rest) = Some (s, rest).
Proof.
  induction s as [|c s IH].
  - reflexivity.
  - simpl quote_body. rewrite app_assoc, parse_chars_quote_char, IH.
    reflexivity.
Qed.

Lemma quote_app (s rest : string) :
  quote s ++ rest = String dquote (quote_body s ++ String dquote rest).
Proof. unfold quote. simpl. now rewrite app_assoc. Qed.

Lemma parse_value_quote (fuel : nat) (s rest : string) :
  parse_value (S fuel) (quote s ++ rest) = Some (Text s, rest).
Proof.
  rewrite quote_app. cbn [parse_value skip_ws].
  change (is_ws dquote) with false. cbv beta iota.
  change (Ascii.eqb dquote dquote) with true. cbv beta iota.
  now rewrite parse_chars_quote_body.
Qed.

(** The items of an array after the opening bracket. *)
Lemma parse_elems_quoted (fuel n : nat) (x : string) (xs : list string) (rest : string) :
  List.length xs < n ->
  parse_elems (parse_value (S fuel)) n
    (join "," (map quote (x :: xs)) ++ "]" ++ rest)
  = Some (map Text (x :: xs), rest).
Proof.
  revert n x. induction xs as [|y ys IH]; intros n x Hn.
  - destruct n as [|n]; [inversion Hn|].
    cbn [map join parse_elems]. rewrite parse_value_quote. reflexivity.
  - destruct n as [|n]; [inversion Hn|].
    change (join "," (map quote (x :: y :: ys)))
      with (quote x ++ "," ++ join "," (map quote (y :: ys))).
    rewrite !app_assoc. cbn [parse_elems]. rewrite parse_value_quote.
    change (skip_ws ("," ++ join "," (map quote (y :: ys)) ++ "]" ++ rest))
      with (String "," (join "," (map quote (y :: ys)) ++ "]" ++ rest)).
    cbv beta iota. rewrite IH by (simpl in Hn; lia). reflexivity.
Qed.

Lemma length_app (a b : string) :
  String.length (a ++ b) = String.length a + String.length b.
Proof. induction a; simpl; congruence. Qed.

Lemma length_join_quote (xs : list string) :
  List.length xs <= String.length (join "," (map quote xs)).
Proof.
  induction xs as [|x xs IH]; [apply Nat.le_refl|].
  destruct xs as [|y ys].
  - simpl. lia.
  - change (join "," (map quote (x :: y :: ys)))
      with (quote x ++ "," ++ join "," (map quote (y :: ys))).
    rewrite !length_app. simpl in *. lia.
Qed.

Lemma parse_value_array_quoted (fuel : nat) (tail : string) :
  parse_value (S fuel) (String "[" (String dquote tail))
  = match parse_elems (parse_value fuel)
            (String.length (String dquote tail)) (String dquote tail) with
    | Some (vs, r1) => Some (Arr vs, r1)
    | None => None
    end.
Proof. reflexivity. Qed.

(** [JSON.parse(JSON.stringify(a))] is [a] again, for an array of
    strings. *)
Lemma parse_stringify_strings (a : list string) :
  parse (stringify_strings a) = Some (Arr (map Text a)).
Proof.
  destruct a as [|x xs]; [reflexivity|].
  unfold parse, stringify_strings.
  set (body := join "," (map quote (x :: xs)) ++ "]").
  assert (Hlen : List.length xs < String.length body).
  { unfold body. rewrite length_app.
    pose proof (length_join_quote (x :: xs)) as H. simpl in *. lia. }
  assert (Hb : exists tail, body = String dquote tail).
  { unfold body. destruct xs as [|y ys].
    - cbn [map join]. rewrite quote_app. eauto.
    - change (join "," (map quote (x :: y :: ys)))
        with (quote x ++ "," ++ join "," (map quote (y :: ys))).
      rewrite app_assoc, quote_app. eauto. }
  change ("[" ++ body) with (String "[" body).
  cbn [String.length].
  destruct (String.length body) as [|fuel] eqn:El; [inversion Hlen|].
  assert (Hv : parse_value (S (S (S fuel))) (String "[" body)
               = Some (Arr (map Text (x :: xs)), EmptyString)).
  { destruct Hb as (tail & Hb).
    pose proof (parse_elems_quoted (S fuel) (S fuel) x xs EmptyString Hlen) as H.
    change ("]" ++ EmptyString) with "]" in H. fold body in H.
    rewrite Hb in *. rewrite parse_value_array_quoted, El, H. reflexivity. }
  rewrite Hv. reflexivity.
Qed.

Lemma texts_map_Text (a : list string) : texts (map Text a) = a.
Proof. induction a; simpl; congruence. Qed.

Lemma stringify_strings_nonempty (a : list string) :
  is_empty (stringify_strings a) = false.
Proof. reflexivity. Qed.

End JsonFacts.

(** ** The record store *)

Module DbFacts.

Import Str StrFacts Json JsonFacts Normalizer Db Spec.

Lemma has_In (set : list string) (x : string) : has set x = true <-> In x set.
Proof.
  unfold has. rewrite existsb_exists. split.
  - intros (y & Hy & E). apply String.eqb_eq in E. now subst.
  - intros H. exists x. split; [assumption | apply String.eqb_refl].
Qed.

Lemma has_false (set : list string) (x : string) :
  has set x = false <-> ~ In x set.
Proof.
  rewrite <- has_In. destruct (has set x); split; congruence.
Qed.

Lemma stored_urls_insert (f d t e c : cell) (links : list string) (i : Z) :
  stored_urls {| row_id := i; row_fileName := f; row_fechaEnvio := d;
                 row_tematica := t; row_etiquetas := e; row_contenido := c;
                 row_urls := Some (stringify_strings links) |} = links.
Proof.
  unfold stored_urls, cell_or, or_default. cbn [row_urls].
  rewrite stringify_strings_nonempty, parse_stringify_strings.
  apply texts_map_Text.
Qed.

Lemma emails_insert (f d t e c u : cell) (d0 : Database) :
  exists i, emails (insert f d t e c u d0)
            = (emails d0 ++ [ {| row_id := i; row_fileName := f;
                                 row_fechaEnvio := d; row_tematica := t;
                                 row_etiquetas := e; row_contenido := c;
                                 row_urls := u |} ])%list.
Proof. eexists. reflexivity. Qed.

Lemma length_insert_email (email : AnalyzedEmail) (d0 : Database) :
  List.length (emails (insert_email email d0)) = S (List.length (emails d0)).
Proof.
  unfold insert_email, insert. cbn [emails].
  rewrite List.length_app. simpl. lia.
Qed.

Section WithURL.

Context {api : URLApi}.

Lemma normalizeUrls_incl (links : list string) (n : string) :
  In n (normalizeUrls links) -> In n (map normalizeUrl links).
Proof. unfold normalizeUrls. intros H. now apply filter_In in H. Qed.

Lemma normalizeUrls_length (links : list string) :
  List.length (normalizeUrls links) <= List.length links.
Proof.
  unfold normalizeUrls.
  rewrite <- (length_map normalizeUrl links).
  generalize (map normalizeUrl links). intros l.
  induction l as [|x l IH]; simpl; [lia|].
  destruct (negb (is_empty x)); simpl; lia.
Qed.

(** The loop over the links finds nothing exactly when no link is in
    the raw set and none of the normalised links it is given is in the
    normalised set. *)
Lemma url_duplicate_None (ix : Index) (links normalized : list string) :
  List.length normalized <= List.length links ->
  url_duplicate ix links normalized = None
  <-> (forall u, In u links -> ~ In u (existingUrlSets ix))
      /\ (forall n, In n normalized -> ~ In n (existingNormalizedUrlSets ix)).
Proof.
  revert normalized.
  induction links as [|u links IH]; intros normalized Hlen.
  - destruct normalized; [|simpl in Hlen; lia].
    simpl. split; [intros _; split; intros ? [] | reflexivity].
  - cbn [url_duplicate].
    destruct normalized as [|n normalized]; cbn [hd_error tl].
    + destruct (has (existingUrlSets ix) u) eqn:Hu; cbn [orb].
      * split; [discriminate|]. intros [H _]. exfalso.
        apply (H u); [now left | now apply has_In].
      * rewrite (IH [] (Nat.le_0_l _)). apply has_false in Hu.
        split.
        -- intros [H1 H2]. split; [|assumption].
           intros v [<- | Hv]; auto.
        -- intros [H1 H2]. split; [|assumption].
           intros v Hv. apply H1. now right.
    + destruct (has (existingUrlSets ix) u) eqn:Hu; cbn [orb].
      * split; [discriminate|]. intros [H _]. exfalso.
        apply (H u); [now left | now apply has_In].
      * destruct (has (existingNormalizedUrlSets ix) n) eqn:Hn.
        -- split; [discriminate|]. intros [_ H]. exfalso.
           apply (H n); [now left | now apply has_In].
        -- rewrite (IH normalized) by (simpl in Hlen; lia).
           apply has_false in Hu. apply has_false in Hn.
           split.
           ++ intros [H1 H2]. split.
              ** intros v [<- | Hv]; auto.
              ** intros v [<- | Hv]; auto.
           ++ intros [H1 H2]. split.
              ** intros v Hv. apply H1. now right.
              ** intros v Hv. apply H2. now right.
Qed.

Lemma url_duplicate_known (ix : Index) (email : AnalyzedEmail) :
  url_duplicate ix (urls email) (normalizeUrls (urls email)) <> None
  <-> url_known ix email.
Proof.
  pose proof (url_duplicate_None ix (urls email) (normalizeUrls (urls email))
                (normalizeUrls_length _)) as H.
  unfold url_known. split.
  - intros Hd.
    destruct (existsb (has (existingUrlSets ix)) (urls email)) eqn:E1.
    { apply existsb_exists in E1 as (u & Hu & Hh). apply has_In in Hh.
      left. eauto. }
    destruct (existsb (has (existingNormalizedUrlSets ix))
                      (normalizeUrls (urls email))) eqn:E2.
    { apply existsb_exists in E2 as (n & Hn & Hh). apply has_In in Hh.
      right. eauto. }
    exfalso. apply Hd. apply H. split.
    + intros u Hu Hin. apply has_In in Hin.
      assert (existsb (has (existingUrlSets ix)) (urls email) = true)
        by (apply existsb_exists; eauto).
      congruence.
    + intros n Hn Hin. apply has_In in Hin.
      assert (existsb (has (existingNormalizedUrlSets ix))
                      (normalizeUrls (urls email)) = true)
        by (apply existsb_exists; eauto).
      congruence.
  - intros Hk Hd. apply H in Hd as [H1 H2].
    destruct Hk as [(u & Hu & Hin) | (n & Hn & Hin)].
    + exact (H1 u Hu Hin).
    + exact (H2 n Hn Hin).
Qed.

(** The links decide first, the file name second. *)
Lemma duplicate_of_spec (ix : Index) (email : AnalyzedEmail) :
  (url_known ix email -> exists n, duplicate_of ix email = Some (UrlExists n))
  /\ (~ url_known ix email -> name_known ix email ->
      duplicate_of ix email = Some (FileNameExists (fileName email)))
  /\ (~ url_known ix email -> ~ name_known ix email ->
      duplicate_of ix email = None).
Proof.
  unfold duplicate_of.
  pose proof (url_duplicate_known ix email) as Hk.
  destruct (url_duplicate ix (urls email) (normalizeUrls (urls email)))
    as [n|] eqn:E.
  - assert (url_known ix email) by (apply Hk; discriminate).
    repeat split; [eauto | tauto | tauto].
  - assert (Hnk : ~ url_known ix email) by (intros K; now apply Hk in K).
    repeat split; [tauto | |].
    + intros _ [Hne Hin]. apply is_empty_false in Hne. apply has_In in Hin.
      now rewrite Hne, Hin.
    + intros _ Hn.
      destruct (is_empty (fileName email)) eqn:E1; [reflexivity|].
      destruct (has (existingFileNames ix) (fileName email)) eqn:E2;
        [|reflexivity].
      exfalso. apply Hn. split; [now apply is_empty_false | now apply has_In].
Qed.

End WithURL.

End DbFacts.

Module DbTheorems.

Import Str StrFacts Json JsonFacts Normalizer Db Spec DbFacts.

Section WithURL.

Context {api : URLApi}.

Lemma db_saveToDb (storage : option string) (batch : list AnalyzedEmail)
    (st : Store) :
  db (fst (saveToDb storage batch st))
  = sv_db (save_each 0 batch (start_saving (db st))).
Proof.
  unfold saveToDb. destruct batch as [|e batch]; [reflexivity|].
  destruct (Nat.ltb 0 _); [destruct storage|]; reflexivity.
Qed.

Lemma save_one_rejected (i : nat) (e : AnalyzedEmail) (s : Saving) :
  fileName e = EmptyString -> sv_db (save_one i e s) = sv_db s
  /\ sv_index (save_one i e s) = sv_index s.
Proof. intros H. unfold save_one. rewrite H. now split. Qed.

Lemma save_one_skipped (i : nat) (e : AnalyzedEmail) (s : Saving) (why : DuplicateReason) :
  duplicate_of (sv_index s) e = Some why -> sv_db (save_one i e s) = sv_db s.
Proof.
  intros H. unfold save_one. rewrite H. now destruct (is_empty (fileName e)).
Qed.

Lemma save_one_inserted (i : nat) (e : AnalyzedEmail) (s : Saving) :
  fileName e <> EmptyString ->
  duplicate_of (sv_index s) e = None ->
  sv_db (save_one i e s) = insert_email e (sv_db s)
  /\ sv_index (save_one i e s) = add_to_index (sv_index s) e.
Proof.
  intros Hn H. unfold save_one. apply is_empty_false in Hn.
  rewrite Hn, H. now split.
Qed.

(** In an empty index nothing is a duplicate. *)
Lemma duplicate_of_empty (e : AnalyzedEmail) :
  duplicate_of (build_index empty) e = None.
Proof.
  apply duplicate_of_spec.
  - intros [(u & _ & []) | (n & _ & [])].
  - intros [_ []].
Qed.

(** The index rebuilt from a fresh store with one record is the index
    the loop has after inserting that record. *)
Lemma build_index_insert_empty (e : AnalyzedEmail) :
  fileName e <> EmptyString ->
  build_index (insert_email e empty) = add_to_index (build_index empty) e.
Proof.
  intros Hn. apply is_empty_false in Hn.
  unfold build_index, add_to_index, getExistingFileNames, insert_email, insert.
  cbn [emails empty flat_map existingFileNames existingUrlSets
       existingNormalizedUrlSets row_fileName app map].
  rewrite Hn, stored_urls_insert, !app_nil_r. reflexivity.
Qed.

(** A record that shares a normalised link with an inserted record is
    a duplicate by its links. *)
Lemma duplicate_after (ix : Index) (e1 e2 : AnalyzedEmail) :
  overlapping e1 e2 ->
  exists n, duplicate_of (add_to_index ix e1) e2 = Some (UrlExists n).
Proof.
  intros (n & H1 & H2). apply duplicate_of_spec. right. exists n.
  split; [assumption|]. cbn [add_to_index existingNormalizedUrlSets].
  apply in_or_app. right. now apply normalizeUrls_incl.
Qed.

(** The records without file name change nothing but the list of
    errors. *)
Lemma save_each_valid (batch : list AnalyzedEmail) (i j : nat) (s s' : Saving) :
  sv_db s = sv_db s' -> sv_index s = sv_index s' ->
  addedCount s = addedCount s' ->
  sv_db (save_each i batch s) = sv_db (save_each j (filter has_name batch) s')
  /\ addedCount (save_each i batch s)
     = addedCount (save_each j (filter has_name batch) s').
Proof.
  revert i j s s'. induction batch as [|e batch IH]; intros i j s s' Hd Hi Ha.
  - now split.
  - cbn [save_each filter].
    assert (E' : is_empty (fileName e) = negb (has_name e))
      by (unfold has_name; now rewrite negb_involutive).
    destruct (has_name e); cbn [negb] in E'.
    + cbn [save_each]. apply IH; unfold save_one; rewrite E', <- Hi;
        destruct (duplicate_of (sv_index s) e); cbn; congruence.
    + apply IH; unfold save_one; rewrite E'; assumption.
Qed.

Lemma errors_save_each (batch : list AnalyzedEmail) (i : nat) (s : Saving) :
  errors (save_each i batch s) = (errors s ++ missing_names i batch)%list.
Proof.
  revert i s. induction batch as [|e batch IH]; intros i s; cbn [save_each missing_names].
  - now rewrite app_nil_r.
  - rewrite IH. unfold save_one.
    destruct (is_empty (fileName e)); cbn [errors].
    + now rewrite <- List.app_assoc.
    + now destruct (duplicate_of (sv_index s) e).
Qed.

Lemma missing_names_nonempty (batch : list AnalyzedEmail) (i : nat) :
  (exists e, In e batch /\ fileName e = EmptyString) ->
  missing_names i batch <> [].
Proof.
  revert i. induction batch as [|e batch IH]; intros i (x & Hx & Hn).
  - destruct Hx.
  - cbn [missing_names]. destruct (is_empty (fileName e)) eqn:E; [discriminate|].
    apply IH. exists x. split; [|assumption].
    destruct Hx as [-> | Hx]; [|assumption].
    rewrite Hn in E. discriminate.
Qed.

(** Rows are only added, one for each record counted. *)
Lemma rows_save_each (batch : list AnalyzedEmail) (i : nat) (s : Saving) :
  exists added,
    emails (sv_db (save_each i batch s)) = (emails (sv_db s) ++ added)%list
    /\ addedCount (save_each i batch s) = addedCount s + List.length added.
Proof.
  revert i s. induction batch as [|e batch IH]; intros i s; cbn [save_each].
  - exists []. now rewrite app_nil_r, Nat.add_0_r.
  - destruct (IH (S i) (save_one i e s)) as (added & Hr & Hc).
    rewrite Hr, Hc. unfold save_one.
    destruct (is_empty (fileName e)); [exists added; now split|].
    destruct (duplicate_of (sv_index s) e); [exists added; now split|].
    cbn [sv_db addedCount]. unfold insert_email.
    destruct (emails_insert (Some (fileName e)) (Some (fechaEnvio e))
                (Some (or_default (tematica e) "Sin clasificar"))
                (Some (stringify_strings (etiquetas e)))
                (Some (contenido e))
                (Some (stringify_strings (urls e))) (sv_db s)) as (k & ->).
    eexists. rewrite <- List.app_assoc. split; [reflexivity|].
    rewrite List.length_app. simpl. lia.
Qed.

End WithURL.

End DbTheorems.

(** ** getAllEmails *)

Module ReadFacts.

Import Str Json Db Spec.

Lemma mapM_Throw {A B} (f : A -> Result B) (l : list A) (a : A) :
  In a l -> (exists m, f a = Throw m) -> exists m, mapM f l = Throw m.
Proof.
  induction l as [|x l IH]; intros Hin Hf; [destruct Hin|].
  cbn [mapM]. destruct (f x) as [b|m] eqn:E; cbn [bind].
  - destruct Hin as [-> | Hin].
    + destruct Hf as (m & Hf). congruence.
    + destruct (IH Hin Hf) as (m & ->). now exists m.
  - now exists m.
Qed.

Lemma mapM_Ok {A B} (f : A -> Result B) (g : A -> B) (l : list A) :
  (forall a, In a l -> f a = Ok (g a)) -> mapM f l = Ok (map g l).
Proof.
  induction l as [|x l IH]; intros H; [reflexivity|].
  cbn [mapM map]. rewrite (H x (or_introl eq_refl)). cbn [bind].
  rewrite IH by (intros a Ha; apply H; now right). reflexivity.
Qed.

Lemma In_insert_desc (r x : Row) (l : list Row) :
  In x (insert_desc r l) <-> x = r \/ In x l.
Proof.
  induction l as [|y l IH]; cbn [insert_desc].
  - simpl. intuition congruence.
  - destruct (row_id y <=? row_id r)%Z; simpl in *; intuition congruence.
Qed.

Lemma In_order_by_id_desc (x : Row) (rows : list Row) :
  In x (order_by_id_desc rows) <-> In x rows.
Proof.
  induction rows as [|r rows IH]; [reflexivity|].
  unfold order_by_id_desc in *. cbn [fold_right].
  rewrite In_insert_desc, IH. simpl. intuition congruence.
Qed.

Lemma insert_desc_last (r : Row) (l : list Row) :
  (forall x, In x l -> (row_id r < row_id x)%Z) ->
  insert_desc r l = (l ++ [r])%list.
Proof.
  induction l as [|y l IH]; intros H; [reflexivity|].
  cbn [insert_desc app].
  assert (Hy : (row_id y <=? row_id r)%Z = false).
  { apply Z.leb_gt. apply H. now left. }
  rewrite Hy, IH; [reflexivity|]. intros x Hx. apply H. now right.
Qed.

(** On a table whose ids grow, [ORDER BY id DESC] is the table
    backwards: the row inserted last comes first. *)
Lemma order_by_id_desc_rev (rows : list Row) :
  ascending rows -> order_by_id_desc rows = rev rows.
Proof.
  induction rows as [|r rows IH]; intros H; [reflexivity|].
  destruct H as [Hr Hrest].
  unfold order_by_id_desc in *. cbn [fold_right rev].
  rewrite (IH Hrest). apply insert_desc_last.
  intros x Hx. apply Hr. now apply in_rev.
Qed.

Lemma max_id_ge (rows : list Row) (x : Row) :
  In x rows -> (row_id x <= max_id rows)%Z.
Proof.
  induction rows as [|r rows IH]; intros H; [destruct H|].
  cbn [max_id fold_right]. destruct H as [-> | H].
  - apply Z.le_max_l.
  - etransitivity; [apply (IH H) | apply Z.le_max_r].
Qed.

Lemma ascending_app (rows : list Row) (r : Row) :
  ascending rows -> (forall x, In x rows -> (row_id x < row_id r)%Z) ->
  ascending (rows ++ [r]).
Proof.
  induction rows as [|y rows IH]; intros Ha Hlt.
  - simpl. split; [intros x []|exact I].
  - destruct Ha as [Hy Ha]. cbn [app ascending]. split.
    + intros x Hx. apply in_app_or in Hx as [Hx | [<- | []]].
      * now apply Hy.
      * apply Hlt. now left.
    + apply IH; [assumption|]. intros x Hx. apply Hlt. now right.
Qed.

(** [INSERT] keeps the ids growing. *)
Lemma ascending_insert (f d t e c u : cell) (d0 : Database) :
  ascending (emails d0) -> ascending (emails (insert f d t e c u d0)).
Proof.
  intros H. unfold insert. cbn [emails]. apply ascending_app; [assumption|].
  intros x Hx. cbn [row_id]. pose proof (max_id_ge _ _ Hx). lia.
Qed.

(** A row of which both JSON cells hold arrays is decoded. *)
Lemma row_to_email_Ok (r : Row) :
  holds_array (row_etiquetas r) -> holds_array (row_urls r) ->
  exists tags links,
    row_to_email r
    = Ok {| se_id := of_Z (row_id r); se_fileName := row_fileName r;
            se_fechaEnvio := row_fechaEnvio r; se_tematica := row_tematica r;
            se_etiquetas := Arr tags; se_contenido := row_contenido r;
            se_urls := Arr links; se_status := completed |}.
Proof.
  intros (tags & Ht) (links & Hl). exists tags, links.
  unfold row_to_email, JSON_parse. now rewrite Ht, Hl.
Qed.

(** C8 fails where it speaks of malformed text: for every table with a
    row of which the [etiquetas] or the [urls] cell holds text that is
    not JSON, [getAllEmails] throws (the [SyntaxError] of [JSON.parse]
    reaches the caller, there is no handler around it) instead of
    returning the row with an empty array. *)
Theorem getAllEmails_propagates_decode_error (d : Database) (r : Row) :
  In r (emails d) ->
  malformed (row_etiquetas r) \/ malformed (row_urls r) ->
  exists m, getAllEmails d = Throw m.
Proof.
  intros Hin Hbad. unfold getAllEmails.
  apply (mapM_Throw row_to_email _ r).
  - now apply In_order_by_id_desc.
  - unfold row_to_email, JSON_parse, malformed in *.
    destruct Hbad as [H | H].
    + rewrite H. cbn [bind]. eauto.
    + rewrite H. destruct (parse (cell_or (row_etiquetas r) "[]"));
        cbn [bind]; eauto.
Qed.

(** On a table written by inserts whose JSON cells all hold arrays,
    the rows are returned newest first. *)
Lemma getAllEmails_newest_first (d : Database) :
  ascending (emails d) ->
  (forall r, In r (emails d) ->
     holds_array (row_etiquetas r) /\ holds_array (row_urls r)) ->
  exists l, getAllEmails d = Ok l
            /\ map se_id l = map (fun r => of_Z (row_id r)) (rev (emails d)).
Proof.
  intros Ha Hok. unfold getAllEmails. rewrite (order_by_id_desc_rev _ Ha).
  assert (H : forall rows, (forall r, In r rows -> In r (emails d)) ->
            exists l, mapM row_to_email rows = Ok l
                      /\ map se_id l = map (fun r => of_Z (row_id r)) rows).
  { induction rows as [|r rows IH]; intros Hsub.
    - exists []. now split.
    - destruct (Hok r (Hsub r (or_introl eq_refl))) as [Ht Hl].
      destruct (row_to_email_Ok r Ht Hl) as (tags & links & Hr).
      destruct IH as (l & Hm & Hi); [intros x Hx; apply Hsub; now right|].
      cbn [mapM]. rewrite Hr, Hm. cbn [bind]. eexists. split; [reflexivity|].
      cbn [map se_id]. now rewrite Hi. }
  apply H. intros r Hr. now apply in_rev.
Qed.

(** What [saveToDb] writes into the JSON cells holds arrays. *)
Lemma holds_array_stringify (a : list string) :
  holds_array (Some (stringify_strings a)).
Proof.
  exists (map Text a). unfold cell_or, or_default.
  rewrite JsonFacts.stringify_strings_nonempty.
  apply JsonFacts.parse_stringify_strings.
Qed.

(** A table with the tags of a row stored as plain text. *)
Lemma damaged_table_cannot_be_read :
  getAllEmails Examples.damaged = Throw "SyntaxError".
Proof. vm_compute. reflexivity. Qed.

(** C8's failure on that table. *)
Lemma getAllEmails_propagates_decode_error_witness :
  exists m, getAllEmails Examples.damaged = Throw m.
Proof.
  apply (getAllEmails_propagates_decode_error Examples.damaged
           (hd (Build_Row 0 None None None None None None)
               (emails Examples.damaged))).
  - simpl. auto.
  - left. vm_compute. reflexivity.
Defined.

End ReadFacts.

(** ** The retry loop *)

Module GeminiFacts.

Import Str Gemini Spec.

(** The test of the [catch] block is the test for the indicators of an
    exhausted quota. *)
Lemma isTransient_signal (e : ApiError) :
  isTransient e = true <-> quota_signal e.
Proof.
  unfold isTransient, quota_signal, is_429. split.
  - intros H. apply orb_true_iff in H as [H | H];
      [apply orb_true_iff in H as [H | H]|].
    + left. destruct (err_status e) as [n|]; [|discriminate].
      apply Z.eqb_eq in H. now subst.
    + right. left. destruct (err_code e) as [n|]; [|discriminate].
      apply Z.eqb_eq in H. now subst.
    + right. right. destruct (err_message e) as [m|]; [|discriminate].
      exists m. split; [reflexivity|].
      apply andb_true_iff in H as [_ H].
      apply orb_true_iff in H as [H | H];
        [apply orb_true_iff in H as [H | H]|]; auto.
  - intros [H | [H | (m & Hm & H)]].
    + rewrite H. reflexivity.
    + rewrite H. apply orb_true_iff. left. apply orb_true_r.
    + rewrite Hm. apply orb_true_iff. right.
      assert (Hne : is_empty m = false).
      { destruct m; [|reflexivity].
        destruct H as [H | [H | H]]; discriminate H. }
      rewrite Hne. cbn [negb andb].
      destruct H as [H | [H | H]]; rewrite H;
        rewrite ?orb_true_r; reflexivity.
Qed.

Section Loop.

Variable quota : Analysis.
Variable generic : ApiError -> Analysis.
Variable unknown : Analysis.
Variable service : Service.

(** With enough fuel the loop returns; it stops at the first attempt
    that answers or at the fifth, pausing before every further attempt. *)
Lemma retry_spec (fuel attempt : nat) (delay : Q) (waits : list Q) :
  1 <= attempt <= maxAttempts -> maxAttempts < fuel + attempt ->
  exists r,
    retry quota generic unknown service fuel attempt delay waits = Some r
    /\ attempt <= run_attempts r <= maxAttempts
    /\ run_waits r = (waits ++ delays delay (run_attempts r - attempt))%list
    /\ (forall k, attempt <= k < run_attempts r -> exists e, service k = Failed e)
    /\ match service (run_attempts r) with
       | Responded a => run_result r = a
       | Failed e =>
           run_attempts r = maxAttempts
           /\ run_result r = if isTransient e then quota else generic e
       end.
Proof.
  revert attempt delay waits.
  induction fuel as [|fuel IH]; intros attempt delay waits Ha Hf;
    [unfold maxAttempts in *; lia|].
  cbn [retry].
  assert (Hle : (attempt <=? maxAttempts)%nat = true) by (apply Nat.leb_le; lia).
  rewrite Hle.
  assert (Hstop : forall res,
             match service attempt with
             | Responded a => res = a
             | Failed e => attempt = maxAttempts
                           /\ res = if isTransient e then quota else generic e
             end ->
             exists r,
               Some {| run_result := res; run_attempts := attempt;
                       run_waits := waits |} = Some r
               /\ attempt <= run_attempts r <= maxAttempts
               /\ run_waits r
                  = (waits ++ delays delay (run_attempts r - attempt))%list
               /\ (forall k, attempt <= k < run_attempts r ->
                     exists e, service k = Failed e)
               /\ match service (run_attempts r) with
                  | Responded a => run_result r = a
                  | Failed e =>
                      run_attempts r = maxAttempts
                      /\ run_result r = if isTransient e then quota else generic e
                  end).
  { intros res Hres. eexists. split; [reflexivity|]. cbn [run_attempts run_waits run_result].
    rewrite Nat.sub_diag. cbn [delays]. rewrite app_nil_r.
    split; [lia|]. split; [reflexivity|]. split; [intros k Hk; lia | exact Hres]. }
  assert (Hgo : forall e, service attempt = Failed e -> attempt <> maxAttempts ->
             exists r,
               retry quota generic unknown service fuel (S attempt)
                     (next_delay delay) (waits ++ [delay])%list = Some r
               /\ attempt <= run_attempts r <= maxAttempts
               /\ run_waits r
                  = (waits ++ delays delay (run_attempts r - attempt))%list
               /\ (forall k, attempt <= k < run_attempts r ->
                     exists e, service k = Failed e)
               /\ match service (run_attempts r) with
                  | Responded a => run_result r = a
                  | Failed e =>
                      run_attempts r = maxAttempts
                      /\ run_result r = if isTransient e then quota else generic e
                  end).
  { intros e He Hne.
    destruct (IH (S attempt) (next_delay delay) (waits ++ [delay])%list)
      as (r & Hr & Hb & Hw & Hk & Hres); [lia | lia |].
    exists r. split; [assumption|]. split; [lia|]. split.
    - rewrite Hw, <- List.app_assoc.
      replace (run_attempts r - attempt) with (S (run_attempts r - S attempt)) by lia.
      reflexivity.
    - split; [|assumption]. intros k Hk'.
      destruct (Nat.eq_dec k attempt) as [-> | Hd]; [eauto|].
      apply Hk. lia. }
  destruct (service attempt) as [a|e] eqn:Es.
  - apply Hstop. reflexivity.
  - destruct (isTransient e) eqn:Et.
    + destruct (attempt <? maxAttempts)%nat eqn:El.
      * apply Nat.ltb_lt in El. apply (Hgo e eq_refl). lia.
      * apply Nat.ltb_ge in El. apply Hstop. split; [lia|reflexivity].
    + destruct (attempt =? maxAttempts)%nat eqn:El.
      * apply Nat.eqb_eq in El. apply Hstop. now split.
      * apply Nat.eqb_neq in El. now apply (Hgo e eq_refl).
Qed.

(** Five iterations are enough. *)
Lemma retry_total :
  retry quota generic unknown service (S maxAttempts) 1 initial_delay []
  = Some (run_loop quota generic unknown service).
Proof.
  destruct (retry_spec (S maxAttempts) 1 initial_delay [])
    as (r & Hr & _); [unfold maxAttempts; lia | unfold maxAttempts; lia |].
  unfold run_loop. now rewrite Hr.
Qed.

Lemma delays_schedule (n : nat) :
  n <= 4 -> delays initial_delay n = firstn n backoff_schedule.
Proof.
  intros H. do 5 (destruct n as [|n]; [vm_compute; reflexivity|]). lia.
Qed.

Lemma run_loop_policy :
  a_tematica quota = "Error Cuota API" ->
  (forall e, a_tematica (generic e) = "Error en Análisis") ->
  follows_retry_policy service (run_loop quota generic unknown service).
Proof.
  intros Hq Hg.
  destruct (retry_spec (S maxAttempts) 1 initial_delay [])
    as (r & Hr & Hb & Hw & Hk & Hres);
    [unfold maxAttempts; lia | unfold maxAttempts; lia |].
  rewrite retry_total in Hr. injection Hr as ->.
  unfold maxAttempts in *. cbn [app] in Hw.
  assert (Hlast : forall e, service (run_attempts r) = Failed e ->
            run_attempts r = 5
            /\ run_result r = if isTransient e then quota else generic e).
  { intros e He. rewrite He in Hres. exact Hres. }
  split; [lia|]. split; [rewrite Hw; apply delays_schedule; lia|]. split.
  - intros Hall. destruct (Hall (run_attempts r)) as (e & He & Hs); [lia|].
    destruct (Hlast e He) as [H5 Hres']. split; [exact H5|].
    apply isTransient_signal in Hs. now rewrite Hres', Hs.
  - intros Hall. destruct (Hall (run_attempts r)) as (e & He & Hs); [lia|].
    destruct (Hlast e He) as [H5 Hres']. split; [exact H5|].
    destruct (isTransient e) eqn:Et;
      [exfalso; apply Hs; now apply isTransient_signal|].
    rewrite Hres'. apply Hg.
Qed.

End Loop.

(** There is no ceiling on the pause: it is always one and a half
    times the pause before. *)
Lemma next_delay_factor (delay : Q) : (next_delay delay == delay * (3 # 2))%Q.
Proof. unfold next_delay. apply Qred_correct. Qed.



End GeminiFacts.

(** ** The batch loop *)

Module PipelineFacts.

Import Str App PipelineSpec.

Lemma appended_app (t u : list Event) :
  appended (t ++ u) = (appended t ++ appended u)%list.
Proof.
  induction t as [|e t IH]; [reflexivity|].
  destruct e; simpl; rewrite IH; reflexivity.
Qed.

Section WithPlatform.

Context {api : URLApi}.
Variable trim : string -> string.
Variable apiKey : option string.
Variable env : nat -> ItemEnv.
Variable status0 : ProcessingStatus.
Variable files0 : list File.

Local Abbreviation body := (body trim apiKey env status0 files0).
Local Abbreviation work := (work trim apiKey env files0).
Local Abbreviation loop := (loop trim apiKey env status0 files0).
Local Abbreviation outcome := (outcome trim apiKey env).
Local Abbreviation record_of := (record_of trim apiKey env).
Local Abbreviation expected := (expected trim apiKey env).
Local Abbreviation undisturbed := (undisturbed env).
Local Abbreviation quota_at := (quota_at apiKey env).
Local Abbreviation item_effect := (item_effect trim apiKey env).

(** What [save_now] changes. *)
Lemma save_now_effect (i : nat) (email : AnalyzedEmail) (b : Batch) :
  let b' := save_now env i email b in
  store (app b')
  = fst (Db.saveToDb (storage (env i)) [email] (store (app b)))
  /\ trace b' = (trace b ++ [Appended i email])%list
  /\ processingErrors b' = processingErrors b
  /\ results b' = results b
  /\ isProcessingCancelled (app b') = isProcessingCancelled (app b)
  /\ app_status (app b') = app_status (app b).
Proof.
  unfold save_now.
  destruct (Db.saveToDb (storage (env i)) [email] (store (app b))) as [st r].
  destruct r as [u|m]; [destruct (Db.getAllEmails (Db.db st))|];
    cbn; repeat split; reflexivity.
Qed.

(** What the [catch] of the loop body changes. *)
Lemma item_failed_effect (i : nat) (file : File) (m : string) (b : Batch) :
  let email := error_email env i file m in
  let b' := item_failed env i file m b in
  store (app b')
  = fst (Db.saveToDb (storage (env i)) [email] (store (app b)))
  /\ trace b' = (trace b ++ [Appended i email])%list
  /\ processingErrors b'
     = (processingErrors b
        ++ [("Error procesando " ++ name file ++ ": "
             ++ or_default m "Error desconocido")%string])%list
  /\ isProcessingCancelled (app b') = isProcessingCancelled (app b)
  /\ app_status (app b') = app_status (app b).
Proof.
  cbv zeta. unfold item_failed.
  pose proof (save_now_effect i (error_email env i file m)
                (push_result (error_email env i file m)
                   (push_error ("Error procesando " ++ name file ++ ": "
                                ++ or_default m "Error desconocido") b)))
    as (Hs & Ht & He & _ & Hc & Hst).
  cbn [on_app app trace processingErrors setErrorMsg store
       isProcessingCancelled app_status].
  rewrite Hs, Ht, He, Hc, Hst. cbn. repeat split; reflexivity.
Qed.

Ltac index_of_event :=
  let ev := fresh "ev" in let j := fresh "j" in
  let Hin := fresh "Hin" in let Hj := fresh "Hj" in
  intros ev j Hin Hj; simpl in Hin;
  repeat (destruct Hin as [Hin | Hin];
          [subst ev; simpl in Hj; congruence|]);
  contradiction.

(** The work on an item while nobody presses the stop button. *)
Lemma work_effect (i : nat) (file : File) (b : Batch) :
  stop_during_work (env i) = false ->
  item_effect i file b (batch_of (work i file b))
  /\ match outcome i file with
     | QuotaStop => work i file b = Stop (batch_of (work i file b))
     | _ => work i file b = Next (batch_of (work i file b))
     end.
Proof.
  intros Hquiet. unfold item_effect, PipelineSpec.record_of, PipelineSpec.outcome, App.work.
  rewrite Hquiet. cbn [press_stop].
  destruct (parsed (env i)) as [parsedRaw|m].
  2:{ (* the extraction throws *)
      cbn [batch_of].
      match goal with
      | |- context [item_failed env i file ?msg ?b0] =>
          pose proof (item_failed_effect i file msg b0) as (Hs & Ht & He & Hc & Hst)
      end.
      cbv zeta in *. unfold end_of_body.
      cbn [on_app app trace processingErrors setProgress store
           isProcessingCancelled app_status].
      rewrite Hs, Ht, He, Hc. cbn. rewrite <- !List.app_assoc.
      repeat split; eauto.
      eexists. split; [reflexivity|]. split; [simpl; auto|].
      split; [index_of_event | reflexivity]. }
  destruct (Gemini.analyzeEmailContent apiKey (service (env i)) parsedRaw)
    as [run|m].
  2:{ (* the enrichment throws *)
      cbn [batch_of].
      match goal with
      | |- context [item_failed env i file ?msg ?b0] =>
          pose proof (item_failed_effect i file msg b0) as (Hs & Ht & He & Hc & Hst)
      end.
      cbv zeta in *. unfold end_of_body.
      cbn [on_app app trace processingErrors setProgress store
           isProcessingCancelled app_status].
      rewrite Hs, Ht, He, Hc. cbn. rewrite <- !List.app_assoc.
      repeat split; eauto.
      eexists. split; [reflexivity|]. split; [simpl; auto|].
      split; [index_of_event | reflexivity]. }
  cbv zeta.
  destruct (String.eqb (Gemini.a_tematica (Gemini.run_result run)) "Error Cuota API").
  { cbn. rewrite <- !List.app_assoc. repeat split; eauto.
    eexists. split; [reflexivity|]. split; [simpl; auto|].
    split; [index_of_event | reflexivity]. }
  destruct (String.eqb (Gemini.a_tematica (Gemini.run_result run)) "Error en Análisis").
  { cbn. rewrite <- !List.app_assoc. repeat split; eauto.
    eexists. split; [reflexivity|]. split; [simpl; auto|].
    split; [index_of_event | reflexivity]. }
  cbn [batch_of].
  match goal with
  | |- context [save_now env i ?email ?b0] =>
      pose proof (save_now_effect i email b0) as (Hs & Ht & He & _ & Hc & Hst)
  end.
  cbv zeta in *. unfold end_of_body.
  cbn [on_app app trace processingErrors setProgress store
       isProcessingCancelled app_status].
  rewrite Hs, Ht, He, Hc. cbn. rewrite <- !List.app_assoc.
  repeat split; eauto.
  eexists. split; [reflexivity|]. split; [simpl; auto|].
  split; [index_of_event | reflexivity].
Qed.

Lemma pause_undisturbed (i : nat) (b : Batch) :
  stop_during_pause (env i) = None ->
  exists evs,
    trace (pause env i b) = (trace b ++ evs)%list
    /\ (forall ev j, In ev evs -> event_index ev = Some j -> j = i)
    /\ appended evs = []
    /\ app (pause env i b) = app b
    /\ processingErrors (pause env i b) = processingErrors b.
Proof.
  intros H. unfold pause. rewrite H. destruct i as [|i].
  - exists []. rewrite app_nil_r. repeat split. intros ev j [].
  - exists [Paused (S i) 15]. repeat split. index_of_event.
Qed.

Lemma announce_frame (i : nat) (file : File) (b : Batch) :
  let b' := announce status0 files0 i file b in
  trace b' = trace b /\ store (app b') = store (app b)
  /\ isProcessingCancelled (app b') = isProcessingCancelled (app b)
  /\ processingErrors b' = processingErrors b.
Proof. unfold announce. destruct status0; cbn; repeat split; reflexivity. Qed.

(** One pass through the loop body while nobody presses the stop
    button. *)
Lemma body_effect (i : nat) (file : File) (b : Batch) :
  undisturbed i ->
  isProcessingCancelled (app b) = false ->
  item_effect i file b (batch_of (body i file b))
  /\ match outcome i file with
     | QuotaStop => body i file b = Stop (batch_of (body i file b))
     | _ => body i file b = Next (batch_of (body i file b))
     end.
Proof.
  intros [Hp Ha] Hc. unfold App.body.
  destruct (announce_frame i file b) as (At & As & Ac & Ae).
  destruct (pause_undisturbed i (announce status0 files0 i file b) Hp)
    as (pevs & Pt & Pi & Pa & Papp & Pe).
  set (b1 := pause env i (announce status0 files0 i file b)) in *.
  assert (Hc1 : isProcessingCancelled (app b1) = false)
    by (rewrite Papp, Ac; exact Hc).
  rewrite Hc1, andb_false_r.
  destruct (work_effect i file b1 Ha) as [He Hshape].
  split; [|exact Hshape].
  destruct He as ((evs & Wt & Wx & Wi & Wa) & Ws & Wc & Wo).
  unfold PipelineSpec.item_effect. split; [|split; [|split]].
  - exists (pevs ++ evs)%list. rewrite Wt, Pt, At, List.app_assoc.
    split; [reflexivity|]. split; [apply in_or_app; now right|].
    split.
    + intros ev j Hin Hj. apply in_app_or in Hin as [Hin | Hin]; eauto.
    + now rewrite appended_app, Pa.
  - now rewrite Ws, Papp, As.
  - now rewrite Wc, Papp, Ac.
  - rewrite Pe, Ae in Wo. exact Wo.
Qed.

Lemma outcome_quota (i : nat) (file : File) :
  outcome i file = QuotaStop <-> quota_at i.
Proof.
  unfold PipelineSpec.outcome, PipelineSpec.quota_at, enrichment.
  destruct (parsed (env i)) as [parsedRaw|m].
  2:{ split; [discriminate | intros (a & H & _); discriminate]. }
  destruct (Gemini.analyzeEmailContent apiKey (service (env i)) parsedRaw)
    as [run|m].
  2:{ split; [discriminate | intros (a & H & _); discriminate]. }
  cbv zeta.
  destruct (String.eqb (Gemini.a_tematica (Gemini.run_result run))
                       "Error Cuota API") eqn:E.
  - apply String.eqb_eq in E. split; [eauto | reflexivity].
  - apply String.eqb_neq in E. split.
    + destruct (String.eqb _ "Error en Análisis"); discriminate.
    + intros (a & H & Ht). injection H as <-. contradiction.
Qed.

Lemma outcome_generic (i : nat) (file : File) (a : Gemini.Analysis) :
  enrichment apiKey env i = Some a ->
  Gemini.a_tematica a = "Error en Análisis" ->
  outcome i file
  = SentinelFailure ("Error analizando " ++ name file ++ ": "
                     ++ Gemini.a_contenido_resumido a).
Proof.
  unfold PipelineSpec.outcome, enrichment.
  destruct (parsed (env i)) as [parsedRaw|m]; [|discriminate].
  destruct (Gemini.analyzeEmailContent apiKey (service (env i)) parsedRaw)
    as [run|m]; [|discriminate].
  intros H Ht. injection H as <-. cbv zeta. rewrite Ht. reflexivity.
Qed.

Lemma record_of_quota (i : nat) (file : File) :
  outcome i file = QuotaStop -> record_of i file = None.
Proof. unfold PipelineSpec.record_of. now intros ->. Qed.

Lemma quota_or_not (o : Outcome) : o = QuotaStop \/ o <> QuotaStop.
Proof. destruct o; [right | right | right | left]; congruence. Qed.

(** The loop while nobody presses the stop button: it passes over the
    items in order until the queue is empty or an item ends with the
    quota sentinel; [n] is the number of items it got past. *)
Lemma loop_undisturbed (rest : list File) : forall (i : nat) (b : Batch),
  isProcessingCancelled (app b) = false ->
  (forall j, i <= j < i + List.length rest -> undisturbed j) ->
  exists b' exit n evs,
    loop i rest b = (b', exit)
    /\ n <= List.length rest
    /\ isProcessingCancelled (app b') = false
    /\ (forall j, i <= j < i + n -> ~ quota_at j)
    /\ ((exit = RanOut /\ n = List.length rest)
        \/ (exit = Broke /\ n < List.length rest /\ quota_at (i + n)
            /\ app_status (app b') = ERROR))
    /\ trace b' = (trace b ++ evs)%list
    /\ (forall j, i <= j < i + List.length rest -> j <= i + n ->
          In (Extracted j) evs)
    /\ (forall ev j, In ev evs -> event_index ev = Some j -> i <= j <= i + n)
    /\ appended evs = expected i (firstn n rest)
    /\ store (app b')
       = append_all env (expected i (firstn n rest)) (store (app b))
    /\ (forall m, In m (processingErrors b) -> In m (processingErrors b'))
    /\ (forall j file m, i <= j < i + n ->
          nth_error rest (j - i) = Some file ->
          outcome j file = SentinelFailure m ->
          In m (processingErrors b')).
Proof.
  induction rest as [|file rest IH]; intros i b Hc Hq.
  - exists b, RanOut, 0, [].
    cbn [loop List.length firstn expected append_all fold_left appended].
    rewrite app_nil_r.
    split; [reflexivity|]. split; [lia|]. split; [assumption|].
    split; [intros; lia|]. split; [left; now split|].
    split; [reflexivity|]. split; [intros; lia|].
    split; [intros ev j []|].
    split; [reflexivity|]. split; [reflexivity|].
    split; [auto | intros; lia].
  - cbn [loop]. rewrite Hc.
    assert (Hu : undisturbed i) by (apply Hq; cbn [List.length]; lia).
    destruct (body_effect i file b Hu Hc) as [He Hshape].
    set (b1 := batch_of (body i file b)) in *.
    destruct He as ((evs & Et & Ex & Ei & Ea) & Es & Ec & Eo).
    rewrite Hc in Ec.
    destruct (quota_or_not (outcome i file)) as [Eout | Hnot].
    + (* the quota sentinel: [break] *)
      rewrite Eout in Hshape, Eo. rewrite Hshape.
      destruct Eo as [Ee Est].
      rewrite (record_of_quota i file Eout) in Ea, Es.
      cbn [append_all fold_left] in Es.
      exists b1, Broke, 0, evs.
      cbn [firstn expected append_all fold_left].
      rewrite Nat.add_0_r.
      split; [reflexivity|]. split; [lia|].
      split; [assumption|]. split; [intros; lia|].
      split.
      { right. split; [reflexivity|]. split; [cbn [List.length]; lia|].
        split; [now apply (outcome_quota i file) | assumption]. }
      split; [assumption|].
      split; [intros j Hj1 Hj2; now assert (j = i) as -> by lia|].
      split; [intros ev j Hin Hj; rewrite (Ei ev j Hin Hj); lia|].
      split; [assumption|]. split; [assumption|].
      split; [now rewrite Ee | intros; lia].
    + (* any other outcome: on to the next item *)
      assert (Hnext : body i file b = Next b1)
        by (destruct (PipelineSpec.outcome trim apiKey env i file);
            [assumption | assumption | assumption | contradiction]).
      assert (Hnq : ~ quota_at i)
        by (intros Q; now apply (outcome_quota i file) in Q).
      assert (Hinc : forall m, In m (processingErrors b) ->
                               In m (processingErrors b1)).
      { intros m Hm.
        destruct (PipelineSpec.outcome trim apiKey env i file).
        - now rewrite Eo.
        - destruct Eo as (x & ->). apply in_or_app. now left.
        - rewrite Eo. apply in_or_app. now left.
        - destruct Eo as [-> _]. assumption. }
      assert (Hsen : forall m, outcome i file = SentinelFailure m ->
                               In m (processingErrors b1)).
      { intros m Hm. rewrite Hm in Eo. rewrite Eo.
        apply in_or_app. right. now left. }
      assert (Hrec : expected i (file :: firstn 0 rest) = appended evs
                     /\ forall l, expected i (file :: l)
                                  = (appended evs ++ expected (S i) l)%list).
      { cbn [expected]. rewrite Ea.
        destruct (PipelineSpec.record_of trim apiKey env i file); now split. }
      destruct Hrec as [_ Hrec].
      rewrite Hnext.
      destruct (IH (S i) b1) as (b' & exit & n & evs' & Hl & Hn & Hc' & Hnq'
                                 & Hexit & Ht' & Hext & Hev & Happ & Hst
                                 & Herr & Hsent).
      { assumption. }
      { intros j Hj. apply Hq. cbn [List.length]. lia. }
      exists b', exit, (S n), (evs ++ evs')%list.
      cbn [firstn]. rewrite Hrec.
      split; [exact Hl|].
      split; [cbn [List.length]; lia|].
      split; [exact Hc'|].
      split.
      { intros j Hj. destruct (Nat.eq_dec j i) as [-> | Hd];
          [exact Hnq | apply Hnq'; lia]. }
      split.
      { destruct Hexit as [[-> ->] | (-> & Hlt & Hqa & Hs)].
        - left. now split.
        - right. split; [reflexivity|]. split; [cbn [List.length]; lia|].
          split; [now replace (i + S n) with (S i + n) by lia | assumption]. }
      split; [now rewrite Ht', Et, List.app_assoc|].
      split.
      { intros j Hj1 Hj2. apply in_or_app.
        destruct (Nat.eq_dec j i) as [-> | Hd]; [now left|].
        right. apply Hext; cbn [List.length] in Hj1; lia. }
      split.
      { intros ev j Hin Hj. apply in_app_or in Hin as [Hin | Hin].
        - rewrite (Ei ev j Hin Hj). lia.
        - pose proof (Hev ev j Hin Hj). lia. }
      split; [now rewrite appended_app, Happ|].
      split.
      { rewrite Hst, Es, Ea. unfold append_all. now rewrite fold_left_app. }
      split; [auto|].
      intros j f m Hj Hnth Hout.
      destruct (Nat.eq_dec j i) as [-> | Hd].
      * rewrite Nat.sub_diag in Hnth. injection Hnth as <-.
        apply Herr. now apply Hsen.
      * apply (Hsent j f m); [lia | | assumption].
        replace (j - i) with (S (j - S i)) in Hnth by lia. exact Hnth.
Qed.

Lemma after_loop_effect (b : Batch) :
  let b' := after_loop status0 b in
  isProcessingCancelled (app b') = false
  /\ store (app b') = store (app b)
  /\ processingErrors b' = processingErrors b
  /\ (exists evs, trace b' = (trace b ++ evs)%list
                  /\ (forall ev, In ev evs -> event_index ev = None))
  /\ (status0 <> ERROR -> isProcessingCancelled (app b) = false ->
      app_status (app b') = COMPLETED).
Proof.
  unfold after_loop.
  destruct (processingErrors b) eqn:Ee; destruct status0;
    destruct (isProcessingCancelled (app b)) eqn:Ec;
    cbn; rewrite ?Ee, ?Ec; cbn; rewrite ?Ee, ?Ec; cbn;
    (split; [reflexivity|]); (split; [reflexivity|]);
    (split; [auto|]);
    (split; [first [ exists []; rewrite app_nil_r; split;
                               [reflexivity | intros ev []]
                   | exists [StatusSet COMPLETED]; split;
                       [reflexivity | intros ev [<- | []]; reflexivity] ]|]);
    intros; congruence.
Qed.

Lemma start_effect (a : AppState) :
  let b := start files0 a in
  isProcessingCancelled (app b) = false
  /\ store (app b) = store a
  /\ processingErrors b = []
  /\ trace b = [StatusSet PARSING].
Proof. cbn. repeat split; reflexivity. Qed.

End WithPlatform.

End PipelineFacts.

Module PipelineTheorems.

Import Str App PipelineSpec PipelineFacts.

Section WithPlatform.

Context {api : URLApi}.
Variable trim : string -> string.
Variable apiKey : option string.
Variable env : nat -> ItemEnv.

Local Abbreviation processFiles := (processFiles trim apiKey env).
Local Abbreviation outcome := (outcome trim apiKey env).
Local Abbreviation record_of := (record_of trim apiKey env).
Local Abbreviation expected := (expected trim apiKey env).
Local Abbreviation undisturbed := (undisturbed env).
Local Abbreviation quota_at := (quota_at apiKey env).
Local Abbreviation generic_failure_at := (generic_failure_at apiKey env).
Local Abbreviation enrichment := (enrichment apiKey env).

(** A batch during which nobody presses the stop button: the loop runs
    until the queue is empty or the quota sentinel appears, and the
    statements after the loop follow. *)
Lemma processFiles_undisturbed (a : AppState) :
  files a <> [] ->
  isApiKeyValid a = true ->
  (forall j, j < List.length (files a) -> undisturbed j) ->
  exists bl exit n evs,
    loop trim apiKey env (app_status a) (files a) 0 (files a)
         (start (files a) a) = (bl, exit)
    /\ processFiles a = after_loop (app_status a) bl
    /\ n <= List.length (files a)
    /\ isProcessingCancelled (app bl) = false
    /\ (forall j, j < n -> ~ quota_at j)
    /\ ((exit = RanOut /\ n = List.length (files a))
        \/ (exit = Broke /\ n < List.length (files a) /\ quota_at n
            /\ app_status (app bl) = ERROR))
    /\ trace bl = (StatusSet PARSING :: evs)%list
    /\ (forall j, j < List.length (files a) -> j <= n -> In (Extracted j) evs)
    /\ (forall ev j, In ev evs -> event_index ev = Some j -> j <= n)
    /\ appended evs = expected 0 (firstn n (files a))
    /\ store (app bl)
       = append_all env (expected 0 (firstn n (files a))) (store a)
    /\ (forall j file m, j < n ->
          nth_error (files a) j = Some file ->
          outcome j file = SentinelFailure m ->
          In m (processingErrors bl)).
Proof.
  intros Hne Hkey Hq.
  destruct (start_effect (files a) a) as (Sc & Ss & Se & St).
  destruct (loop_undisturbed trim apiKey env (app_status a) (files a)
              (files a) 0 (start (files a) a) Sc)
    as (bl & exit & n & evs & Hl & Hn & Hc & Hnq & Hexit & Ht & Hext & Hev
        & Happ & Hst & _ & Hsent).
  { intros j Hj. apply Hq. lia. }
  exists bl, exit, n, evs.
  split; [exact Hl|].
  split.
  { unfold App.processFiles, run. rewrite Hkey, Hl. cbn [negb].
    destruct (files a); [contradiction|].
    destruct Hexit as [[-> _] | [-> _]]; reflexivity. }
  split; [exact Hn|]. split; [exact Hc|].
  split; [intros j Hj; apply Hnq; lia|].
  split; [exact Hexit|].
  split; [now rewrite Ht, St|].
  split; [intros j Hj1 Hj2; apply Hext; lia|].
  split; [intros ev j Hin Hj; pose proof (Hev ev j Hin Hj); lia|].
  split; [exact Happ|].
  split; [now rewrite Hst, Ss|].
  intros j file m Hj Hnth Hout. apply (Hsent j file m); [lia | | exact Hout].
  now rewrite Nat.sub_0_r.
Qed.

(** C4: when the enrichment of item [K] returns the topic 'Error en
    Análisis', the failure is added to the errors of the batch, the
    next item is extracted, and a batch without quota sentinel still
    ends in state [COMPLETED]. *)
Theorem generic_failure_skips_item (a : AppState) (K : nat) (file : File)
    (analysis : Gemini.Analysis) :
  isApiKeyValid a = true ->
  (forall j, j < List.length (files a) -> undisturbed j) ->
  (forall j, j < K -> ~ quota_at j) ->
  nth_error (files a) K = Some file ->
  enrichment K = Some analysis ->
  Gemini.a_tematica analysis = "Error en Análisis" ->
  let b := processFiles a in
  In ("Error analizando " ++ name file ++ ": "
      ++ Gemini.a_contenido_resumido analysis) (processingErrors b)
  /\ (S K < List.length (files a) -> In (Extracted (S K)) (trace b))
  /\ ((forall j, j < List.length (files a) -> ~ quota_at j) ->
      app_status a <> ERROR -> app_status (app b) = COMPLETED).
Proof.
  intros Hkey Hq Hbefore Hnth Hen Htopic b.
  assert (HK : K < List.length (files a))
    by (apply nth_error_Some; congruence).
  assert (Hne : files a <> []) by (destruct (files a); [simpl in HK; lia | discriminate]).
  assert (HnqK : ~ quota_at K).
  { intros (x & Hx & Hxt). rewrite Hen in Hx. injection Hx as <-.
    rewrite Htopic in Hxt. discriminate. }
  destruct (processFiles_undisturbed a Hne Hkey Hq)
    as (bl & exit & n & evs & Hl & Hrun & Hn & Hc & Hnq & Hexit & Ht & Hext
        & Hev & Happ & Hst & Hsent).
  destruct (after_loop_effect (app_status a) bl) as (Ac & As & Ae & (more & At & _) & Ad).
  fold b in Hrun. rewrite <- Hrun in *.
  assert (HKn : K < n).
  { destruct Hexit as [[_ ->] | (_ & Hlt & Hqn & _)]; [assumption|].
    destruct (Nat.lt_ge_cases K n) as [|Hge]; [assumption|].
    destruct (Nat.eq_dec n K) as [-> | Hd]; [contradiction|].
    exfalso. apply (Hbefore n); [lia | assumption]. }
  split; [|split].
  - rewrite Ae. apply (Hsent K file); [assumption | assumption|].
    now apply outcome_generic.
  - intros HS. rewrite At, Ht. apply in_or_app. left. right.
    apply Hext; lia.
  - intros Hnone Hst0. apply Ad; assumption.
Qed.

(** C3 holds for the loop and fails for the state of the batch: when
    item [K] is the first whose enrichment returns the topic 'Error
    Cuota API', the loop is left in state [ERROR] and no event of the
    batch belongs to a later item; but unless the batch was started in
    state [ERROR], the statements after the loop then set the state to
    [COMPLETED], because the [status] they test is the one the closure
    captured when the batch was started. *)
Theorem quota_sentinel_then_completed (a : AppState) (K : nat) :
  isApiKeyValid a = true ->
  (forall j, j < List.length (files a) -> undisturbed j) ->
  K < List.length (files a) ->
  quota_at K ->
  (forall j, j < K -> ~ quota_at j) ->
  exists bl,
    loop trim apiKey env (app_status a) (files a) 0 (files a)
         (start (files a) a) = (bl, Broke)
    /\ app_status (app bl) = ERROR
    /\ (forall ev j, In ev (trace (processFiles a)) ->
          event_index ev = Some j -> j <= K)
    /\ (app_status a <> ERROR ->
        app_status (app (processFiles a)) = COMPLETED).
Proof.
  intros Hkey Hq HK HqK Hbefore.
  assert (Hne : files a <> []) by (destruct (files a); [simpl in HK; lia | discriminate]).
  destruct (processFiles_undisturbed a Hne Hkey Hq)
    as (bl & exit & n & evs & Hl & Hrun & Hn & Hc & Hnq & Hexit & Ht & Hext
        & Hev & Happ & Hst & Hsent).
  destruct (after_loop_effect (app_status a) bl) as (Ac & As & Ae & (more & At & Am) & Ad).
  rewrite <- Hrun in *.
  destruct Hexit as [[_ ->] | (-> & Hlt & Hqn & Hs)];
    [exfalso; now apply (Hnq K)|].
  assert (n = K) as ->.
  { destruct (Nat.lt_trichotomy n K) as [H | [H | H]]; [|assumption|].
    - exfalso. now apply (Hbefore n).
    - exfalso. now apply (Hnq K). }
  exists bl. split; [exact Hl|]. split; [exact Hs|]. split.
  - intros ev j Hin Hj. rewrite At, Ht in Hin.
    apply in_app_or in Hin as [[<- | Hin] | Hin].
    + discriminate.
    + now apply (Hev ev j).
    + rewrite (Am ev Hin) in Hj. discriminate.
  - intros Hst0. now apply Ad.
Qed.

Lemma record_of_Some (i : nat) (file : File) (email : AnalyzedEmail) :
  record_of i file = Some email ->
  fileName email = name file
  /\ ((outcome i file = Succeeded email /\ status email = completed)
      \/ (outcome i file = ItemError email /\ status email = error
          /\ tematica email = "Error en Análisis")).
Proof.
  unfold PipelineSpec.record_of, PipelineSpec.outcome.
  destruct (parsed (env i)) as [parsedRaw|m].
  2:{ intros H. injection H as <-. split; [reflexivity|]. right. auto. }
  destruct (Gemini.analyzeEmailContent apiKey (service (env i)) parsedRaw)
    as [run|m].
  2:{ intros H. injection H as <-. split; [reflexivity|]. right. auto. }
  cbv zeta.
  destruct (String.eqb _ "Error Cuota API"); [discriminate|].
  destruct (String.eqb _ "Error en Análisis"); [discriminate|].
  intros H. injection H as <-. split; [reflexivity|]. left. auto.
Qed.

Lemma expected_In (queue : list File) : forall (k i : nat) (email : AnalyzedEmail),
  In (i, email) (expected k queue) ->
  k <= i /\ exists file, nth_error queue (i - k) = Some file
                         /\ record_of i file = Some email.
Proof.
  induction queue as [|f queue IH]; intros k i email Hin; [destruct Hin|].
  cbn [PipelineSpec.expected] in Hin.
  assert (Hrest : In (i, email) (expected (S k) queue) ->
                  k <= i /\ exists file, nth_error (f :: queue) (i - k) = Some file
                                         /\ record_of i file = Some email).
  { intros H. destruct (IH _ _ _ H) as (Hle & file & Hnth & Hrec).
    split; [lia|]. exists file. split; [|assumption].
    replace (i - k) with (S (i - S k)) by lia. exact Hnth. }
  destruct (PipelineSpec.record_of trim apiKey env k f) as [e|] eqn:E;
    [|now apply Hrest].
  destruct Hin as [Heq | Hin]; [|now apply Hrest].
  injection Heq as <- <-. split; [lia|]. exists f.
  rewrite Nat.sub_diag. now split.
Qed.

Lemma expected_sentinel (queue : list File) : forall (k i : nat) (file : File) (m : string),
  nth_error queue (i - k) = Some file -> k <= i ->
  outcome i file = SentinelFailure m ->
  forall email, ~ In (i, email) (expected k queue).
Proof.
  intros k i file m Hnth Hle Hout email Hin.
  destruct (expected_In queue k i email Hin) as (_ & f & Hf & Hrec).
  rewrite Hnth in Hf. injection Hf as <-.
  unfold PipelineSpec.record_of in Hrec. rewrite Hout in Hrec. discriminate.
Qed.

(** C2, as amended: in a batch without cancellation and without quota
    sentinel, every item whose enrichment returns an analysis is turned
    into a record with status [completed], every item whose extraction
    or enrichment throws into a record with status [error], and each
    record is handed to the store in a call of its own right after its
    item, in the order of the queue; an item whose enrichment returns
    the generic-failure sentinel is listed among the errors of the batch
    and no record is made of it. *)
Theorem processFiles_appends_each_record (a : AppState) :
  files a <> [] ->
  isApiKeyValid a = true ->
  (forall j, j < List.length (files a) -> undisturbed j) ->
  (forall j, j < List.length (files a) -> ~ quota_at j) ->
  let b := processFiles a in
  appended (trace b) = expected 0 (files a)
  /\ store (app b) = append_all env (expected 0 (files a)) (store a)
  /\ (forall i email, In (i, email) (expected 0 (files a)) ->
        exists file, nth_error (files a) i = Some file
          /\ fileName email = name file
          /\ ((outcome i file = Succeeded email /\ status email = completed)
              \/ (outcome i file = ItemError email /\ status email = error
                  /\ tematica email = "Error en Análisis")))
  /\ (forall i file m, nth_error (files a) i = Some file ->
        outcome i file = SentinelFailure m ->
        In m (processingErrors b)
        /\ forall email, ~ In (i, email) (appended (trace b))).
Proof.
  intros Hne Hkey Hq Hnone b.
  destruct (processFiles_undisturbed a Hne Hkey Hq)
    as (bl & exit & n & evs & Hl & Hrun & Hn & Hc & Hnq & Hexit & Ht & Hext
        & Hev & Happ & Hst & Hsent).
  destruct (after_loop_effect (app_status a) bl) as (Ac & As & Ae & (more & At & Am) & Ad).
  fold b in Hrun. rewrite <- Hrun in *.
  assert (n = List.length (files a)) as ->.
  { destruct Hexit as [[_ ->] | (_ & Hlt & Hqn & _)]; [reflexivity|].
    exfalso. now apply (Hnone n). }
  rewrite firstn_all in *.
  assert (Hmore : appended more = []).
  { clear -Am. induction more as [|ev more IH]; [reflexivity|].
    pose proof (Am ev (or_introl eq_refl)) as H.
    destruct ev; try discriminate H. cbn [appended]. apply IH.
    intros x Hx. apply Am. now right. }
  assert (Htrace : appended (trace b) = expected 0 (files a)).
  { rewrite At, Ht, appended_app, Hmore, app_nil_r. cbn [appended]. exact Happ. }
  split; [exact Htrace|].
  split; [now rewrite As|].
  split.
  - intros i email Hin.
    destruct (expected_In (files a) 0 i email Hin) as (_ & file & Hnth & Hrec).
    rewrite Nat.sub_0_r in Hnth. exists file. split; [assumption|].
    now apply record_of_Some.
  - intros i file m Hnth Hout. split.
    + rewrite Ae. apply (Hsent i file m); [|assumption|assumption].
      apply nth_error_Some. congruence.
    + rewrite Htrace. apply (expected_sentinel (files a) 0 i file m);
        [now rewrite Nat.sub_0_r | lia | assumption].
Qed.

(** C9, as amended: a batch clears the flag before it looks at its
    first item, so a flag left set has no effect on it; and a batch
    whose loop runs to the end of the queue or stops at the quota
    sentinel clears the flag again before it returns. *)
Theorem cancellation_flag_reset (a : AppState) (flag : bool) :
  files a <> [] ->
  isApiKeyValid a = true ->
  processFiles (setCancelled flag a) = processFiles (setCancelled false a)
  /\ (forall bl exit,
        loop trim apiKey env (app_status a) (files a) 0 (files a)
             (start (files a) a) = (bl, exit) ->
        exit = RanOut \/ exit = Broke ->
        isProcessingCancelled (app (processFiles a)) = false).
Proof.
  intros Hne Hkey. split.
  - unfold App.processFiles, run, start.
    cbn [files app_status isApiKeyValid setCancelled]. rewrite Hkey.
    destruct (files a) as [|f fs]; [contradiction|]. reflexivity.
  - intros bl exit Hl Hexit. unfold App.processFiles, run.
    rewrite Hkey, Hl. cbn [negb].
    destruct (files a); [contradiction|].
    destruct (after_loop_effect (app_status a) bl) as (Ac & _).
    destruct Hexit as [-> | ->]; exact Ac.
Qed.

End WithPlatform.

End PipelineTheorems.

(** ** Concrete batches *)

Module Runs.

Import Str App PipelineSpec PipelineFacts PipelineTheorems Examples.

Local Abbreviation run_with env a :=
  (@processFiles WhatwgFragment.api no_trim (Some "key") env a).

Lemma first_fails_undisturbed (j : nat) :
  j < List.length two_files -> undisturbed first_fails j.
Proof. intros _. destruct j; split; reflexivity. Qed.

Lemma first_fails_no_quota (j : nat) :
  j < List.length two_files -> ~ quota_at (Some "key") first_fails j.
Proof.
  intros _ (a & H & Ht). destruct j as [|j]; vm_compute in H;
    injection H as <-; discriminate Ht.
Qed.

(** C2 as stated fails: in a batch of two files, without cancellation
    and without quota sentinel, whose first item ends with the
    generic-failure sentinel, only the second item is handed to the
    store, and the rows read back afterwards hold nothing of the
    first. *)
Lemma generic_failure_not_stored :
  let b := run_with first_fails (fresh two_files IDLE) in
  generic_failure_at (Some "key") first_fails 0
  /\ map fst (appended (trace b)) = [1]
  /\ exists rows, Db.getAllEmails (Db.db (store (app b))) = Ok rows
                  /\ map Db.se_fileName rows = [Some "b.eml"].
Proof.
  split; [|split].
  - eexists. split; vm_compute; reflexivity.
  - vm_compute. reflexivity.
  - eexists. split; vm_compute; reflexivity.
Qed.

(** The amended C2 on that batch. *)
Lemma processFiles_appends_each_record_witness :
  appended (trace (run_with first_fails (fresh two_files IDLE)))
  = expected no_trim (Some "key") first_fails 0 two_files.
Proof.
  assert (Hne : files (fresh two_files IDLE) <> []) by discriminate.
  exact (proj1 (@processFiles_appends_each_record WhatwgFragment.api no_trim
                  (Some "key") first_fails (fresh two_files IDLE)
                  Hne eq_refl first_fails_undisturbed first_fails_no_quota)).
Defined.

(** A batch started in state [IDLE] whose first item ends with the
    quota sentinel, step by step: the state is set to [ERROR], the loop
    is left without touching the second item, and then the state is set
    to [COMPLETED] and the message is cleared. *)
Lemma quota_batch_ends_completed :
  let b := run_with exhausted (fresh two_files IDLE) in
  quota_at (Some "key") exhausted 0
  /\ trace b = [StatusSet PARSING; StatusSet PARSING; Extracted 0;
                StatusSet ANALYZING; Enriched 0; StatusSet ERROR;
                StatusSet COMPLETED]
  /\ app_status (app b) = COMPLETED
  /\ errorMsg (app b) = None.
Proof.
  split; [|split; [|split]].
  - eexists. split; vm_compute; reflexivity.
  - vm_compute. reflexivity.
  - vm_compute. reflexivity.
  - vm_compute. reflexivity.
Qed.

Lemma exhausted_undisturbed (j : nat) :
  j < List.length two_files -> undisturbed exhausted j.
Proof. intros _. split; reflexivity. Qed.

Lemma exhausted_quota_first : quota_at (Some "key") exhausted 0.
Proof. eexists. split; vm_compute; reflexivity. Qed.

(** C3's failure on that batch. *)
Lemma quota_sentinel_then_completed_witness :
  exists bl,
    @loop WhatwgFragment.api no_trim (Some "key") exhausted IDLE two_files
          0 two_files (start two_files (fresh two_files IDLE)) = (bl, Broke)
    /\ app_status (app bl) = ERROR
    /\ (forall ev j,
          In ev (trace (run_with exhausted (fresh two_files IDLE))) ->
          event_index ev = Some j -> j <= 0)
    /\ (IDLE <> ERROR ->
        app_status (app (run_with exhausted (fresh two_files IDLE)))
        = COMPLETED).
Proof.
  apply (@quota_sentinel_then_completed WhatwgFragment.api no_trim
           (Some "key") exhausted (fresh two_files IDLE) 0).
  - reflexivity.
  - exact exhausted_undisturbed.
  - simpl. lia.
  - exact exhausted_quota_first.
  - intros j Hj. lia.
Defined.

(** C4 on the batch whose first item ends with the generic-failure
    sentinel: the error is listed, the second item is extracted and the
    batch ends in state [COMPLETED]. *)
Lemma generic_failure_skips_item_witness :
  let b := run_with first_fails (fresh two_files IDLE) in
  In ("Error analizando a.eml: Error analizando contenido después de 5 intentos: Internal error. Contenido parcial: Cython makes Python fast.")
     (processingErrors b)
  /\ (2 < 3 -> In (Extracted 1) (trace b))
  /\ ((forall j, j < List.length two_files ->
         ~ quota_at (Some "key") first_fails j) ->
      IDLE <> ERROR -> app_status (app b) = COMPLETED).
Proof.
  pose proof (@generic_failure_skips_item WhatwgFragment.api no_trim
                (Some "key") first_fails (fresh two_files IDLE) 0
                {| name := "a.eml" |}
                (Gemini.email_generic mail server_error)
                eq_refl first_fails_undisturbed
                (fun j (H : j < 0) => match Nat.nlt_0_r j H with end)
                eq_refl eq_refl eq_refl) as (H1 & H2 & H3).
  split; [exact H1|]. split; [intros _; apply H2; simpl; lia | exact H3].
Defined.

(** C9 as stated fails: when the stop button is pressed while the
    first of two items is analysed, the batch returns through the
    cancellation path with the flag still set. *)
Lemma cancelled_batch_leaves_flag :
  let b := run_with stopped (fresh two_files IDLE) in
  app_status (app b) = IDLE
  /\ isProcessingCancelled (app b) = true.
Proof. split; vm_compute; reflexivity. Qed.

(** The amended C9 on the batch that stops at the quota sentinel,
    started with the flag set. *)
Lemma cancellation_flag_reset_witness :
  run_with exhausted (setCancelled true (fresh two_files IDLE))
  = run_with exhausted (setCancelled false (fresh two_files IDLE))
  /\ isProcessingCancelled
       (app (run_with exhausted (fresh two_files IDLE))) = false.
Proof.
  destruct (@cancellation_flag_reset WhatwgFragment.api no_trim (Some "key")
              exhausted (fresh two_files IDLE) true)
    as [H1 H2]; [discriminate | reflexivity |].
  split; [exact H1|].
  eapply H2; [vm_compute; reflexivity | now right].
Defined.

End Runs.

(** ** The table and the index of [saveToDb] *)

Module SaveFacts.

Import Str StrFacts Json JsonFacts Normalizer Db Spec DbFacts DbTheorems.
Import DbOps OpsSpec.

Lemma getExistingFileNames_insert (f d t e c u : cell) (d0 : Database) :
  getExistingFileNames (insert f d t e c u d0)
  = (getExistingFileNames d0
     ++ match f with
        | Some n => if is_empty n then [] else [n]
        | None => []
        end)%list.
Proof.
  unfold getExistingFileNames, insert. cbn [emails].
  rewrite flat_map_app. cbn [flat_map row_fileName]. now rewrite app_nil_r.
Qed.

Section WithURL.

Context {api : URLApi}.

(** The index read from the table after an [INSERT] is the index the
    loop has. *)
Lemma build_index_insert (f d t e c : cell) (links : list string) (d0 : Database) :
  build_index (insert f d t e c (Some (stringify_strings links)) d0)
  = {| existingFileNames :=
         (existingFileNames (build_index d0)
          ++ match f with
             | Some n => if is_empty n then [] else [n]
             | None => []
             end)%list;
       existingUrlSets := (existingUrlSets (build_index d0) ++ links)%list;
       existingNormalizedUrlSets :=
         (existingNormalizedUrlSets (build_index d0)
          ++ map normalizeUrl links)%list |}.
Proof.
  unfold build_index. rewrite getExistingFileNames_insert.
  cbn [existingFileNames existingUrlSets existingNormalizedUrlSets].
  unfold insert at 1 2. cbn [emails].
  rewrite !flat_map_app. cbn [flat_map].
  rewrite stored_urls_insert, app_nil_r, map_app. reflexivity.
Qed.

Lemma build_index_insert_email (e : AnalyzedEmail) (d0 : Database) :
  fileName e <> EmptyString ->
  build_index (insert_email e d0) = add_to_index (build_index d0) e.
Proof.
  intros Hn. apply is_empty_false in Hn. unfold insert_email, add_to_index.
  rewrite build_index_insert, Hn. reflexivity.
Qed.

Lemma coherent_start (d : Database) : coherent (start_saving d).
Proof. reflexivity. Qed.

Lemma coherent_save_one (i : nat) (e : AnalyzedEmail) (s : Saving) :
  coherent s -> coherent (save_one i e s).
Proof.
  unfold coherent, save_one. intros H.
  destruct (is_empty (fileName e)) eqn:E; [exact H|].
  destruct (duplicate_of (sv_index s) e); [exact H|].
  cbn [sv_db sv_index]. rewrite H. symmetry.
  apply build_index_insert_email. now apply is_empty_false.
Qed.

Lemma coherent_save_each (batch : list AnalyzedEmail) (i : nat) (s : Saving) :
  coherent s -> coherent (save_each i batch s).
Proof.
  revert i s. induction batch as [|e batch IH]; intros i s H; [exact H|].
  cbn [save_each]. apply IH. now apply coherent_save_one.
Qed.

(** The table and the index after a loop depend on the table and the
    index before it only. *)
Lemma save_each_same (batch : list AnalyzedEmail) (i j : nat) (s s' : Saving) :
  sv_db s = sv_db s' -> sv_index s = sv_index s' ->
  sv_db (save_each i batch s) = sv_db (save_each j batch s')
  /\ sv_index (save_each i batch s) = sv_index (save_each j batch s').
Proof.
  revert i j s s'. induction batch as [|e batch IH]; intros i j s s' Hd Hi.
  - now split.
  - cbn [save_each]. apply IH; unfold save_one; rewrite <- Hi;
      destruct (is_empty (fileName e)); try assumption;
      destruct (duplicate_of (sv_index s) e); cbn [sv_db sv_index];
      congruence.
Qed.

Lemma save_each_app (b1 b2 : list AnalyzedEmail) (i : nat) (s : Saving) :
  save_each i (b1 ++ b2) s = save_each (i + List.length b1) b2 (save_each i b1 s).
Proof.
  revert i s. induction b1 as [|e b1 IH]; intros i s; cbn [save_each app List.length].
  - now rewrite Nat.add_0_r.
  - rewrite IH. f_equal. lia.
Qed.

Lemma index_le_refl (ix : Index) : index_le ix ix.
Proof. repeat split; apply incl_refl. Qed.

Lemma index_le_trans (a b c : Index) : index_le a b -> index_le b c -> index_le a c.
Proof.
  intros (H1 & H2 & H3) (K1 & K2 & K3).
  repeat split; eapply incl_tran; eassumption.
Qed.

Lemma index_le_add (ix : Index) (e : AnalyzedEmail) :
  index_le ix (add_to_index ix e).
Proof.
  unfold add_to_index. repeat split; cbn.
  - destruct (is_empty (fileName e)); [apply incl_refl | apply incl_appl, incl_refl].
  - apply incl_appl, incl_refl.
  - apply incl_appl, incl_refl.
Qed.

Lemma index_le_save_one (i : nat) (e : AnalyzedEmail) (s : Saving) :
  index_le (sv_index s) (sv_index (save_one i e s)).
Proof.
  unfold save_one. destruct (is_empty (fileName e)); [apply index_le_refl|].
  destruct (duplicate_of (sv_index s) e); [apply index_le_refl|].
  apply index_le_add.
Qed.

Lemma index_le_save_each (batch : list AnalyzedEmail) (i : nat) (s : Saving) :
  index_le (sv_index s) (sv_index (save_each i batch s)).
Proof.
  revert i s. induction batch as [|e batch IH]; intros i s; [apply index_le_refl|].
  cbn [save_each]. eapply index_le_trans; [apply index_le_save_one | apply IH].
Qed.

Lemma known_duplicate (ix : Index) (e : AnalyzedEmail) :
  known ix e <-> duplicate_of ix e <> None.
Proof.
  destruct (duplicate_of_spec ix e) as (H1 & H2 & H3).
  split.
  - intros [Hu | Hn].
    + destruct (H1 Hu) as (n & ->). discriminate.
    + destruct (url_duplicate_known ix e) as [K1 K2].
      destruct (url_duplicate ix (urls e) (normalizeUrls (urls e))) eqn:E.
      * assert (Hu : url_known ix e) by (apply K1; discriminate).
        destruct (H1 Hu) as (n & ->). discriminate.
      * assert (Hnu : ~ url_known ix e).
        { intros Hu. apply K2 in Hu. congruence. }
        rewrite (H2 Hnu Hn). discriminate.
  - intros Hd.
    destruct (url_duplicate_known ix e) as [K1 K2].
    destruct (url_duplicate ix (urls e) (normalizeUrls (urls e))) eqn:E.
    + left. apply K1. discriminate.
    + right. unfold duplicate_of in Hd. rewrite E in Hd.
      destruct (is_empty (fileName e)) eqn:E1; [now contradiction Hd|].
      destruct (has (existingFileNames ix) (fileName e)) eqn:E2;
        [|now contradiction Hd].
      split; [now apply is_empty_false | now apply has_In].
Qed.

Lemma known_mono (ix ix' : Index) (e : AnalyzedEmail) :
  index_le ix ix' -> known ix e -> known ix' e.
Proof.
  intros (H1 & H2 & H3) [[(u & Hu & Hin) | (n & Hn & Hin)] | [Hne Hin]].
  - left. left. exists u. auto.
  - left. right. exists n. auto.
  - right. split; auto.
Qed.

Lemma known_after_save_one (i : nat) (e : AnalyzedEmail) (s : Saving) :
  fileName e <> EmptyString -> known (sv_index (save_one i e s)) e.
Proof.
  intros Hn. unfold save_one. pose proof Hn as Hn'.
  apply is_empty_false in Hn'. rewrite Hn'.
  destruct (duplicate_of (sv_index s) e) eqn:E.
  - apply known_duplicate. cbn [sv_index]. congruence.
  - right. split; [assumption|]. cbn [sv_index add_to_index existingFileNames].
    rewrite Hn'. apply in_or_app. right. now left.
Qed.

(** After the loop every record of the call that has a file name is
    known to the index. *)
Lemma known_after_save_each (batch : list AnalyzedEmail) (i : nat) (s : Saving)
    (e : AnalyzedEmail) :
  In e batch -> fileName e <> EmptyString ->
  known (sv_index (save_each i batch s)) e.
Proof.
  revert i s. induction batch as [|x batch IH]; intros i s Hin Hn; [destruct Hin|].
  cbn [save_each]. destruct Hin as [-> | Hin].
  - eapply known_mono; [apply index_le_save_each|].
    now apply known_after_save_one.
  - now apply IH.
Qed.

(** A loop over records that are known or have no file name changes
    neither the table nor the index. *)
Lemma save_each_known (batch : list AnalyzedEmail) (i : nat) (s : Saving) :
  (forall e, In e batch -> fileName e = EmptyString \/ known (sv_index s) e) ->
  sv_db (save_each i batch s) = sv_db s
  /\ sv_index (save_each i batch s) = sv_index s
  /\ addedCount (save_each i batch s) = addedCount s.
Proof.
  revert i s. induction batch as [|x batch IH]; intros i s H; [now repeat split|].
  cbn [save_each].
  assert (Hx : sv_db (save_one i x s) = sv_db s
               /\ sv_index (save_one i x s) = sv_index s
               /\ addedCount (save_one i x s) = addedCount s).
  { unfold save_one. destruct (H x (or_introl eq_refl)) as [Hn | Hk].
    - rewrite Hn. now repeat split.
    - apply known_duplicate in Hk.
      destruct (is_empty (fileName x)); [now repeat split|].
      destruct (duplicate_of (sv_index s) x); [now repeat split | congruence]. }
  destruct Hx as (Hd & Hi & Ha).
  destruct (IH (S i) (save_one i x s)) as (Kd & Ki & Ka).
  { intros e He. rewrite Hi. apply H. now right. }
  repeat split; congruence.
Qed.

End WithURL.

End SaveFacts.

(** ** Records saved are found again *)

Module SaveTheorems.

Import Str StrFacts Json JsonFacts Normalizer Db Spec DbFacts DbTheorems.
Import DbOps OpsSpec SaveFacts.

Section WithURL.

Context {api : URLApi}.

Lemma index_saveToDb (storage : option string) (batch : list AnalyzedEmail)
    (st : Store) :
  build_index (db (fst (saveToDb storage batch st)))
  = sv_index (save_each 0 batch (start_saving (db st))).
Proof.
  rewrite db_saveToDb. symmetry.
  apply coherent_save_each, coherent_start.
Qed.




End WithURL.

End SaveTheorems.

(** ** What the operations keep of the table *)

Module SoundFacts.

Import Str StrFacts Json JsonFacts Normalizer Db Spec DbFacts DbTheorems ReadFacts.
Import DbOps DbImport OpsSpec SaveFacts.

Lemma sound_empty : sound empty.
Proof.
  split; [exact I|]. split; intros r [].
Qed.

Lemma ascending_filter (p : Row -> bool) (rows : list Row) :
  ascending rows -> ascending (filter p rows).
Proof.
  induction rows as [|r rows IH]; intros H; [exact I|].
  destruct H as [Hr Hrest]. cbn [filter].
  destruct (p r); [|now apply IH].
  split; [|now apply IH].
  intros x Hx. apply filter_In in Hx as [Hx _]. now apply Hr.
Qed.

Lemma sequence_insert (f d t e c u : cell) (d0 : Database) :
  (sqlite_sequence d0 < sqlite_sequence (insert f d t e c u d0))%Z.
Proof. unfold insert. cbn [sqlite_sequence]. lia. Qed.

Lemma In_insert (f d t e c u : cell) (d0 : Database) (r : Row) :
  In r (emails (insert f d t e c u d0)) ->
  In r (emails d0)
  \/ r = {| row_id := sqlite_sequence (insert f d t e c u d0);
            row_fileName := f; row_fechaEnvio := d; row_tematica := t;
            row_etiquetas := e; row_contenido := c; row_urls := u |}.
Proof.
  unfold insert. cbn [emails sqlite_sequence]. intros H.
  apply in_app_or in H as [H | [<- | []]]; auto.
Qed.

(** An [INSERT] of two JSON cells that hold arrays keeps the table
    sound. *)
Lemma sound_insert (f d t c : cell) (tags links : list string) (d0 : Database) :
  sound d0 ->
  sound (insert f d t (Some (stringify_strings tags)) c
                (Some (stringify_strings links)) d0).
Proof.
  intros (Ha & Hc & Hd). split; [|split].
  - now apply ascending_insert.
  - intros r Hr. apply In_insert in Hr as [Hr | ->].
    + pose proof (Hc r Hr). pose proof (sequence_insert f d t
        (Some (stringify_strings tags)) c (Some (stringify_strings links)) d0).
      lia.
    + cbn [row_id]. lia.
  - intros r Hr. apply In_insert in Hr as [Hr | ->]; [now apply Hd|].
    cbn [row_etiquetas row_urls]. split; apply holds_array_stringify.
Qed.

Lemma sound_filter (p : Row -> bool) (d0 : Database) :
  sound d0 ->
  sound {| emails := filter p (emails d0);
           sqlite_sequence := sqlite_sequence d0 |}.
Proof.
  intros (Ha & Hc & Hd). split; [|split]; cbn [emails sqlite_sequence].
  - now apply ascending_filter.
  - intros r Hr. apply filter_In in Hr as [Hr _]. now apply Hc.
  - intros r Hr. apply filter_In in Hr as [Hr _]. now apply Hd.
Qed.

(** The table [deleteRecords] leaves, whether the write to IndexedDB
    succeeds or not. *)
Lemma db_deleteRecords (storage : option string) (ids : list string) (st : Store) :
  db (fst (deleteRecords storage ids st))
  = match ids with
    | [] => db st
    | _ :: _ =>
        {| emails := filter (fun r => negb (is_bound (map Js.parseInt ids) (row_id r)))
                            (emails (db st));
           sqlite_sequence := sqlite_sequence (db st) |}
    end.
Proof.
  destruct ids as [|i ids]; [reflexivity|].
  destruct storage; reflexivity.
Qed.

Section WithURL.

Context {api : URLApi}.

Lemma sound_save_one (i : nat) (e : AnalyzedEmail) (s : Saving) :
  sound (sv_db s) -> sound (sv_db (save_one i e s)).
Proof.
  intros H. unfold save_one.
  destruct (is_empty (fileName e)); [exact H|].
  destruct (duplicate_of (sv_index s) e); [exact H|].
  cbn [sv_db]. unfold insert_email. now apply sound_insert.
Qed.

Lemma sound_save_each (batch : list AnalyzedEmail) (i : nat) (s : Saving) :
  sound (sv_db s) -> sound (sv_db (save_each i batch s)).
Proof.
  revert i s. induction batch as [|e batch IH]; intros i s H; [exact H|].
  cbn [save_each]. apply IH. now apply sound_save_one.
Qed.

Lemma sound_saveToDb (storage : option string) (batch : list AnalyzedEmail)
    (st : Store) :
  sound (db st) -> sound (db (fst (saveToDb storage batch st))).
Proof. intros H. rewrite db_saveToDb. now apply sound_save_each. Qed.

Lemma sound_deleteRecords (storage : option string) (ids : list string)
    (st : Store) :
  sound (db st) -> sound (db (fst (deleteRecords storage ids st))).
Proof.
  intros H. rewrite db_deleteRecords. destruct ids; [exact H|].
  now apply sound_filter.
Qed.

Lemma sound_import_row (i : nat) (r : Row) (s s' : Importing) :
  import_row i r s = Some s' -> sound (im_db s) -> sound (im_db s').
Proof.
  unfold import_row. intros H Hs.
  destruct (or_null (row_fileName r)) as [f|]; [|injection H as <-; exact Hs].
  destruct (url_duplicate_of_cell (im_index s) (row_urls r)) as [[n|]|];
    [injection H as <-; exact Hs | | discriminate].
  destruct (has (existingFileNames (im_index s)) f);
    [injection H as <-; exact Hs|].
  destruct (sanitized (row_etiquetas r)) as [tags|]; [|discriminate].
  destruct (sanitized (row_urls r)) as [links|]; [|discriminate].
  injection H as <-. cbn [im_db]. now apply sound_insert.
Qed.

Lemma sound_import_each (rows : list Row) (i : nat) (s s' : Importing) :
  import_each i rows s = Some s' -> sound (im_db s) -> sound (im_db s').
Proof.
  revert i s. induction rows as [|r rows IH]; intros i s H Hs; cbn [import_each] in H.
  - injection H as <-. exact Hs.
  - destruct (import_row i r s) as [s1|] eqn:E; [|discriminate].
    apply (IH _ _ H). now apply (sound_import_row i r s).
Qed.

(** The table [importDb] leaves. *)
Lemma db_importDb (storage : option string) (file : Database) (st st' : Store)
    (r : Result Report) :
  importDb storage file st = Some (st', r) ->
  exists s, import_each 0 (emails file) (start_importing (db st)) = Some s
            /\ db st' = im_db s.
Proof.
  unfold importDb. destruct (emails file) as [|x rows] eqn:Ef.
  - intros H. injection H as <- <-. exists (start_importing (db st)). now split.
  - destruct (import_each 0 (x :: rows) (start_importing (db st))) as [s|];
      [|discriminate].
    intros H. exists s. split; [reflexivity|].
    destruct (Nat.ltb 0 (importedCount s)); [destruct storage|];
      injection H as <- <-; reflexivity.
Qed.

Lemma sound_importDb (storage : option string) (file : Database) (st st' : Store)
    (r : Result Report) :
  importDb storage file st = Some (st', r) -> sound (db st) -> sound (db st').
Proof.
  intros H Hs. destruct (db_importDb _ _ _ _ _ H) as (s & Hi & ->).
  now apply (sound_import_each _ _ _ _ Hi).
Qed.

Lemma sound_reachable (st : Store) : reachable st -> sound (db st).
Proof.
  induction 1.
  - exact sound_empty.
  - now apply sound_saveToDb.
  - now apply sound_deleteRecords.
  - now apply (sound_importDb storage file st st' r).
Qed.

End WithURL.

End SoundFacts.

(** ** Reading the table the operations leave *)

Module ReachTheorems.

Import Str StrFacts Json JsonFacts Normalizer Db Spec DbFacts DbTheorems ReadFacts.
Import DbOps DbImport OpsSpec SaveFacts SoundFacts.

Section WithURL.

Context {api : URLApi}.

(** On every store reached from the empty store by calls of [saveToDb]
    and [deleteRecords], whatever they were given, and by calls of
    [importDb] with the files it is modelled for (a table [emails] whose
    cells are text or [NULL] and whose JSON arrays hold strings only),
    whether the calls returned or threw, [getAllEmails] returns: one
    record for each row of the table and, as long as the ids are
    integers a number holds exactly, the row inserted last first. *)
Theorem getAllEmails_on_reachable (st : Store) :
  reachable st ->
  exists l, getAllEmails (db st) = Ok l
            /\ List.length l = row_count st
            /\ (safe_ids (db st) ->
                ids_of l = map (fun r => of_Z (row_id r)) (rev (emails (db st)))).
Proof.
  intros H. destruct (sound_reachable st H) as (Ha & _ & Hd).
  destruct (getAllEmails_newest_first (db st) Ha Hd) as (l & Hl & Hids).
  exists l. split; [assumption|]. split; [|intros _; exact Hids].
  unfold row_count. rewrite <- (length_rev (emails (db st))).
  rewrite <- (length_map (fun r => of_Z (row_id r)) (rev (emails (db st)))).
  rewrite <- Hids. unfold ids_of. now rewrite length_map.
Qed.

End WithURL.

End ReachTheorems.

(** ** parseInt *)

Module JsFacts.

Import Str StrFacts Js FragmentFacts.

Lemma span_all (p : ascii -> bool) (s : string) :
  Str.forallb p s = true -> span p s = (s, EmptyString).
Proof.
  intros H. pose proof (span_app p s EmptyString H I) as E.
  now rewrite app_empty_r in E.
Qed.

Lemma digits_string_of_uint (d : Decimal.uint) :
  Str.forallb is_digit (NilZero.string_of_uint d) = true.
Proof.
  unfold NilZero.string_of_uint. destruct d; try reflexivity; apply digits_of_uint.
Qed.

Lemma trimStart_digit (a : ascii) (r : string) :
  is_digit a = true -> trimStart (String a r) = String a r.
Proof.
  intros Ha.
  destruct a as [[] [] [] [] [] [] [] []]; try discriminate Ha;
    destruct r as [|b [|c r]]; reflexivity.
Qed.

(** On a string of digits [parseInt] reads the number written. *)
Lemma parseInt_digits (s : string) :
  Str.forallb is_digit s = true ->
  parseInt s = option_map (fun u => Z.of_N (N.of_uint u)) (NilZero.uint_of_string s).
Proof.
  intros H. unfold parseInt. destruct s as [|a r]; [reflexivity|].
  pose proof (span_all is_digit (String a r) H) as Hs.
  cbn [Str.forallb] in H. apply andb_prop in H as [Ha _].
  rewrite (trimStart_digit a r Ha).
  destruct a as [[] [] [] [] [] [] [] []]; try discriminate Ha;
    cbv beta iota; rewrite Hs;
    destruct (NilZero.uint_of_string _); reflexivity.
Qed.

Lemma parseInt_minus_digits (s : string) :
  Str.forallb is_digit s = true ->
  parseInt (String "-" s)
  = option_map (fun u => (- Z.of_N (N.of_uint u))%Z) (NilZero.uint_of_string s).
Proof.
  intros H. unfold parseInt.
  assert (Ht : trimStart (String "-" s) = String "-" s)
    by (destruct s as [|b [|c r]]; reflexivity).
  rewrite Ht. cbv beta iota. rewrite (span_all is_digit s H).
  destruct (NilZero.uint_of_string s); reflexivity.
Qed.

(** [parseInt] reads back what [toString] writes. *)
Lemma parseInt_of_Z (z : Z) : parseInt (of_Z z) = Some z.
Proof.
  unfold of_Z. destruct z as [|p|p]; [reflexivity| |].
  - cbn [Z.to_int NilZero.string_of_int].
    rewrite parseInt_digits by apply digits_string_of_uint.
    rewrite NilZero.usu by apply DecimalPos.Unsigned.to_uint_nonnil.
    cbn [option_map]. unfold N.of_uint.
    now rewrite DecimalPos.Unsigned.of_to.
  - cbn [Z.to_int NilZero.string_of_int].
    rewrite parseInt_minus_digits by apply digits_string_of_uint.
    rewrite NilZero.usu by apply DecimalPos.Unsigned.to_uint_nonnil.
    cbn [option_map]. unfold N.of_uint.
    now rewrite DecimalPos.Unsigned.of_to.
Qed.

Lemma of_Z_inj (x y : Z) : of_Z x = of_Z y -> x = y.
Proof.
  intros H. pose proof (parseInt_of_Z x) as Hx. rewrite H, parseInt_of_Z in Hx.
  congruence.
Qed.

End JsFacts.

(** ** Deleting records *)

Module DeleteTheorems.

Import Str StrFacts Json JsonFacts Db Spec DbFacts ReadFacts.
Import Js JsFacts DbOps OpsSpec SoundFacts.

Lemma mapM_In {A B} (f : A -> Result B) (xs : list A) (l : list B) (y : B) :
  mapM f xs = Ok l -> In y l -> exists x, In x xs /\ f x = Ok y.
Proof.
  revert l. induction xs as [|x xs IH]; intros l H Hy; cbn [mapM] in H.
  - injection H as <-. destruct Hy.
  - destruct (f x) as [b|] eqn:E; cbn [bind] in H; [|discriminate].
    destruct (mapM f xs) as [bs|]; cbn [bind] in H; [|discriminate].
    injection H as <-. destruct Hy as [<- | Hy].
    + exists x. split; [now left | assumption].
    + destruct (IH bs eq_refl Hy) as (x' & Hx' & Hf).
      exists x'. split; [now right | assumption].
Qed.

Lemma mapM_filter {A B} (f : A -> Result B) (p : A -> bool) (q : B -> bool)
    (xs : list A) (l : list B) :
  (forall x y, In x xs -> f x = Ok y -> p x = q y) ->
  mapM f xs = Ok l -> mapM f (filter p xs) = Ok (filter q l).
Proof.
  revert l. induction xs as [|x xs IH]; intros l Hpq H; cbn [mapM] in H.
  - injection H as <-. reflexivity.
  - destruct (f x) as [b|] eqn:E; cbn [bind] in H; [|discriminate].
    destruct (mapM f xs) as [bs|] eqn:Em; cbn [bind] in H; [|discriminate].
    injection H as <-. cbn [filter].
    rewrite <- (Hpq x b (or_introl eq_refl) E).
    assert (IH' : mapM f (filter p xs) = Ok (filter q bs)).
    { apply IH; [|reflexivity]. intros x' y Hx'. apply Hpq. now right. }
    destruct (p x); [|exact IH'].
    cbn [mapM]. rewrite E, IH'. reflexivity.
Qed.

Lemma se_id_row (r : Row) (e : StoredEmail) :
  row_to_email r = Ok e -> se_id e = of_Z (row_id r).
Proof.
  unfold row_to_email.
  destruct (JSON_parse (cell_or (row_etiquetas r) "[]")); cbn [bind]; [|discriminate].
  destruct (JSON_parse (cell_or (row_urls r) "[]")); cbn [bind]; [|discriminate].
  intros H. injection H as <-. reflexivity.
Qed.

Lemma is_bound_In (numbers : list (option Z)) (z : Z) :
  is_bound numbers z = true <-> In (Some z) numbers.
Proof.
  unfold is_bound. rewrite existsb_exists. split.
  - intros ([k|] & Hin & Hk); [|discriminate].
    apply Z.eqb_eq in Hk. now subst.
  - intros H. exists (Some z). split; [assumption | apply Z.eqb_refl].
Qed.

(** For ids that [getAllEmails] returned, the rows the [DELETE]
    removes are the rows of the records with these ids. *)
Lemma bound_selected (d : Database) (l : list StoredEmail) (ids : list string)
    (z : Z) :
  getAllEmails d = Ok l -> incl ids (ids_of l) ->
  is_bound (map parseInt ids) z = has ids (of_Z z).
Proof.
  intros Hl Hsub. apply eq_true_iff_eq. rewrite is_bound_In, has_In, in_map_iff.
  split.
  - intros (i & Hp & Hi). pose proof (Hsub i Hi) as Hin.
    unfold ids_of in Hin. apply in_map_iff in Hin as (e & <- & He).
    destruct (mapM_In _ _ _ _ Hl He) as (r & _ & Hr).
    rewrite (se_id_row r e Hr) in *. rewrite parseInt_of_Z in Hp.
    injection Hp as <-. assumption.
  - intros H. exists (of_Z z). split; [apply parseInt_of_Z | assumption].
Qed.

Lemma without_nil (l : list StoredEmail) : without [] l = l.
Proof.
  unfold without. induction l as [|e l IH]; [reflexivity|].
  cbn [filter]. change (has [] (se_id e)) with false. cbn [negb].
  now rewrite IH.
Qed.

(** On a table whose ids are integers that a number holds exactly (at
    most 2^53 in absolute value): after [deleteRecords] was given ids
    of records that [getAllEmails] returned, [getAllEmails] returns the
    same records without those that have one of the ids, in the same
    order; this is so whether the write to IndexedDB succeeds or
    [deleteRecords] throws. *)
Theorem deleteRecords_then_getAllEmails (storage : option string)
    (ids : list string) (st : Store) (l : list StoredEmail) :
  ascending (emails (db st)) ->
  safe_ids (db st) ->
  getAllEmails (db st) = Ok l ->
  incl ids (ids_of l) ->
  getAllEmails (db (fst (deleteRecords storage ids st))) = Ok (without ids l).
Proof.
  intros Ha _ Hl Hsub. rewrite db_deleteRecords.
  destruct ids as [|i ids]; [now rewrite without_nil|].
  set (sel := i :: ids) in *.
  unfold getAllEmails in *. cbn [emails].
  rewrite order_by_id_desc_rev by now apply ascending_filter.
  rewrite <- filter_rev, <- (order_by_id_desc_rev _ Ha).
  apply mapM_filter; [|assumption].
  intros r e _ Hr. rewrite (se_id_row r e Hr).
  now rewrite (bound_selected (db st) l sel (row_id r) Hl Hsub).
Qed.

(** When the write to IndexedDB fails, [deleteRecords] has deleted the
    rows from the table in memory all the same, the copy in IndexedDB is
    the one from before, and the error thrown is the one of the
    [ROLLBACK], which comes after the [COMMIT]. *)
Theorem deleteRecords_write_fails (m : string) (ids : list string) (st : Store) :
  ids <> [] ->
  deleteRecords (Some m) ids st
  = ({| db := db (fst (deleteRecords None ids st)); idb := idb st |},
     Throw "cannot rollback - no transaction is active").
Proof.
  intros H. destruct ids as [|i ids]; [congruence|]. reflexivity.
Qed.

End DeleteTheorems.

(** ** Merging an uploaded database *)

Module ImportFacts.

Import Str StrFacts Json JsonFacts Normalizer Db Spec DbFacts ReadFacts.
Import DbOps DbImport OpsSpec SaveFacts SoundFacts.

Lemma or_null_nonempty (c : cell) (s : string) :
  or_null c = Some s -> is_empty s = false.
Proof.
  destruct c as [x|]; cbn [or_null]; [|discriminate].
  destruct (is_empty x) eqn:E; [discriminate|]. intros H. now injection H as <-.
Qed.

Lemma or_null_some (c : cell) (s : string) : or_null c = Some s -> c = Some s.
Proof.
  destruct c as [x|]; cbn [or_null]; [|discriminate].
  destruct (is_empty x); [discriminate|]. intros H. now injection H as <-.
Qed.

Section WithURL.

Context {api : URLApi}.

(** What one callback does: it leaves the row out, or it inserts it. *)
Lemma import_row_cases (i : nat) (r : Row) (s s' : Importing) :
  import_row i r s = Some s' ->
  (left_out (im_index s) r = true
   /\ im_db s' = im_db s /\ im_index s' = im_index s
   /\ importedCount s' = importedCount s
   /\ skippedCount s' = S (skippedCount s))
  \/ (left_out (im_index s) r = false
      /\ exists f tags links,
           or_null (row_fileName r) = Some f
           /\ url_duplicate_of_cell (im_index s) (row_urls r) = Some None
           /\ im_db s' = insert (Some f) (or_null (row_fechaEnvio r))
                                (or_null (row_tematica r))
                                (Some (stringify_strings tags))
                                (or_null (row_contenido r))
                                (Some (stringify_strings links)) (im_db s)
           /\ im_index s'
              = {| existingFileNames := (existingFileNames (im_index s) ++ [f])%list;
                   existingUrlSets := (existingUrlSets (im_index s) ++ links)%list;
                   existingNormalizedUrlSets :=
                     (existingNormalizedUrlSets (im_index s)
                      ++ map normalizeUrl links)%list |}
           /\ importedCount s' = S (importedCount s)
           /\ skippedCount s' = skippedCount s).
Proof.
  unfold import_row, left_out. intros H.
  destruct (or_null (row_fileName r)) as [f|];
    [|injection H as <-; left; now repeat split].
  destruct (url_duplicate_of_cell (im_index s) (row_urls r)) as [[n|]|];
    [injection H as <-; left; now repeat split | | discriminate].
  destruct (has (existingFileNames (im_index s)) f);
    [injection H as <-; left; now repeat split|].
  destruct (sanitized (row_etiquetas r)) as [tags|]; [|discriminate].
  destruct (sanitized (row_urls r)) as [links|]; [|discriminate].
  injection H as <-. right. split; [reflexivity|].
  exists f, tags, links. now repeat split.
Qed.

Lemma coherent_import_row (i : nat) (r : Row) (s s' : Importing) :
  import_row i r s = Some s' -> im_coherent s -> im_coherent s'.
Proof.
  unfold im_coherent. intros H Hc.
  apply import_row_cases in H
    as [(_ & -> & -> & _) | (_ & f & tags & links & Hf & _ & -> & -> & _)];
    [assumption|].
  rewrite build_index_insert, <- Hc, (or_null_nonempty _ _ Hf). reflexivity.
Qed.

Lemma coherent_import_each (rows : list Row) (i : nat) (s s' : Importing) :
  import_each i rows s = Some s' -> im_coherent s -> im_coherent s'.
Proof.
  revert i s. induction rows as [|r rows IH]; intros i s H Hc; cbn [import_each] in H.
  - now injection H as <-.
  - destruct (import_row i r s) as [s1|] eqn:E; [|discriminate].
    apply (IH _ _ H). now apply (coherent_import_row i r s).
Qed.

Lemma index_le_import_row (i : nat) (r : Row) (s s' : Importing) :
  import_row i r s = Some s' -> index_le (im_index s) (im_index s').
Proof.
  intros H.
  apply import_row_cases in H
    as [(_ & _ & -> & _) | (_ & f & tags & links & _ & _ & _ & -> & _)].
  - apply index_le_refl.
  - repeat split; cbn; apply incl_appl, incl_refl.
Qed.

Lemma index_le_import_each (rows : list Row) (i : nat) (s s' : Importing) :
  import_each i rows s = Some s' -> index_le (im_index s) (im_index s').
Proof.
  revert i s. induction rows as [|r rows IH]; intros i s H; cbn [import_each] in H.
  - injection H as <-. apply index_le_refl.
  - destruct (import_row i r s) as [s1|] eqn:E; [|discriminate].
    eapply index_le_trans; [apply (index_le_import_row _ _ _ _ E) | apply (IH _ _ H)].
Qed.

(** A link that is known stays known when the sets grow. *)
Lemma url_duplicate_mono (ix ix' : Index) (links : list string) :
  index_le ix ix' ->
  url_duplicate ix links (normalizeUrls links) <> None ->
  url_duplicate ix' links (normalizeUrls links) <> None.
Proof.
  intros (_ & H2 & H3) Hd Hn. apply Hd.
  apply (url_duplicate_None ix links _ (normalizeUrls_length links)).
  apply (url_duplicate_None ix' links _ (normalizeUrls_length links)) in Hn
    as [K1 K2].
  split.
  - intros u Hu Hin. apply (K1 u Hu). now apply H2.
  - intros n Hn Hin. apply (K2 n Hn). now apply H3.
Qed.

Lemma left_out_mono (ix ix' : Index) (r : Row) :
  index_le ix ix' -> left_out ix r = true -> left_out ix' r = true.
Proof.
  intros Hle. pose proof Hle as (H1 & _ & _). unfold left_out.
  destruct (or_null (row_fileName r)) as [f|]; [|reflexivity].
  unfold url_duplicate_of_cell.
  destruct (or_null (row_urls r)) as [text|].
  - destruct (decode text) as [| |links|]; try discriminate.
    + intros H. apply has_In. apply H1. now apply has_In.
    + intros H. apply has_In. apply H1. now apply has_In.
    + destruct (url_duplicate ix links (normalizeUrls links)) as [n|] eqn:E.
      * intros _.
        destruct (url_duplicate ix' links (normalizeUrls links)) eqn:E';
          [reflexivity|].
        exfalso. apply (url_duplicate_mono ix ix' links Hle); congruence.
      * intros H.
        destruct (url_duplicate ix' links (normalizeUrls links)); [reflexivity|].
        apply has_In. apply H1. now apply has_In.
  - intros H. apply has_In. apply H1. now apply has_In.
Qed.

(** After a row went through the callback it is left out. *)
Lemma left_out_after (i : nat) (r : Row) (s s' : Importing) :
  import_row i r s = Some s' -> left_out (im_index s') r = true.
Proof.
  intros H.
  apply import_row_cases in H
    as [(Hl & _ & -> & _) | (_ & f & tags & links & Hf & Hu & _ & -> & _)];
    [assumption|].
  unfold left_out. rewrite Hf.
  match goal with
  | |- context [url_duplicate_of_cell ?ix ?c] =>
      destruct (url_duplicate_of_cell ix c) as [[n|]|] eqn:E
  end.
  - reflexivity.
  - cbn [existingFileNames]. apply has_In, in_or_app. right. now left.
  - exfalso. unfold url_duplicate_of_cell in *.
    destruct (or_null (row_urls r)) as [text|]; [|discriminate].
    destruct (decode text); discriminate.
Qed.

Lemma left_out_after_each (rows : list Row) (i : nat) (s s' : Importing) (r : Row) :
  import_each i rows s = Some s' -> In r rows -> left_out (im_index s') r = true.
Proof.
  revert i s. induction rows as [|x rows IH]; intros i s H Hin; [destruct Hin|].
  cbn [import_each] in H.
  destruct (import_row i x s) as [s1|] eqn:E; [|discriminate].
  destruct Hin as [-> | Hin].
  - apply (left_out_mono (im_index s1)).
    + apply (index_le_import_each _ _ _ _ H).
    + apply (left_out_after _ _ _ _ E).
  - apply (IH _ _ H Hin).
Qed.

(** A loop over rows that are all left out only counts them. *)
Lemma import_each_left_out (rows : list Row) (i : nat) (s : Importing) :
  (forall r, In r rows -> left_out (im_index s) r = true) ->
  exists s', import_each i rows s = Some s'
             /\ im_db s' = im_db s /\ im_index s' = im_index s
             /\ importedCount s' = importedCount s
             /\ skippedCount s' = skippedCount s + List.length rows.
Proof.
  revert i s. induction rows as [|x rows IH]; intros i s H; cbn [import_each].
  - exists s. repeat split. cbn. lia.
  - assert (Hx : exists s1, import_row i x s = Some s1
                 /\ im_db s1 = im_db s /\ im_index s1 = im_index s
                 /\ importedCount s1 = importedCount s
                 /\ skippedCount s1 = S (skippedCount s)).
    { pose proof (H x (or_introl eq_refl)) as Hl.
      unfold left_out in Hl. unfold import_row.
      destruct (or_null (row_fileName x)) as [f|];
        [|eexists; split; [reflexivity | now repeat split]].
      destruct (url_duplicate_of_cell (im_index s) (row_urls x)) as [[n|]|];
        [eexists; split; [reflexivity | now repeat split] | | discriminate].
      rewrite Hl. eexists; split; [reflexivity | now repeat split]. }
    destruct Hx as (s1 & -> & Hd & Hi & Hc & Hk).
    destruct (IH (S i) s1) as (s' & Hs' & Kd & Ki & Kc & Kk).
    { intros r Hr. rewrite Hi. apply H. now right. }
    exists s'. split; [assumption|]. cbn [List.length].
    repeat split; try congruence. lia.
Qed.

(** Every row of the file is counted once, and every row counted as
    imported is a row more in the table. *)
Lemma import_each_counts (rows : list Row) (i : nat) (s s' : Importing) :
  import_each i rows s = Some s' ->
  importedCount s' + skippedCount s'
  = importedCount s + skippedCount s + List.length rows
  /\ List.length (emails (im_db s')) + importedCount s
     = List.length (emails (im_db s)) + importedCount s'.
Proof.
  revert i s. induction rows as [|x rows IH]; intros i s H; cbn [import_each] in H.
  - injection H as <-. cbn. lia.
  - destruct (import_row i x s) as [s1|] eqn:E; [|discriminate].
    destruct (IH _ _ H) as [K1 K2]. cbn [List.length].
    apply import_row_cases in E
      as [(_ & Hd & _ & Hc & Hk) | (_ & f & tags & links & _ & _ & Hd & _ & Hc & Hk)].
    + rewrite Hd, Hc, Hk in *. lia.
    + rewrite Hd, Hc, Hk in *. unfold insert in K2. cbn [emails] in K2.
      rewrite List.length_app in K2. cbn [List.length] in K2. lia.
Qed.

(** A cell that holds strings only is written anew. *)
Lemma sanitized_strings_only (c : cell) :
  strings_only c = true -> exists items, sanitized c = Some items.
Proof.
  unfold strings_only, sanitized.
  destruct (or_null c) as [text|]; [|intros _; now exists []].
  destruct (decode text) as [| |items|]; intros H; try discriminate;
    eexists; reflexivity.
Qed.

(** What is written for a cell: an array; [[]] for text that is no
    JSON; the array itself for an array of strings. *)
Lemma sanitized_spec (c : cell) (items : list string) :
  sanitized c = Some items ->
  (malformed c -> items = [])
  /\ (forall given, c = Some (stringify_strings given) -> items = given).
Proof.
  unfold sanitized. intros H. split.
  - unfold malformed, cell_or, or_default. intros Hm.
    destruct c as [s|]; cbn [or_null] in H; [|now injection H as <-].
    destruct (is_empty s); [now injection H as <-|].
    unfold decode in H. rewrite Hm in H. now injection H as <-.
  - intros given ->. cbn [or_null] in H.
    rewrite stringify_strings_nonempty in H. unfold decode in H.
    rewrite parse_stringify_strings in H.
    assert (K : forall l, all_text (map Text l) = true /\ texts (map Text l) = l).
    { induction l as [|x l [K1 K2]]; [now split|].
      split; [exact K1 | cbn [map texts]; now rewrite K2]. }
    destruct (K given) as [K1 K2]. rewrite K1, K2 in H. now injection H as <-.
Qed.

(** On a row whose JSON cells hold strings only the callback is
    modelled. *)
Lemma import_row_modelled (i : nat) (r : Row) (s : Importing) :
  strings_only (row_etiquetas r) = true -> strings_only (row_urls r) = true ->
  exists s', import_row i r s = Some s'.
Proof.
  intros He Hu.
  destruct (sanitized_strings_only _ He) as (tags & Ht).
  destruct (sanitized_strings_only _ Hu) as (links & Hl).
  assert (Hd : exists d, url_duplicate_of_cell (im_index s) (row_urls r) = Some d).
  { unfold strings_only in Hu. unfold url_duplicate_of_cell.
    destruct (or_null (row_urls r)) as [text|]; [|eexists; reflexivity].
    destruct (decode text); try discriminate; eexists; reflexivity. }
  destruct Hd as (d & Hd). unfold import_row. rewrite Hd, Ht, Hl.
  destruct (or_null (row_fileName r)) as [f|]; [|eexists; reflexivity].
  destruct d as [n|]; [eexists; reflexivity|].
  destruct (has (existingFileNames (im_index s)) f); eexists; reflexivity.
Qed.

Lemma import_each_modelled (rows : list Row) (i : nat) (s : Importing) :
  List.forallb (fun r => strings_only (row_etiquetas r) && strings_only (row_urls r))
               rows = true ->
  exists s', import_each i rows s = Some s'.
Proof.
  revert i s. induction rows as [|r rows IH]; intros i s H; cbn [import_each].
  - now exists s.
  - cbn [List.forallb] in H. apply andb_prop in H as [Hr H].
    apply andb_prop in Hr as [He Hu].
    destruct (import_row_modelled i r s He Hu) as (s1 & ->).
    apply (IH _ _ H).
Qed.

(** [importDb] is modelled for the files whose JSON cells hold strings
    only. *)
Lemma importDb_modelled (storage : option string) (file : Database) (st : Store) :
  modelled file = true ->
  exists st' result, importDb storage file st = Some (st', result).
Proof.
  unfold modelled, importDb. intros H.
  destruct (emails file) as [|x rows]; [eexists; eexists; reflexivity|].
  destruct (import_each_modelled (x :: rows) 0 (start_importing (db st)) H)
    as (s & ->).
  destruct (Nat.ltb 0 (importedCount s)); [destruct storage|];
    eexists; eexists; reflexivity.
Qed.

(** The rows a loop adds come last, one for each row counted as
    imported; each is written for a row of the file, with the file
    name of that row and with what [sanitized] gives for its JSON
    cells. *)
Lemma import_each_appends (rows : list Row) (i : nat) (s s' : Importing) :
  import_each i rows s = Some s' ->
  exists added,
    emails (im_db s') = (emails (im_db s) ++ added)%list
    /\ importedCount s' = importedCount s + List.length added
    /\ forall row, In row added ->
         exists r tags links,
           In r rows
           /\ row_fileName row = row_fileName r
           /\ sanitized (row_etiquetas r) = Some tags
           /\ sanitized (row_urls r) = Some links
           /\ row_etiquetas row = Some (stringify_strings tags)
           /\ row_urls row = Some (stringify_strings links).
Proof.
  revert i s. induction rows as [|x rows IH]; intros i s H; cbn [import_each] in H.
  - injection H as <-. exists []. rewrite app_nil_r. cbn [List.length].
    split; [reflexivity|]. split; [lia | intros ? []].
  - destruct (import_row i x s) as [s1|] eqn:E; [|discriminate].
    destruct (IH _ _ H) as (added & Ha & Hc & Hrows).
    assert (Hlater : forall row, In row added ->
              exists r tags links,
                In r (x :: rows)
                /\ row_fileName row = row_fileName r
                /\ sanitized (row_etiquetas r) = Some tags
                /\ sanitized (row_urls r) = Some links
                /\ row_etiquetas row = Some (stringify_strings tags)
                /\ row_urls row = Some (stringify_strings links)).
    { intros row Hrow.
      destruct (Hrows row Hrow) as (r & tags & links & Hr & K).
      exists r, tags, links. split; [now right | exact K]. }
    unfold import_row in E.
    destruct (or_null (row_fileName x)) as [f|] eqn:Ef;
      [|injection E as <-; exists added; now repeat split].
    destruct (url_duplicate_of_cell (im_index s) (row_urls x)) as [[n|]|];
      [injection E as <-; exists added; now repeat split | | discriminate].
    destruct (has (existingFileNames (im_index s)) f);
      [injection E as <-; exists added; now repeat split|].
    destruct (sanitized (row_etiquetas x)) as [tags|] eqn:St; [|discriminate].
    destruct (sanitized (row_urls x)) as [links|] eqn:Sl; [|discriminate].
    injection E as <-. cbn [im_db importedCount] in Ha, Hc.
    unfold insert in Ha. cbn [emails] in Ha. rewrite <- List.app_assoc in Ha.
    eexists. split; [exact Ha|]. split; [cbn [List.length app]; lia|].
    intros row [<- | Hrow]; [|now apply Hlater].
    exists x, tags, links. cbn [row_fileName row_etiquetas row_urls].
    rewrite (or_null_some _ _ Ef).
    repeat split; [now left | assumption | assumption].
Qed.

End WithURL.

End ImportFacts.

Module ImportTheorems.

Import Str StrFacts Json JsonFacts Normalizer Db Spec DbFacts ReadFacts.
Import DbOps DbImport OpsSpec SaveFacts SoundFacts ImportFacts.

Section WithURL.

Context {api : URLApi}.

(** For a file [importDb] is modelled for (a table [emails] whose
    cells are text or [NULL] and whose JSON arrays hold strings only),
    with every [INSERT] succeeding: the call ends, and its counts
    account for every row of the file.  The rows counted as imported
    and those counted as skipped are the rows of the file, and the
    table has one row more for each row counted as imported.  The
    report gives these counts, unless rows were imported and the write
    to IndexedDB fails: then the error of the write is thrown. *)
Theorem importDb_counts (storage : option string) (file : Database) (st : Store) :
  modelled file = true ->
  exists st' result n k,
    importDb storage file st = Some (st', result)
    /\ n + k = List.length (emails file)
    /\ row_count st' = row_count st + n
    /\ (n = 0 \/ storage = None ->
        exists report,
          result = Ok report /\ imported report = n /\ skipped report = k)
    /\ (0 < n -> forall m, storage = Some m -> result = Throw m).
Proof.
  unfold modelled, importDb, row_count. intros H.
  destruct (emails file) as [|x rows] eqn:Ef.
  - exists st, (Ok {| imported := 0; skipped := 0; report_errors := None |}), 0, 0.
    split; [reflexivity|]. split; [reflexivity|]. split; [lia|].
    split; [intros _; eexists; now repeat split | lia].
  - destruct (import_each_modelled (x :: rows) 0 (start_importing (db st)) H)
      as (s & E).
    rewrite E. destruct (import_each_counts _ _ _ _ E) as [K1 K2].
    cbn [start_importing importedCount skippedCount im_db] in K1, K2.
    destruct (Nat.ltb 0 (importedCount s)) eqn:En.
    + apply Nat.ltb_lt in En. destruct storage as [m|].
      * eexists; eexists; exists (importedCount s), (skippedCount s).
        split; [reflexivity|]. cbn [db]. split; [lia|]. split; [lia|].
        split; [intros [K | K]; [lia | discriminate]|].
        intros _ m' Hm. now injection Hm as <-.
      * eexists; eexists; exists (importedCount s), (skippedCount s).
        split; [reflexivity|]. cbn [db]. split; [lia|]. split; [lia|].
        split; [intros _; eexists; now repeat split | intros _ m' Hm; discriminate].
    + apply Nat.ltb_ge in En.
      eexists; eexists; exists (importedCount s), (skippedCount s).
      split; [reflexivity|]. cbn [db]. split; [lia|]. split; [lia|].
      split; [intros _; eexists; now repeat split | lia].
Qed.

(** For a file [importDb] is modelled for, with every [INSERT]
    succeeding: importing the file again after a first import of it
    (whether the write of the first import succeeded or not) changes
    nothing.  Every row is skipped, the table and the copy in IndexedDB
    stay as they are. *)
Theorem importDb_again (s1 s2 : option string) (file : Database) (st : Store) :
  modelled file = true ->
  exists st1 r1 report,
    importDb s1 file st = Some (st1, r1)
    /\ importDb s2 file st1 = Some (st1, Ok report)
    /\ imported report = 0
    /\ skipped report = List.length (emails file).
Proof.
  intros Hm. destruct (importDb_modelled s1 file st Hm) as (st1 & r1 & H1).
  exists st1, r1.
  destruct (db_importDb _ _ _ _ _ H1) as (s & Hs & Hdb).
  assert (Hix : build_index (db st1) = im_index s).
  { rewrite Hdb. symmetry. apply (coherent_import_each _ _ _ _ Hs). reflexivity. }
  destruct (import_each_left_out (emails file) 0 (start_importing (db st1)))
    as (s' & Hs' & Kd & _ & Kc & Kk).
  { intros r Hr. cbn [start_importing im_index]. rewrite Hix.
    apply (left_out_after_each _ _ _ _ r Hs Hr). }
  cbn [start_importing im_db importedCount skippedCount] in Kd, Kc, Kk.
  unfold importDb at 2. destruct (emails file) as [|x rows] eqn:Ef.
  - eexists. split; [exact H1|]. split; [reflexivity|]. now split.
  - rewrite Hs', Kc. cbn [Nat.ltb Nat.leb].
    eexists. split; [exact H1|]. split.
    + rewrite Kd. destruct st1. reflexivity.
    + cbn [imported skipped]. split; [reflexivity | exact Kk].
Qed.

(** For a file [importDb] is modelled for, with every [INSERT]
    succeeding: the rows [importDb] adds come after the rows the table
    had, and each of them holds a JSON array in etiquetas and in urls.
    It has the file name of a row of the file; where the cell of that
    row is text that is no JSON, the array written is empty, and where
    it is an array of strings, that array is written. *)
Theorem importDb_sanitizes (storage : option string) (file : Database) (st : Store) :
  modelled file = true ->
  exists st' result added,
    importDb storage file st = Some (st', result)
    /\ emails (db st') = (emails (db st) ++ added)%list
    /\ forall row, In row added ->
         holds_array (row_etiquetas row) /\ holds_array (row_urls row)
         /\ exists r,
              In r (emails file)
              /\ row_fileName row = row_fileName r
              /\ (malformed (row_etiquetas r) ->
                  row_etiquetas row = Some (stringify_strings []))
              /\ (malformed (row_urls r) ->
                  row_urls row = Some (stringify_strings []))
              /\ (forall tags, row_etiquetas r = Some (stringify_strings tags) ->
                    row_etiquetas row = row_etiquetas r)
              /\ (forall links, row_urls r = Some (stringify_strings links) ->
                    row_urls row = row_urls r).
Proof.
  intros Hm. destruct (importDb_modelled storage file st Hm) as (st' & result & H).
  destruct (db_importDb _ _ _ _ _ H) as (s & Hs & Hdb).
  destruct (import_each_appends _ _ _ _ Hs) as (added & Ha & _ & Hrows).
  cbn [start_importing im_db] in Ha.
  exists st', result, added. split; [exact H|]. split; [now rewrite Hdb|].
  intros row Hrow.
  destruct (Hrows row Hrow) as (r & tags & links & Hr & Hf & St & Sl & Et & El).
  destruct (sanitized_spec _ _ St) as [T1 T2].
  destruct (sanitized_spec _ _ Sl) as [L1 L2].
  rewrite Et, El.
  split; [apply holds_array_stringify|]. split; [apply holds_array_stringify|].
  exists r. split; [assumption|]. split; [assumption|].
  split; [intros K; now rewrite (T1 K)|].
  split; [intros K; now rewrite (L1 K)|].
  split.
  - intros given K. rewrite (T2 given K). now rewrite K.
  - intros given K. rewrite (L2 given K). now rewrite K.
Qed.

End WithURL.

End ImportTheorems.

(** ** Ids *)

Module IdTheorems.

Import Str StrFacts Json JsonFacts Normalizer Db Spec DbFacts DbTheorems ReadFacts.
Import DbOps OpsSpec SaveFacts SoundFacts.

Section WithURL.

Context {api : URLApi}.

Lemma new_rows_save_one (i : nat) (e : AnalyzedEmail) (s : Saving) (r : Row) :
  In r (emails (sv_db (save_one i e s))) ->
  (sqlite_sequence (sv_db s) <= sqlite_sequence (sv_db (save_one i e s)))%Z
  /\ (In r (emails (sv_db s)) \/ (sqlite_sequence (sv_db s) < row_id r)%Z).
Proof.
  unfold save_one.
  destruct (is_empty (fileName e));
    [cbn [sv_db]; intros H; split; [lia | now left]|].
  destruct (duplicate_of (sv_index s) e);
    [cbn [sv_db]; intros H; split; [lia | now left]|].
  cbn [sv_db]. unfold insert_email. intros H.
  match goal with
  | H : In r (emails (insert ?f ?d ?t ?g ?c ?u ?d0)) |- _ =>
      pose proof (sequence_insert f d t g c u d0) as Hlt;
      apply In_insert in H as [H | ->]
  end.
  - split; [lia | now left].
  - split; [lia|]. right. cbn [row_id]. exact Hlt.
Qed.

Lemma sequence_save_one (i : nat) (e : AnalyzedEmail) (s : Saving) :
  (sqlite_sequence (sv_db s) <= sqlite_sequence (sv_db (save_one i e s)))%Z.
Proof.
  unfold save_one.
  destruct (is_empty (fileName e)); [cbn [sv_db]; lia|].
  destruct (duplicate_of (sv_index s) e); [cbn [sv_db]; lia|].
  cbn [sv_db]. unfold insert_email.
  match goal with
  | |- (_ <= sqlite_sequence (insert ?f ?d ?t ?g ?c ?u ?d0))%Z =>
      pose proof (sequence_insert f d t g c u d0)
  end. lia.
Qed.

Lemma new_rows_save_each (batch : list AnalyzedEmail) (i : nat) (s : Saving) (r : Row) :
  In r (emails (sv_db (save_each i batch s))) ->
  In r (emails (sv_db s)) \/ (sqlite_sequence (sv_db s) < row_id r)%Z.
Proof.
  revert i s. induction batch as [|e batch IH]; intros i s H; [now left|].
  cbn [save_each] in H. apply IH in H as [H | H].
  - now apply new_rows_save_one in H as [_ H].
  - right. pose proof (sequence_save_one i e s). lia.
Qed.

(** An id is given once: on a table of which no id is above the
    counter of [AUTOINCREMENT], the rows present after [deleteRecords]
    and then [saveToDb] are rows of the table from before, or have an
    id above every id that table had, the ids of the deleted rows
    included. *)
Theorem ids_given_once (s1 s2 : option string) (ids : list string)
    (batch : list AnalyzedEmail) (st : Store) (r : Row) :
  counted (db st) ->
  In r (emails (db (fst (saveToDb s2 batch (fst (deleteRecords s1 ids st)))))) ->
  In r (emails (db st))
  \/ (forall x, In x (emails (db st)) -> (row_id x < row_id r)%Z).
Proof.
  intros Hc Hin. rewrite db_saveToDb in Hin.
  apply new_rows_save_each in Hin. cbn [start_saving sv_db] in Hin.
  rewrite db_deleteRecords in Hin.
  destruct Hin as [Hin | Hlt].
  - left. destruct ids; [assumption|]. cbn [emails] in Hin.
    now apply filter_In in Hin as [Hin _].
  - right. intros x Hx. pose proof (Hc x Hx).
    destruct ids; cbn [sqlite_sequence] in Hlt; lia.
Qed.

End WithURL.

End IdTheorems.

(** ** Opening the database *)

Module SessionTheorems.

Import Str StrFacts Db DbSession.

Lemma first_served_app (served : string -> option Database) (a b : list string) :
  first_served served (a ++ b)
  = match first_served served a with
    | Some d => Some d
    | None => first_served served b
    end.
Proof.
  induction a as [|p a IH]; [reflexivity|].
  cbn [app first_served]. destruct (served p); [reflexivity | exact IH].
Qed.

Lemma first_served_none (served : string -> option Database) (paths : list string) :
  (forall p, In p paths -> served p = None) -> first_served served paths = None.
Proof.
  induction paths as [|p paths IH]; intros H; [reflexivity|].
  cbn [first_served]. rewrite (H p (or_introl eq_refl)).
  apply IH. intros q Hq. apply H. now right.
Qed.

(** The file of the most recent date for which one is served is the
    one loaded, the relative path before the absolute one. *)
Lemma loadDBFromBdFolder_most_recent (site : Site) (k : nat) (date : string)
    (d : Database) :
  nth_error (dates site) k = Some date ->
  (forall j dj, j < k -> nth_error (dates site) j = Some dj ->
     served site ("bd/email_intelligence_" ++ dj ++ ".sqlite") = None
     /\ served site ("/bd/email_intelligence_" ++ dj ++ ".sqlite") = None) ->
  served site ("bd/email_intelligence_" ++ date ++ ".sqlite") = Some d
  \/ (served site ("bd/email_intelligence_" ++ date ++ ".sqlite") = None
      /\ served site ("/bd/email_intelligence_" ++ date ++ ".sqlite") = Some d) ->
  loadDBFromBdFolder site = Some d.
Proof.
  unfold loadDBFromBdFolder, possibleFiles. rewrite first_served_app.
  generalize (dates site). intros ds. revert k.
  induction ds as [|x ds IH]; intros k Hk Hbefore Hd.
  - destruct k; discriminate.
  - cbn [flat_map app first_served]. destruct k as [|k].
    + injection Hk as ->. destruct Hd as [-> | [-> ->]]; reflexivity.
    + destruct (Hbefore 0 x (Nat.lt_0_succ k) eq_refl) as [-> ->].
      apply (IH k Hk); [|assumption].
      intros j dj Hj Hn. apply (Hbefore (S j) dj); [lia | exact Hn].
Qed.

(** When the page is loaded, a file served from the [bd] folder is
    preferred to the copy in IndexedDB: the table is the one of the
    most recent file served, whatever [saveToDb] had written to
    IndexedDB, and that copy is replaced by the file. *)
Theorem loadSqlJs_prefers_bd_folder (site : Site) (idb : Idb) (b : Browser)
    (k : nat) (date : string) (d : Database) :
  sqljs site = Ready ->
  dbInstance b = None ->
  nth_error (dates site) k = Some date ->
  (forall j dj, j < k -> nth_error (dates site) j = Some dj ->
     served site ("bd/email_intelligence_" ++ dj ++ ".sqlite") = None
     /\ served site ("/bd/email_intelligence_" ++ dj ++ ".sqlite") = None) ->
  served site ("bd/email_intelligence_" ++ date ++ ".sqlite") = Some d
  \/ (served site ("bd/email_intelligence_" ++ date ++ ".sqlite") = None
      /\ served site ("/bd/email_intelligence_" ++ date ++ ".sqlite") = Some d) ->
  loadSqlJs site idb b
  = ({| dbInstance := Some d;
        main_db := match write_error idb with
                   | None => Some d
                   | Some _ => main_db b
                   end |}, Ok d).
Proof.
  intros Hr Hb Hk Hbefore Hd. unfold loadSqlJs.
  rewrite Hb, Hr, (loadDBFromBdFolder_most_recent site k date d Hk Hbefore Hd).
  reflexivity.
Qed.

(** [resetDb] leaves an empty table and nothing in IndexedDB only when
    no file is served from the [bd] folder; when one is served, the
    table after the reset is the one of that file, and it is written to
    IndexedDB.  In neither case does anything depend on what the table
    and IndexedDB held before. *)
Theorem resetDb_result (site : Site) (b : Browser) :
  sqljs site = Ready ->
  let idb := {| read_error := None; write_error := None |} in
  ((forall p, In p (possibleFiles site) -> served site p = None) ->
   resetDb site None idb b
   = ({| dbInstance := Some empty; main_db := None |}, Ok tt))
  /\ (forall d, loadDBFromBdFolder site = Some d ->
      resetDb site None idb b
      = ({| dbInstance := Some d; main_db := Some d |}, Ok tt)).
Proof.
  intros Hr idb. unfold resetDb, loadSqlJs. cbn [dbInstance]. rewrite Hr. split.
  - intros Hn. unfold loadDBFromBdFolder. now rewrite (first_served_none _ _ Hn).
  - intros d ->. reflexivity.
Qed.

End SessionTheorems.

(** ** The operations on examples *)

Module OpsRuns.

Import Str Db Spec DbOps DbImport DbSession OpsSpec Examples OpsExamples.
Import SaveTheorems ReachTheorems DeleteTheorems ImportTheorems IdTheorems
       SessionTheorems.

Local Abbreviation api := WhatwgFragment.api.



(** What [importDb] makes of the file with four rows: one row is
    imported, with [[]] for its tags, and three are skipped. *)
Lemma importDb_of_incoming :
  @importDb api None incoming two_saved = Some (merged, Ok merge_report).
Proof. vm_compute. reflexivity. Qed.

Lemma arrived_last :
  emails (db merged) = (emails (db two_saved) ++ [arrived])%list.
Proof. vm_compute. reflexivity. Qed.

Lemma safe_ids_merged : safe_ids (db (fst (deleteRecords None ["1"] merged))).
Proof.
  intros r H. vm_compute in H. repeat destruct H as [<- | H]; [| |destruct H];
    vm_compute; split; intros K; discriminate K.
Qed.

(** The store after an import that added a row and a deletion. *)
Lemma getAllEmails_on_reachable_witness :
  exists l,
    getAllEmails (db (fst (deleteRecords None ["1"] merged))) = Ok l
    /\ List.length l = 2
    /\ ids_of l = ["3"; "2"].
Proof.
  destruct (@getAllEmails_on_reachable api (fst (deleteRecords None ["1"] merged)))
    as (l & Hl & Hlen & Hids).
  - apply reach_delete.
    apply (@reach_import api None incoming two_saved merged (Ok merge_report)).
    + unfold two_saved. apply reach_save. apply reach_empty.
    + exact importDb_of_incoming.
  - exists l. split; [exact Hl|]. split; [exact Hlen|].
    rewrite (Hids safe_ids_merged). vm_compute. reflexivity.
Defined.

Lemma deleteRecords_then_getAllEmails_witness :
  getAllEmails (db (fst (deleteRecords (Some "QuotaExceededError") ["2"] two_saved)))
  = Ok (without ["2"] listed).
Proof.
  apply deleteRecords_then_getAllEmails.
  - vm_compute. repeat split; intros x H; repeat destruct H as [<- | H];
      try reflexivity; destruct H.
  - intros r H. vm_compute in H. repeat destruct H as [<- | H]; [| |destruct H];
      vm_compute; split; intros K; discriminate K.
  - vm_compute. reflexivity.
  - intros x [<- | []]. vm_compute. auto.
Defined.

Lemma deleteRecords_write_fails_witness :
  deleteRecords (Some "QuotaExceededError") ["2"] two_saved
  = ({| db := db (fst (deleteRecords None ["2"] two_saved)); idb := idb two_saved |},
     Throw "cannot rollback - no transaction is active").
Proof. apply deleteRecords_write_fails. discriminate. Defined.

(** Of the four rows of the file one is imported and three are
    skipped. *)
Lemma importDb_counts_witness :
  modelled incoming = true
  /\ @importDb api None incoming two_saved = Some (merged, Ok merge_report)
  /\ imported merge_report = 1
  /\ imported merge_report + skipped merge_report = List.length (emails incoming)
  /\ row_count merged = row_count two_saved + imported merge_report.
Proof.
  destruct (@importDb_counts api None incoming two_saved eq_refl)
    as (st' & result & n & k & Hi & Hsum & Hrows & Hok & _).
  rewrite importDb_of_incoming in Hi. injection Hi as <- <-.
  destruct (Hok (or_intror eq_refl)) as (report & Hr & Hn & Hk).
  injection Hr as <-. rewrite <- Hn in Hrows. rewrite <- Hn, <- Hk in Hsum.
  split; [reflexivity|]. split; [exact importDb_of_incoming|].
  split; [reflexivity|]. split; assumption.
Defined.

(** The second import of the file, after the one that added a row. *)
Lemma importDb_again_witness :
  @importDb api None incoming two_saved = Some (merged, Ok merge_report)
  /\ row_count merged = S (row_count two_saved)
  /\ exists report,
       @importDb api (Some "QuotaExceededError") incoming merged
       = Some (merged, Ok report)
       /\ imported report = 0
       /\ skipped report = 4.
Proof.
  destruct (@importDb_again api None (Some "QuotaExceededError") incoming two_saved
              eq_refl)
    as (st1 & r1 & report & H1 & H2 & Hi & Hk).
  rewrite importDb_of_incoming in H1. injection H1 as <- <-.
  split; [exact importDb_of_incoming|]. split; [reflexivity|].
  exists report. split; [exact H2|]. split; [exact Hi | exact Hk].
Defined.

(** The new row of the file arrives with [[]] for its tags, which were
    no JSON, and with its link. *)
Lemma importDb_sanitizes_witness :
  malformed (row_etiquetas (nth 1 (emails incoming) arrived))
  /\ emails (db merged) = (emails (db two_saved) ++ [arrived])%list
  /\ row_etiquetas arrived = Some (Json.stringify_strings [])
  /\ holds_array (row_etiquetas arrived) /\ holds_array (row_urls arrived).
Proof.
  destruct (@importDb_sanitizes api None incoming two_saved eq_refl)
    as (st' & result & added & Hi & Hrows & Hadded).
  rewrite importDb_of_incoming in Hi. injection Hi as <- <-.
  rewrite arrived_last in Hrows. apply app_inv_head in Hrows. subst added.
  destruct (Hadded arrived (or_introl eq_refl)) as (He & Hu & _).
  split; [reflexivity|]. split; [exact arrived_last|].
  split; [reflexivity|]. split; assumption.
Defined.

Lemma ids_given_once_witness :
  In saved_anew (emails (db two_saved))
  \/ (forall x, In x (emails (db two_saved)) -> (row_id x < row_id saved_anew)%Z).
Proof.
  apply (@ids_given_once api None None ["2"; "1"] [post_a] two_saved saved_anew).
  - intros x H. vm_compute in H. repeat destruct H as [<- | H];
      try (vm_compute; discriminate); destruct H.
  - vm_compute. auto.
Defined.

Lemma loadSqlJs_prefers_bd_folder_witness :
  loadSqlJs yesterday works (reloaded two_saved)
  = ({| dbInstance := Some damaged; main_db := Some damaged |}, Ok damaged).
Proof.
  apply (loadSqlJs_prefers_bd_folder yesterday works (reloaded two_saved)
           1 "2025-12-01" damaged).
  - reflexivity.
  - reflexivity.
  - reflexivity.
  - intros j dj Hj Hn. destruct j as [|j]; [|lia].
    injection Hn as <-. split; reflexivity.
  - right. split; reflexivity.
Defined.

Lemma resetDb_result_witness :
  resetDb bare_site None works (browser_of two_saved)
  = ({| dbInstance := Some empty; main_db := None |}, Ok tt)
  /\ resetDb yesterday None works (browser_of two_saved)
     = ({| dbInstance := Some damaged; main_db := Some damaged |}, Ok tt).
Proof.
  split.
  - apply (proj1 (resetDb_result bare_site (browser_of two_saved) eq_refl)).
    intros p _. reflexivity.
  - apply (proj2 (resetDb_result yesterday (browser_of two_saved) eq_refl)).
    vm_compute. reflexivity.
Defined.

End OpsRuns.

(** ** The log *)

Module LoggerTheorems.

Import Logger.

Lemma slice_from_last {A} (n : Z) (l : list A) :
  (0 < n)%Z ->
  exists dropped,
    l = (dropped ++ slice_from (- n) l)%list
    /\ Z.of_nat (List.length (slice_from (- n) l))
       = Z.min n (Z.of_nat (List.length l)).
Proof.
  intros Hn. unfold slice_from.
  assert (E : (- n <? 0)%Z = true) by (apply Z.ltb_lt; lia). rewrite E.
  exists (firstn (Z.to_nat (Z.max (Z.of_nat (List.length l) + - n) 0)) l).
  split; [now rewrite firstn_skipn|].
  rewrite length_skipn. lia.
Qed.

Section WithData.

Variable Data : Type.
Variable clone : Data -> Result Data.

(** The log never holds more than [maxLogs] entries: a call of [log]
    that returns has put its entry last, and has dropped the oldest
    entry, and no other, when the log was full. *)
Theorem log_keeps_latest (now : string) (lv : Level) (cat msg : string)
    (d : option Data) (logs logs' : list (LogEntry Data)) :
  (Z.of_nat (List.length logs) <= maxLogs)%Z ->
  log clone now lv cat msg d logs = Ok logs' ->
  (Z.of_nat (List.length logs') <= maxLogs)%Z
  /\ exists entry dropped kept,
       level entry = lv /\ category entry = cat /\ message entry = msg
       /\ timestamp entry = now
       /\ logs = (dropped ++ kept)%list
       /\ logs' = (kept ++ [entry])%list
       /\ (dropped = [] <-> (Z.of_nat (List.length logs) < maxLogs)%Z)
       /\ List.length dropped <= 1.
Proof.
  intros Hlen. unfold log.
  destruct (match d with
            | Some x => bind (clone x) (fun c => Ok (Some c))
            | None => Ok None
            end) as [payload|]; cbn [bind]; [|discriminate].
  set (entry := {| timestamp := now; level := lv; category := cat;
                   message := msg; data := payload |}).
  intros H. injection H as <-.
  rewrite List.length_app. cbn [List.length].
  destruct (Z.of_nat (List.length logs + 1) >? maxLogs)%Z eqn:E.
  - apply Z.gtb_lt in E.
    assert (Hfull : Z.of_nat (List.length logs) = maxLogs) by lia.
    unfold slice_from. rewrite List.length_app. cbn [List.length].
    change (-10000 <? 0)%Z with true. cbv iota.
    replace (Z.to_nat (Z.max (Z.of_nat (List.length logs + 1) + -10000) 0))
      with 1 by (unfold maxLogs in *; lia).
    destruct logs as [|x logs]; [discriminate Hfull|].
    cbn [app skipn]. split.
    + rewrite List.length_app. cbn [List.length] in *. lia.
    + exists entry, [x], logs.
      repeat split; try reflexivity; try discriminate;
        try (cbn [List.length]; lia).
      intros Hlt. cbn [List.length] in *. lia.
  - assert (Hlt : (Z.of_nat (List.length logs) < maxLogs)%Z).
    { destruct (Z.gtb_spec (Z.of_nat (List.length logs + 1)) maxLogs);
        [discriminate | lia]. }
    split.
    + rewrite List.length_app. cbn [List.length]. lia.
    + exists entry, [], logs. repeat split; try reflexivity; auto.
Qed.

(** [getRecentErrors(count)] returns the last [count] entries of level
    [error] only for a positive [count]: for [0] it returns all of
    them, and for a negative [count] all but the first [-count]. *)
Theorem getRecentErrors_by_count (count : Z) (logs : list (LogEntry Data)) :
  let errors := filter (@is_error Data) logs in
  ((0 < count)%Z ->
   exists earlier,
     errors = (earlier ++ getRecentErrors count logs)%list
     /\ Z.of_nat (List.length (getRecentErrors count logs))
        = Z.min count (Z.of_nat (getErrorCount logs)))
  /\ (count = 0%Z -> getRecentErrors count logs = errors)
  /\ ((count < 0)%Z ->
      getRecentErrors count logs = skipn (Z.to_nat (- count)) errors).
Proof.
  intros errors. unfold getRecentErrors, getErrorCount. fold errors.
  split; [|split].
  - intros H. now apply slice_from_last.
  - intros ->. unfold slice_from. change (- 0 <? 0)%Z with false. cbv iota.
    rewrite Z.min_l by lia. reflexivity.
  - intros H. unfold slice_from.
    assert (E : (- count <? 0)%Z = false) by (apply Z.ltb_ge; lia). rewrite E.
    destruct (Z.le_ge_cases (- count) (Z.of_nat (List.length errors))) as [Hle | Hge].
    + now rewrite Z.min_l.
    + rewrite Z.min_r by assumption. rewrite Nat2Z.id.
      rewrite skipn_all. symmetry. apply skipn_all2. lia.
Qed.

End WithData.

End LoggerTheorems.

(** ** The API key *)

Module KeyTheorems.

Import Str StrFacts Gemini GeminiKey App PipelineSpec.

(** A key that [validateApiKeyConfiguration] accepts is never refused
    by [initGemini]: both analyses return, and an item of which the
    extraction returns is not turned into an error record. *)
Theorem validated_key_is_accepted (apiKey : option string) :
  validateApiKeyConfiguration apiKey = true ->
  (forall service emailData,
     exists run, analyzeEmailContent apiKey service emailData = Ok run)
  /\ (forall service now url,
        exists run, analyzeUrlContent apiKey service now url = Ok run)
  /\ (forall (api : URLApi) trim env i file parsedRaw email,
        parsed (env i) = Ok parsedRaw ->
        outcome trim apiKey env i file <> ItemError email).
Proof.
  intros H.
  assert (Hi : initGemini apiKey = Ok tt).
  { unfold validateApiKeyConfiguration in H. unfold initGemini.
    destruct apiKey as [k|]; [|discriminate].
    destruct (is_empty k); [discriminate | reflexivity]. }
  split; [|split].
  - intros service emailData. unfold analyzeEmailContent. rewrite Hi.
    cbn [bind]. eauto.
  - intros service now url. unfold analyzeUrlContent. rewrite Hi.
    cbn [bind]. eauto.
  - intros api trim env i file parsedRaw email Hp. unfold outcome.
    rewrite Hp. unfold analyzeEmailContent. rewrite Hi. cbn [bind].
    destruct (String.eqb _ "Error Cuota API"); [discriminate|].
    destruct (String.eqb _ "Error en Análisis"); discriminate.
Qed.

End KeyTheorems.

(** ** Files dropped on the queue *)

Module QueueTheorems.

Import Str StrFacts Normalizer Db Spec DbFacts DbTheorems.
Import DbOps OpsSpec SaveFacts SaveTheorems.
Import App PipelineSpec PipelineFacts PipelineTheorems Handlers.

Section WithPlatform.

Context {api : URLApi}.
Variable trim : string -> string.
Variable apiKey : option string.
Variable env : nat -> ItemEnv.

Lemma known_saveToDb (storage : option string) (batch : list AnalyzedEmail)
    (st : Store) (e : AnalyzedEmail) :
  known (build_index (db st)) e ->
  known (build_index (db (fst (saveToDb storage batch st)))) e.
Proof.
  intros H. rewrite index_saveToDb.
  eapply known_mono; [|exact H].
  apply (index_le_save_each batch 0 (start_saving (db st))).
Qed.

(** A record handed to the store in one of the calls is known to the
    table after all of them. *)
Lemma known_append_all (l : list (nat * AnalyzedEmail)) (st : Store)
    (i : nat) (e : AnalyzedEmail) :
  In (i, e) l -> fileName e <> EmptyString ->
  known (build_index (db (append_all env l st))) e.
Proof.
  unfold append_all. revert st.
  induction l as [|[j x] l IH]; intros st Hin Hn; [destruct Hin|].
  cbn [fold_left fst snd]. destruct Hin as [Heq | Hin].
  - injection Heq as -> ->.
    assert (K : known (build_index (db (fst (saveToDb (storage (env i)) [e] st)))) e).
    { rewrite index_saveToDb.
      apply known_after_save_each; [now left | assumption]. }
    clear IH. revert K. generalize (fst (saveToDb (storage (env i)) [e] st)).
    induction l as [|[j x] l IHl]; intros s K; [exact K|].
    cbn [fold_left fst snd]. apply IHl. now apply known_saveToDb.
  - now apply IH.
Qed.

Lemma expected_has (queue : list File) (k i : nat) (file : File)
    (email : AnalyzedEmail) :
  nth_error queue i = Some file ->
  record_of trim apiKey env (k + i) file = Some email ->
  In (k + i, email) (expected trim apiKey env k queue).
Proof.
  revert k i. induction queue as [|f queue IH]; intros k i Hn Hr.
  - destruct i; discriminate.
  - cbn [expected]. destruct i as [|i].
    + injection Hn as ->. rewrite Nat.add_0_r in *. rewrite Hr. now left.
    + cbn [nth_error] in Hn.
      replace (k + S i) with (S k + i) in * by lia.
      pose proof (IH (S k) i Hn Hr) as H.
      destruct (record_of trim apiKey env k f); [now right | exact H].
Qed.


End WithPlatform.

End QueueTheorems.

(** ** Filters and selection *)

Module ViewTheorems.

Import Str StrFacts Db DbFacts Handlers ViewSpec.

Lemma In_remove (x y : string) (l : list string) :
  In y (filter (fun t => negb (String.eqb t x)) l) <-> In y l /\ y <> x.
Proof.
  rewrite filter_In. split; intros [H1 H2]; split; auto.
  - intros ->. now rewrite String.eqb_refl in H2.
  - apply negb_true_iff. now apply String.eqb_neq.
Qed.

Lemma NoDup_filter_list {A} (p : A -> bool) (l : list A) :
  NoDup l -> NoDup (filter p l).
Proof.
  induction 1 as [|x l Hx Hl IH]; cbn [filter]; [constructor|].
  destruct (p x); [|exact IH]. constructor; [|exact IH].
  intros H. apply filter_In in H as [H _]. contradiction.
Qed.

Lemma toggle_flips (x : string) (l : list string) :
  (In x (toggle x l) <-> ~ In x l)
  /\ (forall y, y <> x -> (In y (toggle x l) <-> In y l))
  /\ (NoDup l -> NoDup (toggle x l)).
Proof.
  unfold toggle. destruct (has l x) eqn:E.
  - apply has_In in E. split; [|split].
    + rewrite In_remove. tauto.
    + intros y Hy. rewrite In_remove. tauto.
    + apply NoDup_filter_list.
  - apply has_false in E. split; [|split].
    + rewrite in_app_iff. simpl. tauto.
    + intros y Hy. rewrite in_app_iff. simpl. split; [|tauto].
      intros [H | [H | []]]; [assumption | congruence].
    + intros Hn. apply NoDup_app; [assumption | repeat constructor; intros [] |].
      intros y Hy [<- | []]. contradiction.
Qed.

(** [toggleTopic] and [toggleTag] put the value into the filter when it
    is not there and take it out when it is, leave every other value
    and the rest of the view alone, and never list a value twice. *)
Theorem toggle_filters (x : string) (v : View) :
  let t := toggleTopic x v in
  let g := toggleTag x v in
  ((In x (filterTopics t) <-> ~ In x (filterTopics v))
   /\ (forall y, y <> x -> (In y (filterTopics t) <-> In y (filterTopics v)))
   /\ (NoDup (filterTopics v) -> NoDup (filterTopics t))
   /\ filterTags t = filterTags v /\ selectedIds t = selectedIds v)
  /\ ((In x (filterTags g) <-> ~ In x (filterTags v))
      /\ (forall y, y <> x -> (In y (filterTags g) <-> In y (filterTags v)))
      /\ (NoDup (filterTags v) -> NoDup (filterTags g))
      /\ filterTopics g = filterTopics v /\ selectedIds g = selectedIds v).
Proof.
  cbn [toggleTopic toggleTag filterTopics filterTags selectedIds].
  destruct (toggle_flips x (filterTopics v)) as (A1 & A2 & A3).
  destruct (toggle_flips x (filterTags v)) as (B1 & B2 & B3).
  repeat split; auto; try apply A1; try apply B1; try apply A2; try apply B2; auto.
Qed.

Lemma In_set_of (x : string) (l : list string) : In x (set_of l) <-> In x l.
Proof.
  induction l as [|y l IH]; [reflexivity|].
  cbn [set_of]. simpl. rewrite In_remove, IH.
  destruct (String.eqb_spec x y) as [-> | Hn]; [tauto|].
  split; [tauto|]. intros [-> | H]; [contradiction | auto].
Qed.

Lemma NoDup_set_of (l : list string) : NoDup (set_of l).
Proof.
  induction l as [|y l IH]; [constructor|].
  cbn [set_of]. constructor.
  - rewrite In_remove. tauto.
  - now apply NoDup_filter_list.
Qed.

Lemma set_of_NoDup (l : list string) : NoDup l -> set_of l = l.
Proof.
  induction 1 as [|x l Hx Hl IH]; [reflexivity|].
  cbn [set_of]. rewrite IH. f_equal.
  clear IH Hl. induction l as [|y l IH]; [reflexivity|].
  cbn [filter]. destruct (String.eqb_spec y x) as [-> | Hn].
  - exfalso. apply Hx. now left.
  - cbn [negb]. f_equal. apply IH. intros H. apply Hx. now right.
Qed.

(** The test of [toggleSelectAll] compares two sizes.  While the
    selection holds only ids of records shown, and the records shown
    have different ids, this decides whether every record shown is
    selected: if so the selection is emptied, and otherwise it becomes
    the ids of the records shown. *)
Theorem toggleSelectAll_by_size (filteredEmails : list AnalyzedEmail) (v : View) :
  NoDup (map id filteredEmails) ->
  selection_ok filteredEmails v ->
  (all_selected filteredEmails v ->
   selectedIds (toggleSelectAll filteredEmails v) = [])
  /\ (~ all_selected filteredEmails v ->
      selectedIds (toggleSelectAll filteredEmails v) = map id filteredEmails).
Proof.
  intros Hids [Hsel Hincl]. unfold all_selected, toggleSelectAll.
  cbn [selectedIds]. rewrite <- (length_map id filteredEmails).
  destruct (Nat.eqb_spec (List.length (selectedIds v))
                         (List.length (map id filteredEmails))) as [E | E].
  - split; [reflexivity|]. intros Hn. exfalso. apply Hn.
    apply (NoDup_length_incl Hsel); [lia | assumption].
  - split.
    + intros Hall. exfalso. apply E.
      pose proof (NoDup_incl_length Hids Hall).
      pose proof (NoDup_incl_length Hsel Hincl). lia.
    + intros _. now apply set_of_NoDup.
Qed.

(** The selection stays a set of ids of records shown: the effect
    that follows a change of the records shown makes it one, and
    [toggleSelectId] for a record shown and [toggleSelectAll] keep it
    one. *)
Theorem selection_stays_ok (filteredEmails : list AnalyzedEmail) (v : View) :
  (NoDup (selectedIds v) ->
   selection_ok filteredEmails (keep_visible filteredEmails v))
  /\ (selection_ok filteredEmails v ->
      (forall i, In i (map id filteredEmails) ->
         selection_ok filteredEmails (toggleSelectId i v))
      /\ selection_ok filteredEmails (toggleSelectAll filteredEmails v)).
Proof.
  unfold selection_ok. split; [|intros [Hn Hi]; split].
  - intros Hn. cbn [keep_visible selectedIds]. split.
    + now apply NoDup_filter_list.
    + intros x Hx. apply filter_In in Hx as [_ Hx].
      apply has_In in Hx. now apply (proj1 (In_set_of _ _)) in Hx.
  - intros i Hshown. cbn [toggleSelectId selectedIds].
    destruct (has (selectedIds v) i) eqn:E.
    + split; [now apply NoDup_filter_list|].
      intros x Hx. apply In_remove in Hx as [Hx _]. now apply Hi.
    + apply has_false in E. split.
      * apply NoDup_app; [assumption | repeat constructor; intros [] |].
        intros y Hy [<- | []]. contradiction.
      * intros x Hx. apply in_app_or in Hx as [Hx | [<- | []]]; auto.
  - cbn [toggleSelectAll selectedIds].
    destruct (List.length (selectedIds v) =? List.length filteredEmails)%nat.
    + split; [constructor | intros x []].
    + split; [apply NoDup_set_of|]. intros x Hx.
      now apply (proj1 (In_set_of _ _)) in Hx.
Qed.

End ViewTheorems.

(** ** The handlers on examples *)

Module UiRuns.

Import Str Db App PipelineSpec Examples Handlers ViewSpec UiExamples.
Import Logger LoggerTheorems KeyTheorems QueueTheorems ViewTheorems.

Local Abbreviation api := WhatwgFragment.api.

Lemma log_keeps_latest_witness :
  (Z.of_nat (List.length (@nil (LogEntry unit))) <= maxLogs)%Z
  /\ exists entry dropped kept,
       level entry = warn /\ category entry = "Parser"
       /\ message entry = "Cuerpo truncado"
       /\ timestamp entry = "2025-11-29T07:50:00.000Z"
       /\ [] = (dropped ++ kept)%list
       /\ [ {| timestamp := "2025-11-29T07:50:00.000Z"; level := warn;
               category := "Parser"; message := "Cuerpo truncado";
               data := Some tt |} ] = (kept ++ [entry])%list
       /\ (dropped = [] <-> (Z.of_nat (List.length (@nil (LogEntry unit))) < maxLogs)%Z)
       /\ List.length dropped <= 1.
Proof.
  assert (H : (Z.of_nat (List.length (@nil (LogEntry unit))) <= maxLogs)%Z)
    by (unfold maxLogs; simpl; lia).
  split; [exact H|].
  exact (proj2 (log_keeps_latest unit (fun d => Ok d)
                  "2025-11-29T07:50:00.000Z" warn "Parser" "Cuerpo truncado"
                  (Some tt) [] _ H eq_refl)).
Defined.

Lemma validated_key_is_accepted_witness :
  exists run,
    Gemini.analyzeEmailContent (Some "key") (fun _ => Gemini.Responded answer) mail
    = Ok run.
Proof.
  exact (proj1 (validated_key_is_accepted (Some "key") eq_refl)
               (fun _ => Gemini.Responded answer) mail).
Defined.

Lemma unreadable_undisturbed (j : nat) :
  j < List.length two_files -> undisturbed unreadable j.
Proof. intros _. split; reflexivity. Qed.

Lemma unreadable_no_quota (j : nat) :
  j < List.length two_files -> ~ quota_at (Some "key") unreadable j.
Proof. intros _ (a & H & _). discriminate H. Qed.


Lemma toggleSelectAll_by_size_witness :
  selectedIds (toggleSelectAll shown one_selected) = map id shown.
Proof.
  apply (proj2 (toggleSelectAll_by_size shown one_selected
                  ltac:(repeat constructor; simpl; intuition discriminate)
                  ltac:(split; [repeat constructor; simpl; tauto
                               | intros x [<- | []]; simpl; auto]))).
  intros H. specialize (H "2" (or_introl eq_refl)).
  destruct H as [H | []]. discriminate H.
Defined.

End UiRuns.

(** ** What a batch saves, however it ends *)

Module BatchFacts.

Import Str StrFacts Db Spec DbFacts DbTheorems DbOps OpsSpec SaveFacts SaveTheorems.
Import App PipelineSpec PipelineFacts BatchSpec QueueTheorems.

Lemma same_saves_refl (b : Batch) : same_saves b b.
Proof. now repeat split. Qed.

Lemma same_saves_trans (a b c : Batch) :
  same_saves a b -> same_saves b c -> same_saves a c.
Proof.
  intros (H1 & H2 & H3) (K1 & K2 & K3). repeat split; congruence.
Qed.

Lemma same_saves_on_app (f : AppState -> AppState) (b : Batch) :
  (forall a, store (f a) = store a) -> same_saves b (on_app f b).
Proof. intros H. repeat split. cbn. apply H. Qed.

Lemma same_saves_status_to (s : ProcessingStatus) (b : Batch) :
  same_saves b (status_to s b).
Proof.
  repeat split. unfold status_to, log. cbn [trace on_app].
  rewrite appended_app. cbn. now rewrite app_nil_r.
Qed.

Lemma same_saves_push_error (m : string) (b : Batch) :
  same_saves b (push_error m b).
Proof. now repeat split. Qed.

Ltac frame :=
  repeat first
    [ apply same_saves_refl
    | eapply same_saves_trans; [|apply same_saves_status_to]
    | eapply same_saves_trans; [|apply same_saves_push_error]
    | eapply same_saves_trans; [|apply same_saves_on_app; intros; reflexivity] ].

Section WithPlatform.

Context {api : URLApi}.
Variable trim : string -> string.
Variable apiKey : option string.
Variable env : nat -> ItemEnv.
Variable status0 : ProcessingStatus.
Variable files0 : list File.

Local Abbreviation body := (body trim apiKey env status0 files0).
Local Abbreviation work := (work trim apiKey env files0).
Local Abbreviation loop := (loop trim apiKey env status0 files0).
Local Abbreviation saved := (saved_by_items env).

Lemma same_saves_log (ev : Event) (b : Batch) :
  appended [ev] = [] -> same_saves b (log ev b).
Proof.
  intros H. repeat split. unfold log. cbn [trace].
  now rewrite appended_app, H, app_nil_r.
Qed.

Lemma same_saves_press_stop (pressed : bool) (b : Batch) :
  same_saves b (press_stop pressed b).
Proof. unfold press_stop. destruct pressed; frame. Qed.

Lemma same_saves_pause (i : nat) (b : Batch) : same_saves b (pause env i b).
Proof.
  unfold pause. destruct i as [|i]; [frame|].
  destruct (stop_during_pause (env (S i))) as [k|].
  - destruct (k <? 15)%nat.
    + eapply same_saves_trans; [|apply same_saves_log; reflexivity]. frame.
    + apply same_saves_log. reflexivity.
  - apply same_saves_log. reflexivity.
Qed.

Lemma same_saves_announce (i : nat) (file : File) (b : Batch) :
  same_saves b (announce status0 files0 i file b).
Proof. unfold announce. destruct status0; frame. Qed.

Lemma same_saves_end_of_body (i : nat) (b : Batch) :
  same_saves b (end_of_body files0 i b).
Proof. unfold end_of_body. frame. Qed.

Lemma same_saves_after_loop (b : Batch) : same_saves b (after_loop status0 b).
Proof.
  unfold after_loop.
  destruct (processingErrors b) as [|m ms] eqn:Ep; destruct status0;
    cbn [on_app app isProcessingCancelled setErrorMsg];
    destruct (isProcessingCancelled (app b));
    cbn [status_to on_app log processingErrors]; try rewrite Ep; frame.
Qed.

Lemma same_saves_critical (m : string) (b : Batch) :
  same_saves b (critical m b).
Proof. unfold critical. frame. Qed.

(** A property of the batch that the steps without a save keep, that
    the save of one record keeps and that the save of all of [results]
    keeps, holds when the batch ends, however it ends. *)
Section Invariant.

Variable kept : Batch -> Prop.

Hypothesis kept_same : forall b b', same_saves b b' -> kept b -> kept b'.

Hypothesis kept_save_now :
  forall i e b, kept b -> kept (save_now env i e (push_result e b)).

Hypothesis kept_save_all :
  forall i b, kept b ->
    kept (on_app (setStore (fst (saveToDb (storage (env i)) (results b)
                                   (store (app b))))) b).

Lemma kept_item_failed (i : nat) (file : File) (m : string) (b : Batch) :
  kept b -> kept (item_failed env i file m b).
Proof.
  intros H. unfold item_failed.
  eapply kept_same; [apply same_saves_on_app; intros; reflexivity|].
  apply kept_save_now.
  eapply kept_same; [apply same_saves_push_error | exact H].
Qed.

Lemma kept_work (i : nat) (file : File) (b : Batch) :
  kept b -> kept (batch_of (work i file b)).
Proof.
  intros H. unfold App.work.
  match goal with
  | |- context [press_stop ?p ?x] =>
      assert (H1 : kept (press_stop p x))
  end.
  { eapply kept_same; [|exact H].
    eapply same_saves_trans; [|apply same_saves_press_stop].
    eapply same_saves_trans; [|apply same_saves_log; reflexivity]. frame. }
  revert H1. generalize (press_stop (stop_during_work (env i))
    (log (Extracted i)
       (on_app (setProgress {| current := i; total := List.length files0;
                               currentFile := Some (name file) |})
          (status_to PARSING b)))).
  intros b1 H1. cbv zeta.
  destruct (parsed (env i)) as [parsedRaw|m].
  - match goal with
    | |- context [log (Enriched i) ?x] =>
        assert (H2 : kept (log (Enriched i) x))
    end.
    { eapply kept_same; [|exact H1].
      eapply same_saves_trans; [|apply same_saves_log; reflexivity]. frame. }
    revert H2. generalize (log (Enriched i)
      (on_app (setProgress {| current := i; total := List.length files0;
                              currentFile := Some (name file) |})
         (status_to ANALYZING b1))).
    intros b2 H2.
    destruct (Gemini.analyzeEmailContent apiKey (service (env i)) parsedRaw)
      as [run|m].
    + destruct (String.eqb _ "Error Cuota API").
      * cbn [batch_of]. eapply kept_same; [|exact H2]. frame.
      * destruct (String.eqb _ "Error en Análisis").
        -- cbn [batch_of]. eapply kept_same; [|exact H2]. frame.
        -- cbn [batch_of].
           eapply kept_same; [apply same_saves_end_of_body|].
           now apply kept_save_now.
    + cbn [batch_of].
      eapply kept_same; [apply same_saves_end_of_body|].
      now apply kept_item_failed.
  - cbn [batch_of].
    eapply kept_same; [apply same_saves_end_of_body|].
    now apply kept_item_failed.
Qed.

Lemma kept_body (i : nat) (file : File) (b : Batch) :
  kept b -> kept (batch_of (body i file b)).
Proof.
  intros H. unfold App.body.
  assert (H1 : kept (pause env i (announce status0 files0 i file b))).
  { eapply kept_same; [|exact H].
    eapply same_saves_trans; [apply same_saves_announce | apply same_saves_pause]. }
  destruct ((0 <? i)%nat && _); [exact H1|].
  now apply kept_work.
Qed.

Lemma kept_cancelled_exit (i : nat) (b : Batch) :
  kept b -> kept (fst (cancelled_exit env i b)).
Proof.
  intros H. unfold cancelled_exit.
  match goal with
  | |- context [status_to IDLE ?x] => assert (H1 : kept (status_to IDLE x))
  end.
  { eapply kept_same; [|exact H]. frame. }
  revert H1. generalize (status_to IDLE
    (on_app (setErrorMsg
       (Some ("Procesamiento cancelado. "
              ++ of_nat (List.length (results b))
              ++ " archivo(s) procesado(s) antes de la cancelación."))) b)).
  intros b1 H1. cbv zeta.
  destruct (results b1) as [|r rs] eqn:Er.
  - cbn [fst]. eapply kept_same; [|exact H1]. frame.
  - assert (H2 : kept (status_to GENERATING_DB b1)).
    { eapply kept_same; [|exact H1]. frame. }
    revert H2. generalize (status_to GENERATING_DB b1). intros b2 H2.
    pose proof (kept_save_all i b2 H2) as H3.
    destruct (saveToDb (storage (env i)) (results b2) (store (app b2)))
      as [st r0].
    cbn [fst] in H3.
    destruct r0 as [u|m]; [|exact H3].
    destruct (getAllEmails (db st)); [|exact H3].
    cbn [fst]. eapply kept_same; [|exact H3]. frame.
Qed.

Lemma kept_loop (rest : list File) :
  forall (i : nat) (b : Batch), kept b -> kept (fst (loop i rest b)).
Proof.
  induction rest as [|file rest IH]; intros i b H; [exact H|].
  cbn [App.loop]. destruct (isProcessingCancelled (app b)).
  - now apply kept_cancelled_exit.
  - pose proof (kept_body i file b H) as Hb.
    destruct (body i file b) as [b'|b']; cbn [batch_of] in Hb.
    + now apply IH.
    + exact Hb.
Qed.

(** The batch of a call that gets past the two checks at its start. *)
Lemma kept_run (a : AppState) :
  kept (start files0 a) ->
  kept (match loop 0 files0 (start files0 a) with
        | (b, RanOut) | (b, Broke) => after_loop status0 b
        | (b, Returned) => b
        | (b, Thrown m) => critical m b
        end).
Proof.
  intros H. pose proof (kept_loop files0 0 _ H) as K.
  destruct (loop 0 files0 (start files0 a)) as [b exit]. cbn [fst] in K.
  destruct exit.
  - eapply kept_same; [apply same_saves_after_loop | exact K].
  - eapply kept_same; [apply same_saves_after_loop | exact K].
  - exact K.
  - eapply kept_same; [apply same_saves_critical | exact K].
Qed.

End Invariant.

Lemma saved_same (st0 : Store) (b b' : Batch) :
  same_saves b b' -> saved st0 b -> saved st0 b'.
Proof.
  intros (H1 & H2 & H3) [K1 K2]. unfold saved_by_items.
  rewrite H1, H2, H3. now split.
Qed.

(** The record is put into [results] and saved in a call of its own. *)
Lemma saved_save_now (st0 : Store) (i : nat) (e : AnalyzedEmail) (b : Batch) :
  saved st0 b -> saved st0 (save_now env i e (push_result e b)).
Proof.
  intros [K1 K2].
  destruct (save_now_effect env i e (push_result e b))
    as (Hs & Ht & _ & Hr & _).
  cbn [push_result app trace results] in Hs, Ht, Hr.
  unfold saved_by_items. rewrite Hs, Ht, Hr. split.
  - rewrite appended_app. cbn [appended]. unfold append_all.
    rewrite fold_left_app. cbn [fold_left fst snd].
    fold (append_all env (appended (trace b)) st0).
    rewrite !db_saveToDb. now rewrite K1.
  - intros x Hx. apply in_app_or in Hx as [Hx | [<- | []]].
    + destruct (K2 x Hx) as [Hn | Hk]; [now left|].
      right. now apply known_saveToDb.
    + destruct (is_empty (fileName e)) eqn:E.
      * left. now apply is_empty_true.
      * right. rewrite index_saveToDb.
        apply known_after_save_each; [now left | now apply is_empty_false].
Qed.

(** The call of [saveToDb] with all of [results] adds no row. *)
Lemma saved_save_all (st0 : Store) (i : nat) (b : Batch) :
  saved st0 b ->
  saved st0 (on_app (setStore (fst (saveToDb (storage (env i)) (results b)
                                      (store (app b))))) b).
Proof.
  intros [K1 K2].
  assert (Hdb : db (fst (saveToDb (storage (env i)) (results b) (store (app b))))
                = db (store (app b))).
  { rewrite db_saveToDb.
    now destruct (save_each_known (results b) 0
                    (start_saving (db (store (app b)))) K2) as (Hd & _). }
  unfold saved_by_items. cbn [on_app app trace results setStore store].
  rewrite Hdb. now split.
Qed.

Lemma saved_start (a : AppState) : saved (store a) (start files0 a).
Proof.
  unfold saved_by_items. split; [reflexivity|]. intros e [].
Qed.

(** **** The store stays one the service has made *)

Lemma reachable_same (b b' : Batch) :
  same_saves b b' -> reachable (store (app b)) -> reachable (store (app b')).
Proof. intros (H & _). now rewrite H. Qed.

Lemma reachable_save_now (i : nat) (e : AnalyzedEmail) (b : Batch) :
  reachable (store (app b)) ->
  reachable (store (app (save_now env i e (push_result e b)))).
Proof.
  intros H. destruct (save_now_effect env i e (push_result e b)) as (Hs & _).
  rewrite Hs. cbn [push_result app]. now apply reach_save.
Qed.

Lemma reachable_save_all (i : nat) (b : Batch) :
  reachable (store (app b)) ->
  reachable (store (app (on_app (setStore
    (fst (saveToDb (storage (env i)) (results b) (store (app b))))) b))).
Proof. intros H. cbn [on_app app setStore store]. now apply reach_save. Qed.

End WithPlatform.

End BatchFacts.

Module BatchTheorems.

Import Str StrFacts Db Spec DbFacts DbTheorems DbOps OpsSpec SaveFacts SaveTheorems.
Import App PipelineSpec PipelineFacts BatchSpec BatchFacts.

Section WithPlatform.

Context {api : URLApi}.
Variable trim : string -> string.
Variable apiKey : option string.
Variable env : nat -> ItemEnv.


(** A batch leaves a store of the service as one: if the store in which
    [processFiles] starts was reached from the empty store by calls of
    saveToDb, deleteRecords and importDb, so is the store in which it
    ends, however the batch ends. *)
Theorem processFiles_keeps_reachable (a : AppState) :
  reachable (store a) ->
  reachable (store (app (processFiles trim apiKey env a))).
Proof.
  intros H. unfold processFiles, run.
  destruct (files a) as [|f fs] eqn:Ef; [exact H|].
  destruct (negb (isApiKeyValid a)); [exact H|].
  apply (kept_run trim apiKey env (app_status a) (f :: fs)
           (fun b => reachable (store (app b)))
           reachable_same (reachable_save_now env) (reachable_save_all env) a).
  exact H.
Qed.

End WithPlatform.

End BatchTheorems.

Module BatchRuns.

Import Db OpsSpec App Examples BatchTheorems.

(** The batch of two files of which the first fails and the second is
    saved, started on a fresh installation. *)
Lemma processFiles_keeps_reachable_witness :
  @reachable WhatwgFragment.api
    (store (app (@processFiles WhatwgFragment.api no_trim (Some "key")
                   first_fails (fresh two_files IDLE)))).
Proof.
  apply (@processFiles_keeps_reachable WhatwgFragment.api).
  apply reach_empty.
Defined.

End BatchRuns.

(* ================================================================== *)
(** ** The parser *)
(* ================================================================== *)

Module ParserFacts.

Import Str Parser ParserSpec.

Lemma code_byte (n : N) : (n < 256)%N -> code (Json.byte n) = N.to_nat n.
Proof.
  intros H. unfold code, Json.byte, nat_of_ascii.
  rewrite N_ascii_embedding by exact H. reflexivity.
Qed.

Lemma continuation_byte (y : N) :
  (y < 64)%N -> is_continuation (Json.byte (128 + y)) = true.
Proof.
  intros H. unfold is_continuation. rewrite code_byte by lia.
  apply andb_true_iff. split; [apply Nat.leb_le | apply Nat.ltb_lt]; lia.
Qed.

Lemma base64_not_continuation (c : ascii) :
  is_continuation c = true -> is_base64 c = false.
Proof.
  destruct c as [[] [] [] [] [] [] [] []]; vm_compute; congruence.
Qed.

Lemma base64_not_leading (c : ascii) :
  (240 <=? code c)%nat = true -> is_base64 c = false.
Proof.
  destruct c as [[] [] [] [] [] [] [] []]; vm_compute; congruence.
Qed.

(** The high surrogate is written in three bytes: [ED] and two
    continuation bytes. *)
Lemma high_surrogate_shape (a b c d : ascii) :
  exists y z,
    high_surrogate a b c d
    = String (Json.byte 237)
        (String (Json.byte (128 + y)) (String (Json.byte (128 + z)) EmptyString))
    /\ (y < 64)%N /\ (z < 64)%N.
Proof.
  unfold high_surrogate.
  set (cp := ((((N_of_ascii a mod 8) * 64 + N_of_ascii b mod 64) * 64
               + N_of_ascii c mod 64) * 64 + N_of_ascii d mod 64)%N).
  assert (Hcp : (cp < 2097152)%N).
  { unfold cp.
    pose proof (N.mod_lt (N_of_ascii a) 8 ltac:(discriminate)).
    pose proof (N.mod_lt (N_of_ascii b) 64 ltac:(discriminate)).
    pose proof (N.mod_lt (N_of_ascii c) 64 ltac:(discriminate)).
    pose proof (N.mod_lt (N_of_ascii d) 64 ltac:(discriminate)).
    lia. }
  set (x := (55296 + (cp - 65536) / 1024)%N).
  assert (Hx : (55296 <= x < 57344)%N).
  { assert (Hq : ((cp - 65536) / 1024 < 2048)%N)
      by (apply N.Div0.div_lt_upper_bound; lia).
    unfold x. generalize dependent ((cp - 65536) / 1024)%N. intros q Hq. lia. }
  unfold Json.utf8.
  replace (x <? 128)%N with false by (symmetry; apply N.ltb_ge; lia).
  replace (x <? 2048)%N with false by (symmetry; apply N.ltb_ge; lia).
  replace (x <? 65536)%N with true by (symmetry; apply N.ltb_lt; lia).
  assert (H13 : (x / 4096 = 13)%N).
  { symmetry. apply (N.div_unique x 4096 13 (x - 53248)); lia. }
  rewrite H13.
  exists ((x / 64) mod 64)%N, (x mod 64)%N. split; [reflexivity|].
  split; apply N.mod_lt; discriminate.
Qed.

Lemma length16_app (a b : string) :
  length16 (a ++ b) = (length16 a + length16 b)%N.
Proof.
  induction a as [|c a IH]; cbn [append length16]; [reflexivity|].
  rewrite IH. lia.
Qed.

Lemma length16_high_surrogate (a b c d : ascii) :
  length16 (high_surrogate a b c d) = 1%N.
Proof.
  destruct (high_surrogate_shape a b c d) as (y & z & E & Hy & Hz).
  rewrite E. cbn [length16]. unfold units_of at 2 3.
  rewrite !continuation_byte by assumption. reflexivity.
Qed.

Lemma length16_substring16 (s : string) :
  forall n, (length16 (substring16 n s) <= n)%N.
Proof.
  induction s as [|c s IH]; intros n; cbn [substring16 length16]; [lia|].
  destruct (is_continuation c) eqn:Ec.
  - cbn [length16]. unfold units_of. rewrite Ec. specialize (IH n). lia.
  - destruct (N.eqb_spec n 0); [cbn; lia|].
    destruct (240 <=? code c)%nat eqn:E4.
    + destruct (N.eqb_spec n 1).
      * destruct s as [|b1 [|b2 [|b3 r]]]; try (cbn; lia).
        rewrite length16_high_surrogate. lia.
      * cbn [length16]. unfold units_of. rewrite Ec, E4.
        specialize (IH (n - 2)%N). lia.
    + cbn [length16]. unfold units_of. rewrite Ec, E4.
      specialize (IH (n - 1)%N). lia.
Qed.

Lemma length16_truncated (s : string) : (length16 (truncated s) <= 60015)%N.
Proof.
  unfold truncated. destruct (N.ltb_spec 60000 (length16 s)) as [H|H].
  - rewrite length16_app.
    pose proof (length16_substring16 s 60000).
    change (length16 "... [Truncated]") with 15%N. lia.
  - lia.
Qed.

(** **** Runs *)

Lemma run_cons (c : ascii) (s : string) :
  run (String c s) = if is_base64 c then S (run s) else 0.
Proof.
  unfold run. cbn [span]. destruct (is_base64 c); [|reflexivity].
  destruct (span is_base64 s). reflexivity.
Qed.

Lemma run_app (s t : string) : run t = 0 -> run (s ++ t) = run s.
Proof.
  intros Ht. induction s as [|c s IH]; cbn [append]; [exact Ht|].
  rewrite !run_cons, IH. reflexivity.
Qed.

Lemma long_run_app (s t : string) :
  run t = 0 -> long_run (s ++ t) = long_run s || long_run t.
Proof.
  intros Ht. induction s as [|c s IH]; [reflexivity|].
  change (String c s ++ t) with (String c (s ++ t)).
  cbn [long_run]. rewrite IH.
  change (String c (s ++ t)) with (String c s ++ t).
  rewrite (run_app (String c s) t Ht). apply orb_assoc.
Qed.

Lemma run_high_surrogate (a b c d : ascii) (t : string) :
  run (high_surrogate a b c d) = 0 /\ long_run (high_surrogate a b c d) = false.
Proof.
  destruct (high_surrogate_shape a b c d) as (y & z & E & Hy & Hz).
  rewrite E. cbn [long_run]. rewrite !run_cons.
  rewrite !(base64_not_continuation _ (continuation_byte _ Hy)).
  rewrite !(base64_not_continuation _ (continuation_byte _ Hz)).
  split; reflexivity.
Qed.

Lemma run_substring16 (s : string) : forall n, run (substring16 n s) <= run s.
Proof.
  induction s as [|c s IH]; intros n; cbn [substring16]; [lia|].
  rewrite (run_cons c s).
  destruct (is_continuation c) eqn:Ec.
  - rewrite run_cons, (base64_not_continuation _ Ec). lia.
  - destruct (N.eqb_spec n 0); [cbn; lia|].
    destruct (240 <=? code c)%nat eqn:E4.
    + rewrite (base64_not_leading _ E4).
      destruct (N.eqb_spec n 1).
      * destruct s as [|b1 [|b2 [|b3 r]]]; try (cbn; lia).
        destruct (run_high_surrogate c b1 b2 b3 r) as [-> _]. lia.
      * rewrite run_cons, (base64_not_leading _ E4). lia.
    + rewrite run_cons. destruct (is_base64 c); [|lia].
      specialize (IH (n - 1)%N). lia.
Qed.

Lemma long_run_substring16 (s : string) :
  forall n, long_run s = false -> long_run (substring16 n s) = false.
Proof.
  induction s as [|c s IH]; intros n H; [reflexivity|].
  cbn [long_run] in H. apply orb_false_iff in H. destruct H as [Hr Hs].
  apply Nat.leb_gt in Hr.
  assert (Step : forall k,
    long_run (String c (substring16 k s)) = false).
  { intros k. cbn [long_run]. apply orb_false_iff. split; [|apply IH, Hs].
    apply Nat.leb_gt. pose proof (run_substring16 s k).
    rewrite run_cons in *. destruct (is_base64 c); lia. }
  cbn [substring16].
  destruct (is_continuation c); [apply Step|].
  destruct (n =? 0)%N; [reflexivity|].
  destruct (240 <=? code c)%nat; [|apply Step].
  destruct (n =? 1)%N; [|apply Step].
  destruct s as [|b1 [|b2 [|b3 r]]]; try reflexivity.
  apply (run_high_surrogate c b1 b2 b3 r).
Qed.

Lemma long_run_removed (t : string) :
  long_run (removed ++ t) = long_run t /\ run (removed ++ t) = 0.
Proof. split; reflexivity. Qed.

Lemma remove_from_skip (s : string) :
  forall k, exists t,
    remove_from k s = remove_attachments t /\ String.length t <= String.length s.
Proof.
  induction s as [|c s IH]; intros k.
  - exists EmptyString. destruct k; split; reflexivity.
  - destruct k as [|k].
    + exists (String c s). split; [reflexivity | lia].
    + destruct (IH k) as (t & E & L). exists t. split; [exact E|].
      cbn [String.length]. lia.
Qed.

Lemma remove_attachments_runs (n : nat) :
  forall s, String.length s <= n ->
    long_run (remove_attachments s) = false
    /\ run (remove_attachments s) <= run s
    /\ run (remove_attachments s) < 100.
Proof.
  induction n as [|n IH]; intros s L.
  - destruct s; [|cbn in L; lia]. repeat split; cbn; lia.
  - destruct s as [|c s]; [repeat split; cbn; lia|].
    cbn [String.length] in L.
    unfold remove_attachments. cbn [remove_from].
    destruct (Nat.leb_spec 100 (run (String c s))) as [H|H].
    + destruct (remove_from_skip s (run (String c s) - 1)) as (t & E & Lt).
      rewrite E.
      destruct (long_run_removed (remove_attachments t)) as [-> ->].
      destruct (IH t ltac:(lia)) as (I1 & _ & _).
      repeat split; [exact I1 | lia | lia].
    + destruct (IH s ltac:(lia)) as (I1 & I2 & I3).
      fold (remove_attachments s).
      assert (R : run (String c (remove_attachments s)) <= run (String c s)).
      { rewrite !run_cons. destruct (is_base64 c); lia. }
      repeat split; [|exact R|lia].
      cbn [long_run]. apply orb_false_iff. split; [|exact I1].
      apply Nat.leb_gt. lia.
Qed.

Lemma long_run_truncated (s : string) :
  long_run s = false -> long_run (truncated s) = false.
Proof.
  intros H. unfold truncated. destruct (60000 <? length16 s)%N; [|exact H].
  rewrite long_run_app by reflexivity.
  rewrite (long_run_substring16 s _ H). reflexivity.
Qed.

(** **** Lines *)

Lemma line_eq (s : string) :
  line s = match terminator s with
           | Some _ => EmptyString
           | None =>
               match s with
               | EmptyString => EmptyString
               | String c s' => String c (line s')
               end
           end.
Proof. destruct s; reflexivity. Qed.

Lemma terminator_split (s r : string) :
  terminator s = Some r ->
  exists t, s = t ++ r /\ terminator t = Some EmptyString.
Proof.
  unfold terminator. destruct s as [|a s]; [discriminate|].
  destruct ((code a =? 10) || (code a =? 13))%nat eqn:E.
  - intros H. injection H as <-. exists (String a EmptyString). split; [reflexivity|].
    unfold terminator. rewrite E. reflexivity.
  - destruct s as [|b [|c s]]; try discriminate.
    destruct ((code a =? 226) && (code b =? 128)
              && ((code c =? 168) || (code c =? 169)))%nat eqn:E3; [|discriminate].
    intros H. injection H as <-.
    exists (String a (String b (String c EmptyString))). split; [reflexivity|].
    unfold terminator. rewrite E, E3. reflexivity.
Qed.

(** A terminator at the head of a prefix is one at the head of the
    whole. *)
Lemma terminator_prefix (q r : string) :
  terminator q <> None -> terminator (q ++ r) <> None.
Proof.
  unfold terminator. destruct q as [|a q]; [congruence|].
  cbn [append].
  destruct ((code a =? 10) || (code a =? 13))%nat; [congruence|].
  destruct q as [|b [|c q]]; try congruence.
  cbn [append].
  destruct ((code a =? 226) && (code b =? 128)
            && ((code c =? 168) || (code c =? 169)))%nat; congruence.
Qed.

Lemma line_split (r : string) :
  exists after, r = line r ++ after /\ line_end after.
Proof.
  induction r as [|c r IH].
  - exists EmptyString. split; [reflexivity | left; reflexivity].
  - rewrite line_eq. destruct (terminator (String c r)) eqn:E.
    + exists (String c r). split; [reflexivity|]. right. congruence.
    + destruct IH as (after & E1 & E2). exists after. split; [|exact E2].
      cbn [append]. congruence.
Qed.

Lemma line_suffix (r : string) :
  forall p q, line r = p ++ q -> exists r', q = line r' /\ r = p ++ r'.
Proof.
  induction r as [|c r IH]; intros p q H.
  - destruct p; [|discriminate]. cbn in H. subst q.
    exists EmptyString. split; reflexivity.
  - rewrite line_eq in H. destruct (terminator (String c r)) eqn:E.
    + destruct p; [|discriminate]. cbn in H. subst q.
      exists (String c r). split; [|reflexivity].
      rewrite line_eq, E. reflexivity.
    + destruct p as [|a p].
      * cbn in H. subst q. exists (String c r). split; [|reflexivity].
        rewrite (line_eq (String c r)), E. reflexivity.
      * cbn [append] in H. injection H as <- H.
        destruct (IH p q H) as (r' & E1 & E2). exists r'.
        split; [exact E1|]. cbn [append]. congruence.
Qed.

Lemma terminator_line (r : string) : terminator (line r) = None.
Proof.
  destruct (line_split r) as (after & E & _).
  destruct (terminator (line r)) eqn:T; [|reflexivity].
  exfalso.
  assert (T' : terminator r <> None).
  { rewrite E. apply terminator_prefix. congruence. }
  rewrite line_eq in T. destruct (terminator r); [discriminate T | congruence].
Qed.

Lemma one_line_line (r : string) : one_line (line r).
Proof.
  intros p q H. destruct (line_suffix r p q H) as (r' & -> & _).
  apply terminator_line.
Qed.

Lemma header_here_spec (name s value : string) :
  header_here name s = Some value ->
  exists after,
    s = name ++ value ++ after /\ value <> EmptyString
    /\ one_line value /\ line_end after.
Proof.
  unfold header_here. destruct (strip_prefix name s) as [r|] eqn:E; [|discriminate].
  destruct (is_empty (line r)) eqn:El; [discriminate|].
  intros H. injection H as <-.
  destruct (line_split r) as (after & E1 & E2). exists after.
  split; [|split; [|split]].
  - rewrite <- E1. apply FragmentFacts.strip_prefix_spec, E.
  - intros C. rewrite C in El. discriminate.
  - apply one_line_line.
  - exact E2.
Qed.

Lemma header_below_spec (name s value : string) :
  header_below name s = Some value ->
  exists before after,
    s = before ++ name ++ value ++ after
    /\ (exists p t, before = p ++ t /\ terminator t = Some EmptyString)
    /\ value <> EmptyString /\ one_line value /\ line_end after.
Proof.
  induction s as [|c s IH]; [discriminate|].
  cbn [header_below].
  destruct (match terminator (String c s) with
            | Some r => header_here name r
            | None => None
            end) as [v|] eqn:E.
  - intros H. injection H as <-.
    destruct (terminator (String c s)) as [r|] eqn:T; [|discriminate].
    destruct (terminator_split _ _ T) as (t & E1 & E2).
    destruct (header_here_spec _ _ _ E) as (after & E3 & E4 & E5 & E6).
    exists t, after. split; [congruence|].
    split; [exists EmptyString, t; split; [reflexivity | exact E2]|].
    repeat split; assumption.
  - intros H. destruct (IH H) as (before & after & E1 & (p & t & E2 & E3) & R).
    exists (String c before), after. split; [cbn [append]; congruence|].
    split; [|exact R].
    exists (String c p), t. split; [cbn [append]; congruence | exact E3].
Qed.

Lemma header_spec (name text value : string) :
  header name text = Some value -> header_line name text value.
Proof.
  unfold header. destruct (header_here name text) as [v|] eqn:E.
  - intros H. injection H as <-.
    destruct (header_here_spec _ _ _ E) as (after & E1 & R).
    exists EmptyString, after. split; [exact E1|].
    split; [left; reflexivity | exact R].
  - intros H.
    destruct (header_below_spec _ _ _ H) as (before & after & E1 & E2 & R).
    exists before, after. split; [exact E1|]. split; [right; exact E2 | exact R].
Qed.

(** **** A body with nothing to decode *)

Lemma not_equals_sign (c : ascii) :
  Ascii.eqb c "=" = false -> (code c =? 61)%nat = false.
Proof. destruct c as [[] [] [] [] [] [] [] []]; vm_compute; congruence. Qed.

Lemma quoted_printable_plain (s : string) :
  free_of "=" s = true -> quoted_printable s = s.
Proof.
  induction s as [|c s IH]; [reflexivity|].
  unfold free_of. cbn [Str.forallb quoted_printable]. intros H.
  apply andb_true_iff in H as [Hc Hs]. apply negb_true_iff in Hc.
  rewrite (not_equals_sign c Hc), (IH Hs). reflexivity.
Qed.

Lemma replace_all_plain (a : ascii) (pat rep s : string) :
  free_of a s = true -> replace_all (String a pat) rep s = s.
Proof.
  unfold replace_all. induction s as [|c s IH]; [reflexivity|].
  unfold free_of. cbn [Str.forallb replace_from strip_prefix]. intros H.
  apply andb_true_iff in H as [Hc Hs]. apply negb_true_iff in Hc.
  rewrite Hc, (IH Hs). reflexivity.
Qed.

Lemma decode_entities_plain (s : string) :
  free_of "&" s = true -> decode_entities s = s.
Proof.
  intros H. unfold decode_entities.
  do 6 rewrite (replace_all_plain "&" _ _ s H). reflexivity.
Qed.

Lemma remove_attachments_plain (s : string) :
  long_run s = false -> remove_attachments s = s.
Proof.
  unfold remove_attachments. induction s as [|c s IH]; [reflexivity|].
  cbn [long_run remove_from]. intros H.
  apply orb_false_iff in H as [Hr Hs]. rewrite Hr, (IH Hs). reflexivity.
Qed.

End ParserFacts.

Module ParserTheorems.

Import Str Parser ParserSpec ParserFacts.

(** A file whose text can be read is always parsed, and the body
    handed on has at most 60015 UTF-16 code units: 60000 of the cleaned
    body and the fifteen of the mark put after a cut. *)
Theorem parseEmlFile_body_is_bounded (name text : string) :
  exists r, parseEmlFile name (Ok text) = Ok r
            /\ (length16 (bodyText r) <= 60015)%N.
Proof.
  eexists. split; [reflexivity|]. cbn [bodyText]. apply length16_truncated.
Qed.

(** In the body handed on no run of a hundred or more characters
    of [a-zA-Z0-9+/=] is left, whatever the text was and whether the
    body was cut or not. *)
Theorem parseEmlFile_leaves_no_long_run (name text : string) :
  exists r, parseEmlFile name (Ok text) = Ok r
            /\ long_run (bodyText r) = false.
Proof.
  eexists. split; [reflexivity|]. cbn [bodyText].
  apply long_run_truncated.
  apply (remove_attachments_runs _ _ (Nat.le_refl _)).
Qed.

(** The date of a parsed file is the default 'Unknown Date' or
    the trimmed rest of a line of the text that starts with 'Date: ',
    a rest that is not empty and goes to the end of the line; the same
    for the subject with 'Subject: ' and 'No Subject'. *)
Theorem parseEmlFile_headers (name text : string) :
  exists r, parseEmlFile name (Ok text) = Ok r
    /\ (rawDate r = "Unknown Date"
        \/ exists value, header_line "Date: " text value
                         /\ rawDate r = Js.trim value)
    /\ (rawSubject r = "No Subject"
        \/ exists value, header_line "Subject: " text value
                         /\ rawSubject r = Js.trim value).
Proof.
  eexists. split; [reflexivity|]. cbn [rawDate rawSubject]. split.
  - destruct (header "Date: " text) as [v|] eqn:E; [right | left; reflexivity].
    exists v. split; [apply header_spec, E | reflexivity].
  - destruct (header "Subject: " text) as [v|] eqn:E; [right | left; reflexivity].
    exists v. split; [apply header_spec, E | reflexivity].
Qed.

(** A body with nothing to decode is handed on as it is: when the text
    after the first blank line does not name a plain-text part, holds
    neither an equals sign nor an ampersand nor a run of a hundred
    characters of [a-zA-Z0-9+/=], and has at most 60000 code units, it
    is the body of the parsed file, unchanged and untrimmed. *)
Theorem parseEmlFile_plain_body (name text : string) :
  includes (body_of text) "Content-Type: text/plain" = false ->
  free_of "=" (body_of text) = true ->
  free_of "&" (body_of text) = true ->
  long_run (body_of text) = false ->
  (length16 (body_of text) <= 60000)%N ->
  exists r, parseEmlFile name (Ok text) = Ok r
            /\ bodyText r = body_of text.
Proof.
  intros Hm He Ha Hl Hn. eexists. split; [reflexivity|]. cbn [bodyText].
  unfold text_part_of. rewrite Hm.
  rewrite (quoted_printable_plain _ He), (decode_entities_plain _ Ha),
    (remove_attachments_plain _ Hl).
  unfold truncated. apply N.ltb_ge in Hn. now rewrite Hn.
Qed.

End ParserTheorems.

Module ParserRuns.

Import Str Parser ParserSpec ParserExamples ParserTheorems.

Lemma parseEmlFile_plain_body_witness :
  exists r, parseEmlFile "a.eml" (Ok note) = Ok r
            /\ bodyText r = body_of note.
Proof.
  apply (parseEmlFile_plain_body "a.eml" note); vm_compute; congruence.
Defined.

End ParserRuns.

(* ================================================================== *)
(** ** The rows of the table are kept apart *)
(* ================================================================== *)

Module TableFacts.

Import Str StrFacts Json JsonFacts Normalizer Db Spec DbFacts DbTheorems.
Import DbOps DbImport OpsSpec SaveFacts SoundFacts ImportFacts TableSpec.

Lemma In_getExistingFileNames (d : Database) (f : string) :
  In f (getExistingFileNames d)
  <-> f <> EmptyString /\ In (Some f) (map row_fileName (emails d)).
Proof.
  unfold getExistingFileNames. rewrite in_flat_map, in_map_iff. split.
  - intros (r & Hr & Hf). destruct (row_fileName r) as [g|] eqn:E; [|destruct Hf].
    destruct (is_empty g) eqn:Eg; [destruct Hf|].
    destruct Hf as [<- | []]. split; [now apply is_empty_false|].
    exists r. now split.
  - intros (Hn & r & E & Hr). exists r. split; [assumption|].
    rewrite E. apply is_empty_false in Hn. rewrite Hn. now left.
Qed.

Lemma links_apart_app (rows : list Row) (x : Row) :
  links_apart rows ->
  (forall u, In u (stored_urls x) -> ~ In u (flat_map stored_urls rows)) ->
  links_apart (rows ++ [x]).
Proof.
  induction rows as [|r rows IH]; intros Ha Hx; cbn [app links_apart].
  - split; [intros ? ? [] | exact I].
  - destruct Ha as [Hr Hrest]. split.
    + intros y u Hy Hu. apply in_app_or in Hy as [Hy | [<- | []]].
      * now apply Hr.
      * intros Hux. apply (Hx u Hux). cbn [flat_map]. apply in_or_app. now left.
    + apply IH; [assumption|]. intros u Hu Hin. apply (Hx u Hu).
      cbn [flat_map]. apply in_or_app. now right.
Qed.

Lemma links_apart_filter (p : Row -> bool) (rows : list Row) :
  links_apart rows -> links_apart (filter p rows).
Proof.
  induction rows as [|r rows IH]; intros H; [exact I|].
  destruct H as [Hr Hrest]. cbn [filter].
  destruct (p r); [|now apply IH].
  split; [|now apply IH].
  intros x u Hx. apply filter_In in Hx as [Hx _]. now apply Hr.
Qed.

Lemma names_apart_filter (p : Row -> bool) (rows : list Row) :
  names_apart rows -> names_apart (filter p rows).
Proof.
  intros [Hn Hd]. split.
  - intros r Hr. apply filter_In in Hr as [Hr _]. now apply Hn.
  - clear Hn. induction rows as [|r rows IH]; cbn [filter]; [constructor|].
    cbn [map] in Hd. apply NoDup_cons_iff in Hd as [Hr Hd].
    destruct (p r); [|now apply IH].
    cbn [map]. apply NoDup_cons; [|now apply IH].
    intros Hin. apply Hr.
    apply in_map_iff in Hin as (x & E & Hx).
    apply filter_In in Hx as [Hx _].
    apply in_map_iff. now exists x.
Qed.

(** An [INSERT] of a row whose file name and links the table does not
    have keeps the rows apart. *)
Lemma rows_apart_insert (f : string) (d t e c : cell) (links : list string)
    (d0 : Database) :
  rows_apart d0 ->
  is_empty f = false ->
  ~ In f (getExistingFileNames d0) ->
  (forall u, In u links -> ~ In u (flat_map stored_urls (emails d0))) ->
  rows_apart (insert (Some f) d t e c (Some (stringify_strings links)) d0).
Proof.
  intros [[Hn Hd] Hl] Hf Hnew Hlinks.
  assert (Hf' : f <> EmptyString) by (intros ->; discriminate).
  unfold rows_apart, insert. cbn [emails]. split; [split|].
  - intros r Hr. apply in_app_or in Hr as [Hr | [<- | []]]; [now apply Hn|].
    exists f. now split.
  - rewrite map_app. cbn [map row_fileName].
    apply NoDup_app; [assumption | repeat constructor; intros [] |].
    intros x Hx [<- | []]. apply Hnew. apply In_getExistingFileNames. now split.
  - apply links_apart_app; [assumption|].
    rewrite stored_urls_insert. exact Hlinks.
Qed.

Lemma rows_apart_empty : rows_apart empty.
Proof. split; [split; [intros r [] | constructor] | exact I]. Qed.

Section WithURL.

Context {api : URLApi}.

Lemma rows_apart_save_one (i : nat) (e : AnalyzedEmail) (s : Saving) :
  coherent s -> rows_apart (sv_db s) -> rows_apart (sv_db (save_one i e s)).
Proof.
  unfold coherent, save_one. intros Hc H.
  destruct (is_empty (fileName e)) eqn:E; [exact H|].
  destruct (duplicate_of (sv_index s) e) eqn:D; [exact H|].
  cbn [sv_db]. unfold insert_email.
  unfold duplicate_of in D.
  destruct (url_duplicate (sv_index s) (urls e) (normalizeUrls (urls e))) eqn:U;
    [discriminate|].
  rewrite E in D. cbn [negb andb] in D.
  destruct (has (existingFileNames (sv_index s)) (fileName e)) eqn:Hh;
    [discriminate|].
  apply url_duplicate_None in U; [|apply normalizeUrls_length].
  destruct U as [U _]. rewrite Hc in U, Hh.
  apply rows_apart_insert; [assumption | assumption | | exact U].
  now apply has_false.
Qed.

Lemma rows_apart_save_each (batch : list AnalyzedEmail) (i : nat) (s : Saving) :
  coherent s -> rows_apart (sv_db s) -> rows_apart (sv_db (save_each i batch s)).
Proof.
  revert i s. induction batch as [|e batch IH]; intros i s Hc H; [exact H|].
  cbn [save_each]. apply IH; [now apply coherent_save_one|].
  now apply rows_apart_save_one.
Qed.

Lemma rows_apart_saveToDb (storage : option string) (batch : list AnalyzedEmail)
    (st : Store) :
  rows_apart (db st) -> rows_apart (db (fst (saveToDb storage batch st))).
Proof.
  intros H. rewrite db_saveToDb.
  apply rows_apart_save_each; [apply coherent_start | exact H].
Qed.

Lemma rows_apart_deleteRecords (storage : option string) (ids : list string)
    (st : Store) :
  rows_apart (db st) -> rows_apart (db (fst (deleteRecords storage ids st))).
Proof.
  intros H. rewrite db_deleteRecords. destruct ids; [exact H|].
  destruct H as [Hn Hl]. split; cbn [emails].
  - now apply names_apart_filter.
  - now apply links_apart_filter.
Qed.

(** The links [importDb] writes are links it has looked up. *)
Lemma imported_links_new (ix : Index) (c : cell) (links : list string) :
  url_duplicate_of_cell ix c = Some None ->
  sanitized c = Some links ->
  forall u, In u links -> ~ In u (existingUrlSets ix).
Proof.
  unfold url_duplicate_of_cell, sanitized.
  destruct (or_null c) as [text|]; [|intros _ H; injection H as <-; intros ? []].
  destruct (decode text) as [| |items|];
    try (intros _ H; injection H as <-; intros ? []); [|discriminate].
  intros U H. injection H as <-. injection U as U.
  apply url_duplicate_None in U; [|apply normalizeUrls_length].
  exact (proj1 U).
Qed.

Lemma rows_apart_import_row (i : nat) (r : Row) (s s' : Importing) :
  import_row i r s = Some s' -> im_coherent s ->
  rows_apart (im_db s) -> rows_apart (im_db s').
Proof.
  unfold import_row, im_coherent. intros H Hc Hs.
  destruct (or_null (row_fileName r)) as [f|] eqn:Ef;
    [|injection H as <-; exact Hs].
  destruct (url_duplicate_of_cell (im_index s) (row_urls r)) as [[n|]|] eqn:U;
    [injection H as <-; exact Hs | | discriminate].
  destruct (has (existingFileNames (im_index s)) f) eqn:Hh;
    [injection H as <-; exact Hs|].
  destruct (sanitized (row_etiquetas r)) as [tags|]; [|discriminate].
  destruct (sanitized (row_urls r)) as [links|] eqn:S; [|discriminate].
  injection H as <-. cbn [im_db].
  pose proof (imported_links_new _ _ _ U S) as Hl.
  rewrite Hc in Hl, Hh.
  apply rows_apart_insert;
    [assumption | exact (or_null_nonempty _ _ Ef) | now apply has_false | exact Hl].
Qed.

Lemma rows_apart_import_each (rows : list Row) (i : nat) (s s' : Importing) :
  import_each i rows s = Some s' -> im_coherent s ->
  rows_apart (im_db s) -> rows_apart (im_db s').
Proof.
  revert i s. induction rows as [|r rows IH]; intros i s H Hc Hs;
    cbn [import_each] in H.
  - now injection H as <-.
  - destruct (import_row i r s) as [s1|] eqn:E; [|discriminate].
    apply (IH _ _ H).
    + now apply (coherent_import_row i r s).
    + now apply (rows_apart_import_row i r s).
Qed.

Lemma rows_apart_importDb (storage : option string) (file : Database)
    (st st' : Store) (r : Result Report) :
  importDb storage file st = Some (st', r) ->
  rows_apart (db st) -> rows_apart (db st').
Proof.
  intros H Hs. destruct (db_importDb _ _ _ _ _ H) as (s & Hi & ->).
  apply (rows_apart_import_each _ _ _ _ Hi); [reflexivity | exact Hs].
Qed.

End WithURL.

End TableFacts.

Module TableTheorems.

Import Str Db DbOps DbImport OpsSpec TableSpec TableFacts.

Section WithURL.

Context {api : URLApi}.

(** In every store reached from the empty store by calls of saveToDb
    and deleteRecords, whatever they are given, and by calls of
    importDb with the files it is modelled for (a table emails whose
    cells are text or NULL and whose JSON arrays hold strings only),
    whatever the calls return, every row has a file name that is not
    empty, no two rows have the same file name, and no link is stored
    in two rows. *)
Theorem rows_are_kept_apart (st : Store) :
  reachable st -> names_apart (emails (db st)) /\ links_apart (emails (db st)).
Proof.
  intros H. change (rows_apart (db st)). induction H.
  - exact rows_apart_empty.
  - now apply rows_apart_saveToDb.
  - now apply rows_apart_deleteRecords.
  - now apply (rows_apart_importDb storage file st st' r).
Qed.

End WithURL.

End TableTheorems.

Module TableRuns.

Import Str Db Spec DbOps DbImport OpsSpec Examples OpsExamples TableSpec TableTheorems.

Local Abbreviation api := WhatwgFragment.api.

(** The store with two records into which a file was imported, of
    which one record is deleted and one is delivered again. *)
Lemma rows_are_kept_apart_witness :
  row_count merged = 3
  /\ names_apart
       (emails (db (fst (@saveToDb api None [other; post_b]
                           (fst (deleteRecords None ["1"] merged))))))
  /\ links_apart
       (emails (db (fst (@saveToDb api None [other; post_b]
                           (fst (deleteRecords None ["1"] merged)))))).
Proof.
  split; [reflexivity|].
  apply (@rows_are_kept_apart api).
  apply reach_save, reach_delete.
  apply (@reach_import api None incoming two_saved merged (Ok merge_report)).
  - unfold two_saved. apply reach_save, reach_empty.
  - exact OpsRuns.importDb_of_incoming.
Defined.

End TableRuns.

(* ================================================================== *)
(** ** The batch over the links *)
(* ================================================================== *)

Module LinksFacts.

Import Str StrFacts Db Spec DbFacts DbTheorems DbOps OpsSpec SaveFacts SaveTheorems.
Import App PipelineSpec PipelineFacts BatchSpec BatchFacts Links LinksSpec.

Section WithPlatform.

Context {api : URLApi}.
Variable apiKey : option string.
Variable env : nat -> ItemEnv.
Variable service_clock : nat -> string.
Variable status0 : ProcessingStatus.
Variable urls0 : list string.

Local Abbreviation link_body := (link_body apiKey env service_clock status0 urls0).
Local Abbreviation link_work := (link_work apiKey env service_clock urls0).
Local Abbreviation link_loop := (link_loop apiKey env service_clock status0 urls0).

Lemma same_saves_announce_link (i : nat) (url : string) (b : Batch) :
  same_saves b (announce_link status0 urls0 i url b).
Proof. unfold announce_link. destruct status0; frame. Qed.

Lemma same_saves_setLinkProgress (cur tot : nat) (u : option string) (c : Call) :
  same_saves (batch c) (batch (setLinkProgress cur tot u c)).
Proof. unfold setLinkProgress. cbn [batch]. frame. Qed.

Lemma same_saves_end_of_link (i : nat) (c : Call) :
  same_saves (batch c) (batch (end_of_link urls0 i c)).
Proof. unfold end_of_link. apply same_saves_setLinkProgress. Qed.

Lemma same_saves_links_critical (m : string) (b : Batch) :
  same_saves b (links_critical m b).
Proof. unfold links_critical. frame. Qed.

Lemma same_saves_after_links (c : Call) :
  same_saves (batch c) (batch (after_links status0 c)).
Proof.
  unfold after_links.
  destruct (processingErrors (batch c)) as [|m ms] eqn:Ep; destruct status0;
    cbn [on_batch batch on_app app isProcessingCancelled setErrorMsg];
    destruct (isProcessingCancelled (app (batch c)));
    cbn [setLinkProgress setUrls on_batch batch status_to on_app log
         processingErrors];
    try rewrite Ep; cbn [on_batch batch]; frame.
Qed.

Section Invariant.

Variable kept : Batch -> Prop.

Hypothesis kept_same : forall b b', same_saves b b' -> kept b -> kept b'.

Hypothesis kept_save_now :
  forall i e b, kept b -> kept (save_now env i e (push_result e b)).

Hypothesis kept_save_all :
  forall i b, kept b ->
    kept (on_app (setStore (fst (saveToDb (storage (env i)) (results b)
                                   (store (app b))))) b).

Lemma kept_link_failed (i : nat) (url m : string) (b : Batch) :
  kept b -> kept (link_failed env i url m b).
Proof.
  intros H. unfold link_failed.
  eapply kept_same; [apply same_saves_on_app; intros; reflexivity|].
  apply kept_save_now.
  eapply kept_same; [apply same_saves_push_error | exact H].
Qed.

Lemma kept_link_work (i : nat) (url : string) (c : Call) :
  kept (batch c) -> kept (batch (call_of (link_work i url c))).
Proof.
  intros H. unfold Links.link_work.
  match goal with
  | |- context [on_batch (press_stop ?p) ?x] =>
      assert (H1 : kept (batch (on_batch (press_stop p) x)))
  end.
  { eapply kept_same; [|exact H]. cbn [on_batch batch setLinkProgress].
    eapply same_saves_trans; [|apply same_saves_press_stop].
    eapply same_saves_trans; [|apply same_saves_log; reflexivity]. frame. }
  revert H1.
  generalize (on_batch (press_stop (stop_during_work (env i)))
    (on_batch (log (Enriched i))
       (setLinkProgress i (List.length urls0) (Some url)
          (on_batch (status_to ANALYZING) c)))).
  intros c1 H1. cbv zeta.
  destruct (Gemini.analyzeUrlContent apiKey (service (env i)) (service_clock i) url)
    as [run|m].
  - destruct (String.eqb _ "Error Cuota API").
    + cbn [call_of on_batch batch]. eapply kept_same; [|exact H1]. frame.
    + destruct (String.eqb _ "Error en Análisis").
      * cbn [call_of].
        eapply kept_same; [apply same_saves_setLinkProgress|].
        cbn [on_batch batch]. eapply kept_same; [|exact H1]. frame.
      * cbn [call_of].
        eapply kept_same; [apply same_saves_end_of_link|].
        cbn [on_batch batch]. now apply kept_save_now.
  - cbn [call_of].
    eapply kept_same; [apply same_saves_end_of_link|].
    cbn [on_batch batch]. now apply kept_link_failed.
Qed.

Lemma kept_link_body (i : nat) (url : string) (c : Call) :
  kept (batch c) -> kept (batch (call_of (link_body i url c))).
Proof.
  intros H. unfold Links.link_body.
  match goal with
  | |- context [on_batch ?f c] => assert (H1 : kept (batch (on_batch f c)))
  end.
  { cbn [on_batch batch]. eapply kept_same; [|exact H].
    eapply same_saves_trans;
      [apply same_saves_announce_link | apply same_saves_pause]. }
  cbv zeta. destruct ((0 <? i)%nat && _); [exact H1|].
  now apply kept_link_work.
Qed.

Lemma kept_link_cancelled_exit (i : nat) (b : Batch) :
  kept b -> kept (fst (link_cancelled_exit env i b)).
Proof.
  intros H. unfold link_cancelled_exit.
  match goal with
  | |- context [status_to IDLE ?x] => assert (H1 : kept (status_to IDLE x))
  end.
  { eapply kept_same; [|exact H]. frame. }
  revert H1. generalize (status_to IDLE
    (on_app (setErrorMsg
       (Some ("Procesamiento cancelado. "
              ++ of_nat (List.length (results b))
              ++ " URL(s) procesada(s) antes de la cancelación."))) b)).
  intros b1 H1. cbv zeta.
  destruct (results b1) as [|r rs] eqn:Er.
  - cbn [fst]. eapply kept_same; [|exact H1]. frame.
  - assert (H2 : kept (status_to GENERATING_DB b1)).
    { eapply kept_same; [|exact H1]. frame. }
    revert H2. generalize (status_to GENERATING_DB b1). intros b2 H2.
    pose proof (kept_save_all i b2 H2) as H3.
    destruct (saveToDb (storage (env i)) (results b2) (store (app b2)))
      as [st r0].
    cbn [fst] in H3.
    destruct r0 as [u|m]; [|exact H3].
    destruct (getAllEmails (db st)); [|exact H3].
    cbn [fst]. eapply kept_same; [|exact H3]. frame.
Qed.

Lemma kept_link_loop (rest : list string) :
  forall (i : nat) (c : Call),
    kept (batch c) -> kept (batch (fst (link_loop i rest c))).
Proof.
  induction rest as [|url rest IH]; intros i c H; [exact H|].
  cbn [Links.link_loop]. destruct (isProcessingCancelled (app (batch c))).
  - pose proof (kept_link_cancelled_exit i (batch c) H) as K.
    destruct (link_cancelled_exit env i (batch c)) as [b exit]. exact K.
  - pose proof (kept_link_body i url c H) as Hb.
    destruct (link_body i url c) as [c'|c']; cbn [call_of] in Hb.
    + now apply IH.
    + exact Hb.
Qed.

(** The call that gets past the two checks at its start. *)
Lemma kept_run_links (a : AppState) (shown : option string) :
  kept (batch (start_links urls0 a shown)) ->
  kept (batch (match link_loop 0 urls0 (start_links urls0 a shown) with
               | (c, RanOut) | (c, Broke) => after_links status0 c
               | (c, Returned) => c
               | (c, Thrown m) => on_batch (links_critical m) c
               end)).
Proof.
  intros H. pose proof (kept_link_loop urls0 0 _ H) as K.
  destruct (link_loop 0 urls0 (start_links urls0 a shown)) as [c exit].
  cbn [fst] in K. destruct exit.
  - eapply kept_same; [apply same_saves_after_links | exact K].
  - eapply kept_same; [apply same_saves_after_links | exact K].
  - exact K.
  - cbn [on_batch batch].
    eapply kept_same; [apply same_saves_links_critical | exact K].
Qed.

End Invariant.

Lemma saved_start_links (a : AppState) (shown : option string) :
  saved_by_items env (store a) (batch (start_links urls0 a shown)).
Proof.
  unfold saved_by_items. split; [reflexivity|]. intros e [].
Qed.

End WithPlatform.

End LinksFacts.

Module LinksTheorems.

Import Str StrFacts Db Spec DbFacts DbTheorems DbOps OpsSpec SaveFacts SaveTheorems.
Import App PipelineSpec PipelineFacts BatchSpec BatchFacts Links LinksSpec LinksFacts.

Section WithPlatform.

Context {api : URLApi}.
Variable apiKey : option string.
Variable env : nat -> ItemEnv.
Variable service_clock : nat -> string.


(** If the store in which [processUrls] starts was reached from the
    empty store by calls of saveToDb, deleteRecords and importDb, so is
    the store in which it ends. *)
Theorem processUrls_keeps_reachable (a : AppState) (urls : list string)
    (shown : option string) :
  reachable (store a) ->
  reachable (store (app (batch (processUrls apiKey env service_clock a urls shown)))).
Proof.
  intros H. unfold processUrls, run_links.
  destruct urls as [|u us]; [exact H|].
  destruct (negb (isApiKeyValid a)); [exact H|].
  apply (kept_run_links apiKey env service_clock (app_status a) (u :: us)
           (fun b => reachable (store (app b)))
           reachable_same (reachable_save_now env) (reachable_save_all env)
           a shown).
  exact H.
Qed.

(** When the analysis of the first link ends with the quota sentinel
    and nobody presses the stop button meanwhile, a batch started in a
    status other than ERROR ends in status COMPLETED with the queue
    emptied and without a message: nothing is saved, and the links after
    the first are dropped unprocessed. *)
Theorem processUrls_quota_then_completed (a : AppState) (url : string)
    (rest : list string) (shown : option string) :
  isApiKeyValid a = true ->
  app_status a <> ERROR ->
  stop_during_work (env 0) = false ->
  quota_for apiKey env service_clock 0 url ->
  let c := processUrls apiKey env service_clock a (url :: rest) shown in
  app_status (app (batch c)) = COMPLETED
  /\ urlQueue c = []
  /\ errorMsg (app (batch c)) = None
  /\ results (batch c) = []
  /\ store (app (batch c)) = store a.
Proof.
  intros Hk Hs Hw (run & Hr & Hq). cbv zeta.
  unfold processUrls, run_links. rewrite Hk. cbn [negb].
  cbn [link_loop start_links on_batch batch setLinkProgress status_to on_app log
       app isProcessingCancelled setStatus setProgress setErrorMsg setCancelled].
  unfold link_body. cbn [pause Nat.ltb Nat.leb andb on_batch batch].
  unfold link_work. cbv zeta. rewrite Hr, Hq, Hw, String.eqb_refl.
  unfold after_links, announce_link.
  destruct (app_status a); try congruence; repeat split; reflexivity.
Qed.

End WithPlatform.

End LinksTheorems.

Module LinksRuns.

Import Str Db OpsSpec App Links LinksSpec Examples LinksExamples LinksTheorems.

Local Abbreviation api := WhatwgFragment.api.

(** Every request for the first link is answered with HTTP 429. *)
Lemma exhausted_quota_for :
  @quota_for (Some "key") exhausted noon 0 "https://example.com/a".
Proof. eexists. split; vm_compute; reflexivity. Qed.

Lemma processUrls_quota_then_completed_witness :
  app_status (app (batch (@processUrls api (Some "key") exhausted noon
                            (fresh [] IDLE) two_links None))) = COMPLETED
  /\ urlQueue (@processUrls api (Some "key") exhausted noon
                 (fresh [] IDLE) two_links None) = []
  /\ errorMsg (app (batch (@processUrls api (Some "key") exhausted noon
                             (fresh [] IDLE) two_links None))) = None
  /\ results (batch (@processUrls api (Some "key") exhausted noon
                       (fresh [] IDLE) two_links None)) = []
  /\ store (app (batch (@processUrls api (Some "key") exhausted noon
                          (fresh [] IDLE) two_links None)))
     = store (fresh [] IDLE).
Proof.
  apply (@processUrls_quota_then_completed api (Some "key") exhausted noon
           (fresh [] IDLE) "https://example.com/a" ["https://example.com/b"] None).
  - reflexivity.
  - discriminate.
  - reflexivity.
  - exact exhausted_quota_for.
Defined.

(** The batch of two links of which the first fails and the second is
    saved, started on a fresh installation. *)
Lemma processUrls_keeps_reachable_witness :
  @reachable api
    (store (app (batch (@processUrls api (Some "key") first_fails noon
                          (fresh [] IDLE) two_links None)))).
Proof.
  apply (@processUrls_keeps_reachable api).
  apply reach_empty.
Defined.

End LinksRuns.

(* ================================================================== *)
(** ** The links taken from a text *)
(* ================================================================== *)

Module DropzoneFacts.

Import Str StrFacts Js UrlDropzone DropzoneSpec.

Lemma scheme_char_to_lower (c : ascii) :
  scheme_char (to_lower c) = true -> scheme_char c = true.
Proof. destruct c as [[] [] [] [] [] [] [] []]; vm_compute; congruence. Qed.

Lemma scheme_char_included (a : ascii) (r : string) :
  scheme_char a = true -> excluded (String a r) = false.
Proof.
  destruct a as [[] [] [] [] [] [] [] []]; vm_compute; try congruence;
    intros _; destruct r as [|b [|c r]]; reflexivity.
Qed.

Lemma take_ci_spec (lit : string) :
  forall s m r,
    take_ci lit s = Some (m, r) ->
    s = m ++ r /\ lower m = lit
    /\ (Str.forallb scheme_char lit = true -> Str.forallb scheme_char m = true).
Proof.
  induction lit as [|a lit IH]; intros s m r H; cbn [take_ci] in H.
  - injection H as <- <-. repeat split.
  - destruct s as [|c s]; [discriminate|].
    destruct (Ascii.eqb (to_lower c) a) eqn:E; [|discriminate].
    destruct (take_ci lit s) as [[m' r']|] eqn:T; [|discriminate].
    injection H as <- <-. apply Ascii.eqb_eq in E.
    destruct (IH _ _ _ T) as (E1 & E2 & E3). subst s.
    split; [reflexivity|]. split; [cbn [lower]; congruence|].
    cbn [Str.forallb]. intros Hl. apply andb_true_iff in Hl as [Ha Hl].
    apply andb_true_iff. split; [|now apply E3].
    apply scheme_char_to_lower. now rewrite E.
Qed.

(** An excluded character at the head of a prefix is one at the head
    of the whole. *)
Lemma excluded_prefix (q r : string) :
  excluded q = true -> excluded (q ++ r) = true.
Proof.
  unfold excluded, space_at. destruct q as [|a q]; [discriminate|].
  cbn [append].
  destruct (is_space1 a); [reflexivity|].
  destruct (is_delimiter a); [intros _; apply orb_true_r|].
  destruct q as [|b q]; [discriminate|]. cbn [append].
  destruct (is_space2 a b); [reflexivity|].
  destruct q as [|c q]; [discriminate|]. cbn [append].
  destruct (is_space3 a b c); [reflexivity | discriminate].
Qed.

Lemma link_chars_eq (s : string) :
  link_chars s = if excluded s then EmptyString
                 else match s with
                      | EmptyString => EmptyString
                      | String c s' => String c (link_chars s')
                      end.
Proof. destruct s; reflexivity. Qed.

Lemma link_chars_split (r : string) : exists after, r = link_chars r ++ after.
Proof.
  induction r as [|c r IH]; [exists EmptyString; reflexivity|].
  rewrite link_chars_eq. destruct (excluded (String c r)).
  - exists (String c r). reflexivity.
  - destruct IH as (after & E). exists after. cbn [append]. congruence.
Qed.

Lemma link_chars_suffix (r : string) :
  forall p q, link_chars r = p ++ q -> exists r', q = link_chars r'.
Proof.
  induction r as [|c r IH]; intros p q H.
  - destruct p; [|discriminate]. cbn in H. subst q. now exists EmptyString.
  - rewrite link_chars_eq in H. destruct (excluded (String c r)) eqn:E.
    + destruct p; [|discriminate]. cbn in H. subst q.
      exists (String c r). now rewrite link_chars_eq, E.
    + destruct p as [|a p].
      * cbn in H. subst q. exists (String c r).
        now rewrite (link_chars_eq (String c r)), E.
      * cbn [append] in H. injection H as <- H. exact (IH p q H).
Qed.

Lemma excluded_link_chars (r : string) : excluded (link_chars r) = false.
Proof.
  destruct (link_chars_split r) as (after & E).
  destruct (excluded (link_chars r)) eqn:X; [|reflexivity].
  pose proof (excluded_prefix _ after X) as X'. rewrite <- E in X'.
  rewrite link_chars_eq, X' in X. discriminate.
Qed.

Lemma clean_link_chars (r : string) : clean (link_chars r).
Proof.
  intros p q H. destruct (link_chars_suffix r p q H) as (r' & ->).
  apply excluded_link_chars.
Qed.

Lemma clean_scheme (pre run : string) :
  Str.forallb scheme_char pre = true -> clean run -> clean (pre ++ run).
Proof.
  induction pre as [|a pre IH]; intros Hp Hr; [exact Hr|].
  cbn [Str.forallb] in Hp. apply andb_true_iff in Hp as [Ha Hp].
  intros p q H. destruct p as [|b p].
  - cbn in H. subst q. cbn [append]. now apply scheme_char_included.
  - cbn [append] in H. injection H as <- H. exact (IH Hp Hr p q H).
Qed.

(** What a match is. *)
Lemma url_at_spec (s m : string) :
  url_at s = Some m ->
  (exists after, s = m ++ after) /\ http_link m /\ clean m.
Proof.
  unfold url_at.
  destruct (take_ci "http" s) as [[h r]|] eqn:Th; [|discriminate].
  destruct (take_ci_spec _ _ _ _ Th) as (E1 & L1 & F1).
  assert (K : exists x r1,
            (match take_ci "s" r with
             | Some (x, r') => (x, r')
             | None => (EmptyString, r)
             end) = (x, r1)
            /\ r = x ++ r1
            /\ (lower x = "s" \/ x = EmptyString)
            /\ Str.forallb scheme_char x = true).
  { destruct (take_ci "s" r) as [[x r']|] eqn:Ts.
    - destruct (take_ci_spec _ _ _ _ Ts) as (E2 & L2 & F2).
      exists x, r'. repeat split; auto.
    - exists EmptyString, r. repeat split; auto. }
  destruct K as (x & r1 & -> & E2 & L2 & F2).
  destruct (take_ci "://" r1) as [[sep r2]|] eqn:Tc; [|discriminate].
  destruct (take_ci_spec _ _ _ _ Tc) as (E3 & L3 & F3).
  destruct (is_empty (link_chars r2)) eqn:Ee; [discriminate|].
  intros H. injection H as <-.
  assert (Hsep : sep = "://").
  { destruct sep as [|a [|b [|c [|d sep]]]]; try discriminate.
    cbn [lower] in L3. injection L3 as La Lb Lc.
    destruct a as [[] [] [] [] [] [] [] []]; try discriminate La.
    destruct b as [[] [] [] [] [] [] [] []]; try discriminate Lb.
    destruct c as [[] [] [] [] [] [] [] []]; try discriminate Lc.
    reflexivity. }
  split; [|split].
  - destruct (link_chars_split r2) as (after & E4). exists after.
    rewrite !app_assoc. rewrite <- E4. congruence.
  - exists (h ++ x), (link_chars r2). split; [|split].
    + rewrite Hsep, app_assoc. reflexivity.
    + rewrite lower_app, L1.
      destruct L2 as [-> | ->]; [right | left]; reflexivity.
    + intros C. rewrite C in Ee. discriminate.
  - replace (h ++ x ++ sep ++ link_chars r2)
      with ((h ++ x ++ sep) ++ link_chars r2)
      by now rewrite !app_assoc.
    apply clean_scheme; [|apply clean_link_chars].
    rewrite !FragmentFacts.forallb_app, F1, F2, F3 by reflexivity. reflexivity.
Qed.

Lemma matches_from_spec (s : string) :
  forall skip m,
    In m (matches_from skip s) ->
    exists before rest, s = before ++ rest /\ url_at rest = Some m.
Proof.
  induction s as [|c s IH]; intros skip m H; [destruct H|].
  cbn [matches_from] in H.
  assert (Later : forall k, In m (matches_from k s) ->
            exists before rest, String c s = before ++ rest /\ url_at rest = Some m).
  { intros k Hk. destruct (IH k m Hk) as (before & rest & E & U).
    exists (String c before), rest. split; [cbn [append]; congruence | exact U]. }
  destruct skip as [|k]; [|exact (Later k H)].
  destruct (url_at (String c s)) as [m'|] eqn:U; [|exact (Later 0 H)].
  destruct H as [<- | H]; [|exact (Later _ H)].
  exists EmptyString, (String c s). split; [reflexivity | exact U].
Qed.

(** **** Trimming changes no match *)

Lemma trimStart_id (s : string) : space_at s = false -> trimStart s = s.
Proof.
  unfold space_at. destruct s as [|a s]; [reflexivity|]. cbn [trimStart].
  destruct (is_space1 a); [discriminate|]. cbn [orb].
  destruct s as [|b s]; [reflexivity|].
  destruct (is_space2 a b); [discriminate|]. cbn [orb].
  destruct s as [|c s]; [reflexivity|].
  destruct (is_space3 a b c); [discriminate | reflexivity].
Qed.

Lemma excluded_space (s : string) : excluded s = false -> space_at s = false.
Proof. unfold excluded. intros H. now apply orb_false_iff in H. Qed.

Lemma trimEnd_id (s : string) : clean s -> trimEnd s = s.
Proof.
  induction s as [|a s IH]; intros H; [reflexivity|].
  cbn [trimEnd].
  rewrite (trimStart_id (String a s))
    by (apply excluded_space, (H EmptyString); reflexivity).
  cbn [is_empty]. f_equal. apply IH.
  intros p q E. apply (H (String a p)). cbn [append]. congruence.
Qed.

Lemma trim_id (s : string) : clean s -> trim s = s.
Proof.
  intros H. unfold trim.
  rewrite trimStart_id by (apply excluded_space, (H EmptyString); reflexivity).
  now apply trimEnd_id.
Qed.

End DropzoneFacts.

Module DropzoneTheorems.

Import Str StrFacts Js UrlDropzone DropzoneSpec DropzoneFacts ViewTheorems.

Section WithURL.

Context {api : URLApi}.
Variable protocol : URLobj -> string.

(** Every link that [extractUrls] returns occurs in the text, reads
    [http://] or [https://] in any case followed by at least one
    character, holds no white space and no delimiter, and is a link of
    which [new URL] makes an object with the protocol [http:] or
    [https:]; and no link is returned twice. *)
Theorem extractUrls_links (text : string) :
  NoDup (extractUrls protocol text)
  /\ forall u, In u (extractUrls protocol text) ->
       occurs_in text u /\ http_link u /\ clean u
       /\ exists urlObj, URL_new u = Some urlObj
            /\ (protocol urlObj = "http:" \/ protocol urlObj = "https:").
Proof.
  unfold extractUrls. destruct (is_empty text); [split; [constructor | intros ? []]|].
  destruct (matches_from 0 text) as [|m0 ms] eqn:M;
    [split; [constructor | intros ? []]|].
  split; [apply NoDup_filter, NoDup_set_of|].
  intros u Hu. apply filter_In in Hu as [Hu Ha].
  apply (proj1 (In_set_of _ _)) in Hu. apply in_map_iff in Hu as (m & <- & Hm).
  rewrite <- M in Hm.
  destruct (matches_from_spec text 0 m Hm) as (before & rest & E & U).
  destruct (url_at_spec rest m U) as ((after & E') & Hh & Hc).
  rewrite (trim_id m Hc) in *.
  split; [exists before, after; congruence|].
  split; [exact Hh|]. split; [exact Hc|].
  unfold accepted in Ha. destruct (URL_new m) as [o|]; [|discriminate].
  exists o. split; [reflexivity|].
  apply orb_true_iff in Ha as [Ha | Ha]; apply String.eqb_eq in Ha; auto.
Qed.

End WithURL.

End DropzoneTheorems.

Module DropzoneRuns.

Import Str UrlDropzone DropzoneSpec DropzoneExamples DropzoneTheorems.

(** The link in angle brackets of the pasted text. *)
Lemma extractUrls_links_witness :
  occurs_in pasted "http://example.com/x"
  /\ http_link "http://example.com/x"
  /\ clean "http://example.com/x"
  /\ exists urlObj,
       @URL_new WhatwgFragment.api "http://example.com/x" = Some urlObj
       /\ (protocol_of urlObj = "http:" \/ protocol_of urlObj = "https:").
Proof.
  apply (proj2 (@extractUrls_links WhatwgFragment.api protocol_of pasted)).
  vm_compute. auto.
Defined.

End DropzoneRuns.

(* ================================================================== *)
(** ** What saveToDb decides, on the rows of the table *)
(* ================================================================== *)

Module DedupFacts.

Import Str StrFacts Json JsonFacts Normalizer Db Spec DbFacts DbTheorems.
Import SaveFacts DbFaults SaveSpec.

Lemma In_existingFileNames (d : Database) (f : string) :
  In f (getExistingFileNames d)
  <-> f <> EmptyString /\ exists r, In r (emails d) /\ row_fileName r = Some f.
Proof.
  unfold getExistingFileNames. rewrite in_flat_map. split.
  - intros (r & Hr & Hf). destruct (row_fileName r) as [g|] eqn:E; [|destruct Hf].
    destruct (is_empty g) eqn:Eg; [destruct Hf|].
    destruct Hf as [<- | []]. split; [now apply is_empty_false|].
    exists r. now split.
  - intros (Hn & r & Hr & E). exists r. split; [assumption|].
    rewrite E. apply is_empty_false in Hn. rewrite Hn. now left.
Qed.

Section WithURL.

Context {api : URLApi}.

Lemma link_stored_known (d : Database) (e : AnalyzedEmail) :
  link_stored d e <-> url_known (build_index d) e.
Proof.
  unfold link_stored, url_known, build_index.
  cbn [existingUrlSets existingNormalizedUrlSets]. split.
  - intros (r & v & Hr & Hv & [H | H]).
    + left. exists v. split; [assumption|]. apply in_flat_map. eauto.
    + right. exists (normalizeUrl v). split; [assumption|].
      apply in_map, in_flat_map. eauto.
  - intros [(u & Hu & Hin) | (n & Hn & Hin)].
    + apply in_flat_map in Hin as (r & Hr & Hv). exists r, u. auto.
    + apply in_map_iff in Hin as (v & <- & Hin).
      apply in_flat_map in Hin as (r & Hr & Hv). exists r, v. auto.
Qed.

Lemma name_stored_known (d : Database) (e : AnalyzedEmail) :
  fileName e <> EmptyString ->
  (name_stored d e <-> name_known (build_index d) e).
Proof.
  intros Hn. unfold name_stored, name_known, build_index.
  cbn [existingFileNames]. rewrite In_existingFileNames. tauto.
Qed.

(** What the one callback of a call of one record decides. *)
Lemma one_record (s : option string) (e : AnalyzedEmail) (st : Store) :
  save_decisions [e] st = decisions (save_one 0 e (start_saving (db st)))
  /\ db (fst (saveToDb s [e] st)) = sv_db (save_one 0 e (start_saving (db st))).
Proof. split; [reflexivity | now rewrite db_saveToDb]. Qed.

Lemma bounded_start (d : Database) : bounded d [] (build_index d).
Proof.
  unfold bounded, build_index.
  cbn [existingFileNames existingUrlSets existingNormalizedUrlSets].
  split; [|split].
  - intros f Hf. apply In_existingFileNames in Hf as [Hn Hr]. auto.
  - intros u Hu. apply in_flat_map in Hu as (r & Hr & Hv). left. eauto.
  - intros n Hn. apply in_map_iff in Hn as (v & <- & Hv).
    apply in_flat_map in Hv as (r & Hr & Hv). left. eauto.
Qed.

Lemma bounded_later (d : Database) (earlier : list AnalyzedEmail)
    (e : AnalyzedEmail) (ix : Index) :
  bounded d earlier ix -> bounded d (earlier ++ [e]) ix.
Proof.
  intros (H1 & H2 & H3). split; [|split].
  - intros f Hf. destruct (H1 f Hf) as [Hn [H | (x & Hx & E)]];
      (split; [assumption|]); [now left|].
    right. exists x. split; [apply in_or_app; now left | assumption].
  - intros u Hu. destruct (H2 u Hu) as [H | (x & Hx & E)]; [now left|].
    right. exists x. split; [apply in_or_app; now left | assumption].
  - intros n Hn. destruct (H3 n Hn) as [H | (x & v & Hx & E)]; [now left|].
    right. exists x, v. split; [apply in_or_app; now left | assumption].
Qed.

Lemma bounded_add (d : Database) (earlier : list AnalyzedEmail)
    (e : AnalyzedEmail) (ix : Index) :
  bounded d earlier ix -> bounded d (earlier ++ [e]) (add_to_index ix e).
Proof.
  intros H. destruct (bounded_later d earlier e ix H) as (H1 & H2 & H3).
  assert (He : In e (earlier ++ [e])) by (apply in_or_app; right; now left).
  unfold add_to_index. split; [|split];
    cbn [existingFileNames existingUrlSets existingNormalizedUrlSets].
  - intros f Hf. destruct (is_empty (fileName e)) eqn:E; [now apply H1|].
    apply in_app_or in Hf as [Hf | [<- | []]]; [now apply H1|].
    split; [now apply is_empty_false|]. right. now exists e.
  - intros u Hu. apply in_app_or in Hu as [Hu | Hu]; [now apply H2|].
    right. now exists e.
  - intros n Hn. apply in_app_or in Hn as [Hn | Hn]; [now apply H3|].
    apply in_map_iff in Hn as (v & <- & Hv). right. now exists e, v.
Qed.

(** A record that is new to the table and to the records before it is
    no duplicate for an index that holds nothing else. *)
Lemma unseen_no_duplicate (d : Database) (earlier : list AnalyzedEmail)
    (e : AnalyzedEmail) (ix : Index) :
  bounded d earlier ix -> unseen d earlier e -> duplicate_of ix e = None.
Proof.
  intros (H1 & H2 & H3) (Hl & Hn & Hs).
  apply duplicate_of_spec.
  - intros [(u & Hu & Hin) | (n & Hn' & Hin)].
    + destruct (H2 u Hin) as [(r & Hr & Hv) | (x & Hx & Hv)].
      * apply Hl. exists r, u. auto.
      * destruct (Hs x Hx) as [_ K]. destruct (K u u Hu Hv) as [K1 _]. now apply K1.
    + destruct (H3 n Hin) as [(r & v & Hr & Hv & ->) | (x & v & Hx & Hv & ->)].
      * apply Hl. exists r, v. auto.
      * apply normalizeUrls_incl in Hn'.
        apply in_map_iff in Hn' as (u & E & Hu).
        destruct (Hs x Hx) as [_ K]. destruct (K u v Hu Hv) as [_ K2]. now apply K2.
  - intros [Hne Hin]. destruct (H1 _ Hin) as [_ [(r & Hr & E) | (x & Hx & E)]].
    + apply Hn. now exists r.
    + destruct (Hs x Hx) as [K _]. now apply K.
Qed.

Section Faults.

Variable faults : nat -> option string.

(** One callback: rows are only added, and the index stays within what
    the table and the records of the call give. *)
Lemma save_one_or_fail_step (d : Database) (before : list AnalyzedEmail)
    (e : AnalyzedEmail) (s : Saving) (fault : option string) (i : nat) :
  bounded d before (sv_index s) ->
  let s1 := save_one_or_fail fault i e s in
  exists added errs,
    emails (sv_db s1) = (emails (sv_db s) ++ added)%list
    /\ addedCount s1 = addedCount s + List.length added
    /\ errors s1 = (errors s ++ errs)%list
    /\ bounded d (before ++ [e]) (sv_index s1)
    /\ (fileName e <> EmptyString -> fault = None -> unseen d before e ->
        exists k, added = [row_of k e])
    /\ (fileName e = EmptyString -> errs = [nameless_message i])
    /\ (forall m, fileName e <> EmptyString -> fault = Some m ->
        unseen d before e -> errs = [fault_message i e m])
    /\ (forall msg, In msg errs ->
          (fileName e = EmptyString /\ msg = nameless_message i)
          \/ exists m, fault = Some m /\ msg = fault_message i e m).
Proof.
  intros Hb s1.
  (* the three ways a callback without error ends *)
  assert (Plain : forall (Hs : s1 = save_one i e s),
    exists added errs,
      emails (sv_db s1) = (emails (sv_db s) ++ added)%list
      /\ addedCount s1 = addedCount s + List.length added
      /\ errors s1 = (errors s ++ errs)%list
      /\ bounded d (before ++ [e]) (sv_index s1)
      /\ (fileName e <> EmptyString -> unseen d before e ->
          exists k, added = [row_of k e])
      /\ (fileName e = EmptyString -> errs = [nameless_message i])
      /\ (fileName e <> EmptyString ->
          unseen d before e -> duplicate_of (sv_index s) e = None)
      /\ (forall msg, In msg errs ->
            fileName e = EmptyString /\ msg = nameless_message i)).
  { intros ->. unfold save_one.
    destruct (is_empty (fileName e)) eqn:E.
    - apply is_empty_true in E. exists [], [nameless_message i].
      cbn [sv_db addedCount errors sv_index List.length].
      rewrite app_nil_r, Nat.add_0_r.
      split; [reflexivity|]. split; [reflexivity|]. split; [reflexivity|].
      split; [now apply bounded_later|].
      split; [intros Hn; contradiction|].
      split; [reflexivity|].
      split; [intros Hn; contradiction|].
      intros msg [<- | []]. now split.
    - apply is_empty_false in E.
      destruct (duplicate_of (sv_index s) e) as [why|] eqn:D.
      + exists [], [].
        cbn [sv_db addedCount errors sv_index List.length].
        rewrite !app_nil_r, Nat.add_0_r.
        split; [reflexivity|]. split; [reflexivity|]. split; [reflexivity|].
        split; [now apply bounded_later|].
        split; [|split; [intros Hn; contradiction|split; [|intros msg []]]].
        * intros _ Hf. rewrite (unseen_no_duplicate _ _ _ _ Hb Hf) in D.
          discriminate.
        * intros _ Hf. rewrite (unseen_no_duplicate _ _ _ _ Hb Hf) in D.
          discriminate.
      + cbn [sv_db addedCount errors sv_index].
        unfold insert_email.
        destruct (emails_insert (Some (fileName e)) (Some (fechaEnvio e))
                    (Some (or_default (tematica e) "Sin clasificar"))
                    (Some (stringify_strings (etiquetas e)))
                    (Some (contenido e))
                    (Some (stringify_strings (urls e))) (sv_db s)) as (k & ->).
        exists [row_of k e], []. rewrite app_nil_r.
        split; [reflexivity|]. split; [cbn [List.length]; lia|].
        split; [reflexivity|].
        split; [now apply bounded_add|].
        split; [intros _ _; exists k; reflexivity|].
        split; [intros Hn; contradiction|].
        split; [intros _ _; reflexivity|].
        intros msg []. }
  destruct fault as [m|].
  - unfold s1, save_one_or_fail in *.
    destruct (is_empty (fileName e)) eqn:E.
    + destruct (Plain eq_refl)
        as (added & errs & P1 & P2 & P3 & P4 & P5 & P6 & P7 & P8).
      exists added, errs.
      split; [exact P1|]. split; [exact P2|]. split; [exact P3|].
      split; [exact P4|].
      split; [intros _ H; discriminate H|]. split; [exact P6|].
      split; [intros m' Hn; apply is_empty_true in E; contradiction|].
      intros msg Hm. left. now apply P8.
    + destruct (duplicate_of (sv_index s) e) as [why|] eqn:D.
      * destruct (Plain eq_refl)
          as (added & errs & P1 & P2 & P3 & P4 & P5 & P6 & P7 & P8).
        exists added, errs.
        split; [exact P1|]. split; [exact P2|]. split; [exact P3|].
        split; [exact P4|].
        split; [intros _ H; discriminate H|]. split; [exact P6|].
        split; [intros m' Hn _ Hf; pose proof (P7 Hn Hf) as K; congruence|].
        intros msg Hm. left. now apply P8.
      * exists [], [fault_message i e m].
        cbn [sv_db addedCount errors sv_index List.length].
        rewrite app_nil_r, Nat.add_0_r.
        assert (Hmsg : ("Error procesando email " ++ of_nat (i + 1) ++ " ("
                        ++ or_default (fileName e) "sin nombre" ++ "): " ++ m)
                       = fault_message i e m).
        { unfold fault_message, or_default. now rewrite E. }
        rewrite Hmsg.
        split; [reflexivity|]. split; [reflexivity|]. split; [reflexivity|].
        split; [now apply bounded_add|].
        split; [intros _ H; discriminate H|].
        split; [intros Hn; rewrite Hn in E; discriminate|].
        split; [intros m' _ H _; now injection H as <-|].
        intros msg [<- | []]. right. now exists m.
  - destruct (Plain eq_refl)
      as (added & errs & P1 & P2 & P3 & P4 & P5 & P6 & P7 & P8).
    exists added, errs.
    split; [exact P1|]. split; [exact P2|]. split; [exact P3|].
    split; [exact P4|].
    split; [intros Hn _ Hf; now apply P5|]. split; [exact P6|].
    split; [intros m' _ H; discriminate H|].
    intros msg Hm. left. now apply P8.
Qed.

(** The loop from the record at position [i0] on, after the records
    [before]. *)
Lemma save_each_or_fail_spec (d : Database) (rest : list AnalyzedEmail) :
  forall (before : list AnalyzedEmail) (s : Saving) (i0 : nat),
    List.length before = i0 ->
    bounded d before (sv_index s) ->
    exists added errs,
      emails (sv_db (save_each_or_fail faults i0 rest s))
      = (emails (sv_db s) ++ added)%list
      /\ addedCount (save_each_or_fail faults i0 rest s)
         = addedCount s + List.length added
      /\ errors (save_each_or_fail faults i0 rest s) = (errors s ++ errs)%list
      /\ (forall j e, nth_error rest j = Some e ->
            fileName e <> EmptyString -> faults (i0 + j) = None ->
            unseen d (before ++ firstn j rest) e ->
            exists k, In (row_of k e) added)
      /\ (forall j e, nth_error rest j = Some e ->
            fileName e = EmptyString -> In (nameless_message (i0 + j)) errs)
      /\ (forall j e m, nth_error rest j = Some e ->
            fileName e <> EmptyString -> faults (i0 + j) = Some m ->
            unseen d (before ++ firstn j rest) e ->
            In (fault_message (i0 + j) e m) errs)
      /\ (forall msg, In msg errs ->
            exists j e, nth_error rest j = Some e
              /\ ((fileName e = EmptyString /\ msg = nameless_message (i0 + j))
                  \/ exists m, faults (i0 + j) = Some m
                               /\ msg = fault_message (i0 + j) e m)).
Proof.
  induction rest as [|e rest IH]; intros before s i0 Hlen Hb.
  - exists [], []. cbn [save_each_or_fail List.length].
    rewrite !app_nil_r, Nat.add_0_r.
    split; [reflexivity|]. split; [reflexivity|]. split; [reflexivity|].
    split; [intros [|?] ? H; discriminate H|].
    split; [intros [|?] ? H; discriminate H|].
    split; [intros [|?] ? ? H; discriminate H|].
    intros msg [].
  - cbn [save_each_or_fail].
    destruct (save_one_or_fail_step d before e s (faults i0) i0 Hb)
      as (a1 & e1 & P1 & P2 & P3 & P4 & P5 & P6 & P7 & P8).
    assert (Hlen' : List.length (before ++ [e])%list = S i0)
      by (rewrite List.length_app; cbn [List.length]; lia).
    destruct (IH (before ++ [e])%list _ (S i0) Hlen' P4)
      as (a2 & e2 & Q1 & Q2 & Q3 & Q4 & Q5 & Q6 & Q7).
    assert (Shift : forall j, S i0 + j = i0 + S j) by (intros; lia).
    exists (a1 ++ a2)%list, (e1 ++ e2)%list.
    split; [now rewrite Q1, P1, List.app_assoc|].
    split; [rewrite Q2, P2, List.length_app; lia|].
    split; [now rewrite Q3, P3, List.app_assoc|].
    split; [|split; [|split]].
    + intros [|j] x Hx Hn Hf Hfr.
      * cbn [nth_error] in Hx. injection Hx as <-. rewrite Nat.add_0_r in Hf.
        cbn [firstn] in Hfr. rewrite app_nil_r in Hfr.
        destruct (P5 Hn Hf Hfr) as (k & ->). exists k.
        apply in_or_app. left. now left.
      * cbn [nth_error] in Hx. rewrite <- Shift in Hf.
        cbn [firstn] in Hfr.
        replace (before ++ e :: firstn j rest)%list
          with ((before ++ [e]) ++ firstn j rest)%list in Hfr
          by now rewrite <- List.app_assoc.
        destruct (Q4 j x Hx Hn Hf Hfr) as (k & Hk). exists k.
        apply in_or_app. now right.
    + intros [|j] x Hx Hn.
      * cbn [nth_error] in Hx. injection Hx as <-. rewrite Nat.add_0_r.
        rewrite (P6 Hn). apply in_or_app. left. now left.
      * cbn [nth_error] in Hx. rewrite <- Shift.
        apply in_or_app. right. now apply (Q5 j x).
    + intros [|j] x m Hx Hn Hf Hfr.
      * cbn [nth_error] in Hx. injection Hx as <-. rewrite Nat.add_0_r in *.
        cbn [firstn] in Hfr. rewrite app_nil_r in Hfr.
        rewrite (P7 m Hn Hf Hfr). apply in_or_app. left. now left.
      * cbn [nth_error] in Hx. rewrite <- Shift in *.
        cbn [firstn] in Hfr.
        replace (before ++ e :: firstn j rest)%list
          with ((before ++ [e]) ++ firstn j rest)%list in Hfr
          by now rewrite <- List.app_assoc.
        apply in_or_app. right. now apply (Q6 j x m).
    + intros msg Hm. apply in_app_or in Hm as [Hm | Hm].
      * exists 0, e. split; [reflexivity|]. rewrite Nat.add_0_r.
        exact (P8 msg Hm).
      * destruct (Q7 msg Hm) as (j & x & Hx & H).
        exists (S j), x. split; [exact Hx|]. now rewrite <- Shift.
Qed.

End Faults.

(** Without errors of the statement the call is [Db.saveToDb]. *)
Lemma saveToDb_or_fail_none (storage : option string)
    (batch : list AnalyzedEmail) (st : Store) :
  saveToDb_or_fail (fun _ => None) storage batch st = saveToDb storage batch st.
Proof.
  assert (H : forall l i s,
            save_each_or_fail (fun _ => None) i l s = save_each i l s).
  { induction l as [|e l IH]; intros i s; [reflexivity|].
    cbn [save_each_or_fail save_each save_one_or_fail]. apply IH. }
  unfold saveToDb_or_fail, saveToDb. destruct batch as [|e batch]; [reflexivity|].
  now rewrite H.
Qed.

End WithURL.

End DedupFacts.

Module DedupTheorems.

Import Str StrFacts Json JsonFacts Normalizer Db Spec DbFacts DbTheorems.
Import SaveFacts DbFaults SaveSpec DedupFacts.

Section WithURL.

Context {api : URLApi}.


(** C10, amended: a call of several records is not atomic, whatever
    fails in it.  The rows of the store are kept and the new rows follow
    them.  Every record with a file name that is new to the table and
    to the records before it, and for which the statement does not
    fail, has its row among the new ones, with its own values.  A
    record without file name and a new record for which the statement
    throws leave a message each, and no other message is noted.  When a
    row was added and the write to IndexedDB succeeds, the table is
    written there; when that write fails, the rows stay in memory, the
    copy in IndexedDB is the one from before and the call throws the
    error of the write.  Otherwise, when a message was noted, the call
    throws the error that lists the messages.  Nothing is undone in
    either case. *)
Theorem saveToDb_not_atomic (faults : nat -> option string)
    (storage : option string) (batch : list AnalyzedEmail) (st : Store) :
  exists added errs,
    emails (db (fst (saveToDb_or_fail faults storage batch st)))
    = (emails (db st) ++ added)%list
    /\ (forall i e, nth_error batch i = Some e ->
          fileName e <> EmptyString -> faults i = None ->
          unseen (db st) (firstn i batch) e ->
          exists k, In (row_of k e) added)
    /\ (forall i e, nth_error batch i = Some e ->
          fileName e = EmptyString -> In (nameless_message i) errs)
    /\ (forall i e m, nth_error batch i = Some e ->
          fileName e <> EmptyString -> faults i = Some m ->
          unseen (db st) (firstn i batch) e ->
          In (fault_message i e m) errs)
    /\ (forall msg, In msg errs ->
          exists i e, nth_error batch i = Some e
            /\ ((fileName e = EmptyString /\ msg = nameless_message i)
                \/ exists m, faults i = Some m /\ msg = fault_message i e m))
    /\ (added <> [] -> storage = None ->
        idb (fst (saveToDb_or_fail faults storage batch st))
        = Some (db (fst (saveToDb_or_fail faults storage batch st))))
    /\ (added <> [] -> forall m, storage = Some m ->
        idb (fst (saveToDb_or_fail faults storage batch st)) = idb st
        /\ snd (saveToDb_or_fail faults storage batch st)
           = Throw ("Error guardando en almacenamiento: " ++ m))
    /\ (added = [] ->
        idb (fst (saveToDb_or_fail faults storage batch st)) = idb st)
    /\ (errs <> [] -> added = [] \/ storage = None ->
        snd (saveToDb_or_fail faults storage batch st)
        = Throw ("Errores guardando algunos emails: " ++ join "; " errs)).
Proof.
  destruct batch as [|e0 batch].
  - exists [], []. cbn [saveToDb_or_fail fst snd]. rewrite app_nil_r.
    split; [reflexivity|].
    split; [intros [|?] ? H; discriminate H|].
    split; [intros [|?] ? H; discriminate H|].
    split; [intros [|?] ? ? H; discriminate H|].
    split; [intros msg []|].
    split; [congruence|]. split; [congruence|]. split; [reflexivity|].
    congruence.
  - destruct (save_each_or_fail_spec faults (db st) (e0 :: batch) []
                (start_saving (db st)) 0 eq_refl (bounded_start (db st)))
      as (added & errs & Q1 & Q2 & Q3 & Q4 & Q5 & Q6 & Q7).
    cbn [start_saving sv_db addedCount errors app Nat.add] in Q1, Q2, Q3, Q4, Q5, Q6, Q7.
    exists added, errs. unfold saveToDb_or_fail.
    set (s := save_each_or_fail faults 0 (e0 :: batch) (start_saving (db st))) in *.
    cbv zeta. rewrite Q3.
    assert (Hadd : Nat.ltb 0 (addedCount s) = negb (match added with [] => true | _ => false end)).
    { rewrite Q2. destruct added; [reflexivity|]. cbn [List.length negb].
      apply Nat.ltb_lt. lia. }
    rewrite Hadd.
    split.
    { destruct added; [|destruct storage]; cbn [negb fst db]; exact Q1. }
    split; [exact Q4|]. split; [exact Q5|]. split; [exact Q6|].
    split; [exact Q7|].
    split.
    { intros Ha ->. destruct added; [congruence|]. reflexivity. }
    split.
    { intros Ha m ->. destruct added; [congruence|]. now split. }
    split.
    { intros ->. reflexivity. }
    intros He [-> | ->].
    + cbn [negb snd]. destruct errs; [congruence | reflexivity].
    + destruct added; cbn [negb snd]; destruct errs; congruence || reflexivity.
Qed.

End WithURL.

End DedupTheorems.

Module DedupRuns.

Import Str Db Spec DbFaults SaveSpec Examples SaveExamples DedupTheorems.

Local Abbreviation api := WhatwgFragment.api.

(** No link of the one row of [one_saved] is a link of the record. *)
Ltac no_link :=
  let r := fresh "r" in
  let v := fresh "v" in
  let Hr := fresh "Hr" in
  let Hv := fresh "Hv" in
  let H := fresh "H" in
  intros (r & v & Hr & Hv & H);
  vm_compute in Hr; destruct Hr as [<- | []];
  vm_compute in Hv; destruct Hv as [<- | []];
  vm_compute in H; destruct H as [[H | []] | [H | []]]; discriminate H.

Ltac no_name :=
  let r := fresh "r" in
  let Hr := fresh "Hr" in
  let H := fresh "H" in
  intros (r & Hr & H);
  vm_compute in Hr; destruct Hr as [<- | []]; discriminate H.

Ltac unrelated :=
  let u := fresh "u" in
  let v := fresh "v" in
  let Hu := fresh "Hu" in
  let Hv := fresh "Hv" in
  split; [discriminate|];
  intros u v Hu Hv;
  vm_compute in Hu; destruct Hu as [<- | []];
  vm_compute in Hv; destruct Hv as [<- | []];
  split; vm_compute; discriminate.

Lemma post_b_link_stored : @link_stored api (db one_saved) post_b.
Proof.
  eexists. eexists. split; [vm_compute; left; reflexivity|].
  split; [vm_compute; left; reflexivity|].
  right. vm_compute. left. reflexivity.
Qed.

Lemma resent_link_stored : @link_stored api (db one_saved) resent.
Proof.
  eexists. eexists. split; [vm_compute; left; reflexivity|].
  split; [vm_compute; left; reflexivity|].
  right. vm_compute. left. reflexivity.
Qed.

Lemma renamed_name_stored : name_stored (db one_saved) renamed.
Proof.
  eexists. split; [vm_compute; left; reflexivity | reflexivity].
Qed.


(** C10 as stated fails when the write to IndexedDB fails: of a call
    with a record without file name and a new record, the row of the
    new record is in the table, but nothing is written to IndexedDB and
    the error thrown is the one of the write, which lists no record. *)
Lemma write_failure_hides_record_errors :
  let call := @saveToDb api (Some "QuotaExceededError") [nameless; other]
                empty_store in
  emails (db (fst call)) = [row_of 1 other]
  /\ idb (fst call) = None
  /\ snd call = Throw "Error guardando en almacenamiento: QuotaExceededError"
  /\ snd (@saveToDb api None [nameless; other] empty_store)
     = Throw "Errores guardando algunos emails: Email 1: fileName faltante".
Proof. repeat split; vm_compute; reflexivity. Qed.

(** The amended C10 on a call of four records to the store that holds [a.eml]: a
    new record, a record without file name, a new record for which the
    statement throws, and the post of [a.eml] under another name.  The
    first is inserted and written through, the second and the third
    are listed in the error the call throws; and when the write to
    IndexedDB fails instead, the row stays in memory and the error of
    the write is thrown. *)
Lemma saveToDb_not_atomic_witness :
  ((exists k, In (row_of k other)
               (emails (db (fst (@saveToDb_or_fail api third_fails None
                                   mixed_call one_saved)))))
   /\ idb (fst (@saveToDb_or_fail api third_fails None mixed_call one_saved))
      = Some (db (fst (@saveToDb_or_fail api third_fails None mixed_call
                         one_saved)))
   /\ exists errs,
        In (nameless_message 1) errs
        /\ In (fault_message 2 fourth "disk I/O error") errs
        /\ snd (@saveToDb_or_fail api third_fails None mixed_call one_saved)
           = Throw ("Errores guardando algunos emails: " ++ join "; " errs))
  /\ ((exists k, In (row_of k other)
                  (emails (db (fst (@saveToDb_or_fail api third_fails
                                      (Some "QuotaExceededError")
                                      mixed_call one_saved)))))
      /\ idb (fst (@saveToDb_or_fail api third_fails (Some "QuotaExceededError")
                     mixed_call one_saved)) = idb one_saved
      /\ snd (@saveToDb_or_fail api third_fails (Some "QuotaExceededError")
                mixed_call one_saved)
         = Throw "Error guardando en almacenamiento: QuotaExceededError").
Proof.
  assert (Hother : @unseen api (db one_saved) (firstn 0 mixed_call) other).
  { split; [no_link|]. split; [no_name|]. intros x []. }
  assert (Hfourth : @unseen api (db one_saved) (firstn 2 mixed_call) fourth).
  { split; [no_link|]. split; [no_name|].
    intros x Hx. cbn [firstn mixed_call] in Hx.
    destruct Hx as [<- | [<- | []]]; unrelated. }
  split.
  - destruct (@saveToDb_not_atomic api third_fails None mixed_call one_saved)
      as (added & errs & R1 & R2 & R3 & R4 & R5 & R6 & R7 & R8 & R9).
    destruct (R2 0 other eq_refl ltac:(discriminate) eq_refl Hother) as (k & Hk).
    assert (Ha : added <> []) by (intros ->; destruct Hk).
    pose proof (R3 1 nameless eq_refl eq_refl) as H1.
    pose proof (R4 2 fourth "disk I/O error" eq_refl ltac:(discriminate)
                  eq_refl Hfourth) as H2.
    assert (He : errs <> []) by (intros ->; destruct H1).
    split; [|split].
    + exists k. rewrite R1. apply in_or_app. now right.
    + now apply R6.
    + exists errs. split; [exact H1|]. split; [exact H2|].
      apply R9; [exact He | now right].
  - destruct (@saveToDb_not_atomic api third_fails (Some "QuotaExceededError")
                mixed_call one_saved)
      as (added & errs & R1 & R2 & R3 & R4 & R5 & R6 & R7 & R8 & R9).
    destruct (R2 0 other eq_refl ltac:(discriminate) eq_refl Hother) as (k & Hk).
    assert (Ha : added <> []) by (intros ->; destruct Hk).
    destruct (R7 Ha "QuotaExceededError" eq_refl) as [H1 H2].
    split; [|split].
    + exists k. rewrite R1. apply in_or_app. now right.
    + exact H1.
    + exact H2.
Defined.

End DedupRuns.
